(** * cowfs: a copy-on-write, versioned, single-image file system

    A shallow embedding of [src/cowfs.cpp] and the properties its
    specification states about it.

    Conventions of the embedding.
    - [size_t] values are [N].  Additions on block indices and byte counts
      stay far below [2^64] (they are bounded by [blocks.size()] and by buffer
      lengths); the subtraction that can underflow ([size - current_position]
      in [read]) and the cursor update are written with their wrap-around.
    - [fd_t] and [ssize_t] are [Z].
    - A [std::vector] is a [list]; [operator[]] outside the vector is
      undefined behaviour and is reported as [Undefined].
    - An [Inode*] held by a file descriptor is the index of the inode in the
      inode table ([None] is [nullptr]); the table never changes its length.
    - The singly linked list of [FreeBlockInfo] nodes is a [list] of
      (start, count) records; a node pointer is an index in that list.
    - Loops that follow [next_block] links can run forever in the source (on a
      cyclic chain); they take a [fuel] and report [OutOfFuel] when it runs out.
    - Console output is not part of the state and is left out.
    - The constants [BLOCK_SIZE], [MAX_FILES] and [MAX_FILENAME_LENGTH] and
      the record declarations live in [cowfs.hpp], which is not part of the
      sources at hand: the constants are parameters of the development, the
      records list the fields that [cowfs.cpp] reads and writes. *)

From Stdlib Require Import NArith ZArith Lia Bool List.
From Stdlib Require Import Strings.String Strings.Ascii Strings.Byte.
From stdpp Require Import base option list numbers.

Local Open Scope N_scope.

(** ** Outcomes of a call *)

Inductive outcome (A : Type) : Type :=
  | Done (a : A)
  | Undefined
  | OutOfFuel.
Arguments Done {A} a.
Arguments Undefined {A}.
Arguments OutOfFuel {A}.

#[global] Instance outcome_ret : MRet outcome := @Done.
#[global] Instance outcome_bind : MBind outcome := λ A B f m,
  match m with
  | Done a => f a
  | Undefined => Undefined
  | OutOfFuel => OutOfFuel
  end.

(** ** Data model *)

Inductive FileMode : Set := READ | WRITE.

Definition FileMode_eqb (a b : FileMode) : bool :=
  match a, b with
  | READ, READ | WRITE, WRITE => true
  | _, _ => false
  end.

Module VersionInfo.
Record t : Type := mk {
  version_number : N;
  timestamp : string;
  size : N;
  block_index : N;
  delta_start : N;
  delta_size : N;
  prev_version : N
}.
End VersionInfo.

Module Block.
Record t : Type := mk {
  is_used : bool;
  next_block : N;
  ref_count : N;
  data : list byte
}.
Definition set_is_used (u : bool) (b : t) : t :=
  mk u (next_block b) (ref_count b) (data b).
Definition set_next_block (n : N) (b : t) : t :=
  mk (is_used b) n (ref_count b) (data b).
Definition set_ref_count (r : N) (b : t) : t :=
  mk (is_used b) (next_block b) r (data b).
Definition set_data (d : list byte) (b : t) : t :=
  mk (is_used b) (next_block b) (ref_count b) d.
End Block.

Module Inode.
Record t : Type := mk {
  is_used : bool;
  filename : string;
  first_block : N;
  size : N;
  version_count : N;
  version_history : list VersionInfo.t
}.
Definition set_is_used (u : bool) (i : t) : t :=
  mk u (filename i) (first_block i) (size i) (version_count i)
     (version_history i).
End Inode.

Module FileDescriptor.
Record t : Type := mk {
  inode : option nat;
  mode : FileMode;
  current_position : N;
  is_valid : bool
}.
Definition set_current_position (p : N) (f : t) : t :=
  mk (inode f) (mode f) p (is_valid f).
Definition set_is_valid (v : bool) (f : t) : t :=
  mk (inode f) (mode f) (current_position f) v.
End FileDescriptor.

Module FreeBlockInfo.
Record t : Type := mk {
  start_block : N;
  block_count : N
}.
End FreeBlockInfo.

Record COWFileSystem : Type := mkFS {
  disk_size : N;
  total_blocks : N;
  file_descriptors : list FileDescriptor.t;
  inodes : list Inode.t;
  blocks : list Block.t;
  free_blocks_list : list FreeBlockInfo.t
}.

Definition set_file_descriptors (fds : list FileDescriptor.t)
    (fs : COWFileSystem) : COWFileSystem :=
  mkFS (disk_size fs) (total_blocks fs) fds (inodes fs) (blocks fs)
       (free_blocks_list fs).
Definition set_inodes (ins : list Inode.t) (fs : COWFileSystem)
    : COWFileSystem :=
  mkFS (disk_size fs) (total_blocks fs) (file_descriptors fs) ins (blocks fs)
       (free_blocks_list fs).
Definition set_blocks (bs : list Block.t) (fs : COWFileSystem)
    : COWFileSystem :=
  mkFS (disk_size fs) (total_blocks fs) (file_descriptors fs) (inodes fs) bs
       (free_blocks_list fs).
Definition set_free_blocks_list (fl : list FreeBlockInfo.t)
    (fs : COWFileSystem) : COWFileSystem :=
  mkFS (disk_size fs) (total_blocks fs) (file_descriptors fs) (inodes fs)
       (blocks fs) fl.

(** ** Vectors indexed by [size_t] *)

Definition vsize {A : Type} (v : list A) : N := N.of_nat (length v).

Definition empty_block_data (n : N) : list byte :=
  replicate (N.to_nat n) "000"%byte.

Definition zero_block : Block.t := Block.mk false 0 0 [].

(** [blocks[i]] where the source has checked [i < blocks.size()]. *)
Definition block_at (bs : list Block.t) (i : N) : Block.t :=
  default zero_block (bs !! N.to_nat i).

(** [blocks[i] = f(blocks[i])], in place. *)
Definition block_upd (f : Block.t → Block.t) (bs : list Block.t) (i : N)
    : list Block.t :=
  <[N.to_nat i := f (block_at bs i)]> bs.

Definition word : N := 2 ^ 64.
Definition SIZE_MAX : N := word - 1.
Definition sub64 (a b : N) : N := (a + word - b mod word) mod word.
Definition add64 (a b : N) : N := (a + b) mod word.

(** [memcpy(dst, src, n)] and [memset(dst + off, c, n)] on a byte array. *)
Definition memcpy (dst src : list byte) (n : N) : list byte :=
  take (N.to_nat n) src ++ drop (N.to_nat n) dst.
Definition memset (dst : list byte) (off : N) (c : byte) (n : N)
    : list byte :=
  take (N.to_nat off) dst ++ replicate (N.to_nat n) c
    ++ drop (N.to_nat off + N.to_nat n) dst.

(** ** Free-space manager *)

(** [merge_free_blocks], started at node [current] followed by [rest]. *)
Fixpoint merge_from (current : FreeBlockInfo.t) (rest : list FreeBlockInfo.t)
    : list FreeBlockInfo.t :=
  match rest with
  | [] => [current]
  | next :: rest' =>
      if FreeBlockInfo.start_block current + FreeBlockInfo.block_count current
           =? FreeBlockInfo.start_block next
      then merge_from
             (FreeBlockInfo.mk (FreeBlockInfo.start_block current)
                (FreeBlockInfo.block_count current
                 + FreeBlockInfo.block_count next))
             rest'
      else current :: merge_from next rest'
  end.

Definition merge_free_blocks (fl : list FreeBlockInfo.t)
    : list FreeBlockInfo.t :=
  match fl with
  | [] => []
  | current :: rest => merge_from current rest
  end.

(** The [else] branch of [add_to_free_list]: walk while the next node starts
    before [start], then link the new node after the node reached. *)
Fixpoint insert_after (new_block : FreeBlockInfo.t)
    (rest : list FreeBlockInfo.t) : list FreeBlockInfo.t :=
  match rest with
  | [] => [new_block]
  | next :: rest' =>
      if FreeBlockInfo.start_block next <? FreeBlockInfo.start_block new_block
      then next :: insert_after new_block rest'
      else new_block :: rest
  end.

Definition add_to_free_list (fl : list FreeBlockInfo.t) (start count : N)
    : list FreeBlockInfo.t :=
  let new_block := FreeBlockInfo.mk start count in
  merge_free_blocks
    match fl with
    | [] => [new_block]
    | head :: rest =>
        if start <? FreeBlockInfo.start_block head
        then new_block :: fl
        else head :: insert_after new_block rest
    end.

(** [find_best_fit]: the position of the chosen node, [None] for [nullptr]. *)
Fixpoint find_best_fit_from (fl : list FreeBlockInfo.t) (pos : nat)
    (blocks_needed : N) (best_fit : option nat) (smallest_difference : N)
    : option nat :=
  match fl with
  | [] => best_fit
  | current :: rest =>
      if blocks_needed <=? FreeBlockInfo.block_count current then
        let difference := FreeBlockInfo.block_count current - blocks_needed in
        if difference <? smallest_difference then
          if difference =? 0 then Some pos
          else find_best_fit_from rest (S pos) blocks_needed (Some pos)
                 difference
        else find_best_fit_from rest (S pos) blocks_needed best_fit
               smallest_difference
      else find_best_fit_from rest (S pos) blocks_needed best_fit
             smallest_difference
  end.

Definition find_best_fit (fl : list FreeBlockInfo.t) (blocks_needed : N)
    : option nat :=
  find_best_fit_from fl 0%nat blocks_needed None SIZE_MAX.

(** [split_free_block(block, size_needed)]: [block] is the position of the
    node, [None] for [nullptr]; a pointer to no node of the list is not
    followed.  The result is the [bool] returned and the list. *)
Definition split_free_block (fl : list FreeBlockInfo.t) (block : option nat)
    (size_needed : N) : outcome (bool * list FreeBlockInfo.t) :=
  match block with
  | None => Done (false, fl)
  | Some pos =>
      match fl !! pos with
      | None => Undefined
      | Some b =>
          if FreeBlockInfo.block_count b <? size_needed then Done (false, fl)
          else if size_needed <? FreeBlockInfo.block_count b then
            let new_block :=
              FreeBlockInfo.mk (FreeBlockInfo.start_block b + size_needed)
                (FreeBlockInfo.block_count b - size_needed) in
            Done (true,
                  take pos fl
                  ++ FreeBlockInfo.mk (FreeBlockInfo.start_block b) size_needed
                     :: new_block :: drop (S pos) fl)
          else Done (true, fl)
      end
  end.

(** ** Block store and reference counter *)

(** [allocate_block]: [None] is the [false] return, [Some i] the index handed
    out.  The writes to [blocks[block_index]] are not range-checked. *)
Definition allocate_block (fs : COWFileSystem)
    : outcome (option N * COWFileSystem) :=
  match find_best_fit (free_blocks_list fs) 1 with
  | None => Done (None, fs)
  | Some pos =>
      match free_blocks_list fs !! pos with
      | None => Undefined
      | Some best_block =>
          let block_index := FreeBlockInfo.start_block best_block in
          let fl :=
            if 1 <? FreeBlockInfo.block_count best_block
            then <[pos := FreeBlockInfo.mk
                             (FreeBlockInfo.start_block best_block + 1)
                             (FreeBlockInfo.block_count best_block - 1)]>
                   (free_blocks_list fs)
            else delete pos (free_blocks_list fs) in
          if block_index <? vsize (blocks fs) then
            Done (Some block_index,
                  set_blocks
                    (block_upd
                       (λ b, Block.mk true 0 0 (Block.data b))
                       (blocks fs) block_index)
                    (set_free_blocks_list fl fs))
          else Undefined
      end
  end.

Definition free_block (bs : list Block.t) (block_index : N) : list Block.t :=
  if block_index <? vsize bs
  then block_upd (λ b, Block.mk false 0 (Block.ref_count b) (Block.data b))
         bs block_index
  else bs.

Fixpoint increment_block_refs (fuel : nat) (bs : list Block.t)
    (block_index : N) : outcome (list Block.t) :=
  match fuel with
  | O => OutOfFuel
  | S fuel' =>
      if negb (block_index =? 0) && (block_index <? vsize bs) then
        let bs' :=
          block_upd (λ b, Block.set_ref_count (Block.ref_count b + 1) b)
            bs block_index in
        increment_block_refs fuel' bs' (Block.next_block (block_at bs' block_index))
      else Done bs
  end.

(** [decrement_block_refs].  After a block is freed the source assigns
    [block_index = next_block] and then falls through to the statement that
    ends the loop body, [block_index = blocks[block_index].next_block], which
    reads the vector without a range check. *)
Fixpoint decrement_block_refs (fuel : nat) (bs : list Block.t)
    (block_index : N) : outcome (list Block.t) :=
  match fuel with
  | O => OutOfFuel
  | S fuel' =>
      if negb (block_index =? 0) && (block_index <? vsize bs) then
        if 0 <? Block.ref_count (block_at bs block_index) then
          let bs1 :=
            block_upd (λ b, Block.set_ref_count (Block.ref_count b - 1) b)
              bs block_index in
          if Block.ref_count (block_at bs1 block_index) =? 0 then
            let next_block := Block.next_block (block_at bs1 block_index) in
            let bs2 := free_block bs1 block_index in
            if next_block <? vsize bs2 then
              decrement_block_refs fuel' bs2
                (Block.next_block (block_at bs2 next_block))
            else Undefined
          else Done bs1
        else
          decrement_block_refs fuel' bs
            (Block.next_block (block_at bs block_index))
      else Done bs
  end.

(** ** Delta detector *)

Definition byte_at (bytes : list byte) (i : N) : byte :=
  default "000"%byte (bytes !! N.to_nat i).

(** [memcmp(old_data, new_data, n) == 0]. *)
Fixpoint memcmp_eq (old_data new_data : list byte) (n : nat) {struct n}
    : bool :=
  match n with
  | O => true
  | S n' =>
      match old_data, new_data with
      | a :: old', b :: new' => Byte.eqb a b && memcmp_eq old' new' n'
      | _, _ => false
      end
  end.

(** The first [while] of [find_delta]; [steps] bounds the iterations, and
    [min(old_size, new_size)] of them always suffice. *)
Fixpoint scan_prefix (steps : nat) (old_bytes new_bytes : list byte)
    (old_size new_size delta_start : N) : N :=
  match steps with
  | O => delta_start
  | S steps' =>
      if (delta_start <? old_size) && (delta_start <? new_size)
         && Byte.eqb (byte_at old_bytes delta_start)
              (byte_at new_bytes delta_start)
      then scan_prefix steps' old_bytes new_bytes old_size new_size
             (delta_start + 1)
      else delta_start
  end.

(** The second [while] of [find_delta]. *)
Fixpoint scan_suffix (steps : nat) (old_bytes new_bytes : list byte)
    (old_size new_size delta_start common_suffix : N) : N :=
  match steps with
  | O => common_suffix
  | S steps' =>
      if (common_suffix <? old_size - delta_start)
         && (common_suffix <? new_size - delta_start)
         && Byte.eqb (byte_at old_bytes (old_size - 1 - common_suffix))
              (byte_at new_bytes (new_size - 1 - common_suffix))
      then scan_suffix steps' old_bytes new_bytes old_size new_size
             delta_start (common_suffix + 1)
      else common_suffix
  end.

(** [find_delta] always returns [true]; the result is the pair
    [(delta_start, delta_size)] it leaves in its reference parameters.  The
    buffers are given with their sizes, as byte lists. *)
Definition find_delta (old_bytes new_bytes : list byte) : N * N :=
  let old_size := vsize old_bytes in
  let new_size := vsize new_bytes in
  if (old_size =? new_size)
     && memcmp_eq old_bytes new_bytes (N.to_nat old_size)
  then (0, 0)
  else
    let delta_start :=
      scan_prefix (N.to_nat (N.min old_size new_size)) old_bytes new_bytes
        old_size new_size 0 in
    if (delta_start =? new_size) && (new_size <? old_size)
    then (delta_start, 0)
    else if (delta_start =? old_size) && (old_size <? new_size)
    then (delta_start, new_size - old_size)
    else
      let common_suffix :=
        scan_suffix (N.to_nat (N.min old_size new_size)) old_bytes new_bytes
          old_size new_size delta_start 0 in
      let delta_size := (new_size - delta_start) - common_suffix in
      if new_size <? delta_start + delta_size
      then (delta_start, new_size - delta_start)
      else (delta_start, delta_size).

(** ** File names *)

(** [c_str()] as [strcmp] and [strncpy] see it: the characters before the
    first NUL. *)
Fixpoint c_str (s : string) : string :=
  match s with
  | EmptyString => EmptyString
  | String c s' =>
      if Ascii.eqb c "000"%char then EmptyString else String c (c_str s')
  end.

Definition strcmp_eq (a b : string) : bool := String.eqb (c_str a) (c_str b).

(** ** The file system proper *)

Section COWFS.

(** Constants of [cowfs.hpp]. *)
Variable BLOCK_SIZE : N.
Variable MAX_FILES : N.
Variable MAX_FILENAME_LENGTH : N.

Definition inode_at (ins : list Inode.t) (i : nat) : outcome Inode.t :=
  match ins !! i with
  | Some ino => Done ino
  | None => Undefined
  end.

(** *** Construction and the image file *)

Definition fresh_descriptor : FileDescriptor.t :=
  FileDescriptor.mk None READ 0 false.
Definition fresh_inode : Inode.t :=
  Inode.mk false EmptyString 0 0 0 [].
Definition fresh_block : Block.t :=
  Block.mk false 0 0 (empty_block_data BLOCK_SIZE).

(** The vectors after [resize] and [init_file_system]. *)
Definition init_file_system (disk_size : N) : COWFileSystem :=
  let total_blocks := disk_size / BLOCK_SIZE in
  mkFS disk_size total_blocks
    (replicate (N.to_nat MAX_FILES) fresh_descriptor)
    (replicate (N.to_nat MAX_FILES) fresh_inode)
    (replicate (N.to_nat total_blocks) fresh_block)
    [].

(** What the image file holds: the inode records, then the block
    records. *)
Definition Image : Type := (list Inode.t * list Block.t)%type.

(** [disk.read] into a vector: the records present in the file replace the
    leading elements, the vector keeps its length. *)
Definition read_into {A : Type} (v from_disk : list A) : list A :=
  take (length v) from_disk ++ drop (length from_disk) v.

(** [initialize_disk]: [Some image] when the file at [disk_path] can be
    opened for reading.  Otherwise a new file is created; [can_create] tells
    whether that succeeds.  The result is the [bool] returned and the state
    left behind. *)
Definition initialize_disk (image : option Image) (can_create : bool)
    (fs : COWFileSystem) : bool * COWFileSystem :=
  match image with
  | Some (disk_inodes, disk_blocks) =>
      (true,
       set_blocks (read_into (blocks fs) disk_blocks)
         (set_inodes (read_into (inodes fs) disk_inodes) fs))
  | None =>
      if can_create then
        (true,
         set_blocks
           (map (λ b, Block.mk false 0 (Block.ref_count b)
                        (memset (Block.data b) 0 "000"%byte BLOCK_SIZE))
              (blocks fs))
           (set_inodes
              (map (λ i, Inode.mk false EmptyString 0 0 0
                            (Inode.version_history i))
                 (inodes fs))
              fs))
      else (false, fs)
  end.

(** The constructor; [None] when it throws. *)
Definition COWFileSystem_new (image : option Image) (can_create : bool)
    (disk_size : N) : option COWFileSystem :=
  let fs := init_file_system disk_size in
  let fs :=
    set_free_blocks_list
      (add_to_free_list (free_blocks_list fs) 0 (total_blocks fs)) fs in
  match initialize_disk image can_create fs with
  | (true, fs') => Some fs'
  | (false, _) => None
  end.

(** The destructor: what it writes to the image file. *)
Definition COWFileSystem_delete (fs : COWFileSystem) : Image :=
  (inodes fs, blocks fs).

(** *** Inode table and descriptor table *)

Fixpoint find_inode_from (ins : list Inode.t) (pos : nat)
    (filename : string) : option nat :=
  match ins with
  | [] => None
  | i :: rest =>
      if Inode.is_used i && strcmp_eq (Inode.filename i) filename
      then Some pos
      else find_inode_from rest (S pos) filename
  end.

Definition find_inode (fs : COWFileSystem) (filename : string)
    : option nat :=
  find_inode_from (inodes fs) 0%nat filename.

Fixpoint first_unused_inode (ins : list Inode.t) (pos : nat) : option nat :=
  match ins with
  | [] => None
  | i :: rest =>
      if Inode.is_used i then first_unused_inode rest (S pos) else Some pos
  end.

Fixpoint first_invalid_descriptor (fds : list FileDescriptor.t) (pos : nat)
    : option nat :=
  match fds with
  | [] => None
  | f :: rest =>
      if FileDescriptor.is_valid f
      then first_invalid_descriptor rest (S pos)
      else Some pos
  end.

Definition allocate_file_descriptor (fs : COWFileSystem) : Z :=
  match first_invalid_descriptor (file_descriptors fs) 0%nat with
  | Some pos => Z.of_nat pos
  | None => (-1)%Z
  end.

(** The descriptor-range test that opens every operation:
    [fd < 0 || fd >= size || !is_valid] gives [None]. *)
Definition valid_descriptor (fs : COWFileSystem) (fd : Z)
    : option FileDescriptor.t :=
  if (fd <? 0)%Z || (Z.of_nat (length (file_descriptors fs)) <=? fd)%Z
  then None
  else
    match file_descriptors fs !! Z.to_nat fd with
    | Some entry =>
        if FileDescriptor.is_valid entry then Some entry else None
    | None => None
    end.

Definition set_descriptor (fd : Z) (entry : FileDescriptor.t)
    (fs : COWFileSystem) : COWFileSystem :=
  set_file_descriptors (<[Z.to_nat fd := entry]> (file_descriptors fs)) fs.

Definition set_inode (i : nat) (ino : Inode.t) (fs : COWFileSystem)
    : COWFileSystem :=
  set_inodes (<[i := ino]> (inodes fs)) fs.

Definition create (fs : COWFileSystem) (filename : string)
    : Z * COWFileSystem :=
  if MAX_FILENAME_LENGTH <=? N.of_nat (String.length filename)
  then ((-1)%Z, fs)
  else
    match find_inode fs filename with
    | Some _ => ((-1)%Z, fs)
    | None =>
        match first_unused_inode (inodes fs) 0%nat with
        | None => ((-1)%Z, fs)
        | Some i =>
            let fs1 :=
              set_inode i (Inode.mk true (c_str filename) 0 0 0 []) fs in
            let fd := allocate_file_descriptor fs1 in
            if (fd <? 0)%Z then
              ((-1)%Z,
               set_inode i (Inode.mk false (c_str filename) 0 0 0 []) fs)
            else
              (fd,
               set_descriptor fd (FileDescriptor.mk (Some i) WRITE 0 true)
                 fs1)
        end
    end.

Definition open (fs : COWFileSystem) (filename : string) (mode : FileMode)
    : Z * COWFileSystem :=
  match find_inode fs filename with
  | None => ((-1)%Z, fs)
  | Some i =>
      let fd := allocate_file_descriptor fs in
      if (fd <? 0)%Z then ((-1)%Z, fs)
      else
        (fd, set_descriptor fd (FileDescriptor.mk (Some i) mode 0 true) fs)
  end.

Definition close (fs : COWFileSystem) (fd : Z) : Z * COWFileSystem :=
  match valid_descriptor fs fd with
  | None => ((-1)%Z, fs)
  | Some entry =>
      (0%Z, set_descriptor fd (FileDescriptor.set_is_valid false entry) fs)
  end.

(** [free_file_descriptor]: the range test, without the [is_valid] test of
    [close]. *)
Definition free_file_descriptor (fs : COWFileSystem) (fd : Z)
    : COWFileSystem :=
  if (0 <=? fd)%Z && (fd <? Z.of_nat (length (file_descriptors fs)))%Z then
    match file_descriptors fs !! Z.to_nat fd with
    | Some entry =>
        set_descriptor fd (FileDescriptor.set_is_valid false entry) fs
    | None => fs
    end
  else fs.

(** [copy_block(source_block, dest_block)]: [None] is the [false] return,
    [Some dest_block] the block handed out.  [blocks[source_block]] is read
    without a range test, and [memcpy] of an array onto itself is
    undefined. *)
Definition copy_block (fs : COWFileSystem) (source_block : N)
    : outcome (option N * COWFileSystem) :=
  '(allocated, fs1) ← allocate_block fs;
  match allocated with
  | None => Done (None, fs1)
  | Some dest_block =>
      if negb (source_block =? 0) then
        if (source_block <? vsize (blocks fs1))
           && negb (source_block =? dest_block)
        then
          let source := block_at (blocks fs1) source_block in
          Done (Some dest_block,
                set_blocks
                  (block_upd
                     (λ b, Block.set_next_block (Block.next_block source)
                             (Block.set_data
                                (memcpy (Block.data b) (Block.data source)
                                   BLOCK_SIZE) b))
                     (blocks fs1) dest_block)
                  fs1)
        else Undefined
      else Done (Some dest_block, fs1)
  end.

(** *** Read path *)

(** The block-skipping [for] loop of [read]; [None] is its [return -1].
    The loop runs at most [blocks_skipped] times. *)
Fixpoint skip_blocks (steps : nat) (bs : list Block.t)
    (blocks_skipped i current_block : N) : option N :=
  match steps with
  | O => Some current_block
  | S steps' =>
      if (i <? blocks_skipped) && (current_block <? vsize bs) then
        let next_block := Block.next_block (block_at bs current_block) in
        if (vsize bs <=? next_block) && (i <? blocks_skipped - 1)
        then None
        else skip_blocks steps' bs blocks_skipped (i + 1) next_block
      else Some current_block
  end.

(** The copying [while] loop of [read].  [buffer] collects the bytes
    copied so far; [None] is the [return -1] on an unused block. *)
Fixpoint read_chain (steps : nat) (bs : list Block.t)
    (bytes_to_read bytes_read current_block block_offset : N)
    (buffer : list byte) : outcome (option (list byte * N)) :=
  if (bytes_read <? bytes_to_read) && (current_block <? vsize bs) then
    match steps with
    | O => OutOfFuel
    | S steps' =>
        let b := block_at bs current_block in
        if negb (Block.is_used b) then Done None
        else
          let chunk_size :=
            N.min (bytes_to_read - bytes_read) (BLOCK_SIZE - block_offset) in
          read_chain steps' bs bytes_to_read (bytes_read + chunk_size)
            (Block.next_block b) 0
            (buffer ++ take (N.to_nat chunk_size)
                         (drop (N.to_nat block_offset) (Block.data b)))
    end
  else Done (Some (buffer, bytes_read)).

(** [read(fd, buffer, size)]: the value returned, the bytes stored at the
    start of [buffer] when the call succeeds, and the state. *)
Definition read (fs : COWFileSystem) (fd : Z) (size : N)
    : outcome (Z * list byte * COWFileSystem) :=
  match valid_descriptor fs fd with
  | None => Done ((-1)%Z, [], fs)
  | Some fd_entry =>
      match FileDescriptor.inode fd_entry with
      | None => Done ((-1)%Z, [], fs)
      | Some ino =>
          inode ← inode_at (inodes fs) ino;
          if Inode.size inode =? 0 then Done (0%Z, [], fs)
          else if (vsize (blocks fs) <=? Inode.first_block inode)
                  || negb (Block.is_used
                             (block_at (blocks fs) (Inode.first_block inode)))
          then Done ((-1)%Z, [], fs)
          else
            let position := FileDescriptor.current_position fd_entry in
            let bytes_to_read :=
              N.min size (sub64 (Inode.size inode) position) in
            if bytes_to_read =? 0 then Done (0%Z, [], fs)
            else
              let block_offset := position mod BLOCK_SIZE in
              let blocks_skipped := position / BLOCK_SIZE in
              match skip_blocks (N.to_nat blocks_skipped) (blocks fs)
                      blocks_skipped 0 (Inode.first_block inode) with
              | None => Done ((-1)%Z, [], fs)
              | Some current_block =>
                  if vsize (blocks fs) <=? current_block
                  then Done ((-1)%Z, [], fs)
                  else
                    r ← read_chain (N.to_nat bytes_to_read) (blocks fs)
                          bytes_to_read 0 current_block block_offset [];
                    match r with
                    | None => Done ((-1)%Z, [], fs)
                    | Some (buffer, bytes_read) =>
                        Done (Z.of_N bytes_read, buffer,
                              set_descriptor fd
                                (FileDescriptor.set_current_position
                                   (add64 position bytes_read) fd_entry)
                                fs)
                    end
              end
      end
  end.

(** *** Write path *)

(** The loop that releases a partly built chain when an allocation
    fails. *)
Fixpoint release_chain (fuel : nat) (bs : list Block.t) (block_to_free : N)
    : outcome (list Block.t) :=
  match fuel with
  | O => OutOfFuel
  | S fuel' =>
      if negb (block_to_free =? 0) && (block_to_free <? vsize bs) then
        let next := Block.next_block (block_at bs block_to_free) in
        release_chain fuel' (free_block bs block_to_free) next
      else Done bs
  end.

(** The [for] loop of [write_delta_blocks], [n] iterations to go.  The
    result is the [bool] to return (false after a failed allocation),
    [first_block], [prev_block] and the state. *)
Fixpoint write_blocks_loop (n : nat) (fuel : nat) (fs : COWFileSystem)
    (i first_block prev_block : N) (data : list byte) (remaining : N)
    : outcome (bool * N * N * COWFileSystem) :=
  match n with
  | O => Done (true, first_block, prev_block, fs)
  | S n' =>
      '(allocated, fs1) ← allocate_block fs;
      match allocated with
      | None =>
          bs ← (if negb (first_block =? 0)
                 then release_chain fuel (blocks fs1) first_block
                 else Done (blocks fs1));
          Done (false, 0, prev_block, set_blocks bs fs1)
      | Some current_block =>
          let first_block' := if i =? 0 then current_block else first_block in
          let bs1 :=
            if i =? 0 then blocks fs1
            else block_upd (Block.set_next_block current_block)
                   (blocks fs1) prev_block in
          let bytes_to_write := N.min remaining BLOCK_SIZE in
          let copied :=
            memcpy (Block.data (block_at bs1 current_block)) data
              bytes_to_write in
          let padded :=
            if bytes_to_write <? BLOCK_SIZE
            then memset copied bytes_to_write "000"%byte
                   (BLOCK_SIZE - bytes_to_write)
            else copied in
          let bs2 := block_upd (Block.set_data padded) bs1 current_block in
          write_blocks_loop n' fuel (set_blocks bs2 fs1) (i + 1)
            first_block' current_block
            (drop (N.to_nat bytes_to_write) data)
            (remaining - bytes_to_write)
      end
  end.

(** [write_delta_blocks(buffer, size, delta_start, first_block)]: the
    [bool] returned, [first_block], and the state. *)
Definition write_delta_blocks (fuel : nat) (fs : COWFileSystem)
    (buffer : list byte) (size delta_start : N)
    : outcome (bool * N * COWFileSystem) :=
  if (size =? 0) || (size <=? delta_start) then Done (true, 0, fs)
  else
    let actual_size := N.min (size - delta_start) size in
    let blocks_needed := (actual_size + BLOCK_SIZE - 1) / BLOCK_SIZE in
    '(ok, first_block, prev_block, fs1) ←
      write_blocks_loop (N.to_nat blocks_needed) fuel fs 0 0 0
        (drop (N.to_nat delta_start) buffer) actual_size;
    if (ok : bool) then
      Done (true, first_block,
            if prev_block <? vsize (blocks fs1)
            then set_blocks
                   (block_upd (Block.set_next_block 0) (blocks fs1)
                      prev_block) fs1
            else fs1)
    else Done (false, 0, fs1).

(** The scratch vector [old_content(old_size)] after [read] has stored
    [bytes] at its start. *)
Definition scratch (old_size : N) (bytes : list byte) : list byte :=
  take (N.to_nat old_size)
    (bytes ++ replicate (N.to_nat old_size) "000"%byte).

(** The part of [write] that settles the delta window: [Some] window, or
    [None] when the old content cannot be read back ([return -1]).  The old
    content is read through [read] with the cursor of [fd] set to 0 and
    restored afterwards. *)
Definition detect_delta (fs : COWFileSystem) (fd : Z)
    (fd_entry : FileDescriptor.t) (inode : Inode.t) (buffer : list byte)
    : outcome (option (N * N) * COWFileSystem) :=
  let size := vsize buffer in
  let old_size := Inode.size inode in
  let is_first_version := Inode.version_count inode =? 0 in
  if is_first_version then Done (Some (0, size), fs)
  else if 0 <? old_size then
    let saved_position := FileDescriptor.current_position fd_entry in
    let fs0 :=
      set_descriptor fd (FileDescriptor.set_current_position 0 fd_entry)
        fs in
    '(bytes_read, bytes, fs1) ← read fs0 fd old_size;
    let fs2 :=
      set_descriptor fd
        (FileDescriptor.set_current_position saved_position
           (default fd_entry (file_descriptors fs1 !! Z.to_nat fd)))
        fs1 in
    if negb (bytes_read =? Z.of_N old_size)%Z
    then Done (None, fs2)
    else Done (Some (find_delta (scratch old_size bytes) buffer), fs2)
  else Done (Some (0, size), fs).

(** The part of [write] that follows a non-empty delta: the new chain, the
    version record, the reference counts and the inode. *)
Definition commit_version (fuel : nat) (fs : COWFileSystem) (fd : Z)
    (ino : nat) (inode : Inode.t) (buffer : list byte) (now : string)
    (delta_start delta_size : N) : outcome (Z * COWFileSystem) :=
  let size := vsize buffer in
  '(ok, new_first_block, fs3) ←
    write_delta_blocks fuel fs buffer size delta_start;
  if negb (ok : bool) then Done ((-1)%Z, fs3)
  else
    let new_version :=
      VersionInfo.mk (Inode.version_count inode + 1) now size
        new_first_block delta_start delta_size
        (if 0 <? Inode.version_count inode
         then Inode.version_count inode else 0) in
    bs ← increment_block_refs fuel (blocks fs3) new_first_block;
    let inode' :=
      Inode.mk (Inode.is_used inode) (Inode.filename inode)
        new_first_block size (Inode.version_count inode + 1)
        (Inode.version_history inode ++ [new_version]) in
    let fd_entry :=
      default fresh_descriptor (file_descriptors fs3 !! Z.to_nat fd) in
    Done (Z.of_N size,
          set_descriptor fd
            (FileDescriptor.set_current_position size fd_entry)
            (set_inode ino inode' (set_blocks bs fs3))).

(** [write(fd, buffer, size)].  [buffer] is [None] for a null pointer and
    otherwise the [size] bytes it points to; [now] is the string that
    [get_current_timestamp] returns during the call. *)
Definition write (fuel : nat) (fs : COWFileSystem) (fd : Z)
    (buffer : option (list byte)) (now : string)
    : outcome (Z * COWFileSystem) :=
  match valid_descriptor fs fd with
  | None => Done ((-1)%Z, fs)
  | Some fd_entry =>
      if negb (FileMode_eqb (FileDescriptor.mode fd_entry) WRITE)
      then Done ((-1)%Z, fs)
      else
        match FileDescriptor.inode fd_entry, buffer with
        | None, _ => Done ((-1)%Z, fs)
        | Some _, None => Done (0%Z, fs)
        | Some ino, Some buffer =>
            let size := vsize buffer in
            if size =? 0 then Done (0%Z, fs)
            else
              inode ← inode_at (inodes fs) ino;
              '(delta, fs2) ← detect_delta fs fd fd_entry inode buffer;
              match delta with
              | None => Done ((-1)%Z, fs2)
              | Some (delta_start, delta_size) =>
                  if delta_size =? 0 then
                    let fd_entry :=
                      default fd_entry
                        (file_descriptors fs2 !! Z.to_nat fd) in
                    Done (Z.of_N size,
                          set_descriptor fd
                            (FileDescriptor.set_current_position size
                               fd_entry) fs2)
                  else
                    commit_version fuel fs2 fd ino inode buffer now
                      delta_start delta_size
              end
        end
  end.

(** *** Version management *)

(** The position of the first record numbered [version_number]: the
    element [target_version] points to. *)
Fixpoint find_version (history : list VersionInfo.t) (pos : nat)
    (version_number : N) : option nat :=
  match history with
  | [] => None
  | v :: rest =>
      if VersionInfo.version_number v =? version_number then Some pos
      else find_version rest (S pos) version_number
  end.

(** The second loop of [rollback_to_version]: the records kept, in order,
    and the blocks after the reference counts of the others are
    decremented. *)
Fixpoint rollback_scan (fuel : nat) (history : list VersionInfo.t)
    (version_number : N) (bs : list Block.t)
    : outcome (list VersionInfo.t * list Block.t) :=
  match history with
  | [] => Done ([], bs)
  | v :: rest =>
      if VersionInfo.version_number v <=? version_number then
        '(kept_versions, bs') ← rollback_scan fuel rest version_number bs;
        Done (v :: kept_versions, bs')
      else
        bs1 ← (if VersionInfo.block_index v <? vsize bs
                then decrement_block_refs fuel bs (VersionInfo.block_index v)
                else Done bs);
        rollback_scan fuel rest version_number bs1
  end.

(** [rollback_to_version].  [target_version] points into
    [version_history], and the source assigns [kept_versions] to that
    vector before it reads [target_version->block_index] and [->size].  The
    assignment reuses the vector's storage ([kept_versions] is never the
    longer one), so the pointer then designates the element at the same
    position of the new contents; past their end the element has been
    destroyed and the read is undefined. *)
Definition rollback_to_version (fuel : nat) (fs : COWFileSystem) (fd : Z)
    (version_number : N) : outcome (bool * COWFileSystem) :=
  match valid_descriptor fs fd with
  | None => Done (false, fs)
  | Some fd_entry =>
      match FileDescriptor.inode fd_entry with
      | None => Done (false, fs)
      | Some ino =>
          inode ← inode_at (inodes fs) ino;
          if (version_number =? 0)
             || (Inode.version_count inode <? version_number)
          then Done (false, fs)
          else
            match find_version (Inode.version_history inode) 0%nat
                    version_number with
            | None => Done (false, fs)
            | Some target_pos =>
                '(kept_versions, bs) ←
                  rollback_scan fuel (Inode.version_history inode)
                    version_number (blocks fs);
                match (kept_versions : list VersionInfo.t) !! target_pos with
                | None => Undefined
                | Some target_version =>
                    let inode' :=
                      Inode.mk (Inode.is_used inode) (Inode.filename inode)
                        (VersionInfo.block_index target_version)
                        (VersionInfo.size target_version)
                        version_number kept_versions in
                    let position :=
                      if FileMode_eqb (FileDescriptor.mode fd_entry) WRITE
                      then VersionInfo.size target_version
                      else 0 in
                    Done (true,
                          set_descriptor fd
                            (FileDescriptor.set_current_position position
                               fd_entry)
                            (set_inode ino inode' (set_blocks bs fs)))
                end
            end
      end
  end.

(** [revert_to_version] is a stub: it returns [false]. *)
Definition revert_to_version (fs : COWFileSystem) (fd : Z) (version : N)
    : bool * COWFileSystem :=
  (false, fs).

(** *** Accessors *)

(** [get_file_size], [get_version_count] and [get_file_status] follow
    [file_descriptors[fd].inode] without testing it: on a null pointer they
    are undefined. *)
Definition inode_of (fs : COWFileSystem) (fd_entry : FileDescriptor.t)
    : outcome Inode.t :=
  match FileDescriptor.inode fd_entry with
  | None => Undefined
  | Some ino => inode_at (inodes fs) ino
  end.

Definition get_file_size (fs : COWFileSystem) (fd : Z) : outcome N :=
  match valid_descriptor fs fd with
  | None => Done 0
  | Some fd_entry => inode ← inode_of fs fd_entry; Done (Inode.size inode)
  end.

Definition get_version_count (fs : COWFileSystem) (fd : Z) : outcome N :=
  match valid_descriptor fs fd with
  | None => Done 0
  | Some fd_entry =>
      inode ← inode_of fs fd_entry; Done (Inode.version_count inode)
  end.

Record FileStatus : Type := mkFileStatus {
  is_open : bool;
  is_modified : bool;
  current_size : N;
  current_version : N
}.

Definition get_file_status (fs : COWFileSystem) (fd : Z)
    : outcome FileStatus :=
  match valid_descriptor fs fd with
  | None => Done (mkFileStatus false false 0 0)
  | Some fd_entry =>
      inode ← inode_of fs fd_entry;
      Done (mkFileStatus true
              (FileMode_eqb (FileDescriptor.mode fd_entry) WRITE)
              (Inode.size inode) (Inode.version_count inode))
  end.

Definition get_version_history (fs : COWFileSystem) (fd : Z)
    : outcome (list VersionInfo.t) :=
  match valid_descriptor fs fd with
  | None => Done []
  | Some fd_entry =>
      match FileDescriptor.inode fd_entry with
      | None => Done []
      | Some ino =>
          inode ← inode_at (inodes fs) ino;
          Done (Inode.version_history inode)
      end
  end.

Definition get_total_memory_usage (fs : COWFileSystem) : N :=
  fold_left (λ total b, if Block.is_used b then total + BLOCK_SIZE else total)
    (blocks fs) 0.

(** [list_files(files)]: the [bool] returned and the vector left in
    [files], the names of the inodes in use in table order.  A name is the
    character array read up to its terminator. *)
Definition list_files (fs : COWFileSystem) : bool * list string :=
  (true,
   map (λ inode, c_str (Inode.filename inode))
     (List.filter Inode.is_used (inodes fs))).

(** *** Garbage collector *)

Definition used_at (block_used : list bool) (i : N) : bool :=
  default false (block_used !! N.to_nat i).

(** The marking walk along one chain. *)
Fixpoint mark_chain (fuel : nat) (bs : list Block.t)
    (block_used : list bool) (current_block : N) : outcome (list bool) :=
  match fuel with
  | O => OutOfFuel
  | S fuel' =>
      if negb (current_block =? 0) && (current_block <? vsize bs) then
        let block_used' :=
          if 0 <? Block.ref_count (block_at bs current_block)
          then <[N.to_nat current_block := true]> block_used
          else block_used in
        mark_chain fuel' bs block_used'
          (Block.next_block (block_at bs current_block))
      else Done block_used
  end.

Fixpoint mark_versions (fuel : nat) (bs : list Block.t)
    (block_used : list bool) (history : list VersionInfo.t)
    : outcome (list bool) :=
  match history with
  | [] => Done block_used
  | version :: rest =>
      block_used' ← mark_chain fuel bs block_used
                      (VersionInfo.block_index version);
      mark_versions fuel bs block_used' rest
  end.

Fixpoint mark_inodes (fuel : nat) (bs : list Block.t)
    (block_used : list bool) (ins : list Inode.t) : outcome (list bool) :=
  match ins with
  | [] => Done block_used
  | inode :: rest =>
      block_used' ← (if Inode.is_used inode
                      then mark_versions fuel bs block_used
                             (Inode.version_history inode)
                      else Done block_used);
      mark_inodes fuel bs block_used' rest
  end.

(** The inner [while] of the sweep: it clears the blocks of one unmarked
    run and counts them. *)
Fixpoint sweep_run (steps : nat) (block_used : list bool)
    (bs : list Block.t) (start count : N) : list Block.t * N :=
  match steps with
  | O => (bs, count)
  | S steps' =>
      if (start + count <? vsize bs)
         && negb (used_at block_used (start + count))
      then
        sweep_run steps' block_used
          (block_upd
             (λ b, Block.mk false 0 0
                     (memset (Block.data b) 0 "000"%byte BLOCK_SIZE))
             bs (start + count))
          start (count + 1)
      else (bs, count)
  end.

(** The outer [while] of the sweep; each turn advances [start], so
    [blocks.size()] turns are enough. *)
Fixpoint sweep (steps : nat) (block_used : list bool) (fs : COWFileSystem)
    (start : N) : COWFileSystem :=
  match steps with
  | O => fs
  | S steps' =>
      if start <? vsize (blocks fs) then
        if negb (used_at block_used start) then
          let '(bs, count) :=
            sweep_run (length (blocks fs)) block_used (blocks fs) start 0 in
          let fl :=
            if 0 <? count
            then add_to_free_list (free_blocks_list fs) start count
            else free_blocks_list fs in
          sweep steps' block_used
            (set_blocks bs (set_free_blocks_list fl fs))
            (start + count + 1)
        else sweep steps' block_used fs (start + 1)
      else fs
  end.

Definition garbage_collect (fuel : nat) (fs : COWFileSystem)
    : outcome COWFileSystem :=
  block_used ← mark_inodes fuel (blocks fs)
                 (replicate (length (blocks fs)) false) (inodes fs);
  let fs1 := sweep (length (blocks fs)) block_used fs 0 in
  Done (set_free_blocks_list (merge_free_blocks (free_blocks_list fs1)) fs1).

(** *** Sequences of calls *)

Inductive operation : Type :=
  | Create (filename : string)
  | Open (filename : string) (mode : FileMode)
  | Close (fd : Z)
  | Read (fd : Z) (size : N)
  | Write (fd : Z) (buffer : option (list byte)) (now : string)
  | Rollback (fd : Z) (version_number : N)
  | GarbageCollect.

Inductive reply : Type :=
  | Returned (value : Z)
  | ReturnedBytes (value : Z) (buffer : list byte)
  | ReturnedBool (value : bool)
  | ReturnedVoid.

(** A call succeeded: no negative value, no [false]. *)
Definition success (r : reply) : bool :=
  match r with
  | Returned value | ReturnedBytes value _ => (0 <=? value)%Z
  | ReturnedBool value => value
  | ReturnedVoid => true
  end.

Definition call (fuel : nat) (op : operation) (fs : COWFileSystem)
    : outcome (reply * COWFileSystem) :=
  match op with
  | Create filename =>
      let '(fd, fs') := create fs filename in Done (Returned fd, fs')
  | Open filename mode =>
      let '(fd, fs') := open fs filename mode in Done (Returned fd, fs')
  | Close fd =>
      let '(r, fs') := close fs fd in Done (Returned r, fs')
  | Read fd size =>
      '(r, buffer, fs') ← read fs fd size;
      Done (ReturnedBytes r buffer, fs')
  | Write fd buffer now =>
      '(r, fs') ← write fuel fs fd buffer now; Done (Returned r, fs')
  | Rollback fd version_number =>
      '(r, fs') ← rollback_to_version fuel fs fd version_number;
      Done (ReturnedBool r, fs')
  | GarbageCollect =>
      fs' ← garbage_collect fuel fs; Done (ReturnedVoid, fs')
  end.

(** The calls of [ops] in order; the replies are listed in call order. *)
Fixpoint calls (fuel : nat) (ops : list operation) (fs : COWFileSystem)
    : outcome (list reply * COWFileSystem) :=
  match ops with
  | [] => Done ([], fs)
  | op :: rest =>
      '(r, fs1) ← call fuel op fs;
      '(rs, fs2) ← calls fuel rest fs1;
      Done (r :: rs, fs2)
  end.

End COWFS.

(** ** Properties named by the specification *)

(** Reference definition of the delta detector, after section 4.7 of the
    specification. *)

Fixpoint common_prefix (a b : list byte) : nat :=
  match a, b with
  | x :: a', y :: b' =>
      if Byte.eqb x y then S (common_prefix a' b') else O
  | _, _ => O
  end.

Definition bytes_eqb (a b : list byte) : bool :=
  (length a =? length b)%nat && (common_prefix a b =? length a)%nat.

(** The common suffix of the parts that follow the common prefix. *)
Definition common_suffix (delta_start : nat) (old_bytes new_bytes : list byte)
    : nat :=
  common_prefix (reverse (drop delta_start old_bytes))
    (reverse (drop delta_start new_bytes)).

Definition spec_find_delta (old_bytes new_bytes : list byte) : N * N :=
  let old_size := vsize old_bytes in
  let new_size := vsize new_bytes in
  if (old_size =? new_size) && bytes_eqb old_bytes new_bytes then (0, 0)
  else
    let delta_start := N.of_nat (common_prefix old_bytes new_bytes) in
    if (delta_start =? new_size) && (new_size <=? old_size)
    then (delta_start, 0)
    else if (delta_start =? old_size) && (old_size <? new_size)
    then (delta_start, new_size - old_size)
    else
      let suffix :=
        N.of_nat (common_suffix (N.to_nat delta_start) old_bytes new_bytes) in
      (delta_start, N.min ((new_size - delta_start) - suffix)
                      (new_size - delta_start)).

(** The free runs the specification asks for when an image is reopened: the
    maximal runs of blocks with [is_used = false], in ascending order. *)
Fixpoint spec_free_runs (bs : list Block.t) (pos : N)
    : list FreeBlockInfo.t :=
  match bs with
  | [] => []
  | b :: rest =>
      let runs := spec_free_runs rest (pos + 1) in
      if Block.is_used b then runs
      else
        match runs with
        | r :: runs' =>
            if FreeBlockInfo.start_block r =? pos + 1
            then FreeBlockInfo.mk pos (FreeBlockInfo.block_count r + 1)
                   :: runs'
            else FreeBlockInfo.mk pos 1 :: runs
        | [] => [FreeBlockInfo.mk pos 1]
        end
  end.

Definition in_run (i : N) (r : FreeBlockInfo.t) : bool :=
  (FreeBlockInfo.start_block r <=? i)
  && (i <? FreeBlockInfo.start_block r + FreeBlockInfo.block_count r).

Definition indices {A : Type} (v : list A) : list N :=
  map N.of_nat (seq 0 (length v)).

(** The number of free runs that contain index [i]. *)
Fixpoint runs_holding (i : N) (fl : list FreeBlockInfo.t) : nat :=
  match fl with
  | [] => O
  | r :: rest => ((if in_run i r then 1 else 0) + runs_holding i rest)%nat
  end.

(** Free runs and blocks in use partition [0, total_blocks): every index is
    in use and in no run, or not in use and in exactly one run. *)
Definition partitions (fl : list FreeBlockInfo.t) (bs : list Block.t) : bool :=
  forallb
    (λ i, (runs_holding i fl
           =? (if Block.is_used (block_at bs i) then 0 else 1))%nat)
    (indices bs).

(** The free-run list is strictly ascending by start, without overlap and
    fully coalesced: each run ends strictly before the next one starts. *)
Fixpoint ascending_coalesced (fl : list FreeBlockInfo.t) : bool :=
  match fl with
  | r :: ((r' :: _) as rest) =>
      (FreeBlockInfo.start_block r + FreeBlockInfo.block_count r
       <? FreeBlockInfo.start_block r')
      && ascending_coalesced rest
  | _ => true
  end.

(** Block [i] lies on the chain headed at [head]: it is the head or is
    reached from it by [next_block] links, a link of 0 ending the chain.
    [steps] bounds the length of the walk. *)
Fixpoint on_chain (steps : nat) (bs : list Block.t) (head i : N) : bool :=
  match steps with
  | O => false
  | S steps' =>
      (head <? vsize bs)
      && ((head =? i)
          || (negb (Block.next_block (block_at bs head) =? 0)
              && on_chain steps' bs (Block.next_block (block_at bs head)) i))
  end.

(** Block [i] is reachable from the head of a version recorded for an inode
    in use; the current version is the last of them. *)
Definition referenced (fs : COWFileSystem) (i : N) : bool :=
  existsb
    (λ inode,
       Inode.is_used inode
       && existsb (λ head, on_chain (S (length (blocks fs))) (blocks fs) head i)
            (map VersionInfo.block_index (Inode.version_history inode)))
    (inodes fs).

(** The bytes held by the first [n] blocks of the chain headed at [head]. *)
Fixpoint chain_data (n : nat) (bs : list Block.t) (head : N) : list byte :=
  match n with
  | O => []
  | S n' =>
      Block.data (block_at bs head)
      ++ chain_data n' bs (Block.next_block (block_at bs head))
  end.

(** Version numbers run 1, 2, ... along the history (invariant 7), counted
    from [pos + 1]. *)
Fixpoint numbered (pos : nat) (history : list VersionInfo.t) : bool :=
  match history with
  | [] => true
  | v :: rest =>
      (VersionInfo.version_number v =? N.of_nat (S pos))
      && numbered (S pos) rest
  end.

(** Every link stays inside the block array, and [rank] decreases along
    every link between blocks other than block 0: the chains have no cycle
    except through the end marker. *)
Definition chains_ranked (rank : N → nat) (bs : list Block.t) : bool :=
  forallb
    (λ i,
       let next := Block.next_block (block_at bs i) in
       (next <? vsize bs)
       && ((i =? 0) || (next =? 0) || (rank next <? rank i)%nat))
    (indices bs).

(** The inode pointer of descriptor [fd], when that descriptor is valid and
    has one, points into the inode table. *)
Definition descriptor_in_table (fs : COWFileSystem) (fd : Z) : bool :=
  match file_descriptors fs !! Z.to_nat fd with
  | Some entry =>
      match FileDescriptor.inode entry with
      | Some ino => (ino <? length (inodes fs))%nat
      | None => true
      end
  | None => true
  end.

(** The history of the inode behind descriptor [fd] is numbered 1, 2, ... *)
Definition history_numbered (fs : COWFileSystem) (fd : Z) : bool :=
  match file_descriptors fs !! Z.to_nat fd with
  | Some entry =>
      match FileDescriptor.inode entry with
      | Some ino =>
          match inodes fs !! ino with
          | Some inode => numbered 0 (Inode.version_history inode)
          | None => true
          end
      | None => true
      end
  | None => true
  end.

(** The sum of all reference counts. *)
Definition total_refs (bs : list Block.t) : nat :=
  sum_list_with (λ b, N.to_nat (Block.ref_count b)) bs.

(** The conditions under which [rollback_to_version] is said to fail. *)
Definition rollback_rejected (fs : COWFileSystem) (fd : Z)
    (version_number : N) : bool :=
  match valid_descriptor fs fd with
  | None => true
  | Some entry =>
      match FileDescriptor.inode entry with
      | None => true
      | Some ino =>
          match inodes fs !! ino with
          | None => false
          | Some inode =>
              (version_number =? 0)
              || (Inode.version_count inode <? version_number)
              || forallb
                   (λ v, negb (VersionInfo.version_number v =? version_number))
                   (Inode.version_history inode)
          end
      end
  end.

(** Every valid descriptor holds a pointer to an inode slot in use. *)
Definition descriptors_attached (fs : COWFileSystem) : bool :=
  forallb
    (λ entry,
       negb (FileDescriptor.is_valid entry)
       || match FileDescriptor.inode entry with
          | Some ino =>
              match inodes fs !! ino with
              | Some inode => Inode.is_used inode
              | None => false
              end
          | None => false
          end)
    (file_descriptors fs).

(** ** Free cells and stored chains *)

(** The block indices of a free run, and of a free list. *)
Fixpoint cells_from (start : N) (count : nat) : list N :=
  match count with
  | O => []
  | S count' => start :: cells_from (start + 1) count'
  end.

Definition run_cells (r : FreeBlockInfo.t) : list N :=
  cells_from (FreeBlockInfo.start_block r)
    (N.to_nat (FreeBlockInfo.block_count r)).

Definition free_cells (fl : list FreeBlockInfo.t) : list N :=
  concat (map run_cells fl).

Fixpoint distinct (l : list N) : bool :=
  match l with
  | [] => true
  | x :: l' => negb (existsb (N.eqb x) l') && distinct l'
  end.

(** The free runs lie inside the block array and no block is listed
    twice. *)
Definition free_list_ok (fs : COWFileSystem) : bool :=
  forallb (λ c, c <? vsize (blocks fs)) (free_cells (free_blocks_list fs))
  && distinct (free_cells (free_blocks_list fs)).

(** The chain made of the blocks [cs], linked in this order, holds the
    bytes [bytes], [BLOCK_SIZE] of them per block. *)
Fixpoint chain_stores (BLOCK_SIZE : N) (bs : list Block.t) (cs : list N)
    (bytes : list byte) : Prop :=
  match cs with
  | [] => bytes = []
  | c :: cs' =>
      c < vsize bs
      ∧ Block.is_used (block_at bs c) = true
      ∧ take (length bytes `min` N.to_nat BLOCK_SIZE)
          (Block.data (block_at bs c))
        = take (N.to_nat BLOCK_SIZE) bytes
      ∧ match cs' with
        | [] => True
        | c' :: _ => Block.next_block (block_at bs c) = c'
        end
      ∧ chain_stores BLOCK_SIZE bs cs' (drop (N.to_nat BLOCK_SIZE) bytes)
  end.

(** ** Logical forms used in the proofs *)

(** [chains_ranked] in logical form. *)
Definition ranked (rank : N → nat) (bs : list Block.t) : Prop :=
  ∀ i, i < vsize bs →
    Block.next_block (block_at bs i) < vsize bs
    ∧ (i = 0 ∨ Block.next_block (block_at bs i) = 0
       ∨ (rank (Block.next_block (block_at bs i)) < rank i)%nat).


(** The records [rollback_to_version] keeps. *)
Definition kept (version_number : N) (history : list VersionInfo.t)
    : list VersionInfo.t :=
  List.filter (λ v, VersionInfo.version_number v <=? version_number) history.


(** The state a successful rollback leaves. *)
Definition rolled_back (fs : COWFileSystem) (fd : Z)
    (entry : FileDescriptor.t) (ino : nat) (inode : Inode.t)
    (version_number : N) (target : VersionInfo.t) (bs : list Block.t)
    : COWFileSystem :=
  set_descriptor fd
    (FileDescriptor.set_current_position
       (if FileMode_eqb (FileDescriptor.mode entry) WRITE
        then VersionInfo.size target else 0) entry)
    (set_inode ino
       (Inode.mk (Inode.is_used inode) (Inode.filename inode)
          (VersionInfo.block_index target) (VersionInfo.size target)
          version_number
          (take (N.to_nat version_number) (Inode.version_history inode)))
       (set_blocks bs fs)).


(** [descriptors_attached] in logical form. *)
Definition attached (fs : COWFileSystem) : Prop :=
  ∀ k entry,
    file_descriptors fs !! k = Some entry →
    FileDescriptor.is_valid entry = true →
    ∃ ino inode,
      FileDescriptor.inode entry = Some ino
      ∧ inodes fs !! ino = Some inode
      ∧ Inode.is_used inode = true.

(** [fs'] has no valid descriptor and no pointer that [fs] lacks, and every
    inode in use in [fs] is still in use. *)
Definition keeps_handles (fs fs' : COWFileSystem) : Prop :=
  (∀ k entry',
     file_descriptors fs' !! k = Some entry' →
     FileDescriptor.is_valid entry' = true →
     ∃ entry,
       file_descriptors fs !! k = Some entry
       ∧ FileDescriptor.is_valid entry = true
       ∧ FileDescriptor.inode entry = FileDescriptor.inode entry')
  ∧ (∀ i inode,
       inodes fs !! i = Some inode → Inode.is_used inode = true →
       ∃ inode', inodes fs' !! i = Some inode' ∧ Inode.is_used inode' = true).


(** [fs'] has the descriptor table and the inode table of [fs]. *)
Definition same_tables (fs fs' : COWFileSystem) : Prop :=
  file_descriptors fs' = file_descriptors fs ∧ inodes fs' = inodes fs.


(** ** Forms used by the further properties *)

Fixpoint names_distinct (l : list string) : bool :=
  match l with
  | [] => true
  | x :: l' => negb (existsb (String.eqb x) l') && names_distinct l'
  end.

(** The inode answers to [filename] in [find_inode]. *)
Definition answers (filename : string) (inode : Inode.t) : bool :=
  Inode.is_used inode && strcmp_eq (Inode.filename inode) filename.

(** What [find_inode] and [list_files] read of an inode. *)
Definition name_key (inode : Inode.t) : bool * string :=
  (Inode.is_used inode, Inode.filename inode).

(** No run ends where the next one starts: nothing is left to merge. *)
Fixpoint coalesced (fl : list FreeBlockInfo.t) : bool :=
  match fl with
  | r :: ((r' :: _) as rest) =>
      negb (FreeBlockInfo.start_block r + FreeBlockInfo.block_count r
            =? FreeBlockInfo.start_block r')
      && coalesced rest
  | _ => true
  end.


(** Every run holds at least one block. *)
Definition positive_runs (fl : list FreeBlockInfo.t) : bool :=
  forallb (λ r, 0 <? FreeBlockInfo.block_count r) fl.


(** The counts fit a [size_t]. *)
Definition counts_bounded (fl : list FreeBlockInfo.t) : bool :=
  forallb (λ r, FreeBlockInfo.block_count r <? 2 ^ 64) fl.

(** The blocks [cs] are linked in this order, none of them is block 0, and
    the link of the last one is [stop]. *)
Fixpoint links (bs : list Block.t) (cs : list N) (stop : N) : Prop :=
  match cs with
  | [] => True
  | c :: cs' =>
      c ≠ 0 ∧ c < vsize bs
      ∧ Block.next_block (block_at bs c) = List.hd stop cs'
      ∧ links bs cs' stop
  end.

(** The history of an inode is numbered 1, 2, ... and [version_count] is its
    length. *)
Definition well_numbered (inode : Inode.t) : bool :=
  numbered 0 (Inode.version_history inode)
  && (Inode.version_count inode =? vsize (Inode.version_history inode)).

Definition histories_numbered (fs : COWFileSystem) : bool :=
  forallb well_numbered (inodes fs).

(** The free list is well formed and names no block in use: its blocks lie
    inside the block array, none is listed twice, none is in use, and the
    runs are ascending and coalesced. *)
Definition free_list_sound (fs : COWFileSystem) : bool :=
  free_list_ok fs
  && ascending_coalesced (free_blocks_list fs)
  && forallb (λ c, negb (Block.is_used (block_at (blocks fs) c)))
       (free_cells (free_blocks_list fs)).

Definition is_garbage_collect (op : operation) : bool :=
  match op with
  | GarbageCollect => true
  | _ => false
  end.

(** A block as the sweep of [garbage_collect] leaves it. *)
Definition cleared (BLOCK_SIZE : N) (b : Block.t) : Block.t :=
  Block.mk false 0 0 (memset (Block.data b) 0 "000"%byte BLOCK_SIZE).

(** The indices from [start] on, [count] of them, that are not marked. *)
Definition unmarked (block_used : list bool) (start : N) (count : nat)
    : list N :=
  List.filter (λ i, negb (used_at block_used i)) (cells_from start count).

(** The outcome [m] with [f] applied to the state it ends in. *)
Definition on_state {A : Type} (f : COWFileSystem → COWFileSystem)
    (m : outcome (A * COWFileSystem)) : outcome (A * COWFileSystem) :=
  match m with
  | Done (a, fs) => Done (a, f fs)
  | Undefined => Undefined
  | OutOfFuel => OutOfFuel
  end.

(** ** The seed scenarios *)

Module Seed.

Local Open Scope string_scope.

(** Modelled from the spec: [BLOCK_SIZE] of [cowfs.hpp], which is not among
    the sources; section 8 fixes 4096 for its scenarios. *)
Definition BLOCK_SIZE : N := 4096.

(** Modelled from the spec: [MAX_FILES] of [cowfs.hpp]; section 8 fixes 16
    for its scenarios. *)
Definition MAX_FILES : N := 16.

(** Modelled from the spec: [MAX_FILENAME_LENGTH] of [cowfs.hpp], the bound
    on names with their terminator (section 3).  The specification gives no
    value; any value above the length of the names used below yields the
    same runs. *)
Definition MAX_FILENAME_LENGTH : N := 256.

Definition fuel : nat := 16.

(** A freshly created image of [n] blocks. *)
Definition fresh (n : N) : option COWFileSystem :=
  COWFileSystem_new BLOCK_SIZE MAX_FILES None true (n * BLOCK_SIZE).

(** The calls [ops] on a fresh image of [n] blocks. *)
Definition session (n : N) (ops : list operation)
    : outcome (list reply * COWFileSystem) :=
  match fresh n with
  | Some fs => calls BLOCK_SIZE MAX_FILENAME_LENGTH fuel ops fs
  | None => Undefined
  end.

(** The state such a session ends in. *)
Definition after (n : N) (ops : list operation) : COWFileSystem :=
  match session n ops with
  | Done (_, fs) => fs
  | _ => init_file_system BLOCK_SIZE MAX_FILES 0
  end.

Definition bytes (s : string) : option (list byte) :=
  Some (list_byte_of_string s).

Definition stamp1 : string := "2024-01-01 10:00:00".
Definition stamp2 : string := "2024-01-01 10:00:01".

(** Scenarios 1 and 3 of the specification, then a read through a fresh
    READ handle. *)
Definition hello_help : list operation :=
  [Create "a"; Write 0 (bytes "hello") stamp1;
   Write 0 (bytes "help!") stamp2].

Definition hello_help_read : list operation :=
  hello_help ++ [Open "a" READ; Read 1 5].

(** One write to a new file. *)
Definition hello : list operation :=
  [Create "a"; Write 0 (bytes "hello") stamp1].

(** A one-block version, a two-block version, and a rollback to the
    first. *)
Definition two_block_payload : option (list byte) :=
  Some (replicate 4097 "y"%byte).

Definition grow_and_rollback : list operation :=
  [Create "a"; Write 0 (bytes "x") stamp1;
   Write 0 two_block_payload stamp2; Rollback 0 1].

(** A write that the delta detector reports as empty although the buffer
    is not the content of the file: "abb" with its first two bytes
    removed. *)
Definition shrink_read : list operation :=
  [Create "a"; Write 0 (bytes "abb") stamp1; Write 0 (bytes "b") stamp2;
   Open "a" READ; Read 1 1].

(** A first write of two blocks, read back through a fresh handle. *)
Definition created : list operation := [Create "a"].
Definition two_blocks_written : list operation :=
  [Create "a"; Write 0 two_block_payload stamp1].
Definition two_blocks_opened : list operation :=
  [Create "a"; Write 0 two_block_payload stamp1; Open "a" READ].

(** A chain 1 -> 2 -> 3 whose blocks are all referenced once, behind a
    free block 0. *)
Definition owned (next : N) : Block.t :=
  Block.mk true next 1 (empty_block_data 4).

Definition chain_of_three : list Block.t :=
  [Block.mk false 0 0 (empty_block_data 4); owned 2; owned 3; owned 0].

(** The image file left by the session [hello] on two blocks, and the file
    system constructed over it afterwards. *)
Definition hello_image : option Image :=
  match session 2 hello with
  | Done (_, fs) => Some (COWFileSystem_delete fs)
  | _ => None
  end.

Definition reopened : option COWFileSystem :=
  match hello_image with
  | Some image =>
      COWFileSystem_new BLOCK_SIZE MAX_FILES (Some image) true
        (2 * BLOCK_SIZE)
  | None => None
  end.

End Seed.

(** * Properties *)

Ltac unfold_bind := unfold mbind, outcome_bind in *.

(** ** Delta detector *)

Lemma common_prefix_le_l (a b : list byte) : (common_prefix a b ≤ length a)%nat.
Proof.
  revert b. induction a as [|x a IH]; intros [|y b]; simpl; try lia.
  destruct (Byte.eqb x y); [specialize (IH b)|]; lia.
Qed.

Lemma common_prefix_le_r (a b : list byte) : (common_prefix a b ≤ length b)%nat.
Proof.
  revert b. induction a as [|x a IH]; intros [|y b]; simpl; try lia.
  destruct (Byte.eqb x y); [specialize (IH b)|]; lia.
Qed.

Lemma memcmp_eq_common_prefix (a b : list byte) (n : nat) :
  memcmp_eq a b n = (n <=? common_prefix a b)%nat.
Proof.
  revert a b. induction n as [|n IH]; intros a b; [reflexivity|].
  destruct a as [|x a], b as [|y b]; simpl; try reflexivity.
  rewrite IH. destruct (Byte.eqb x y); reflexivity.
Qed.

Lemma vsize_to_nat {A} (v : list A) : N.to_nat (vsize v) = length v.
Proof. unfold vsize. lia. Qed.

Lemma byte_at_drop (l : list byte) (i : N) :
  i < vsize l → drop (N.to_nat i) l = byte_at l i :: drop (S (N.to_nat i)) l.
Proof.
  unfold vsize, byte_at. intros Hi.
  destruct (l !! N.to_nat i) as [x|] eqn:E.
  - simpl. by apply drop_S.
  - apply lookup_ge_None in E. lia.
Qed.

Lemma scan_prefix_spec (old new : list byte) (steps : nat) (ds : N) :
  (length old `min` length new - N.to_nat ds ≤ steps)%nat →
  scan_prefix steps old new (vsize old) (vsize new) ds
  = ds + N.of_nat (common_prefix (drop (N.to_nat ds) old)
                     (drop (N.to_nat ds) new)).
Proof.
  revert ds. induction steps as [|steps IH]; intros ds Hs; simpl.
  - assert (length old ≤ N.to_nat ds ∨ length new ≤ N.to_nat ds)%nat as [H|H]
      by lia.
    + rewrite (drop_ge old) by done. simpl. lia.
    + rewrite (drop_ge new) by done.
      destruct (drop (N.to_nat ds) old); simpl; lia.
  - destruct (ds <? vsize old) eqn:Ho; simpl.
    2:{ apply N.ltb_ge in Ho. rewrite (drop_ge old) by (unfold vsize in Ho; lia).
        simpl. lia. }
    destruct (ds <? vsize new) eqn:Hn; simpl.
    2:{ apply N.ltb_ge in Hn. rewrite (drop_ge new) by (unfold vsize in Hn; lia).
        destruct (drop (N.to_nat ds) old); simpl; lia. }
    apply N.ltb_lt in Ho, Hn.
    rewrite (byte_at_drop old ds Ho), (byte_at_drop new ds Hn). simpl.
    destruct (Byte.eqb (byte_at old ds) (byte_at new ds)); [|lia].
    rewrite IH by (unfold vsize in *; lia).
    replace (N.to_nat (ds + 1)) with (S (N.to_nat ds)) by lia. lia.
Qed.

Lemma byte_at_reverse_drop (l : list byte) (ds cs : N) :
  ds ≤ vsize l → cs < vsize l - ds →
  drop (N.to_nat cs) (reverse (drop (N.to_nat ds) l))
  = byte_at l (vsize l - 1 - cs)
    :: drop (S (N.to_nat cs)) (reverse (drop (N.to_nat ds) l)).
Proof.
  unfold vsize, byte_at. intros Hds Hcs.
  apply drop_S.
  rewrite reverse_lookup by (rewrite length_drop; lia).
  rewrite lookup_drop, length_drop.
  replace (N.to_nat ds + (length l - N.to_nat ds - S (N.to_nat cs)))%nat
    with (N.to_nat (N.of_nat (length l) - 1 - cs)) by lia.
  destruct (l !! _) eqn:E; [done|].
  apply lookup_ge_None in E. lia.
Qed.

Lemma scan_suffix_spec (old new : list byte) (steps : nat) (ds cs : N) :
  ds ≤ vsize old → ds ≤ vsize new →
  ((length old - N.to_nat ds) `min` (length new - N.to_nat ds) - N.to_nat cs
   ≤ steps)%nat →
  scan_suffix steps old new (vsize old) (vsize new) ds cs
  = cs + N.of_nat
           (common_prefix
              (drop (N.to_nat cs) (reverse (drop (N.to_nat ds) old)))
              (drop (N.to_nat cs) (reverse (drop (N.to_nat ds) new)))).
Proof.
  intros Ho Hn. revert cs. induction steps as [|steps IH]; intros cs Hs; simpl.
  - assert (length old - N.to_nat ds ≤ N.to_nat cs
            ∨ length new - N.to_nat ds ≤ N.to_nat cs)%nat as [H|H] by lia.
    + rewrite (drop_ge (reverse (drop _ old)))
        by (rewrite length_reverse, length_drop; done).
      simpl. lia.
    + rewrite (drop_ge (reverse (drop _ new)))
        by (rewrite length_reverse, length_drop; done).
      destruct (drop _ (reverse (drop _ old))); simpl; lia.
  - destruct (cs <? vsize old - ds) eqn:Eo; simpl.
    2:{ apply N.ltb_ge in Eo.
        rewrite (drop_ge (reverse (drop _ old)))
          by (rewrite length_reverse, length_drop; unfold vsize in *; lia).
        simpl. lia. }
    destruct (cs <? vsize new - ds) eqn:En; simpl.
    2:{ apply N.ltb_ge in En.
        rewrite (drop_ge (reverse (drop _ new)))
          by (rewrite length_reverse, length_drop; unfold vsize in *; lia).
        destruct (drop _ (reverse (drop _ old))); simpl; lia. }
    apply N.ltb_lt in Eo, En.
    rewrite (byte_at_reverse_drop old ds cs Ho Eo),
      (byte_at_reverse_drop new ds cs Hn En). simpl.
    destruct (Byte.eqb _ _); [|lia].
    rewrite IH by (unfold vsize in *; lia).
    replace (N.to_nat (cs + 1)) with (S (N.to_nat cs)) by lia. lia.
Qed.

Lemma common_prefix_same (a : list byte) : common_prefix a a = length a.
Proof.
  induction a as [|x a IH]; simpl; [done|].
  replace (Byte.eqb x x) with true; [by rewrite IH|].
  symmetry. by apply Byte.byte_dec_lb.
Qed.

Lemma find_delta_same (bytes : list byte) : find_delta bytes bytes = (0, 0).
Proof.
  unfold find_delta.
  rewrite N.eqb_refl, memcmp_eq_common_prefix, vsize_to_nat. simpl.
  by rewrite common_prefix_same, Nat.leb_refl.
Qed.

(** C8.  The delta detector computes its reference definition: (0, 0) on
    equal buffers; otherwise [delta_start] is the length of the common
    prefix, a pure truncation gives size 0, a pure append gives
    [new_size - old_size], and in general the size is what remains of
    [new_size - delta_start] after the common suffix, never reaching past
    the end of the new buffer. *)
Theorem find_delta_matches_reference (old_bytes new_bytes : list byte) :
  find_delta old_bytes new_bytes = spec_find_delta old_bytes new_bytes
  ∧ (find_delta old_bytes new_bytes).1 + (find_delta old_bytes new_bytes).2
    ≤ vsize new_bytes
  ∧ (old_bytes = new_bytes → find_delta old_bytes new_bytes = (0, 0)).
Proof.
  assert (Hpre := common_prefix_le_l old_bytes new_bytes).
  assert (Hpre' := common_prefix_le_r old_bytes new_bytes).
  assert (find_delta old_bytes new_bytes = spec_find_delta old_bytes new_bytes)
    as Heq.
  { unfold find_delta, spec_find_delta, bytes_eqb.
    rewrite memcmp_eq_common_prefix, vsize_to_nat.
    rewrite scan_prefix_spec by (rewrite N2Nat.inj_min, !vsize_to_nat; simpl; lia).
    simpl (N.to_nat 0). rewrite !drop_0, N.add_0_l.
    set (p := common_prefix old_bytes new_bytes) in *.
    destruct (vsize old_bytes =? vsize new_bytes) eqn:Esz; simpl.
    - apply N.eqb_eq in Esz. assert (length old_bytes = length new_bytes) as El
        by (unfold vsize in Esz; lia).
      rewrite El, Nat.eqb_refl. simpl.
      destruct (Nat.leb_spec (length new_bytes) p) as [Hle|Hlt].
      + replace (p =? length new_bytes)%nat with true
          by (symmetry; apply Nat.eqb_eq; lia). done.
      + replace (p =? length new_bytes)%nat with false
          by (symmetry; apply Nat.eqb_neq; lia).
        replace (N.of_nat p =? vsize new_bytes) with false
          by (symmetry; apply N.eqb_neq; unfold vsize; lia).
        replace (vsize old_bytes <? vsize new_bytes) with false
          by (symmetry; apply N.ltb_ge; lia).
        rewrite andb_false_r. simpl.
        rewrite scan_suffix_spec
          by (unfold vsize in *; rewrite ?N2Nat.inj_min, ?Nat2N.id; lia).
        simpl (N.to_nat 0). rewrite !drop_0, N.add_0_l.
        fold (common_suffix (N.to_nat (N.of_nat p)) old_bytes new_bytes).
        set (q := common_suffix _ _ _).
        replace (vsize new_bytes <? _) with false
          by (symmetry; apply N.ltb_ge; unfold vsize in *; lia).
        f_equal. unfold vsize in *. lia.
    - apply N.eqb_neq in Esz.
      destruct (N.of_nat p =? vsize new_bytes) eqn:Ep; simpl.
      + apply N.eqb_eq in Ep.
        assert (vsize new_bytes < vsize old_bytes) as Hlt
          by (unfold vsize in *; lia).
        replace (vsize new_bytes <? vsize old_bytes) with true
          by (symmetry; apply N.ltb_lt; done).
        replace (vsize new_bytes <=? vsize old_bytes) with true
          by (symmetry; apply N.leb_le; lia).
        done.
      + destruct ((N.of_nat p =? vsize old_bytes)
                  && (vsize old_bytes <? vsize new_bytes)); [done|].
        rewrite scan_suffix_spec
          by (unfold vsize in *; rewrite ?N2Nat.inj_min, ?Nat2N.id; lia).
        simpl (N.to_nat 0). rewrite !drop_0, N.add_0_l.
        fold (common_suffix (N.to_nat (N.of_nat p)) old_bytes new_bytes).
        set (q := common_suffix _ _ _).
        replace (vsize new_bytes <? _) with false
          by (symmetry; apply N.ltb_ge; unfold vsize in *; lia).
        f_equal. unfold vsize in *. lia. }
  split; [done|]. split.
  - rewrite Heq. unfold spec_find_delta.
    repeat match goal with |- context [if ?c then _ else _] => destruct c eqn:? end;
      simpl; unfold vsize in *;
      repeat match goal with
             | H : (_ && _) = true |- _ => apply andb_prop in H as [? ?]
             | H : (_ =? _) = true |- _ => apply N.eqb_eq in H
             | H : (_ <? _) = true |- _ => apply N.ltb_lt in H
             end; lia.
  - intros ->. apply find_delta_same.
Qed.


(** ** Read-after-write and the contents of a new chain *)

(** The defect behind C2, seen through [read].  On a fresh image,
    [create("a")], [write("hello")] and [write("help!")] all succeed (the
    second write returns 5), yet a fresh READ handle on "a" reads the five
    bytes "p!" followed by three zero bytes, not "help!": the chain of the
    new version starts at the first byte that differs from the previous
    version. *)
Lemma read_after_write_returns_delta_suffix :
  ∃ fs,
    Seed.session 4 Seed.hello_help_read
    = Done ([Returned 0; Returned 5; Returned 5; Returned 1;
             ReturnedBytes 5
               ["p"%byte; "!"%byte; "000"%byte; "000"%byte; "000"%byte]],
            fs).
Proof. eexists. vm_compute. reflexivity. Qed.

(** C2.  The chain of a new version does not hold the whole buffer.  After
    "hello" is overwritten by "help!" the second version records size 5 and
    the delta window (3, 2); its chain is the single block 1, which holds
    the two bytes "p!" of the window followed by zeros rather than the five
    bytes of the buffer. *)
Theorem new_chain_holds_delta_suffix_only :
  ∃ rs fs inode,
    Seed.session 4 Seed.hello_help = Done (rs, fs)
    ∧ forallb success rs = true
    ∧ inodes fs !! 0%nat = Some inode
    ∧ Inode.version_history inode !! 1%nat
      = Some (VersionInfo.mk 2 Seed.stamp2 5 1 3 2 1)
    ∧ Block.next_block (block_at (blocks fs) 1) = 0
    ∧ chain_data 1 (blocks fs) 1
      = ["p"%byte; "!"%byte] ++ replicate 4094 "000"%byte
    ∧ chain_data 1 (blocks fs) 1
      ≠ list_byte_of_string "help!" ++ replicate 4091 "000"%byte.
Proof.
  do 3 eexists. split; [vm_compute; reflexivity|].
  repeat split; try (vm_compute; reflexivity).
  vm_compute. discriminate.
Qed.

(** ** Reference counts *)

(** C3.  [decrement_block_refs] does not continue from the recorded
    successor of a freed block: it steps once more and so passes over that
    successor.  On the chain 1 -> 2 -> 3 whose blocks all have reference
    count 1, blocks 1 and 3 are decremented to 0 and freed while block 2
    keeps its count, its link and its [is_used] flag. *)
Theorem decrement_block_refs_passes_over_successor :
  decrement_block_refs 8 Seed.chain_of_three 1
  = Done [Block.mk false 0 0 (empty_block_data 4);
          Block.mk false 0 0 (empty_block_data 4);
          Block.mk true 3 1 (empty_block_data 4);
          Block.mk false 0 0 (empty_block_data 4)].
Proof. vm_compute. reflexivity. Qed.

(** C4.  The reference-count invariant is broken by successful calls on a
    fresh image, in both directions.  After [create] and one [write], block 0
    heads the chain of version 1 and still has reference count 0
    ([increment_block_refs] stops at index 0 before it counts anything).
    After a one-block version, a two-block version and a rollback to the
    first, block 2 has reference count 1 and is on no chain of any
    version. *)
Theorem ref_count_invariant_broken :
  (∃ rs fs,
     Seed.session 4 Seed.hello = Done (rs, fs)
     ∧ forallb success rs = true
     ∧ referenced fs 0 = true
     ∧ Block.is_used (block_at (blocks fs) 0) = true
     ∧ Block.ref_count (block_at (blocks fs) 0) = 0)
  ∧ (∃ rs fs,
       Seed.session 4 Seed.grow_and_rollback = Done (rs, fs)
       ∧ forallb success rs = true
       ∧ referenced fs 2 = false
       ∧ Block.is_used (block_at (blocks fs) 2) = true
       ∧ Block.ref_count (block_at (blocks fs) 2) = 1).
Proof.
  split; do 2 eexists; (split; [vm_compute; reflexivity|]);
    repeat split; vm_compute; reflexivity.
Qed.

(** ** Free-space manager *)

Lemma read_into_length {A : Type} (v from_disk : list A) :
  length (read_into v from_disk) = length v.
Proof. unfold read_into. rewrite length_app, length_take, length_drop. lia. Qed.

Lemma block_at_lookup (bs : list Block.t) (i : N) (b : Block.t) :
  bs !! N.to_nat i = Some b → block_at bs i = b.
Proof. unfold block_at. by intros ->. Qed.

Lemma forallb_indices (f : N → Block.t → bool) (pre bs : list Block.t) :
  forallb (λ i, f i (block_at (pre ++ bs) i))
    (map N.of_nat (seq (length pre) (length bs)))
  = forallb (λ '(i, b), f i b)
      (zip (map N.of_nat (seq (length pre) (length bs))) bs).
Proof.
  revert pre. induction bs as [|b bs IH]; intros pre; [done|]. simpl.
  rewrite (block_at_lookup _ _ b).
  2:{ rewrite Nat2N.id. by rewrite list_lookup_middle. }
  f_equal. specialize (IH (pre ++ [b])).
  rewrite length_app, <- app_assoc in IH. simpl in IH.
  by rewrite Nat.add_1_r in IH.
Qed.

Lemma partitions_single_run (bs : list Block.t) :
  partitions [FreeBlockInfo.mk 0 (vsize bs)] bs
  = forallb (λ b, negb (Block.is_used b)) bs.
Proof.
  unfold partitions, indices.
  pose proof (forallb_indices
    (λ i b, (runs_holding i [FreeBlockInfo.mk 0 (vsize bs)]
             =? (if Block.is_used b then 0 else 1))%nat) [] bs) as H.
  simpl (length []) in H. simpl ([] ++ bs) in H. rewrite H. clear H.
  assert (∀ (l : list N) (bs' : list Block.t),
            Forall (λ i, i < vsize bs) l →
            forallb (λ '(i, b),
               (runs_holding i [FreeBlockInfo.mk 0 (vsize bs)]
                =? (if Block.is_used b then 0 else 1))%nat) (zip l bs')
            = forallb (λ b, negb (Block.is_used b)) (take (length l) bs')) as G.
  { induction l as [|i l IH]; intros bs' Hl; [done|].
    destruct bs' as [|b bs']; [done|]. simpl.
    inversion Hl as [|? ? Hi Hl']; subst.
    rewrite IH by done. f_equal.
    unfold in_run. simpl. rewrite N.add_0_l.
    replace (0 <=? i) with true by (symmetry; apply N.leb_le; lia).
    replace (i <? vsize bs) with true by (symmetry; by apply N.ltb_lt).
    simpl. destruct (Block.is_used b); reflexivity. }
  rewrite G.
  - rewrite length_map, length_seq. by rewrite firstn_all.
  - apply Forall_forall. intros i Hi.
    apply in_map_iff in Hi as (n & <- & Hn). apply in_seq in Hn.
    unfold vsize. lia.
Qed.

Section Reopen.
Variables BLOCK_SIZE MAX_FILES : N.

(** C5, as the source has it.  Constructing the file system over an
    existing image file always succeeds and leaves the blocks read from the
    image together with the free list made of the single run
    (0, total_blocks): the list set up before the image is read is never
    rebuilt from the [is_used] flags.  Free runs and blocks in use then
    partition the block indices exactly when no block of the image is in
    use. *)
Theorem free_list_after_reopen (image : Image) (can_create : bool)
    (disk_size : N) :
  ∃ fs,
    COWFileSystem_new BLOCK_SIZE MAX_FILES (Some image) can_create disk_size
    = Some fs
    ∧ total_blocks fs = disk_size / BLOCK_SIZE
    ∧ vsize (blocks fs) = total_blocks fs
    ∧ blocks fs
      = read_into
          (replicate (N.to_nat (disk_size / BLOCK_SIZE))
             (fresh_block BLOCK_SIZE))
          image.2
    ∧ free_blocks_list fs = [FreeBlockInfo.mk 0 (total_blocks fs)]
    ∧ partitions (free_blocks_list fs) (blocks fs)
      = forallb (λ b, negb (Block.is_used b)) (blocks fs).
Proof.
  destruct image as [disk_inodes disk_blocks].
  eexists. split; [reflexivity|]. simpl.
  assert (vsize (read_into (replicate (N.to_nat (disk_size / BLOCK_SIZE))
                   (fresh_block BLOCK_SIZE)) disk_blocks)
          = disk_size / BLOCK_SIZE) as Hlen.
  { unfold vsize. rewrite read_into_length, length_replicate. lia. }
  repeat split; try done.
  rewrite <- Hlen at 1. apply partitions_single_run.
Qed.
End Reopen.

(** Counterexample to C5.  The session [hello] leaves block 0 in use in the
    image file.  The file system constructed over that image has the free
    list (0, 2), not the run (1, 1) of the blocks that are not in use, and
    free runs and blocks in use do not partition the block indices. *)
Lemma free_list_not_rebuilt_on_reopen :
  ∃ fs,
    Seed.reopened = Some fs
    ∧ Block.is_used (block_at (blocks fs) 0) = true
    ∧ free_blocks_list fs = [FreeBlockInfo.mk 0 2]
    ∧ spec_free_runs (blocks fs) 0 = [FreeBlockInfo.mk 1 1]
    ∧ free_blocks_list fs ≠ spec_free_runs (blocks fs) 0
    ∧ partitions (free_blocks_list fs) (blocks fs) = false.
Proof.
  eexists. split; [vm_compute; reflexivity|].
  repeat split; try (vm_compute; reflexivity).
  vm_compute. discriminate.
Qed.

(** C6.  [garbage_collect] adds every unmarked run to the free list without
    looking at the runs already there.  On a fresh image of two blocks, where
    the free list (0, 2) and the blocks satisfy the invariants, it leaves the
    list (0, 2), (0, 2): not ascending, overlapping, and no partition of the
    block indices. *)
Theorem garbage_collect_duplicates_free_runs :
  ∃ fs fs',
    Seed.fresh 2 = Some fs
    ∧ free_blocks_list fs = [FreeBlockInfo.mk 0 2]
    ∧ ascending_coalesced (free_blocks_list fs) = true
    ∧ partitions (free_blocks_list fs) (blocks fs) = true
    ∧ garbage_collect Seed.BLOCK_SIZE Seed.fuel fs = Done fs'
    ∧ free_blocks_list fs' = [FreeBlockInfo.mk 0 2; FreeBlockInfo.mk 0 2]
    ∧ ascending_coalesced (free_blocks_list fs') = false
    ∧ partitions (free_blocks_list fs') (blocks fs') = false.
Proof.
  do 2 eexists. split; [vm_compute; reflexivity|].
  do 3 (split; [vm_compute; reflexivity|]).
  split; [vm_compute; reflexivity|].
  repeat split; vm_compute; reflexivity.
Qed.

(** ** Descriptors *)

Lemma valid_descriptor_Some (fs : COWFileSystem) (fd : Z)
    (entry : FileDescriptor.t) :
  valid_descriptor fs fd = Some entry →
  (0 ≤ fd)%Z
  ∧ file_descriptors fs !! Z.to_nat fd = Some entry
  ∧ FileDescriptor.is_valid entry = true.
Proof.
  unfold valid_descriptor. intros H.
  destruct (_ || _) eqn:E; [done|].
  apply orb_false_elim in E as [E1 _]. apply Z.ltb_ge in E1.
  destruct (file_descriptors fs !! Z.to_nat fd) as [e|]; [|done].
  destruct (FileDescriptor.is_valid e) eqn:Ev; [|done].
  by simplify_eq.
Qed.

Lemma valid_descriptor_set (fs : COWFileSystem) (fd : Z)
    (entry entry' : FileDescriptor.t) :
  valid_descriptor fs fd = Some entry →
  FileDescriptor.is_valid entry' = true →
  valid_descriptor (set_descriptor fd entry' fs) fd = Some entry'.
Proof.
  unfold valid_descriptor, set_descriptor. simpl. intros H Hv.
  rewrite length_insert.
  destruct (_ || _) eqn:E; [done|].
  destruct (file_descriptors fs !! Z.to_nat fd) as [e|] eqn:El; [|done].
  rewrite list_lookup_insert_eq by (by eapply lookup_lt_Some).
  by rewrite Hv.
Qed.

Lemma set_descriptor_twice (fs : COWFileSystem) (fd : Z)
    (e1 e2 : FileDescriptor.t) :
  set_descriptor fd e2 (set_descriptor fd e1 fs) = set_descriptor fd e2 fs.
Proof.
  unfold set_descriptor, set_file_descriptors. simpl.
  by rewrite list_insert_insert_eq.
Qed.

Lemma set_descriptor_id (fs : COWFileSystem) (fd : Z)
    (entry : FileDescriptor.t) :
  file_descriptors fs !! Z.to_nat fd = Some entry →
  set_descriptor fd entry fs = fs.
Proof.
  unfold set_descriptor, set_file_descriptors. intros H.
  rewrite list_insert_id by done. by destruct fs.
Qed.

Lemma set_current_position_twice (p q : N) (entry : FileDescriptor.t) :
  FileDescriptor.set_current_position p
    (FileDescriptor.set_current_position q entry)
  = FileDescriptor.set_current_position p entry.
Proof. reflexivity. Qed.

Lemma set_current_position_id (entry : FileDescriptor.t) :
  FileDescriptor.set_current_position
    (FileDescriptor.current_position entry) entry = entry.
Proof. by destruct entry. Qed.

(** [read] leaves the state as it is or moves the cursor of [fd]. *)
Lemma read_moves_cursor_only (BLOCK_SIZE : N) (fs : COWFileSystem) (fd : Z)
    (size : N) (entry : FileDescriptor.t) (r : Z) (buffer : list byte)
    (fs' : COWFileSystem) :
  valid_descriptor fs fd = Some entry →
  read BLOCK_SIZE fs fd size = Done (r, buffer, fs') →
  ∃ p, fs' = set_descriptor fd (FileDescriptor.set_current_position p entry) fs.
Proof.
  intros Hv H.
  assert (fs = set_descriptor fd
                 (FileDescriptor.set_current_position
                    (FileDescriptor.current_position entry) entry) fs) as Hid.
  { rewrite set_current_position_id. symmetry. apply set_descriptor_id.
    by apply valid_descriptor_Some in Hv as (_ & ? & _). }
  unfold read in H. rewrite Hv in H. unfold_bind.
  repeat case_match; simplify_eq; eauto.
Qed.

Section NoOpWrite.
Variable BLOCK_SIZE : N.

(** Reading the old content back leaves the state as it was. *)
Lemma detect_delta_restores (fs : COWFileSystem) (fd : Z)
    (entry : FileDescriptor.t) (inode : Inode.t) (buffer : list byte)
    (delta : option (N * N)) (fs2 : COWFileSystem) :
  valid_descriptor fs fd = Some entry →
  detect_delta BLOCK_SIZE fs fd entry inode buffer = Done (delta, fs2) →
  fs2 = fs.
Proof.
  intros Hv H.
  destruct (valid_descriptor_Some _ _ _ Hv) as (Hfd & Hlook & Hvalid).
  unfold detect_delta in H.
  destruct (Inode.version_count inode =? 0); [by simplify_eq|].
  destruct (0 <? Inode.size inode); [|by simplify_eq].
  unfold_bind.
  destruct (read _ _ _ _) as [[[r bytes] fs1]| |] eqn:Hread; try done.
  assert (valid_descriptor
            (set_descriptor fd (FileDescriptor.set_current_position 0 entry)
               fs) fd
          = Some (FileDescriptor.set_current_position 0 entry)) as Hv0
    by (by apply (valid_descriptor_set fs fd entry)).
  destruct (read_moves_cursor_only _ _ _ _ _ _ _ _ Hv0 Hread) as [p Hfs1].
  rewrite set_descriptor_twice, set_current_position_twice in Hfs1.
  assert (file_descriptors fs1 !! Z.to_nat fd
          = Some (FileDescriptor.set_current_position p entry)) as Hlook1.
  { subst fs1. unfold set_descriptor. simpl.
    apply list_lookup_insert_eq. by eapply lookup_lt_Some. }
  rewrite Hlook1 in H. simpl in H.
  rewrite set_current_position_twice, set_current_position_id in H.
  rewrite Hfs1, set_descriptor_twice, (set_descriptor_id fs fd entry Hlook)
    in H.
  by destruct (negb _); simplify_eq.
Qed.

(** C7.  A write whose delta detection reports an empty window (as it
    does when the buffer equals the content read back) returns the size of
    the buffer and sets the cursor of the handle to it; the other
    descriptors, the inodes with their version records, the blocks and the
    free list are unchanged. *)
Theorem noop_write_moves_cursor_only (fuel : nat) (fs : COWFileSystem)
    (fd : Z) (entry : FileDescriptor.t) (ino : nat) (inode : Inode.t)
    (buffer : list byte) (now : string) (old_content : list byte)
    (fs1 : COWFileSystem) :
  valid_descriptor fs fd = Some entry →
  FileDescriptor.mode entry = WRITE →
  FileDescriptor.inode entry = Some ino →
  inodes fs !! ino = Some inode →
  Inode.version_count inode ≠ 0 →
  Inode.size inode ≠ 0 →
  buffer ≠ [] →
  read BLOCK_SIZE
    (set_descriptor fd (FileDescriptor.set_current_position 0 entry) fs)
    fd (Inode.size inode)
  = Done (Z.of_N (Inode.size inode), old_content, fs1) →
  (find_delta (scratch (Inode.size inode) old_content) buffer).2 = 0
  ∨ scratch (Inode.size inode) old_content = buffer →
  ∃ fs',
    write BLOCK_SIZE fuel fs fd (Some buffer) now
    = Done (Z.of_N (vsize buffer), fs')
    ∧ fs' = set_descriptor fd
              (FileDescriptor.set_current_position (vsize buffer) entry) fs
    ∧ file_descriptors fs' !! Z.to_nat fd
      = Some (FileDescriptor.set_current_position (vsize buffer) entry)
    ∧ (∀ k, k ≠ Z.to_nat fd →
            file_descriptors fs' !! k = file_descriptors fs !! k)
    ∧ inodes fs' = inodes fs
    ∧ blocks fs' = blocks fs
    ∧ free_blocks_list fs' = free_blocks_list fs.
Proof.
  intros Hv Hmode Hino Hinode Hvc Hsz Hbuf Hread Hdelta.
  assert ((find_delta (scratch (Inode.size inode) old_content) buffer).2 = 0)
    as Hd.
  { destruct Hdelta as [?| ->]; [done|].
    by rewrite find_delta_same. }
  destruct (valid_descriptor_Some _ _ _ Hv) as (Hfd & Hlook & Hvalid).
  destruct (detect_delta BLOCK_SIZE fs fd entry inode buffer)
    as [[delta fs2]| |] eqn:Hdetect.
  2,3: (unfold detect_delta in Hdetect;
        rewrite (proj2 (N.eqb_neq _ _) Hvc) in Hdetect;
        replace (0 <? Inode.size inode) with true in Hdetect
          by (symmetry; apply N.ltb_lt; lia);
        rewrite Hread in Hdetect; simpl in Hdetect;
        by destruct (negb _)).
  assert (fs2 = fs) as -> by (by eapply detect_delta_restores).
  assert (∃ ds, delta = Some (ds, 0)) as [ds ->].
  { unfold detect_delta in Hdetect.
    rewrite (proj2 (N.eqb_neq _ _) Hvc) in Hdetect.
    replace (0 <? Inode.size inode) with true in Hdetect
      by (symmetry; apply N.ltb_lt; lia).
    rewrite Hread in Hdetect. simpl in Hdetect.
    rewrite Z.eqb_refl in Hdetect. simpl in Hdetect.
    destruct (find_delta _ _) as [ds dsz]. simpl in Hd. subst dsz.
    exists ds. by simplify_eq. }
  eexists. split.
  - unfold write. rewrite Hv, Hmode, Hino. simpl.
    replace (vsize buffer =? 0) with false.
    2:{ symmetry. apply N.eqb_neq. unfold vsize.
        destruct buffer; [done|]. simpl. lia. }
    unfold inode_at. rewrite Hinode. simpl. rewrite Hdetect. simpl.
    rewrite Hlook. reflexivity.
  - split; [done|]. unfold set_descriptor. simpl. repeat split.
    + apply list_lookup_insert_eq. by eapply lookup_lt_Some.
    + intros k Hk. by apply list_lookup_insert_ne.
Qed.
End NoOpWrite.

(** The second write of "hello" in scenario 2 of the specification. *)
Lemma noop_write_moves_cursor_only_witness :
  ∃ fs',
    write Seed.BLOCK_SIZE Seed.fuel (Seed.after 4 Seed.hello) 0
      (Seed.bytes "hello") Seed.stamp2
    = Done (5%Z, fs')
    ∧ inodes fs' = inodes (Seed.after 4 Seed.hello)
    ∧ blocks fs' = blocks (Seed.after 4 Seed.hello)
    ∧ free_blocks_list fs' = free_blocks_list (Seed.after 4 Seed.hello).
Proof.
  destruct (noop_write_moves_cursor_only Seed.BLOCK_SIZE Seed.fuel
              (Seed.after 4 Seed.hello) 0
              (FileDescriptor.mk (Some 0%nat) WRITE 5 true) 0%nat
              (Inode.mk true "a" 0 5 1
                 [VersionInfo.mk 1 Seed.stamp1 5 0 0 5 0])
              (list_byte_of_string "hello") Seed.stamp2
              (list_byte_of_string "hello")
              (set_descriptor 0
                 (FileDescriptor.mk (Some 0%nat) WRITE 5 true)
                 (Seed.after 4 Seed.hello)))
    as (fs' & Hw & _ & _ & _ & Hi & Hb & Hf).
  - vm_compute; reflexivity.
  - reflexivity.
  - reflexivity.
  - vm_compute; reflexivity.
  - vm_compute; discriminate.
  - vm_compute; discriminate.
  - discriminate.
  - vm_compute; reflexivity.
  - right. vm_compute; reflexivity.
  - exists fs'. repeat split; assumption.
Defined.

(** ** Blocks *)

Lemma vsize_lt {A : Type} (v : list A) (i : N) :
  i < vsize v ↔ (N.to_nat i < length v)%nat.
Proof. unfold vsize. lia. Qed.

Lemma block_upd_vsize (f : Block.t → Block.t) (bs : list Block.t) (i : N) :
  vsize (block_upd f bs i) = vsize bs.
Proof. unfold vsize, block_upd. by rewrite length_insert. Qed.

Lemma block_at_upd_eq (f : Block.t → Block.t) (bs : list Block.t) (i : N) :
  i < vsize bs → block_at (block_upd f bs i) i = f (block_at bs i).
Proof.
  intros Hi. unfold block_at at 1. unfold block_upd.
  by rewrite list_lookup_insert_eq by (by apply vsize_lt).
Qed.

Lemma block_at_upd_ne (f : Block.t → Block.t) (bs : list Block.t) (i j : N) :
  i ≠ j → block_at (block_upd f bs i) j = block_at bs j.
Proof.
  intros Hij. unfold block_at at 1. unfold block_upd.
  rewrite list_lookup_insert_ne by lia. done.
Qed.

Lemma free_block_vsize (bs : list Block.t) (i : N) :
  vsize (free_block bs i) = vsize bs.
Proof. unfold free_block. destruct (i <? vsize bs); [apply block_upd_vsize|done]. Qed.

Lemma sum_list_with_insert {A : Type} (f : A → nat) (l : list A) (i : nat)
    (x y : A) :
  l !! i = Some x →
  (sum_list_with f (<[i := y]> l) + f x = sum_list_with f l + f y)%nat.
Proof.
  revert i. induction l as [|a l IH]; intros [|i] H; simplify_eq/=; [lia|].
  specialize (IH i H). lia.
Qed.

Lemma total_refs_upd (f : Block.t → Block.t) (bs : list Block.t) (i : N) :
  i < vsize bs →
  (total_refs (block_upd f bs i) + N.to_nat (Block.ref_count (block_at bs i))
   = total_refs bs + N.to_nat (Block.ref_count (f (block_at bs i))))%nat.
Proof.
  intros Hi. unfold total_refs, block_upd.
  destruct (bs !! N.to_nat i) as [b|] eqn:E.
  - rewrite (block_at_lookup _ _ _ E).
    apply (sum_list_with_insert (λ b, N.to_nat (Block.ref_count b))). done.
  - apply lookup_ge_None in E. apply vsize_lt in Hi. lia.
Qed.

Lemma chains_ranked_spec (rank : N → nat) (bs : list Block.t) :
  chains_ranked rank bs = true ↔ ranked rank bs.
Proof.
  unfold chains_ranked, ranked, indices. rewrite forallb_forall. split.
  - intros H i Hi. specialize (H i).
    assert (In i (map N.of_nat (seq 0 (length bs)))) as Hin.
    { apply in_map_iff. exists (N.to_nat i). split; [lia|].
      apply in_seq. apply vsize_lt in Hi. lia. }
    specialize (H Hin). simpl in H.
    apply andb_prop in H as [H1 H2]. apply N.ltb_lt in H1. split; [done|].
    apply orb_prop in H2 as [H2|H2]; [apply orb_prop in H2 as [H2|H2]|].
    + left. by apply N.eqb_eq.
    + right; left. by apply N.eqb_eq.
    + right; right. by apply Nat.ltb_lt.
  - intros H i Hin. apply in_map_iff in Hin as (n & <- & Hn).
    apply in_seq in Hn. destruct (H (N.of_nat n)) as [H1 H2].
    { unfold vsize. lia. }
    simpl. apply andb_true_intro. split; [by apply N.ltb_lt|].
    destruct H2 as [H2|[H2|H2]].
    + rewrite (proj2 (N.eqb_eq _ _) H2). done.
    + rewrite (proj2 (N.eqb_eq _ _) H2). by rewrite orb_true_r.
    + rewrite (proj2 (Nat.ltb_lt _ _) H2). by rewrite !orb_true_r.
Qed.

Lemma ranked_set_ref_count (rank : N → nat) (bs : list Block.t) (i r : N) :
  ranked rank bs →
  ranked rank (block_upd (λ b, Block.set_ref_count r b) bs i).
Proof.
  intros H j Hj. rewrite block_upd_vsize in *.
  destruct (N.eq_dec i j) as [->|Hne].
  - rewrite block_at_upd_eq by done. simpl. by apply H.
  - rewrite block_at_upd_ne by done. by apply H.
Qed.

Lemma ranked_free_block (rank : N → nat) (bs : list Block.t) (i : N) :
  ranked rank bs → ranked rank (free_block bs i).
Proof.
  intros H j Hj. rewrite free_block_vsize in Hj. rewrite free_block_vsize.
  unfold free_block. destruct (i <? vsize bs) eqn:Hi; [|by apply H].
  apply N.ltb_lt in Hi.
  destruct (N.eq_dec i j) as [->|Hne].
  - rewrite block_at_upd_eq by done. simpl. split; [lia|]. by right; left.
  - rewrite block_at_upd_ne by done. by apply H.
Qed.

Lemma total_refs_free_block (bs : list Block.t) (i : N) :
  total_refs (free_block bs i) = total_refs bs.
Proof.
  unfold free_block. destruct (i <? vsize bs) eqn:Hi; [|done].
  apply N.ltb_lt in Hi.
  pose proof (total_refs_upd
    (λ b, Block.mk false 0 (Block.ref_count b) (Block.data b)) bs i Hi) as H.
  simpl in H. lia.
Qed.

(** With chains that are ranked, the walk of [decrement_block_refs] comes to
    an end without leaving the block array. *)
Lemma decrement_block_refs_returns (rank : N → nat) (bs : list Block.t)
    (block_index : N) :
  ranked rank bs →
  ∃ fuel0 bs',
    (∀ fuel, (fuel0 ≤ fuel)%nat →
       decrement_block_refs fuel bs block_index = Done bs')
    ∧ ranked rank bs' ∧ vsize bs' = vsize bs.
Proof.
  remember (total_refs bs) as t eqn:Ht. revert bs block_index Ht.
  induction t as [t IHt] using lt_wf_ind. intros bs block_index Ht.
  remember (rank block_index) as r eqn:Hr. revert block_index Hr.
  induction r as [r IHr] using lt_wf_ind. intros block_index Hr Hranked.
  destruct (negb (block_index =? 0) && (block_index <? vsize bs)) eqn:Hc.
  2:{ exists 1%nat, bs. split; [|done].
      intros [|fuel] Hf; [lia|]. simpl. by rewrite Hc. }
  apply andb_prop in Hc as [Hnz Hin].
  apply negb_true_iff, N.eqb_neq in Hnz. apply N.ltb_lt in Hin.
  destruct (Hranked _ Hin) as [Hnext Hrank].
  destruct (0 <? Block.ref_count (block_at bs block_index)) eqn:Href.
  - apply N.ltb_lt in Href.
    set (bs1 := block_upd
                  (λ b, Block.set_ref_count (Block.ref_count b - 1) b)
                  bs block_index).
    assert (Block.ref_count (block_at bs1 block_index)
            = Block.ref_count (block_at bs block_index) - 1) as Href1
      by (unfold bs1; by rewrite block_at_upd_eq).
    assert (Block.next_block (block_at bs1 block_index)
            = Block.next_block (block_at bs block_index)) as Hnext1
      by (unfold bs1; by rewrite block_at_upd_eq).
    assert (ranked rank bs1) as Hranked1 by (by apply ranked_set_ref_count).
    assert (vsize bs1 = vsize bs) as Hsize1 by apply block_upd_vsize.
    destruct (Block.ref_count (block_at bs1 block_index) =? 0) eqn:Hzero.
    + assert (total_refs (free_block bs1 block_index) < t)%nat as Hlt.
      { rewrite total_refs_free_block. subst t.
        pose proof (total_refs_upd
          (λ b, Block.set_ref_count (Block.ref_count b - 1) b) bs block_index
          Hin) as H. simpl in H. fold bs1 in H. lia. }
      destruct (IHt _ Hlt (free_block bs1 block_index)
                  (Block.next_block
                     (block_at (free_block bs1 block_index)
                        (Block.next_block (block_at bs1 block_index))))
                  eq_refl (ranked_free_block _ _ _ Hranked1))
        as (fuel0 & bs' & Hrun & Hranked' & Hsize').
      exists (S fuel0), bs'. split.
      * intros [|fuel] Hf; [lia|]. simpl.
        rewrite (proj2 (N.eqb_neq _ _) Hnz), (proj2 (N.ltb_lt _ _) Hin).
        simpl. rewrite (proj2 (N.ltb_lt _ _) Href). fold bs1. rewrite Hzero.
        rewrite free_block_vsize, Hsize1, Hnext1.
        rewrite (proj2 (N.ltb_lt _ _) Hnext). rewrite <- Hnext1.
        apply Hrun. lia.
      * split; [done|]. by rewrite Hsize', free_block_vsize.
    + exists 1%nat, bs1. split; [|done].
      intros [|fuel] Hf; [lia|]. simpl.
      rewrite (proj2 (N.eqb_neq _ _) Hnz), (proj2 (N.ltb_lt _ _) Hin).
      simpl. rewrite (proj2 (N.ltb_lt _ _) Href). fold bs1. by rewrite Hzero.
  - destruct (N.eq_dec (Block.next_block (block_at bs block_index)) 0)
      as [Hz|Hnz'].
    + exists 2%nat, bs. split; [|done].
      intros [|[|fuel]] Hf; try lia. simpl.
      rewrite (proj2 (N.eqb_neq _ _) Hnz), (proj2 (N.ltb_lt _ _) Hin).
      simpl. rewrite Href, Hz. done.
    + destruct Hrank as [?|[?|Hrank]]; try done.
      destruct (IHr _ ltac:(subst r; exact Hrank) _ eq_refl Hranked)
        as (fuel0 & bs' & Hrun & Hranked' & Hsize').
      exists (S fuel0), bs'. split; [|done].
      intros [|fuel] Hf; [lia|]. simpl.
      rewrite (proj2 (N.eqb_neq _ _) Hnz), (proj2 (N.ltb_lt _ _) Hin).
      simpl. rewrite Href. apply Hrun. lia.
Qed.

(** ** Version histories *)

Lemma rollback_scan_returns (rank : N → nat) (history : list VersionInfo.t)
    (version_number : N) (bs : list Block.t) :
  ranked rank bs →
  ∃ fuel0 bs',
    (∀ fuel, (fuel0 ≤ fuel)%nat →
       rollback_scan fuel history version_number bs
       = Done (kept version_number history, bs'))
    ∧ ranked rank bs' ∧ vsize bs' = vsize bs.
Proof.
  revert bs. induction history as [|v rest IH]; intros bs Hranked.
  { exists 0%nat, bs. by split. }
  unfold kept. simpl.
  destruct (VersionInfo.version_number v <=? version_number) eqn:Hkeep.
  - destruct (IH bs Hranked) as (fuel0 & bs' & Hrun & Hr' & Hs').
    exists fuel0, bs'. split; [|done].
    intros fuel Hf. by rewrite (Hrun fuel Hf).
  - destruct (VersionInfo.block_index v <? vsize bs) eqn:Hin.
    + destruct (decrement_block_refs_returns rank bs
                  (VersionInfo.block_index v) Hranked)
        as (f1 & bs1 & Hrun1 & Hr1 & Hs1).
      destruct (IH bs1 Hr1) as (f2 & bs' & Hrun2 & Hr' & Hs').
      exists (f1 `max` f2)%nat, bs'. split; [|split; [done|congruence]].
      intros fuel Hf. rewrite (Hrun1 fuel) by lia. simpl.
      apply Hrun2. lia.
    + destruct (IH bs Hranked) as (fuel0 & bs' & Hrun & Hr' & Hs').
      exists fuel0, bs'. split; [|done].
      intros fuel Hf. simpl. by apply Hrun.
Qed.

Lemma rollback_scan_all_kept (fuel : nat) (history : list VersionInfo.t)
    (version_number : N) (bs : list Block.t) :
  Forall (λ v, VersionInfo.version_number v ≤ version_number) history →
  rollback_scan fuel history version_number bs = Done (history, bs).
Proof.
  induction 1 as [|v rest Hv _ IH]; [done|]. simpl.
  rewrite (proj2 (N.leb_le _ _) Hv), IH. done.
Qed.

Lemma numbered_lookup (pos : nat) (history : list VersionInfo.t) (k : nat)
    (v : VersionInfo.t) :
  numbered pos history = true → history !! k = Some v →
  VersionInfo.version_number v = N.of_nat (S (pos + k)).
Proof.
  revert pos k. induction history as [|x rest IH]; intros pos k Hn Hk;
    [done|].
  simpl in Hn. apply andb_prop in Hn as [Hx Hrest]. apply N.eqb_eq in Hx.
  destruct k as [|k]; simplify_eq/=.
  - rewrite Hx. lia.
  - rewrite (IH (S pos) k Hrest Hk). lia.
Qed.

Lemma numbered_kept (pos : nat) (history : list VersionInfo.t)
    (version_number : N) :
  numbered pos history = true →
  kept version_number history = take (N.to_nat version_number - pos) history.
Proof.
  revert pos. induction history as [|x rest IH]; intros pos Hn.
  { by rewrite take_nil. }
  simpl in Hn. apply andb_prop in Hn as [Hx Hrest]. apply N.eqb_eq in Hx.
  unfold kept in *. simpl. rewrite (IH (S pos) Hrest), Hx.
  destruct (N.leb_spec (N.of_nat (S pos)) version_number) as [Hle|Hgt].
  - replace (N.to_nat version_number - pos)%nat
      with (S (N.to_nat version_number - S pos)) by lia. done.
  - replace (N.to_nat version_number - pos)%nat with 0%nat by lia.
    replace (N.to_nat version_number - S pos)%nat with 0%nat by lia.
    by rewrite take_0.
Qed.

Lemma numbered_take (pos n : nat) (history : list VersionInfo.t) :
  numbered pos history = true → numbered pos (take n history) = true.
Proof.
  revert pos n. induction history as [|x rest IH]; intros pos [|n] Hn;
    try done.
  simpl in *. apply andb_prop in Hn as [Hx Hrest].
  by rewrite Hx, IH.
Qed.

Lemma find_version_numbered (pos : nat) (history : list VersionInfo.t)
    (version_number : N) :
  numbered pos history = true →
  (pos < N.to_nat version_number ≤ pos + length history)%nat →
  find_version history pos version_number
  = Some (N.to_nat version_number - 1)%nat.
Proof.
  revert pos. induction history as [|x rest IH]; intros pos Hn Hv;
    [simpl in Hv; lia|].
  simpl in *. apply andb_prop in Hn as [Hx Hrest]. apply N.eqb_eq in Hx.
  rewrite Hx.
  destruct (N.eqb_spec (N.of_nat (S pos)) version_number) as [<-|Hne].
  - f_equal. lia.
  - apply IH; [done|lia].
Qed.

Lemma find_version_None (pos : nat) (history : list VersionInfo.t)
    (version_number : N) :
  find_version history pos version_number = None
  ↔ forallb (λ v, negb (VersionInfo.version_number v =? version_number))
      history = true.
Proof.
  revert pos. induction history as [|x rest IH]; intros pos; [done|].
  simpl. destruct (VersionInfo.version_number x =? version_number); simpl.
  - split; discriminate.
  - apply IH.
Qed.

Lemma find_version_in_history (pos : nat) (history : list VersionInfo.t)
    (version_number : N) (k : nat) :
  find_version history pos version_number = Some k →
  ∃ v, history !! (k - pos)%nat = Some v
       ∧ VersionInfo.version_number v = version_number ∧ (pos ≤ k)%nat.
Proof.
  revert pos. induction history as [|x rest IH]; intros pos H; [done|].
  simpl in H.
  destruct (N.eqb_spec (VersionInfo.version_number x) version_number)
    as [Heq|Hne].
  - simplify_eq. exists x. rewrite Nat.sub_diag. done.
  - destruct (IH _ H) as (v & Hv & Hnum & Hle). exists v.
    replace (k - pos)%nat with (S (k - S pos)) by lia. split; [done|].
    split; [done|lia].
Qed.

(** ** Rollback *)

Lemma rollback_accepts (fuel : nat) (fs : COWFileSystem) (fd : Z)
    (version_number : N) (entry : FileDescriptor.t) (ino : nat)
    (inode : Inode.t) (target : VersionInfo.t) (bs : list Block.t) :
  valid_descriptor fs fd = Some entry →
  FileDescriptor.inode entry = Some ino →
  inodes fs !! ino = Some inode →
  version_number ≠ 0 →
  version_number ≤ Inode.version_count inode →
  numbered 0 (Inode.version_history inode) = true →
  Inode.version_history inode !! (N.to_nat version_number - 1)%nat
  = Some target →
  rollback_scan fuel (Inode.version_history inode) version_number (blocks fs)
  = Done (take (N.to_nat version_number) (Inode.version_history inode), bs) →
  rollback_to_version fuel fs fd version_number
  = Done (true, rolled_back fs fd entry ino inode version_number target bs).
Proof.
  intros Hv Hino Hinode Hnz Hle Hnum Htarget Hscan.
  unfold rollback_to_version. rewrite Hv, Hino. unfold inode_at.
  rewrite Hinode. simpl.
  rewrite (proj2 (N.eqb_neq _ _) Hnz). simpl.
  replace (Inode.version_count inode <? version_number) with false
    by (symmetry; apply N.ltb_ge; lia).
  rewrite (find_version_numbered 0 _ version_number Hnum).
  2:{ apply lookup_lt_Some in Htarget. lia. }
  rewrite Hscan. simpl.
  rewrite lookup_take_lt by lia. rewrite Htarget. reflexivity.
Qed.

Lemma rolled_back_again (fs : COWFileSystem) (fd : Z)
    (entry : FileDescriptor.t) (ino : nat) (inode : Inode.t)
    (version_number : N) (target : VersionInfo.t) (bs : list Block.t) :
  let fs' := rolled_back fs fd entry ino inode version_number target bs in
  rolled_back fs' fd
    (FileDescriptor.set_current_position
       (if FileMode_eqb (FileDescriptor.mode entry) WRITE
        then VersionInfo.size target else 0) entry)
    ino
    (Inode.mk (Inode.is_used inode) (Inode.filename inode)
       (VersionInfo.block_index target) (VersionInfo.size target)
       version_number
       (take (N.to_nat version_number) (Inode.version_history inode)))
    version_number target bs
  = fs'.
Proof.
  unfold rolled_back, set_descriptor, set_inode, set_blocks,
    set_file_descriptors, set_inodes. simpl.
  rewrite !list_insert_insert_eq, take_take, Nat.min_id. reflexivity.
Qed.

(** C9.  [rollback_to_version(fd, v)] returns [false], leaving the state
    as it is, exactly when the descriptor is invalid, has no inode, [v] is 0,
    [v] exceeds [version_count], or no record of the history is numbered [v].
    Otherwise, on a history numbered 1, 2, ... and chains without cycles, it
    returns [true]: the history is cut to its first [v] records,
    [first_block] and [size] are those of record [v], [version_count] is [v],
    and the cursor is the new size for a WRITE handle and 0 otherwise.  The
    same call repeated at once returns [true] and leaves that state as it
    is. *)
Theorem rollback_to_version_contract (rank : N → nat) (fs : COWFileSystem)
    (fd : Z) (version_number : N) :
  descriptor_in_table fs fd = true →
  history_numbered fs fd = true →
  chains_ranked rank (blocks fs) = true →
  ∃ fuel0, ∀ fuel, (fuel0 ≤ fuel)%nat →
    ((∃ fs', rollback_to_version fuel fs fd version_number = Done (false, fs'))
     ↔ rollback_rejected fs fd version_number = true)
    ∧ (rollback_rejected fs fd version_number = true →
       rollback_to_version fuel fs fd version_number = Done (false, fs))
    ∧ (rollback_rejected fs fd version_number = false →
       ∃ entry ino inode target bs',
         valid_descriptor fs fd = Some entry
         ∧ FileDescriptor.inode entry = Some ino
         ∧ inodes fs !! ino = Some inode
         ∧ Inode.version_history inode !! (N.to_nat version_number - 1)%nat
           = Some target
         ∧ VersionInfo.version_number target = version_number
         ∧ rollback_to_version fuel fs fd version_number
           = Done (true,
                   rolled_back fs fd entry ino inode version_number target bs')
         ∧ rollback_to_version fuel
             (rolled_back fs fd entry ino inode version_number target bs')
             fd version_number
           = Done (true,
                   rolled_back fs fd entry ino inode version_number target
                     bs')).
Proof.
  intros Htable Hnumbered Hranked. apply chains_ranked_spec in Hranked.
  assert (∀ fuel, rollback_rejected fs fd version_number = true →
            rollback_to_version fuel fs fd version_number = Done (false, fs))
    as Hreject.
  { intros fuel. unfold rollback_rejected, rollback_to_version.
    destruct (valid_descriptor fs fd) as [entry|]; [|done].
    destruct (FileDescriptor.inode entry) as [ino|]; [|done].
    unfold inode_at. destruct (inodes fs !! ino) as [inode|]; [|done]. simpl.
    destruct ((version_number =? 0)
              || (Inode.version_count inode <? version_number)); [done|].
    simpl. intros H. apply find_version_None with (pos := 0%nat) in H.
    by rewrite H. }
  destruct (rollback_rejected fs fd version_number) eqn:Hrej.
  { exists 0%nat. intros fuel _. split; [|split; [auto|done]].
    split; [done|]. intros _. exists fs. by apply Hreject. }
  unfold rollback_rejected in Hrej.
  destruct (valid_descriptor fs fd) as [entry|] eqn:Hv; [|done].
  destruct (valid_descriptor_Some _ _ _ Hv) as (Hfd & Hlook & Hvalid).
  destruct (FileDescriptor.inode entry) as [ino|] eqn:Hino; [|done].
  unfold descriptor_in_table in Htable. rewrite Hlook, Hino in Htable.
  apply Nat.ltb_lt in Htable.
  destruct (inodes fs !! ino) as [inode|] eqn:Hinode.
  2:{ apply lookup_ge_None in Hinode. lia. }
  unfold history_numbered in Hnumbered.
  rewrite Hlook, Hino, Hinode in Hnumbered.
  apply orb_false_elim in Hrej as [Hrej Hfind].
  apply orb_false_elim in Hrej as [Hnz Hle].
  apply N.eqb_neq in Hnz. apply N.ltb_ge in Hle.
  destruct (find_version (Inode.version_history inode) 0 version_number)
    as [k|] eqn:Hk.
  2:{ apply find_version_None in Hk. congruence. }
  destruct (find_version_in_history _ _ _ _ Hk) as (target & Htarget & Hnum & _).
  rewrite Nat.sub_0_r in Htarget.
  pose proof (numbered_lookup _ _ _ _ Hnumbered Htarget) as Hkv.
  assert (k = (N.to_nat version_number - 1)%nat) as -> by lia.
  destruct (rollback_scan_returns rank (Inode.version_history inode)
              version_number (blocks fs) Hranked)
    as (fuel0 & bs' & Hscan & _ & _).
  rewrite (numbered_kept 0 _ version_number Hnumbered), Nat.sub_0_r in Hscan.
  exists fuel0. intros fuel Hfuel.
  assert (rollback_to_version fuel fs fd version_number
          = Done (true,
                  rolled_back fs fd entry ino inode version_number target bs'))
    as Hfirst.
  { apply rollback_accepts; auto. }
  split; [|split; [done|]].
  { split; [|done]. intros [fs' H]. congruence. }
  intros _. exists entry, ino, inode, target, bs'.
  do 5 (split; [done|]). split; [done|].
  rewrite <- (rolled_back_again fs fd entry ino inode version_number target bs')
    at 2.
  apply rollback_accepts; simpl.
  - unfold rolled_back. apply (valid_descriptor_set _ _ entry); [|done].
    exact Hv.
  - done.
  - unfold rolled_back, set_descriptor, set_inode. simpl.
    by apply list_lookup_insert_eq.
  - done.
  - lia.
  - by apply numbered_take.
  - rewrite lookup_take_lt by lia. done.
  - rewrite take_take, Nat.min_id. apply rollback_scan_all_kept.
    apply Forall_forall. intros v Hin.
    apply list_elem_of_In, list_elem_of_lookup in Hin as [j Hj].
    pose proof (lookup_lt_Some _ _ _ Hj) as Hlen.
    rewrite length_take in Hlen.
    rewrite lookup_take_lt in Hj by lia.
    rewrite (numbered_lookup _ _ _ _ Hnumbered Hj). lia.
Qed.

(** Rolling the file of the seed scenario back from version 2 to version 1. *)
Lemma rollback_to_version_contract_witness :
  rollback_rejected (Seed.after 4 Seed.hello_help) 0 1 = false
  ∧ ∃ fuel0, ∀ fuel, (fuel0 ≤ fuel)%nat →
      ∃ fs',
        rollback_to_version fuel (Seed.after 4 Seed.hello_help) 0 1
        = Done (true, fs')
        ∧ rollback_to_version fuel fs' 0 1 = Done (true, fs').
Proof.
  assert (rollback_rejected (Seed.after 4 Seed.hello_help) 0 1 = false)
    as Hrej by (vm_compute; reflexivity).
  split; [exact Hrej|].
  destruct (rollback_to_version_contract (λ _, 0%nat)
              (Seed.after 4 Seed.hello_help) 0 1) as [fuel0 H].
  - vm_compute; reflexivity.
  - vm_compute; reflexivity.
  - vm_compute; reflexivity.
  - exists fuel0. intros fuel Hfuel.
    destruct (H fuel Hfuel) as (_ & _ & Hs).
    destruct (Hs Hrej) as (entry & ino & inode & target & bs' & _ & _ & _ & _
                           & _ & H1 & H2).
    eexists. split; [exact H1|exact H2].
Defined.

(** ** Descriptors and their inodes *)

Lemma descriptors_attached_spec (fs : COWFileSystem) :
  descriptors_attached fs = true ↔ attached fs.
Proof.
  unfold descriptors_attached, attached. rewrite forallb_forall. split.
  - intros H k entry Hk Hvalid.
    assert (In entry (file_descriptors fs)) as Hin.
    { apply list_elem_of_In, list_elem_of_lookup. eauto. }
    specialize (H entry Hin). rewrite Hvalid in H. simpl in H.
    destruct (FileDescriptor.inode entry) as [ino|]; [|done].
    destruct (inodes fs !! ino) as [inode|] eqn:Hinode; [|done].
    by exists ino, inode.
  - intros H entry Hin.
    apply list_elem_of_In, list_elem_of_lookup in Hin as [k Hk].
    destruct (FileDescriptor.is_valid entry) eqn:Hvalid; [|done].
    destruct (H k entry Hk Hvalid) as (ino & inode & -> & -> & ->). done.
Qed.

Lemma keeps_handles_attached (fs fs' : COWFileSystem) :
  keeps_handles fs fs' → attached fs → attached fs'.
Proof.
  intros [Hfd Hin] Hatt k entry' Hk Hvalid.
  destruct (Hfd k entry' Hk Hvalid) as (entry & Hk0 & Hvalid0 & Heq).
  destruct (Hatt k entry Hk0 Hvalid0) as (ino & inode & Hino & Hinode & Hused).
  destruct (Hin ino inode Hinode Hused) as (inode' & Hinode' & Hused').
  exists ino, inode'. rewrite <- Heq. done.
Qed.

Lemma keeps_handles_refl (fs : COWFileSystem) : keeps_handles fs fs.
Proof.
  split; [intros k e Hk Hv; by exists e|intros i x Hi Hx; by exists x].
Qed.

Lemma keeps_handles_trans (fs1 fs2 fs3 : COWFileSystem) :
  keeps_handles fs1 fs2 → keeps_handles fs2 fs3 → keeps_handles fs1 fs3.
Proof.
  intros [Hfd12 Hin12] [Hfd23 Hin23]. split.
  - intros k e3 Hk Hvalid.
    destruct (Hfd23 k e3 Hk Hvalid) as (e2 & Hk2 & Hv2 & Heq2).
    destruct (Hfd12 k e2 Hk2 Hv2) as (e1 & Hk1 & Hv1 & Heq1).
    exists e1. rewrite Heq1. done.
  - intros i inode Hi Hused.
    destruct (Hin12 i inode Hi Hused) as (inode2 & Hi2 & Hused2). eauto.
Qed.

Lemma keeps_handles_frame (fs fs' : COWFileSystem) :
  file_descriptors fs' = file_descriptors fs → inodes fs' = inodes fs →
  keeps_handles fs fs'.
Proof.
  intros Hfd Hin. unfold keeps_handles. rewrite Hfd, Hin.
  split; [intros k e Hk Hv; by exists e|intros i x Hi Hx; by exists x].
Qed.

Lemma keeps_handles_set_descriptor (fs : COWFileSystem) (fd : Z)
    (entry entry' : FileDescriptor.t) :
  file_descriptors fs !! Z.to_nat fd = Some entry →
  FileDescriptor.inode entry' = FileDescriptor.inode entry →
  (FileDescriptor.is_valid entry' = true →
   FileDescriptor.is_valid entry = true) →
  keeps_handles fs (set_descriptor fd entry' fs).
Proof.
  intros Hlook Hino Hvalid. split; [|eauto].
  intros k e Hk Hv. unfold set_descriptor in Hk. simpl in Hk.
  destruct (decide (k = Z.to_nat fd)) as [->|Hne].
  - rewrite list_lookup_insert_eq in Hk by (by eapply lookup_lt_Some).
    simplify_eq. eauto.
  - rewrite list_lookup_insert_ne in Hk by done. eauto.
Qed.

Lemma keeps_handles_set_inode (fs : COWFileSystem) (ino : nat)
    (inode inode' : Inode.t) :
  inodes fs !! ino = Some inode →
  (Inode.is_used inode = true → Inode.is_used inode' = true) →
  keeps_handles fs (set_inode ino inode' fs).
Proof.
  intros Hlook Hused. split; [eauto|].
  intros i x Hi Hx. unfold set_inode. simpl.
  destruct (decide (i = ino)) as [->|Hne].
  - rewrite list_lookup_insert_eq by (by eapply lookup_lt_Some).
    simplify_eq. eauto.
  - rewrite list_lookup_insert_ne by done. eauto.
Qed.

(** ** Frames of the block-level operations *)

Lemma allocate_block_tables (fs fs' : COWFileSystem) (r : option N) :
  allocate_block fs = Done (r, fs') → same_tables fs fs'.
Proof.
  unfold allocate_block. intros H.
  repeat case_match; simplify_eq; done.
Qed.

Section Frames.
Variable BLOCK_SIZE : N.

Lemma write_blocks_loop_tables (n fuel : nat) (fs fs' : COWFileSystem)
    (i first_block prev_block : N) (data : list byte) (remaining : N)
    (ok : bool) (first_block' prev_block' : N) :
  write_blocks_loop BLOCK_SIZE n fuel fs i first_block prev_block data
    remaining
  = Done (ok, first_block', prev_block', fs') →
  same_tables fs fs'.
Proof.
  revert fs i first_block prev_block data remaining.
  induction n as [|n IH]; intros fs i first_block prev_block data remaining H.
  { simpl in H. by simplify_eq. }
  simpl in H. unfold_bind.
  destruct (allocate_block fs) as [[r fs1]| |] eqn:Halloc; try done.
  destruct (allocate_block_tables _ _ _ Halloc) as [Hfd Hin].
  destruct r as [current_block|].
  - apply IH in H as [Hfd' Hin']. simpl in *. split; congruence.
  - destruct (if negb (first_block =? 0) then _ else _); simplify_eq.
    done.
Qed.

Lemma write_delta_blocks_tables (fuel : nat) (fs fs' : COWFileSystem)
    (buffer : list byte) (size delta_start : N) (ok : bool)
    (first_block : N) :
  write_delta_blocks BLOCK_SIZE fuel fs buffer size delta_start
  = Done (ok, first_block, fs') →
  same_tables fs fs'.
Proof.
  unfold write_delta_blocks. intros H.
  destruct ((size =? 0) || (size <=? delta_start)); [by simplify_eq|].
  unfold_bind.
  destruct (write_blocks_loop _ _ _ _ _ _ _ _ _)
    as [[[[ok' fb] pb] fs1]| |] eqn:Hloop; try done.
  apply write_blocks_loop_tables in Hloop as [Hfd Hin].
  destruct ok'; simplify_eq; [|done].
  destruct (pb <? vsize (blocks fs1)); done.
Qed.

Lemma sweep_tables (steps : nat) (block_used : list bool)
    (fs : COWFileSystem) (start : N) :
  same_tables fs (sweep BLOCK_SIZE steps block_used fs start).
Proof.
  revert fs start. induction steps as [|steps IH]; intros fs start; [done|].
  simpl. destruct (start <? vsize (blocks fs)); [|done].
  destruct (negb (used_at block_used start)); [|apply IH].
  destruct (sweep_run _ _ _ _ _ _) as [bs count].
  destruct (IH (set_blocks bs
                  (set_free_blocks_list
                     (if 0 <? count
                      then add_to_free_list (free_blocks_list fs) start count
                      else free_blocks_list fs) fs)) (start + count + 1))
    as [Hfd Hin].
  done.
Qed.

(** ** The operations keep the descriptors attached *)

Lemma read_keeps_handles (fs fs' : COWFileSystem) (fd : Z) (size : N)
    (r : Z) (buffer : list byte) :
  read BLOCK_SIZE fs fd size = Done (r, buffer, fs') → keeps_handles fs fs'.
Proof.
  intros H. destruct (valid_descriptor fs fd) as [entry|] eqn:Hv.
  - destruct (read_moves_cursor_only _ _ _ _ _ _ _ _ Hv H) as [p ->].
    apply valid_descriptor_Some in Hv as (_ & Hlook & _).
    by apply (keeps_handles_set_descriptor fs fd entry).
  - unfold read in H. rewrite Hv in H. simplify_eq. apply keeps_handles_refl.
Qed.

Lemma commit_version_keeps_handles (fuel : nat) (fs fs' : COWFileSystem)
    (fd : Z) (entry : FileDescriptor.t) (ino : nat) (inode : Inode.t)
    (buffer : list byte) (now : string) (delta_start delta_size : N)
    (r : Z) :
  file_descriptors fs !! Z.to_nat fd = Some entry →
  inodes fs !! ino = Some inode →
  commit_version BLOCK_SIZE fuel fs fd ino inode buffer now delta_start
    delta_size = Done (r, fs') →
  keeps_handles fs fs'.
Proof.
  intros Hlook Hinode H. unfold commit_version in H. unfold_bind.
  destruct (write_delta_blocks _ _ _ _ _ _) as [[[ok fb] fs3]| |] eqn:Hw;
    try done.
  destruct (write_delta_blocks_tables _ _ _ _ _ _ _ _ Hw) as [Hfd Hin].
  destruct ok; simpl in H.
  2:{ simplify_eq. by apply keeps_handles_frame. }
  destruct (increment_block_refs _ _ _) as [bs| |]; try done.
  simplify_eq. rewrite Hfd, Hlook. simpl.
  eapply keeps_handles_trans; [by apply (keeps_handles_frame fs fs3)|].
  eapply keeps_handles_trans;
    [apply (keeps_handles_frame fs3 (set_blocks bs fs3)); done|].
  eapply keeps_handles_trans; cycle 1.
  - apply (keeps_handles_set_descriptor _ fd entry); [|done|done].
    simpl. by rewrite <- Hlook, <- Hfd.
  - apply (keeps_handles_set_inode _ ino inode); [|done].
    simpl. by rewrite <- Hinode, <- Hin.
Qed.

Lemma write_keeps_handles (fuel : nat) (fs fs' : COWFileSystem) (fd : Z)
    (buffer : option (list byte)) (now : string) (r : Z) :
  write BLOCK_SIZE fuel fs fd buffer now = Done (r, fs') →
  keeps_handles fs fs'.
Proof.
  unfold write. intros H.
  destruct (valid_descriptor fs fd) as [entry|] eqn:Hv;
    [|simplify_eq; apply keeps_handles_refl].
  destruct (valid_descriptor_Some _ _ _ Hv) as (Hfd & Hlook & Hvalid).
  destruct (negb _); [simplify_eq; apply keeps_handles_refl|].
  destruct (FileDescriptor.inode entry) as [ino|] eqn:Hino;
    [|simplify_eq; apply keeps_handles_refl].
  destruct buffer as [buffer|]; [|simplify_eq; apply keeps_handles_refl].
  destruct (vsize buffer =? 0); [simplify_eq; apply keeps_handles_refl|].
  unfold inode_at in H. unfold_bind.
  destruct (inodes fs !! ino) as [inode|] eqn:Hinode; [|done].
  destruct (detect_delta _ _ _ _ _ _) as [[delta fs2]| |] eqn:Hd; try done.
  assert (fs2 = fs) as -> by (by eapply detect_delta_restores).
  destruct delta as [[delta_start delta_size]|];
    [|simplify_eq; apply keeps_handles_refl].
  destruct (delta_size =? 0).
  - simplify_eq. rewrite Hlook. simpl.
    by apply (keeps_handles_set_descriptor fs fd entry).
  - by eapply commit_version_keeps_handles.
Qed.

Lemma garbage_collect_keeps_handles (fuel : nat) (fs fs' : COWFileSystem) :
  garbage_collect BLOCK_SIZE fuel fs = Done fs' → keeps_handles fs fs'.
Proof.
  unfold garbage_collect. unfold_bind. intros H.
  destruct (mark_inodes _ _ _ _) as [block_used| |]; try done.
  simplify_eq.
  destruct (sweep_tables (length (blocks fs)) block_used fs 0) as [Hfd Hin].
  by apply keeps_handles_frame.
Qed.

End Frames.

Lemma rollback_keeps_handles (fuel : nat) (fs fs' : COWFileSystem) (fd : Z)
    (version_number : N) (r : bool) :
  rollback_to_version fuel fs fd version_number = Done (r, fs') →
  keeps_handles fs fs'.
Proof.
  unfold rollback_to_version. intros H.
  destruct (valid_descriptor fs fd) as [entry|] eqn:Hv;
    [|simplify_eq; apply keeps_handles_refl].
  destruct (valid_descriptor_Some _ _ _ Hv) as (Hfd & Hlook & Hvalid).
  destruct (FileDescriptor.inode entry) as [ino|] eqn:Hino;
    [|simplify_eq; apply keeps_handles_refl].
  unfold inode_at in H. unfold_bind.
  destruct (inodes fs !! ino) as [inode|] eqn:Hinode; [|done].
  destruct (_ || _); [simplify_eq; apply keeps_handles_refl|].
  destruct (find_version _ _ _); [|simplify_eq; apply keeps_handles_refl].
  destruct (rollback_scan _ _ _ _) as [[kept_versions bs]| |]; try done.
  destruct (kept_versions !! _) as [target|]; [|done]. simplify_eq.
  eapply keeps_handles_trans;
    [apply (keeps_handles_frame fs (set_blocks bs fs)); done|].
  eapply keeps_handles_trans; cycle 1.
  - by apply (keeps_handles_set_descriptor _ fd entry).
  - by apply (keeps_handles_set_inode _ ino inode).
Qed.

Lemma close_keeps_handles (fs fs' : COWFileSystem) (fd r : Z) :
  close fs fd = (r, fs') → keeps_handles fs fs'.
Proof.
  unfold close. intros H.
  destruct (valid_descriptor fs fd) as [entry|] eqn:Hv;
    [|simplify_eq; apply keeps_handles_refl].
  destruct (valid_descriptor_Some _ _ _ Hv) as (Hfd & Hlook & Hvalid).
  simplify_eq. by apply (keeps_handles_set_descriptor fs fd entry).
Qed.

Lemma find_inode_from_Some (ins : list Inode.t) (pos : nat)
    (filename : string) (i : nat) :
  find_inode_from ins pos filename = Some i →
  ∃ inode, ins !! (i - pos)%nat = Some inode ∧ Inode.is_used inode = true
           ∧ (pos ≤ i)%nat.
Proof.
  revert pos. induction ins as [|x rest IH]; intros pos H; [done|].
  simpl in H.
  destruct (Inode.is_used x && strcmp_eq (Inode.filename x) filename) eqn:E.
  - simplify_eq. apply andb_prop in E as [E _]. exists x.
    by rewrite Nat.sub_diag.
  - destruct (IH _ H) as (inode & Hi & Hused & Hle). exists inode.
    replace (i - pos)%nat with (S (i - S pos)) by lia.
    split; [done|]. split; [done|lia].
Qed.

Lemma first_unused_inode_Some (ins : list Inode.t) (pos i : nat) :
  first_unused_inode ins pos = Some i →
  ∃ inode, ins !! (i - pos)%nat = Some inode ∧ Inode.is_used inode = false
           ∧ (pos ≤ i)%nat.
Proof.
  revert pos. induction ins as [|x rest IH]; intros pos H; [done|].
  simpl in H. destruct (Inode.is_used x) eqn:E.
  - destruct (IH _ H) as (inode & Hi & Hused & Hle). exists inode.
    replace (i - pos)%nat with (S (i - S pos)) by lia.
    split; [done|]. split; [done|lia].
  - simplify_eq. exists x. by rewrite Nat.sub_diag.
Qed.

Lemma attached_new_descriptor (fs : COWFileSystem) (fd : Z) (i : nat)
    (mode : FileMode) (inode : Inode.t) :
  attached fs → inodes fs !! i = Some inode → Inode.is_used inode = true →
  attached (set_descriptor fd (FileDescriptor.mk (Some i) mode 0 true) fs).
Proof.
  intros Hatt Hi Hused k entry Hk Hvalid.
  unfold set_descriptor in Hk. simpl in *.
  apply list_lookup_insert_Some in Hk as [(_ & <- & _)|[_ Hk]].
  - by exists i, inode.
  - by apply (Hatt k).
Qed.

Lemma open_attached (fs fs' : COWFileSystem) (filename : string)
    (mode : FileMode) (r : Z) :
  open fs filename mode = (r, fs') → attached fs → attached fs'.
Proof.
  unfold open, find_inode. intros H Hatt.
  destruct (find_inode_from _ _ _) as [i|] eqn:Hfind; [|by simplify_eq].
  apply find_inode_from_Some in Hfind as (inode & Hi & Hused & _).
  rewrite Nat.sub_0_r in Hi.
  destruct (_ <? 0)%Z; simplify_eq; [done|].
  by apply (attached_new_descriptor fs _ i mode inode).
Qed.

Section Create.
Variable MAX_FILENAME_LENGTH : N.

Lemma create_attached (fs fs' : COWFileSystem) (filename : string) (r : Z) :
  create MAX_FILENAME_LENGTH fs filename = (r, fs') →
  attached fs → attached fs'.
Proof.
  unfold create. intros H Hatt.
  destruct (_ <=? _); [by simplify_eq|].
  destruct (find_inode fs filename); [by simplify_eq|].
  destruct (first_unused_inode _ _) as [i|] eqn:Hfree; [|by simplify_eq].
  apply first_unused_inode_Some in Hfree as (old & Hi & Hunused & _).
  rewrite Nat.sub_0_r in Hi.
  destruct (_ <? 0)%Z; simplify_eq.
  - intros k entry Hk Hvalid.
    destruct (Hatt k entry Hk Hvalid) as (ino & inode & Hino & Hinode & Hused).
    exists ino, inode. split; [done|]. split; [|done].
    unfold set_inode. simpl. rewrite list_lookup_insert_ne; [done|].
    intros ->. congruence.
  - apply (attached_new_descriptor _ _ i WRITE
             (Inode.mk true (c_str filename) 0 0 0 [])); [| |done].
    + eapply keeps_handles_attached; [|done].
      by apply (keeps_handles_set_inode fs i old).
    + unfold set_inode. simpl. apply list_lookup_insert_eq.
      by eapply lookup_lt_Some.
Qed.

End Create.

Section Attached.
Variables BLOCK_SIZE MAX_FILES MAX_FILENAME_LENGTH : N.

Lemma new_attached (image : option Image) (can_create : bool)
    (disk_size : N) (fs : COWFileSystem) :
  COWFileSystem_new BLOCK_SIZE MAX_FILES image can_create disk_size = Some fs →
  attached fs.
Proof.
  unfold COWFileSystem_new. intros H.
  assert (file_descriptors fs
          = replicate (N.to_nat MAX_FILES) fresh_descriptor) as Hfd.
  { unfold initialize_disk in H.
    destruct image as [[disk_inodes disk_blocks]|];
      [|destruct can_create]; by simplify_eq. }
  intros k entry Hk Hvalid. rewrite Hfd in Hk.
  apply lookup_replicate in Hk as [-> _]. done.
Qed.

Lemma call_attached (fuel : nat) (op : operation) (fs fs' : COWFileSystem)
    (r : reply) :
  call BLOCK_SIZE MAX_FILENAME_LENGTH fuel op fs = Done (r, fs') →
  attached fs → attached fs'.
Proof.
  intros H Hatt. destruct op; simpl in H; unfold_bind.
  - destruct (create _ _ _) as [fd fs1] eqn:E. simplify_eq.
    by eapply create_attached.
  - destruct (open _ _ _) as [fd fs1] eqn:E. simplify_eq.
    by eapply open_attached.
  - destruct (close _ _) as [x fs1] eqn:E. simplify_eq.
    eapply keeps_handles_attached; [|done]. by eapply close_keeps_handles.
  - destruct (read _ _ _ _) as [[[x buffer] fs1]| |] eqn:E; simplify_eq.
    eapply keeps_handles_attached; [|done]. by eapply read_keeps_handles.
  - destruct (write _ _ _ _ _ _) as [[x fs1]| |] eqn:E; simplify_eq.
    eapply keeps_handles_attached; [|done]. by eapply write_keeps_handles.
  - destruct (rollback_to_version _ _ _ _) as [[x fs1]| |] eqn:E; simplify_eq.
    eapply keeps_handles_attached; [|done]. by eapply rollback_keeps_handles.
  - destruct (garbage_collect _ _ _) as [fs1| |] eqn:E; simplify_eq.
    eapply keeps_handles_attached; [|done].
    by eapply garbage_collect_keeps_handles.
Qed.

Lemma inode_of_attached (fs : COWFileSystem) (fd : Z)
    (entry : FileDescriptor.t) :
  attached fs → valid_descriptor fs fd = Some entry →
  ∃ ino inode,
    FileDescriptor.inode entry = Some ino
    ∧ inodes fs !! ino = Some inode ∧ Inode.is_used inode = true
    ∧ inode_of fs entry = Done inode.
Proof.
  intros Hatt Hv.
  apply valid_descriptor_Some in Hv as (_ & Hlook & Hvalid).
  destruct (Hatt _ _ Hlook Hvalid) as (ino & inode & Hino & Hinode & Hused).
  exists ino, inode. unfold inode_of, inode_at. by rewrite Hino, Hinode.
Qed.

(** C10.  Every valid descriptor holds a pointer to an inode slot in use:
    this holds in every file system just constructed, and [create], [open],
    [close], [read], [write], [rollback_to_version] and [garbage_collect]
    preserve it.  Under it [get_file_size], [get_version_count] and
    [get_file_status] always return; they test the range and [is_valid]
    only, and on a valid descriptor with a null pointer they are
    undefined. *)
Theorem descriptors_stay_attached :
  (∀ image can_create disk_size fs,
     COWFileSystem_new BLOCK_SIZE MAX_FILES image can_create disk_size
     = Some fs →
     descriptors_attached fs = true)
  ∧ (∀ fuel op fs r fs',
       descriptors_attached fs = true →
       call BLOCK_SIZE MAX_FILENAME_LENGTH fuel op fs = Done (r, fs') →
       descriptors_attached fs' = true)
  ∧ (∀ fs fd,
       descriptors_attached fs = true →
       (∃ size, get_file_size fs fd = Done size)
       ∧ (∃ count, get_version_count fs fd = Done count)
       ∧ (∃ status, get_file_status fs fd = Done status))
  ∧ (∀ fs fd entry,
       valid_descriptor fs fd = Some entry →
       FileDescriptor.inode entry = None →
       get_file_size fs fd = Undefined
       ∧ get_version_count fs fd = Undefined
       ∧ get_file_status fs fd = Undefined).
Proof.
  split; [|split; [|split]]; cycle 3.
  { intros fs fd entry Hv Hino.
    unfold get_file_size, get_version_count, get_file_status, inode_of.
    by rewrite Hv, Hino. }
  - intros image can_create disk_size fs H.
    apply descriptors_attached_spec. by eapply new_attached.
  - intros fuel op fs r fs' Hatt H.
    apply descriptors_attached_spec. apply descriptors_attached_spec in Hatt.
    by eapply call_attached.
  - intros fs fd Hatt. apply descriptors_attached_spec in Hatt.
    unfold get_file_size, get_version_count, get_file_status.
    destruct (valid_descriptor fs fd) as [entry|] eqn:Hv;
      [|repeat split; eexists; reflexivity].
    destruct (inode_of_attached fs fd entry Hatt Hv)
      as (ino & inode & _ & _ & _ & ->).
    simpl. repeat split; eexists; reflexivity.
Qed.

End Attached.

(** The third write of the seed scenario keeps descriptor 0 attached. *)
Lemma descriptors_stay_attached_witness :
  ∃ r fs',
    call Seed.BLOCK_SIZE Seed.MAX_FILENAME_LENGTH Seed.fuel
      (Write 0 (Seed.bytes "help!") Seed.stamp2) (Seed.after 4 Seed.hello)
    = Done (r, fs')
    ∧ descriptors_attached fs' = true.
Proof.
  do 2 eexists. split; [vm_compute; reflexivity|].
  eapply (proj1 (proj2 (descriptors_stay_attached Seed.BLOCK_SIZE
                          Seed.MAX_FILES Seed.MAX_FILENAME_LENGTH))
            Seed.fuel (Write 0 (Seed.bytes "help!") Seed.stamp2)
            (Seed.after 4 Seed.hello)).
  - vm_compute; reflexivity.
  - vm_compute; reflexivity.
Defined.

(** ** Read-after-write *)

Lemma existsb_eqb_elem (x : N) (l : list N) :
  existsb (N.eqb x) l = true ↔ x ∈ l.
Proof.
  rewrite existsb_exists. split.
  - intros (y & Hy & Heq). apply N.eqb_eq in Heq. subst y.
    by apply list_elem_of_In.
  - intros H. exists x. split; [by apply list_elem_of_In|apply N.eqb_refl].
Qed.

Lemma distinct_spec (l : list N) : distinct l = true ↔ NoDup l.
Proof.
  induction l as [|x l IH]; simpl.
  - split; [constructor|done].
  - pose proof (existsb_eqb_elem x l) as Hx. split.
    + intros H. apply andb_prop in H as [H1 H2].
      apply negb_true_iff in H1. apply list.NoDup_cons. split.
      * intros Hin. apply Hx in Hin. congruence.
      * by apply IH.
    + intros H. apply list.NoDup_cons in H as [H1 H2].
      apply andb_true_intro. split; [|by apply IH].
      apply negb_true_iff. destruct (existsb (N.eqb x) l); [|done].
      exfalso. by apply H1, Hx.
Qed.

Lemma free_list_ok_spec (fs : COWFileSystem) :
  free_list_ok fs = true ↔
  NoDup (free_cells (free_blocks_list fs))
  ∧ ∀ c, c ∈ free_cells (free_blocks_list fs) → c < vsize (blocks fs).
Proof.
  unfold free_list_ok.
  rewrite andb_true_iff, distinct_spec, forallb_forall. split.
  - intros [H1 H2]. split; [done|]. intros c Hc.
    apply N.ltb_lt, H1. by apply list_elem_of_In.
  - intros [H1 H2]. split; [|done]. intros c Hc.
    apply N.ltb_lt, H2. by apply list_elem_of_In.
Qed.

Lemma free_cells_app (l1 l2 : list FreeBlockInfo.t) :
  free_cells (l1 ++ l2) = free_cells l1 ++ free_cells l2.
Proof. unfold free_cells. by rewrite map_app, concat_app. Qed.

Lemma free_cells_cons (r : FreeBlockInfo.t) (l : list FreeBlockInfo.t) :
  free_cells (r :: l) = run_cells r ++ free_cells l.
Proof. reflexivity. Qed.

Lemma find_best_fit_from_Some (fl : list FreeBlockInfo.t) (pos : nat)
    (blocks_needed : N) (best_fit : option nat) (smallest : N) (q : nat) :
  find_best_fit_from fl pos blocks_needed best_fit smallest = Some q →
  best_fit = Some q
  ∨ ∃ r, fl !! (q - pos)%nat = Some r
         ∧ blocks_needed ≤ FreeBlockInfo.block_count r ∧ (pos ≤ q)%nat.
Proof.
  revert pos best_fit smallest.
  induction fl as [|r fl IH]; intros pos best_fit smallest H; [by left|].
  simpl in H.
  assert (∀ best sm,
            find_best_fit_from fl (S pos) blocks_needed best sm = Some q →
            best = Some q
            ∨ ∃ r0, (r :: fl) !! (q - pos)%nat = Some r0
                    ∧ blocks_needed ≤ FreeBlockInfo.block_count r0
                    ∧ (pos ≤ q)%nat) as Hrec.
  { intros best sm Hq. destruct (IH _ _ _ Hq) as [?|(r0 & Hr0 & Hc & Hle)];
      [by left|right].
    exists r0. replace (q - pos)%nat with (S (q - S pos)) by lia.
    split; [done|]. split; [done|lia]. }
  destruct (blocks_needed <=? FreeBlockInfo.block_count r) eqn:Hfit;
    [|by apply Hrec in H].
  apply N.leb_le in Hfit.
  assert (∃ r0, (r :: fl) !! (pos - pos)%nat = Some r0
                ∧ blocks_needed ≤ FreeBlockInfo.block_count r0
                ∧ (pos ≤ pos)%nat) as Hhere.
  { exists r. by rewrite Nat.sub_diag. }
  destruct (_ <? smallest); [|by apply Hrec in H].
  destruct (_ =? 0).
  - simplify_eq. by right.
  - apply Hrec in H as [H|H]; [|by right]. simplify_eq. by right.
Qed.

Lemma run_cells_head (r : FreeBlockInfo.t) :
  1 ≤ FreeBlockInfo.block_count r →
  run_cells r
  = FreeBlockInfo.start_block r
    :: run_cells (FreeBlockInfo.mk (FreeBlockInfo.start_block r + 1)
                    (FreeBlockInfo.block_count r - 1)).
Proof.
  intros H. unfold run_cells. simpl.
  replace (N.to_nat (FreeBlockInfo.block_count r))
    with (S (N.to_nat (FreeBlockInfo.block_count r - 1))) by lia.
  done.
Qed.

(** [allocate_block] takes one cell out of the free list and marks that
    block. *)
Lemma allocate_block_Some (fs fs' : COWFileSystem) (b : N) :
  allocate_block fs = Done (Some b, fs') →
  ∃ l1 l2,
    free_cells (free_blocks_list fs) = l1 ++ b :: l2
    ∧ free_cells (free_blocks_list fs') = l1 ++ l2
    ∧ b < vsize (blocks fs)
    ∧ blocks fs'
      = block_upd (λ x, Block.mk true 0 0 (Block.data x)) (blocks fs) b
    ∧ file_descriptors fs' = file_descriptors fs
    ∧ inodes fs' = inodes fs.
Proof.
  unfold allocate_block, find_best_fit. intros H.
  destruct (find_best_fit_from _ _ _ _ _) as [pos|] eqn:Hfit; [|done].
  apply find_best_fit_from_Some in Hfit as [?|(r & Hr & Hcount & _)]; [done|].
  rewrite Nat.sub_0_r in Hr. rewrite Hr in H.
  destruct (_ <? vsize (blocks fs)) eqn:Hin; [|done].
  apply N.ltb_lt in Hin. simplify_eq. simpl.
  exists (free_cells (take pos (free_blocks_list fs))),
    (run_cells (FreeBlockInfo.mk (FreeBlockInfo.start_block r + 1)
                  (FreeBlockInfo.block_count r - 1))
     ++ free_cells (drop (S pos) (free_blocks_list fs))).
  split; [|split; [|done]].
  - rewrite <- (take_drop_middle _ _ _ Hr) at 1.
    rewrite free_cells_app, free_cells_cons, run_cells_head by done. done.
  - destruct (N.ltb_spec 1 (FreeBlockInfo.block_count r)) as [Hgt|Hle].
    + rewrite insert_take_drop by (by eapply lookup_lt_Some).
      by rewrite free_cells_app, free_cells_cons.
    + rewrite delete_take_drop, free_cells_app.
      assert (FreeBlockInfo.block_count r - 1 = 0) as -> by lia. done.
Qed.

Lemma last_cons_default {A : Type} (x d d' : A) (l : list A) :
  List.last (x :: l) d = List.last l x.
Proof.
  revert x d. induction l as [|y l IH]; intros x d; [done|].
  change (List.last (x :: y :: l) d) with (List.last (y :: l) d).
  rewrite (IH y d). symmetry. apply (IH y x).
Qed.

Lemma NoDup_remove_middle (l1 l2 : list N) (c : N) :
  NoDup (l1 ++ c :: l2) → NoDup (l1 ++ l2) ∧ c ∉ l1 ++ l2.
Proof.
  intros H. apply list.NoDup_app in H as (H1 & H12 & H2).
  apply list.NoDup_cons in H2 as [Hc H2]. split.
  - apply list.NoDup_app. split; [done|]. split; [|done].
    intros x Hx Hx2. apply (H12 x Hx). by right.
  - intros Hin. apply elem_of_app in Hin as [Hin|Hin]; [|done].
    apply (H12 c Hin). left.
Qed.

Section Chains.
Variable BLOCK_SIZE : N.
Hypothesis BLOCK_SIZE_pos : 0 < BLOCK_SIZE.

(** What the loop of [write_delta_blocks] leaves in a block. *)
Lemma written_block_data (old bytes : list byte) :
  let bytes_to_write := N.min (vsize bytes) BLOCK_SIZE in
  let copied := memcpy old bytes bytes_to_write in
  let padded :=
    if bytes_to_write <? BLOCK_SIZE
    then memset copied bytes_to_write "000"%byte
           (BLOCK_SIZE - bytes_to_write)
    else copied in
  take (length bytes `min` N.to_nat BLOCK_SIZE) padded
  = take (N.to_nat BLOCK_SIZE) bytes.
Proof.
  simpl. unfold memcpy, memset, vsize.
  destruct (N.ltb_spec (N.min (N.of_nat (length bytes)) BLOCK_SIZE)
              BLOCK_SIZE) as [Hlt|Hge].
  - assert (length bytes < N.to_nat BLOCK_SIZE)%nat as Hlen by lia.
    replace (N.to_nat (N.min (N.of_nat (length bytes)) BLOCK_SIZE))
      with (length bytes) by lia.
    rewrite (take_ge bytes (length bytes)) by lia.
    rewrite take_app_length.
    rewrite Nat.min_l by lia.
    rewrite take_app_length.
    by rewrite take_ge by lia.
  - assert (N.to_nat BLOCK_SIZE ≤ length bytes)%nat as Hlen by lia.
    replace (N.to_nat (N.min (N.of_nat (length bytes)) BLOCK_SIZE))
      with (N.to_nat BLOCK_SIZE) by lia.
    rewrite Nat.min_r by lia.
    rewrite take_app_le by (rewrite length_take; lia).
    by rewrite take_take, Nat.min_id.
Qed.

(** [chain_stores] looks at the flags, the data and the links between
    consecutive blocks of the chain only. *)
Lemma chain_stores_frame (bs bs' : list Block.t) (cs : list N)
    (bytes : list byte) :
  NoDup cs →
  vsize bs' = vsize bs →
  (∀ c, c ∈ cs →
     Block.is_used (block_at bs' c) = Block.is_used (block_at bs c)
     ∧ Block.data (block_at bs' c) = Block.data (block_at bs c)
     ∧ (c ≠ List.last cs 0 →
        Block.next_block (block_at bs' c) = Block.next_block (block_at bs c))) →
  chain_stores BLOCK_SIZE bs cs bytes → chain_stores BLOCK_SIZE bs' cs bytes.
Proof.
  revert bytes. induction cs as [|c cs IH]; intros bytes Hnd Hsize Hsame H;
    [done|].
  apply list.NoDup_cons in Hnd as [Hc Hnd].
  destruct H as (Hin & Hused & Hdata & Hlink & Hrest).
  destruct (Hsame c) as (Hu & Hd & Hn); [left|].
  simpl. split; [by rewrite Hsize|]. split; [by rewrite Hu|].
  split; [by rewrite Hd|]. split.
  - destruct cs as [|c' cs]; [done|]. rewrite Hn; [done|].
    rewrite (last_cons_default c 0 0). intros Heq.
    apply Hc. rewrite Heq.
    destruct (exists_last (l := c' :: cs)) as (l & x & Hl); [done|].
    rewrite Hl, last_last. apply elem_of_app. right. left.
  - apply IH; [done|done| |done].
    intros x Hx. destruct (Hsame x) as (Hu' & Hd' & Hn'); [by right|].
    split; [done|]. split; [done|]. intros Hne. apply Hn'.
    destruct cs as [|c' cs]; [by apply elem_of_nil in Hx|].
    exact Hne.
Qed.

(** The loop of [write_delta_blocks] builds a chain of fresh blocks that
    holds the bytes it was given; blocks outside the free list keep their
    flags and data, and only [prev_block] among them gets a new link. *)
Lemma write_blocks_loop_builds (m fuel : nat) (fs : COWFileSystem)
    (i first_block prev_block : N) (bytes : list byte) (remaining : N)
    (first_block' prev_block' : N) (fs' : COWFileSystem) :
  NoDup (free_cells (free_blocks_list fs)) →
  (∀ c, c ∈ free_cells (free_blocks_list fs) → c < vsize (blocks fs)) →
  remaining = vsize bytes →
  (length bytes ≤ m * N.to_nat BLOCK_SIZE)%nat →
  (i ≠ 0 →
   prev_block < vsize (blocks fs)
   ∧ prev_block ∉ free_cells (free_blocks_list fs)) →
  write_blocks_loop BLOCK_SIZE m fuel fs i first_block prev_block bytes
    remaining
  = Done (true, first_block', prev_block', fs') →
  ∃ cs,
    length cs = m
    ∧ NoDup cs
    ∧ (∀ c, c ∈ cs → c ∈ free_cells (free_blocks_list fs))
    ∧ chain_stores BLOCK_SIZE (blocks fs') cs bytes
    ∧ first_block' = (if i =? 0 then List.hd first_block cs else first_block)
    ∧ prev_block' = List.last cs prev_block
    ∧ vsize (blocks fs') = vsize (blocks fs)
    ∧ file_descriptors fs' = file_descriptors fs
    ∧ inodes fs' = inodes fs
    ∧ (∀ b, b ∉ free_cells (free_blocks_list fs) →
         Block.is_used (block_at (blocks fs') b)
         = Block.is_used (block_at (blocks fs) b)
         ∧ Block.data (block_at (blocks fs') b)
           = Block.data (block_at (blocks fs) b)
         ∧ Block.next_block (block_at (blocks fs') b)
           = match cs with
             | c :: _ =>
                 if negb (i =? 0) && (b =? prev_block) then c
                 else Block.next_block (block_at (blocks fs) b)
             | [] => Block.next_block (block_at (blocks fs) b)
             end).
Proof.
  revert fs i first_block prev_block bytes remaining.
  induction m as [|m IH];
    intros fs i first_block prev_block bytes remaining Hnd Hrange Hrem Hlen
      Hprev H.
  { simpl in H. simplify_eq. exists []. simpl in Hlen.
    assert (bytes = []) as -> by (destruct bytes; [done|simpl in Hlen; lia]).
    split_and!; try done; try (by destruct (i =? 0)).
    - apply NoDup_nil_2.
    - intros c Hc. by apply elem_of_nil in Hc. }
  simpl in H. unfold_bind.
  destruct (allocate_block fs) as [[[c|] fs1]| |] eqn:Halloc; try done.
  2:{ destruct (if negb (first_block =? 0) then _ else _); done. }
  destruct (allocate_block_Some _ _ _ Halloc)
    as (l1 & l2 & Hcells & Hcells1 & Hc & Hbs1 & Hfd1 & Hin1).
  rewrite Hcells in Hnd.
  destruct (NoDup_remove_middle _ _ _ Hnd) as [Hnd1 Hc1].
  assert (c ∈ free_cells (free_blocks_list fs)) as Hcin.
  { rewrite Hcells. apply elem_of_app. right. left. }
  assert (∀ x, x ∈ l1 ++ l2 → x ∈ free_cells (free_blocks_list fs)) as Hsub.
  { intros x Hx. rewrite Hcells. apply elem_of_app.
    apply elem_of_app in Hx as [Hx|Hx]; [by left|right; by right]. }
  set (bs1 := if i =? 0 then blocks fs1
              else block_upd (Block.set_next_block c) (blocks fs1) prev_block)
    in H.
  set (padded :=
         if N.min remaining BLOCK_SIZE <? BLOCK_SIZE
         then memset
                (memcpy (Block.data (block_at bs1 c)) bytes
                   (N.min remaining BLOCK_SIZE))
                (N.min remaining BLOCK_SIZE) "000"%byte
                (BLOCK_SIZE - N.min remaining BLOCK_SIZE)
         else memcpy (Block.data (block_at bs1 c)) bytes
                (N.min remaining BLOCK_SIZE)) in H.
  set (bs2 := block_upd (Block.set_data padded) bs1 c) in H.
  assert (vsize bs1 = vsize (blocks fs)) as Hsize1.
  { unfold bs1. rewrite Hbs1.
    destruct (i =? 0); by rewrite ?block_upd_vsize. }
  assert (vsize bs2 = vsize (blocks fs)) as Hsize2
    by (unfold bs2; by rewrite block_upd_vsize).
  assert (i ≠ 0 → prev_block ≠ c) as Hpc.
  { intros Hi ->. by apply (proj2 (Hprev Hi)). }
  (* the block just allocated, after this iteration *)
  assert (Block.is_used (block_at bs2 c) = true
          ∧ Block.data (block_at bs2 c) = padded) as [Hused2 Hdata2].
  { unfold bs2. rewrite block_at_upd_eq by (by rewrite Hsize1). simpl.
    split; [|done]. unfold bs1. rewrite Hbs1.
    destruct (N.eqb_spec i 0) as [Hi|Hi].
    - by rewrite block_at_upd_eq.
    - rewrite block_at_upd_ne by (by apply Hpc).
      by rewrite block_at_upd_eq. }
  (* the blocks outside the free list, after this iteration *)
  assert (∀ b, b ∉ free_cells (free_blocks_list fs) →
            Block.is_used (block_at bs2 b)
            = Block.is_used (block_at (blocks fs) b)
            ∧ Block.data (block_at bs2 b) = Block.data (block_at (blocks fs) b)
            ∧ Block.next_block (block_at bs2 b)
              = (if negb (i =? 0) && (b =? prev_block) then c
                 else Block.next_block (block_at (blocks fs) b))) as Hout2.
  { intros b Hb. assert (b ≠ c) as Hbc by (intros ->; done).
    unfold bs2. rewrite block_at_upd_ne by done. unfold bs1. rewrite Hbs1.
    destruct (N.eqb_spec i 0) as [Hi|Hi]; simpl.
    - by rewrite block_at_upd_ne.
    - destruct (N.eqb_spec b prev_block) as [->|Hbp].
      + rewrite block_at_upd_eq
          by (rewrite block_upd_vsize; by apply (Hprev Hi)).
        simpl. by rewrite block_at_upd_ne.
      + rewrite block_at_upd_ne by done. by rewrite block_at_upd_ne. }
  assert (free_blocks_list (set_blocks bs2 fs1) = free_blocks_list fs1)
    as Hfl2 by done.
  destruct (IH (set_blocks bs2 fs1) (i + 1)
              (if i =? 0 then c else first_block) c
              (drop (N.to_nat (N.min remaining BLOCK_SIZE)) bytes)
              (remaining - N.min remaining BLOCK_SIZE))
    as (cs & Hlencs & Hndcs & Hcsin & Hchain & Hfirst & Hlast & Hsize' & Hfd'
        & Hin' & Hout'); try done.
  - by rewrite Hfl2, Hcells1.
  - rewrite Hfl2, Hcells1. simpl. rewrite Hsize2. intros x Hx.
    by apply Hrange, Hsub.
  - subst remaining. unfold vsize. rewrite length_drop. lia.
  - rewrite length_drop. subst remaining. unfold vsize. simpl in Hlen. lia.
  - intros _. rewrite Hfl2, Hcells1. simpl. by rewrite Hsize2.
  - rewrite Hfl2, Hcells1 in Hcsin, Hout'. simpl in Hsize', Hout'.
    assert (c ∉ cs) as Hccs by (intros Hx; by apply Hc1, Hcsin).
    destruct (Hout' c Hc1) as (Hcu & Hcd & Hcn).
    exists (c :: cs). split_and!.
    + simpl. by rewrite Hlencs.
    + by apply list.NoDup_cons.
    + intros x Hx. apply elem_of_cons in Hx as [->|Hx]; [done|].
      by apply Hsub, Hcsin.
    + simpl. split_and!.
      * by rewrite Hsize', Hsize2.
      * by rewrite Hcu.
      * rewrite Hcd, Hdata2. unfold padded. subst remaining.
        apply written_block_data.
      * destruct cs as [|c' cs]; [done|]. rewrite Hcn.
        replace (i + 1 =? 0) with false by (symmetry; apply N.eqb_neq; lia).
        by rewrite N.eqb_refl.
      * subst remaining.
        destruct (N.ltb_spec (vsize bytes) BLOCK_SIZE) as [Hlt|Hge].
        -- rewrite N.min_l in Hchain by lia.
           unfold vsize in Hchain, Hlt.
           rewrite Nat2N.id, drop_all in Hchain.
           by rewrite drop_ge by lia.
        -- by rewrite N.min_r in Hchain by lia.
    + rewrite Hfirst.
      replace (i + 1 =? 0) with false by (symmetry; apply N.eqb_neq; lia).
      by destruct (i =? 0).
    + rewrite Hlast. by rewrite (last_cons_default c prev_block prev_block).
    + by rewrite Hsize', Hsize2.
    + by rewrite Hfd'.
    + by rewrite Hin'.
    + intros b Hb. assert (b ≠ c) as Hbc by (intros ->; done).
      assert (b ∉ l1 ++ l2) as Hb1 by (intros Hx; by apply Hb, Hsub).
      destruct (Hout' b Hb1) as (Hbu & Hbd & Hbn).
      destruct (Hout2 b Hb) as (Hbu2 & Hbd2 & Hbn2).
      split; [by rewrite Hbu|]. split; [by rewrite Hbd|].
      rewrite Hbn, <- Hbn2.
      destruct cs as [|c' cs]; [done|].
      rewrite (proj2 (N.eqb_neq b c) Hbc). by rewrite andb_false_r.
Qed.


(** Reading along a chain that holds [bytes] returns them. *)
Lemma read_chain_stores (bs : list Block.t) (cs : list N)
    (bytes : list byte) (steps : nat) (bytes_to_read bytes_read : N)
    (current_block : N) (buffer : list byte) :
  chain_stores BLOCK_SIZE bs cs bytes →
  (length cs ≤ steps)%nat →
  bytes_read + vsize bytes = bytes_to_read →
  match cs with c :: _ => current_block = c | [] => True end →
  read_chain BLOCK_SIZE steps bs bytes_to_read bytes_read current_block 0
    buffer
  = Done (Some (buffer ++ bytes, bytes_to_read)).
Proof.
  revert bytes steps bytes_read current_block buffer.
  induction cs as [|c cs IH];
    intros bytes steps bytes_read current_block buffer Hchain Hsteps Hsum Hcur.
  { simpl in Hchain. subst bytes. unfold vsize in Hsum. simpl in Hsum.
    assert (bytes_read = bytes_to_read) as -> by lia.
    destruct steps; simpl; rewrite N.ltb_irrefl, app_nil_r; done. }
  subst current_block.
  destruct Hchain as (Hin & Hused & Hdata & Hlink & Hrest).
  destruct bytes as [|x bytes'] eqn:Hbytes.
  { unfold vsize in Hsum. simpl in Hsum.
    assert (bytes_read = bytes_to_read) as -> by lia.
    destruct steps; simpl; rewrite N.ltb_irrefl, app_nil_r; done. }
  rewrite <- Hbytes in *.
  assert (0 < vsize bytes) as Hpos by (subst bytes; unfold vsize; simpl; lia).
  destruct steps as [|steps]; [simpl in Hsteps; lia|].
  simpl.
  replace (bytes_read <? bytes_to_read) with true
    by (symmetry; apply N.ltb_lt; lia).
  rewrite (proj2 (N.ltb_lt _ _) Hin), Hused. simpl.
  rewrite N.sub_0_r, drop_0.
  replace (N.to_nat (N.min (bytes_to_read - bytes_read) BLOCK_SIZE))
    with (length bytes `min` N.to_nat BLOCK_SIZE)%nat
    by (unfold vsize in *; lia).
  rewrite Hdata.
  rewrite (IH (drop (N.to_nat BLOCK_SIZE) bytes)).
  - by rewrite <- app_assoc, take_drop.
  - done.
  - simpl in Hsteps. lia.
  - unfold vsize in *. rewrite length_drop. lia.
  - by destruct cs.
Qed.

(** A chain of [m] blocks for [n > 0] bytes. *)
Lemma blocks_needed_bounds (n : N) :
  0 < n →
  let m := (n + BLOCK_SIZE - 1) / BLOCK_SIZE in
  n ≤ m * BLOCK_SIZE ∧ 0 < m ∧ m ≤ n.
Proof.
  intros Hn m.
  pose proof (N.div_mod (n + BLOCK_SIZE - 1) BLOCK_SIZE ltac:(lia)) as Hdiv.
  pose proof (N.mod_lt (n + BLOCK_SIZE - 1) BLOCK_SIZE ltac:(lia)) as Hmod.
  change ((n + BLOCK_SIZE - 1) / BLOCK_SIZE) with m in Hdiv.
  remember ((n + BLOCK_SIZE - 1) mod BLOCK_SIZE) as r eqn:Hr. clear Hr.
  clearbody m.
  assert (n ≤ m * BLOCK_SIZE) as H1 by lia.
  assert (0 < m) as H2 by (destruct (N.eq_dec m 0) as [->|]; lia).
  split; [done|]. split; [done|].
  destruct (N.le_gt_cases m n) as [?|Hgt]; [done|].
  assert (BLOCK_SIZE * (n + 1) ≤ BLOCK_SIZE * m) as H3
    by (apply N.mul_le_mono_l; lia).
  assert (1 * n ≤ BLOCK_SIZE * n) as H4 by (apply N.mul_le_mono_r; lia).
  lia.
Qed.

(** [write_delta_blocks] with a window that starts at byte 0 stores the
    whole buffer. *)
Lemma write_delta_blocks_from_start (fuel : nat) (fs fs' : COWFileSystem)
    (bytes : list byte) (first_block : N) :
  NoDup (free_cells (free_blocks_list fs)) →
  (∀ c, c ∈ free_cells (free_blocks_list fs) → c < vsize (blocks fs)) →
  0 < vsize bytes →
  write_delta_blocks BLOCK_SIZE fuel fs bytes (vsize bytes) 0
  = Done (true, first_block, fs') →
  ∃ cs,
    NoDup cs
    ∧ (length cs ≤ length bytes)%nat
    ∧ List.hd_error cs = Some first_block
    ∧ chain_stores BLOCK_SIZE (blocks fs') cs bytes
    ∧ file_descriptors fs' = file_descriptors fs
    ∧ inodes fs' = inodes fs.
Proof.
  intros Hnd Hrange Hpos H. unfold write_delta_blocks in H.
  replace ((vsize bytes =? 0) || (vsize bytes <=? 0)) with false in H.
  2:{ symmetry. apply orb_false_intro; [apply N.eqb_neq|apply N.leb_gt]; lia. }
  rewrite N.sub_0_r, N.min_id in H. simpl (N.to_nat 0) in H.
  rewrite drop_0 in H. unfold_bind.
  destruct (write_blocks_loop _ _ _ _ _ _ _ _ _)
    as [[[[ok fb] pb] fs1]| |] eqn:Hloop; try done.
  destruct ok; [|done].
  destruct (blocks_needed_bounds (vsize bytes) Hpos) as (Hcover & Hm & Hmn).
  assert (length bytes
          ≤ N.to_nat ((vsize bytes + BLOCK_SIZE - 1) / BLOCK_SIZE)
            * N.to_nat BLOCK_SIZE)%nat as Hcover'.
  { rewrite <- N2Nat.inj_mul. unfold vsize in *. lia. }
  destruct (write_blocks_loop_builds _ _ _ _ _ _ _ _ _ _ _ Hnd Hrange eq_refl
              Hcover' ltac:(done) Hloop)
    as (cs & Hlen & Hndcs & Hcsin & Hchain & Hfirst & Hlast & Hsize & Hfd
        & Hin & _).
  simpl in Hfirst.
  destruct cs as [|c cs]; [simpl in Hlen; lia|].
  simpl in Hfirst. subst fb pb.
  assert (first_block = c) as -> by (by simplify_eq).
  exists (c :: cs).
  split; [done|]. split; [unfold vsize in *; lia|]. split; [done|].
  destruct (List.last (c :: cs) 0 <? vsize (blocks fs1)) eqn:Hlt;
    simplify_eq; [|by split_and!].
  split; [|done].
  apply (chain_stores_frame (blocks fs1)); [done|apply block_upd_vsize| |done].
  intros x Hx. cbn [blocks set_blocks].
  destruct (N.eq_dec (List.last (c :: cs) 0) x) as [<-|Hne].
  - rewrite block_at_upd_eq by (by apply N.ltb_lt). done.
  - rewrite block_at_upd_ne by done. done.
Qed.

End Chains.

Lemma increment_block_refs_payload (fuel : nat) (bs bs' : list Block.t)
    (block_index : N) :
  increment_block_refs fuel bs block_index = Done bs' →
  vsize bs' = vsize bs
  ∧ ∀ b, Block.is_used (block_at bs' b) = Block.is_used (block_at bs b)
         ∧ Block.data (block_at bs' b) = Block.data (block_at bs b)
         ∧ Block.next_block (block_at bs' b)
           = Block.next_block (block_at bs b).
Proof.
  revert bs block_index. induction fuel as [|fuel IH];
    intros bs block_index H; [done|].
  simpl in H.
  destruct (negb (block_index =? 0) && (block_index <? vsize bs)) eqn:Hc;
    [|by simplify_eq].
  apply andb_prop in Hc as [_ Hin]. apply N.ltb_lt in Hin.
  apply IH in H as [Hsize Hsame]. rewrite block_upd_vsize in Hsize.
  split; [done|]. intros b. rewrite (proj1 (Hsame b)).
  rewrite (proj1 (proj2 (Hsame b))), (proj2 (proj2 (Hsame b))).
  destruct (N.eq_dec block_index b) as [<-|Hne].
  - by rewrite block_at_upd_eq.
  - by rewrite block_at_upd_ne.
Qed.

Lemma find_inode_from_insert (ins : list Inode.t) (pos : nat)
    (filename : string) (i : nat) (inode inode' : Inode.t) :
  ins !! i = Some inode →
  Inode.is_used inode' = Inode.is_used inode →
  Inode.filename inode' = Inode.filename inode →
  find_inode_from (<[i := inode']> ins) pos filename
  = find_inode_from ins pos filename.
Proof.
  revert pos i. induction ins as [|x ins IH]; intros pos i Hi Hu Hf; [done|].
  destruct i as [|i]; simpl in *.
  - simplify_eq. by rewrite Hu, Hf.
  - by rewrite (IH (S pos) i).
Qed.

Lemma first_invalid_descriptor_lt (fds : list FileDescriptor.t)
    (pos k : nat) :
  first_invalid_descriptor fds pos = Some k →
  (pos ≤ k < pos + length fds)%nat.
Proof.
  revert pos. induction fds as [|f fds IH]; intros pos H; [done|].
  simpl in *. destruct (FileDescriptor.is_valid f).
  - apply IH in H. lia.
  - simplify_eq. lia.
Qed.

Lemma valid_descriptor_fresh (fs : COWFileSystem) (fd : Z)
    (entry : FileDescriptor.t) :
  (0 ≤ fd)%Z → (Z.to_nat fd < length (file_descriptors fs))%nat →
  FileDescriptor.is_valid entry = true →
  valid_descriptor (set_descriptor fd entry fs) fd = Some entry.
Proof.
  intros Hfd Hlen Hvalid. unfold valid_descriptor, set_descriptor. simpl.
  rewrite length_insert.
  replace ((fd <? 0)%Z || _) with false.
  2:{ symmetry. apply orb_false_intro; [apply Z.ltb_ge|apply Z.leb_gt]; lia. }
  rewrite list_lookup_insert_eq by done. by rewrite Hvalid.
Qed.

Section ReadAfterWrite.
Variable BLOCK_SIZE : N.

(** C1, as the source has it.  Read-after-write holds for the writes that
    record a new version whose delta window starts at byte 0 (a first write,
    a write to an empty file, a buffer that differs from the current content
    in its first byte): when such a [write] of [n] bytes succeeds on a free
    list that lies inside the block array and lists no block twice, a fresh
    READ handle opened on the name of the file reads back exactly the [n]
    bytes of the buffer. *)
Theorem read_after_write_from_start (fuel : nat) (fs : COWFileSystem)
    (fd : Z) (entry : FileDescriptor.t) (ino : nat) (inode : Inode.t)
    (buffer : list byte) (now : string) (fs1 : COWFileSystem)
    (inode1 : Inode.t) (fd' : Z) (fs2 : COWFileSystem) :
  0 < BLOCK_SIZE →
  vsize buffer < 2 ^ 64 →
  free_list_ok fs = true →
  valid_descriptor fs fd = Some entry →
  FileDescriptor.inode entry = Some ino →
  inodes fs !! ino = Some inode →
  find_inode fs (Inode.filename inode) = Some ino →
  write BLOCK_SIZE fuel fs fd (Some buffer) now
  = Done (Z.of_N (vsize buffer), fs1) →
  inodes fs1 !! ino = Some inode1 →
  Inode.version_count inode1 = Inode.version_count inode + 1 →
  VersionInfo.delta_start <$> list.last (Inode.version_history inode1)
  = Some 0 →
  open fs1 (Inode.filename inode) READ = (fd', fs2) →
  (0 ≤ fd')%Z →
  ∃ fs3,
    read BLOCK_SIZE fs2 fd' (vsize buffer)
    = Done (Z.of_N (vsize buffer), buffer, fs3).
Proof.
  intros HBS Hword Hfree Hv Hino Hinode Hname Hwrite Hinode1 Hcount Hstart
    Hopen Hfd'.
  apply free_list_ok_spec in Hfree as [Hnd Hrange].
  destruct (valid_descriptor_Some _ _ _ Hv) as (Hfd & Hlook & Hvalid).
  assert (ino < length (inodes fs))%nat as Hinolt
    by (by eapply lookup_lt_Some).
  (* the write took the path that records a version *)
  unfold write in Hwrite. rewrite Hv, Hino in Hwrite.
  destruct (negb _); [simplify_eq; lia|].
  destruct (vsize buffer =? 0) eqn:Hzero; [simplify_eq; lia|].
  apply N.eqb_neq in Hzero.
  unfold inode_at in Hwrite. rewrite Hinode in Hwrite. unfold_bind.
  destruct (detect_delta _ _ _ _ _ _) as [[delta fsd]| |] eqn:Hdetect;
    try done.
  assert (fsd = fs) as -> by (by eapply detect_delta_restores).
  destruct delta as [[delta_start delta_size]|]; [|simplify_eq; lia].
  destruct (delta_size =? 0).
  { simplify_eq. simpl in Hinode1. simplify_eq. lia. }
  unfold commit_version in Hwrite. unfold_bind.
  destruct (write_delta_blocks _ _ _ _ _ _) as [[[ok fb] fs3]| |] eqn:Hblocks;
    try done.
  destruct ok; simpl in Hwrite; [|simplify_eq; lia].
  destruct (increment_block_refs _ _ _) as [bs| |] eqn:Hrefs; try done.
  destruct (write_delta_blocks_tables _ _ _ _ _ _ _ _ _ Hblocks)
    as [Hfd3 Hin3].
  injection Hwrite as <-.
  simpl in Hinode1. rewrite Hin3 in Hinode1.
  rewrite list_lookup_insert_eq in Hinode1 by done.
  injection Hinode1 as <-. simpl in Hstart, Hcount.
  rewrite last_snoc in Hstart. simpl in Hstart.
  injection Hstart as ->.
  (* the chain of the new version holds the buffer *)
  assert (0 < vsize buffer) as Hpos by lia.
  destruct (write_delta_blocks_from_start BLOCK_SIZE HBS _ _ _ _ _ Hnd Hrange
              Hpos Hblocks)
    as (cs & Hndcs & Hlen & Hhead & Hchain & _ & _).
  destruct (increment_block_refs_payload _ _ _ _ Hrefs) as [Hsize Hsame].
  assert (chain_stores BLOCK_SIZE bs cs buffer) as Hchain'.
  { apply (chain_stores_frame BLOCK_SIZE (blocks fs3)); try done.
    intros c _. destruct (Hsame c) as (? & ? & ?). done. }
  destruct cs as [|c cs]; [done|]. simpl in Hhead. injection Hhead as ->.
  destruct Hchain' as (Hc & Hused & Hrest).
  (* the fresh READ handle *)
  unfold open, find_inode in Hopen. simpl in Hopen.
  rewrite Hin3 in Hopen.
  rewrite (find_inode_from_insert _ _ _ _ inode) in Hopen by done.
  unfold find_inode in Hname. rewrite Hname in Hopen.
  unfold allocate_file_descriptor in Hopen.
  destruct (first_invalid_descriptor _ _) as [k|] eqn:Hk.
  2:{ change (-1 <? 0)%Z with true in Hopen. cbv iota in Hopen.
      injection Hopen as <- _. lia. }
  apply first_invalid_descriptor_lt in Hk.
  replace (Z.of_nat k <? 0)%Z with false in Hopen
    by (symmetry; apply Z.ltb_ge; lia).
  injection Hopen as <- <-.
  eexists. unfold read.
  rewrite valid_descriptor_fresh by (try done; rewrite Nat2Z.id; lia).
  simpl. unfold inode_at. rewrite Hin3.
  rewrite list_lookup_insert_eq by done. simpl.
  rewrite (proj2 (N.eqb_neq _ _) Hzero).
  replace (vsize bs <=? fb) with false by (symmetry; apply N.leb_gt; done).
  rewrite Hused. simpl.
  assert (sub64 (vsize buffer) 0 = vsize buffer) as ->.
  { unfold sub64, word. rewrite N.Div0.mod_0_l, N.sub_0_r.
    rewrite <- (N.mul_1_l (2 ^ 64)) at 1.
    rewrite N.Div0.mod_add. by apply N.mod_small. }
  rewrite N.min_id, (proj2 (N.eqb_neq _ _) Hzero).
  rewrite N.Div0.mod_0_l.
  rewrite (read_chain_stores BLOCK_SIZE HBS bs (fb :: cs) buffer).
  - simpl. reflexivity.
  - exact (conj Hc (conj Hused Hrest)).
  - unfold vsize. lia.
  - lia.
  - done.
Qed.

End ReadAfterWrite.

(** A first write of 4097 bytes, two blocks, read back. *)
Lemma read_after_write_from_start_witness :
  ∃ fs3,
    read Seed.BLOCK_SIZE (Seed.after 4 Seed.two_blocks_opened) 1 4097
    = Done (4097%Z, replicate 4097 "y"%byte, fs3).
Proof.
  eapply (read_after_write_from_start Seed.BLOCK_SIZE Seed.fuel
            (Seed.after 4 Seed.created) 0
            (FileDescriptor.mk (Some 0%nat) WRITE 0 true) 0%nat
            (Inode.mk true "a" 0 0 0 [])
            (replicate 4097 "y"%byte) Seed.stamp1
            (Seed.after 4 Seed.two_blocks_written)
            (Inode.mk true "a" 0 4097 1
               [VersionInfo.mk 1 Seed.stamp1 4097 0 0 4097 0])
            1 (Seed.after 4 Seed.two_blocks_opened)).
  - vm_compute; reflexivity.
  - vm_compute; reflexivity.
  - vm_compute; reflexivity.
  - vm_compute; reflexivity.
  - reflexivity.
  - vm_compute; reflexivity.
  - vm_compute; reflexivity.
  - vm_compute; reflexivity.
  - vm_compute; reflexivity.
  - vm_compute; reflexivity.
  - vm_compute; reflexivity.
  - vm_compute; reflexivity.
  - lia.
Defined.

(** Counterexample to C1.  On a file that holds "abb", [write] of the one
    byte "b" succeeds and returns 1: the delta detector finds the common
    suffix "b" and reports an empty window, so nothing is recorded.  A fresh
    READ handle then reads the byte "a", not "b". *)
Lemma read_after_noop_write_returns_old_content :
  ∃ fs,
    Seed.session 4 Seed.shrink_read
    = Done ([Returned 0; Returned 3; Returned 1; Returned 1;
             ReturnedBytes 1 ["a"%byte]], fs).
Proof. eexists. vm_compute. reflexivity. Qed.

(** * Further properties *)

(** ** Names *)

Lemma c_str_idem (s : string) : c_str (c_str s) = c_str s.
Proof.
  induction s as [|c s IH]; simpl; [done|].
  destruct (Ascii.eqb c "000") eqn:E; simpl; [done|].
  by rewrite E, IH.
Qed.

Lemma strcmp_eq_true (a b : string) : strcmp_eq a b = true ↔ c_str a = c_str b.
Proof. unfold strcmp_eq. apply String.eqb_eq. Qed.

Lemma strcmp_eq_c_str_l (a b : string) : strcmp_eq (c_str a) b = strcmp_eq a b.
Proof. unfold strcmp_eq. by rewrite c_str_idem. Qed.

Lemma find_inode_from_answers (ins : list Inode.t) (pos : nat)
    (filename : string) :
  find_inode_from ins pos filename
  = match ins with
    | [] => None
    | i :: rest =>
        if answers filename i then Some pos
        else find_inode_from rest (S pos) filename
    end.
Proof. by destruct ins. Qed.

Lemma find_inode_from_ext (ins : list Inode.t) (pos : nat) (n n' : string) :
  c_str n = c_str n' →
  find_inode_from ins pos n = find_inode_from ins pos n'.
Proof.
  intros H. revert pos. induction ins as [|i ins IH]; intros pos; simpl; [done|].
  unfold strcmp_eq. rewrite H, IH. done.
Qed.

Lemma find_inode_from_None (ins : list Inode.t) (pos : nat)
    (filename : string) :
  find_inode_from ins pos filename = None
  ↔ ∀ inode, inode ∈ ins → answers filename inode = false.
Proof.
  revert pos. induction ins as [|i ins IH]; intros pos.
  - split; [|done]. intros _ inode Hin. by apply elem_of_nil in Hin.
  - rewrite find_inode_from_answers.
    destruct (answers filename i) eqn:E.
    + split; [done|]. intros H. specialize (H i). rewrite E in H.
      discriminate H. left.
    + rewrite IH. split.
      * intros H inode Hin. apply elem_of_cons in Hin as [->|Hin]; auto.
      * intros H inode Hin. apply H. by right.
Qed.

Lemma find_inode_from_found (ins : list Inode.t) (pos : nat)
    (filename : string) (i : nat) :
  find_inode_from ins pos filename = Some i →
  (pos ≤ i)%nat
  ∧ ∃ inode, ins !! (i - pos)%nat = Some inode
             ∧ answers filename inode = true.
Proof.
  revert pos. induction ins as [|x ins IH]; intros pos; [done|].
  rewrite find_inode_from_answers.
  destruct (answers filename x) eqn:E.
  - intros [= <-]. split; [lia|]. exists x. by rewrite Nat.sub_diag.
  - intros H. apply IH in H as (Hle & inode & Hl & Ha).
    split; [lia|]. exists inode. split; [|done].
    replace (i - pos)%nat with (S (i - S pos)) by lia. done.
Qed.

Lemma find_inode_from_insert_miss (ins : list Inode.t) (pos : nat)
    (filename : string) (j : nat) (new : Inode.t) :
  (∀ old, ins !! j = Some old → answers filename old = false) →
  answers filename new = false →
  find_inode_from (<[j := new]> ins) pos filename
  = find_inode_from ins pos filename.
Proof.
  revert j pos. induction ins as [|x ins IH]; intros j pos Hold Hnew; [done|].
  destruct j as [|j]; simpl.
  - fold (answers filename new). fold (answers filename x).
    rewrite Hnew, (Hold x); done.
  - rewrite IH; auto.
Qed.


Lemma first_unused_inode_found (ins : list Inode.t) (pos i : nat) :
  first_unused_inode ins pos = Some i →
  (pos ≤ i)%nat
  ∧ ∃ inode, ins !! (i - pos)%nat = Some inode
             ∧ Inode.is_used inode = false.
Proof.
  revert pos. induction ins as [|x ins IH]; intros pos; simpl; [done|].
  destruct (Inode.is_used x) eqn:E.
  - intros H. apply IH in H as (Hle & inode & Hl & Hu).
    split; [lia|]. exists inode. split; [|done].
    replace (i - pos)%nat with (S (i - S pos)) by lia. done.
  - intros [= <-]. split; [lia|]. exists x. by rewrite Nat.sub_diag.
Qed.

Lemma first_unused_inode_None (ins : list Inode.t) (pos : nat) :
  first_unused_inode ins pos = None
  ↔ ∀ inode, inode ∈ ins → Inode.is_used inode = true.
Proof.
  revert pos. induction ins as [|x ins IH]; intros pos; simpl.
  - split; [|done]. intros _ inode Hin. by apply elem_of_nil in Hin.
  - destruct (Inode.is_used x) eqn:E.
    + rewrite IH. split.
      * intros H inode Hin. apply elem_of_cons in Hin as [->|Hin]; auto.
      * intros H inode Hin. apply H. by right.
    + split; [done|]. intros H. specialize (H x). rewrite E in H.
      discriminate H. left.
Qed.

Lemma first_invalid_descriptor_found (fds : list FileDescriptor.t)
    (pos k : nat) :
  first_invalid_descriptor fds pos = Some k →
  (pos ≤ k)%nat
  ∧ (∃ e, fds !! (k - pos)%nat = Some e ∧ FileDescriptor.is_valid e = false)
  ∧ ∀ j e, (j < k - pos)%nat → fds !! j = Some e →
           FileDescriptor.is_valid e = true.
Proof.
  revert pos. induction fds as [|x fds IH]; intros pos; simpl; [done|].
  destruct (FileDescriptor.is_valid x) eqn:E.
  - intros H. apply IH in H as (Hle & (e & Hl & Hv) & Hall).
    split; [lia|]. split.
    + exists e. split; [|done].
      replace (k - pos)%nat with (S (k - S pos)) by lia. done.
    + intros [|j] e' Hj Hl'; simpl in Hl'; [by simplify_eq|].
      apply (Hall j); [lia|done].
  - intros [= <-]. split; [lia|]. split.
    + exists x. by rewrite Nat.sub_diag.
    + intros j e Hj. lia.
Qed.

Lemma first_invalid_descriptor_None (fds : list FileDescriptor.t)
    (pos : nat) :
  first_invalid_descriptor fds pos = None
  ↔ ∀ e, e ∈ fds → FileDescriptor.is_valid e = true.
Proof.
  revert pos. induction fds as [|x fds IH]; intros pos; simpl.
  - split; [|done]. intros _ e Hin. by apply elem_of_nil in Hin.
  - destruct (FileDescriptor.is_valid x) eqn:E.
    + rewrite IH. split.
      * intros H e Hin. apply elem_of_cons in Hin as [->|Hin]; auto.
      * intros H e Hin. apply H. by right.
    + split; [done|]. intros H. specialize (H x). rewrite E in H.
      discriminate H. left.
Qed.

Lemma allocate_file_descriptor_found (fs : COWFileSystem) (fd : Z) :
  allocate_file_descriptor fs = fd → (0 ≤ fd)%Z →
  (Z.to_nat fd < length (file_descriptors fs))%nat
  ∧ valid_descriptor fs fd = None
  ∧ ∀ k, (0 ≤ k < fd)%Z → is_Some (valid_descriptor fs k).
Proof.
  unfold allocate_file_descriptor.
  destruct (first_invalid_descriptor (file_descriptors fs) 0) as [k|] eqn:E;
    [|intros <-; lia].
  intros <- _. apply first_invalid_descriptor_found in E
    as (_ & (e & Hl & Hv) & Hall).
  rewrite Nat.sub_0_r in Hl, Hall. rewrite Nat2Z.id.
  split; [by eapply lookup_lt_Some|]. split.
  - unfold valid_descriptor. rewrite Nat2Z.id, Hl, Hv.
    by destruct (_ || _).
  - intros j Hj. unfold valid_descriptor.
    pose proof (lookup_lt_Some _ _ _ Hl) as Hlt.
    destruct (file_descriptors fs !! Z.to_nat j) as [e'|] eqn:El.
    + rewrite (Hall (Z.to_nat j) e'); [|lia|done].
      replace ((j <? 0)%Z || (Z.of_nat (length (file_descriptors fs)) <=? j)%Z)
        with false; [done|].
      symmetry. apply orb_false_iff. split; [lia|].
      apply Z.leb_gt. lia.
    + apply lookup_ge_None in El. lia.
Qed.

Lemma allocate_file_descriptor_full (fs : COWFileSystem) :
  (allocate_file_descriptor fs <? 0)%Z = true
  ↔ ∀ e, e ∈ file_descriptors fs → FileDescriptor.is_valid e = true.
Proof.
  unfold allocate_file_descriptor.
  destruct (first_invalid_descriptor (file_descriptors fs) 0) as [k|] eqn:E.
  - split; [intros H; apply Z.ltb_lt in H; lia|].
    intros H. apply (first_invalid_descriptor_None _ 0%nat) in H. congruence.
  - split; [|done]. intros _.
    exact (proj1 (first_invalid_descriptor_None _ _) E).
Qed.

Lemma valid_descriptor_None (fs : COWFileSystem) (fd : Z) :
  valid_descriptor fs fd = None
  ↔ (fd < 0)%Z ∨ (Z.of_nat (length (file_descriptors fs)) ≤ fd)%Z
    ∨ ∃ e, file_descriptors fs !! Z.to_nat fd = Some e
           ∧ FileDescriptor.is_valid e = false.
Proof.
  unfold valid_descriptor.
  destruct ((fd <? 0)%Z || (Z.of_nat (length (file_descriptors fs)) <=? fd)%Z)
    eqn:E.
  - split; [|done]. intros _. apply orb_true_iff in E as [E|E]; [left|right; left]; lia.
  - apply orb_false_iff in E as [E1 E2].
    destruct (file_descriptors fs !! Z.to_nat fd) as [e|] eqn:El.
    + destruct (FileDescriptor.is_valid e) eqn:Ev.
      * split; [done|]. intros [?|[?|(e' & He & Hv)]]; [lia|lia|]. congruence.
      * split; [|done]. intros _. right. right. by exists e.
    + apply lookup_ge_None in El. lia.
Qed.

Lemma valid_descriptor_set_other (fs : COWFileSystem) (fd fd' : Z)
    (entry : FileDescriptor.t) :
  (0 ≤ fd)%Z → fd' ≠ fd →
  valid_descriptor (set_descriptor fd entry fs) fd' = valid_descriptor fs fd'.
Proof.
  intros Hfd Hne. unfold valid_descriptor, set_descriptor. simpl.
  rewrite length_insert.
  destruct ((fd' <? 0)%Z || _) eqn:E; [done|].
  apply orb_false_iff in E as [E1 E2].
  rewrite list_lookup_insert_ne; [done|]. lia.
Qed.


Lemma answers_unused (filename : string) (inode : Inode.t) :
  Inode.is_used inode = false → answers filename inode = false.
Proof. unfold answers. by intros ->. Qed.

Lemma filter_used_insert_unused (ins : list Inode.t) (i : nat)
    (old new : Inode.t) :
  ins !! i = Some old → Inode.is_used old = false →
  Inode.is_used new = false →
  List.filter Inode.is_used (<[i := new]> ins) = List.filter Inode.is_used ins.
Proof.
  revert i. induction ins as [|x ins IH]; intros [|i] Hl Ho Hn; simpl in *;
    try done.
  - simplify_eq. by rewrite Ho, Hn.
  - by rewrite (IH i).
Qed.

Lemma list_files_find_inode (ins : list Inode.t) (pos : nat) (name : string) :
  c_str name ∈ map (λ inode, c_str (Inode.filename inode))
               (List.filter Inode.is_used ins)
  ↔ find_inode_from ins pos name ≠ None.
Proof.
  revert pos. induction ins as [|x ins IH]; intros pos; simpl.
  - split; [|done]. intros H. by apply elem_of_nil in H.
  - destruct (Inode.is_used x) eqn:E; simpl.
    + destruct (strcmp_eq (Inode.filename x) name) eqn:Es.
      * split; [done|]. intros _. apply strcmp_eq_true in Es. rewrite Es. left.
      * rewrite <- (IH (S pos)). split.
        -- intros H. apply elem_of_cons in H as [H|H]; [|done].
           symmetry in H. apply strcmp_eq_true in H. congruence.
        -- intros H. by right.
    + apply IH.
Qed.

Section CreateFile.
Variable MAX_FILENAME_LENGTH : N.

Lemma create_cases (fs fs' : COWFileSystem) (filename : string) (fd : Z) :
  create MAX_FILENAME_LENGTH fs filename = (fd, fs') →
  (fd = (-1)%Z ∧ fs' = fs
   ∧ (MAX_FILENAME_LENGTH ≤ N.of_nat (String.length filename)
      ∨ find_inode fs filename ≠ None
      ∨ first_unused_inode (inodes fs) 0 = None))
  ∨ (∃ i old,
       N.of_nat (String.length filename) < MAX_FILENAME_LENGTH
       ∧ find_inode fs filename = None
       ∧ first_unused_inode (inodes fs) 0 = Some i
       ∧ inodes fs !! i = Some old ∧ Inode.is_used old = false
       ∧ ((fd = (-1)%Z
           ∧ (allocate_file_descriptor fs <? 0)%Z = true
           ∧ fs' = set_inode i (Inode.mk false (c_str filename) 0 0 0 []) fs)
          ∨ ((0 ≤ fd)%Z
             ∧ allocate_file_descriptor fs = fd
             ∧ fs' = set_descriptor fd
                       (FileDescriptor.mk (Some i) WRITE 0 true)
                       (set_inode i
                          (Inode.mk true (c_str filename) 0 0 0 []) fs)))).
Proof.
  unfold create.
  destruct (MAX_FILENAME_LENGTH <=? N.of_nat (String.length filename)) eqn:El;
    [apply N.leb_le in El|apply N.leb_gt in El].
  { intros [= <- <-]. left. split_and!; try done. left. lia. }
  destruct (find_inode fs filename) as [k|] eqn:Ef.
  { intros [= <- <-]. left. split_and!; try done. right. left. done. }
  destruct (first_unused_inode (inodes fs) 0) as [i|] eqn:Eu.
  2:{ intros [= <- <-]. left. split_and!; try done. right. by right. }
  pose proof (first_unused_inode_found _ _ _ Eu) as (_ & old & Hold & Hu).
  rewrite Nat.sub_0_r in Hold.
  change (allocate_file_descriptor (set_inode i _ fs))
    with (allocate_file_descriptor fs).
  destruct (allocate_file_descriptor fs <? 0)%Z eqn:Ea.
  - intros [= <- <-]. right. exists i, old. split_and!; try done.
    left. done.
  - intros [= <- <-]. right. exists i, old. split_and!; try done.
    right. split_and!; try done. apply Z.ltb_ge in Ea. lia.
Qed.


(** X2.  create returns -1 or a value >= 0. It returns -1 exactly when the
    name has MAX_FILENAME_LENGTH characters or more, or already resolves, or
    every inode is in use, or every descriptor is valid. A create that
    returns -1 leaves the descriptor table, the blocks and the free list as
    they were, and list_files and every find_inode give the same answers as
    before. *)
Theorem create_rejects (fs : COWFileSystem) (filename : string) :
  ((create MAX_FILENAME_LENGTH fs filename).1 = (-1)%Z
   ∨ (0 ≤ (create MAX_FILENAME_LENGTH fs filename).1)%Z)
  ∧ ((create MAX_FILENAME_LENGTH fs filename).1 = (-1)%Z
     ↔ MAX_FILENAME_LENGTH ≤ N.of_nat (String.length filename)
       ∨ find_inode fs filename ≠ None
       ∨ (∀ inode, inode ∈ inodes fs → Inode.is_used inode = true)
       ∨ (∀ e, e ∈ file_descriptors fs → FileDescriptor.is_valid e = true))
  ∧ ((create MAX_FILENAME_LENGTH fs filename).1 = (-1)%Z →
     file_descriptors (create MAX_FILENAME_LENGTH fs filename).2
     = file_descriptors fs
     ∧ blocks (create MAX_FILENAME_LENGTH fs filename).2 = blocks fs
     ∧ free_blocks_list (create MAX_FILENAME_LENGTH fs filename).2
       = free_blocks_list fs
     ∧ list_files (create MAX_FILENAME_LENGTH fs filename).2 = list_files fs
     ∧ ∀ name,
         find_inode (create MAX_FILENAME_LENGTH fs filename).2 name
         = find_inode fs name).
Proof.
  destruct (create MAX_FILENAME_LENGTH fs filename) as [fd fs'] eqn:Hc.
  simpl. apply create_cases in Hc.
  destruct Hc as [(-> & -> & Hwhy)|Hc].
  - split; [by left|]. split; [|done]. split; [|done]. intros _.
    destruct Hwhy as [H|[H|H]]; [by left|right; by left|].
    right. right. left. exact (proj1 (first_unused_inode_None _ _) H).
  - destruct Hc as (i & old & Hlen & Hnone & Hu & Hold & Hunused & Hc).
    destruct Hc as [(-> & Ha & ->)|(Hfd & Ha & ->)].
    + split; [by left|]. split.
      * split; [|done]. intros _. right. right. right.
        by apply allocate_file_descriptor_full.
      * intros _. split_and!; try done.
        -- unfold list_files, set_inode. simpl.
           by rewrite (filter_used_insert_unused _ _ old).
        -- intros name. unfold find_inode, set_inode. simpl.
           apply find_inode_from_insert_miss; [|done].
           intros old' Hold'. simplify_eq. by apply answers_unused.
    + split; [by right|]. split; [|lia]. split; [lia|].
      intros [H|[H|[H|H]]]; exfalso.
      * lia.
      * done.
      * apply (first_unused_inode_None _ 0%nat) in H. congruence.
      * apply allocate_file_descriptor_full in H.
        apply Z.ltb_lt in H. lia.
Qed.

End CreateFile.

(** X3.  open returns -1 exactly when the name does not resolve or every
    descriptor is valid, and then the state is unchanged. Otherwise it
    returns the lowest descriptor that was not valid, which becomes valid on
    the inode of the name with the mode asked for and position 0 (for WRITE
    as for READ); the other descriptors, the inodes, the blocks and the free
    list are unchanged. *)
Theorem open_hands_out_lowest_descriptor (fs : COWFileSystem)
    (filename : string) (mode : FileMode) :
  let fd := (open fs filename mode).1 in
  let fs' := (open fs filename mode).2 in
  (fd = (-1)%Z
   ↔ find_inode fs filename = None
     ∨ ∀ e, e ∈ file_descriptors fs → FileDescriptor.is_valid e = true)
  ∧ (fd = (-1)%Z → fs' = fs)
  ∧ (fd ≠ (-1)%Z →
     ∃ i,
       find_inode fs filename = Some i
       ∧ (0 ≤ fd < Z.of_nat (length (file_descriptors fs)))%Z
       ∧ valid_descriptor fs fd = None
       ∧ (∀ k, (0 ≤ k < fd)%Z → is_Some (valid_descriptor fs k))
       ∧ valid_descriptor fs' fd
         = Some (FileDescriptor.mk (Some i) mode 0 true)
       ∧ (∀ k, k ≠ fd → valid_descriptor fs' k = valid_descriptor fs k)
       ∧ inodes fs' = inodes fs
       ∧ blocks fs' = blocks fs
       ∧ free_blocks_list fs' = free_blocks_list fs).
Proof.
  unfold open.
  destruct (find_inode fs filename) as [i|] eqn:Ef; simpl.
  2:{ split; [|done]. split; [by left|done]. }
  destruct (allocate_file_descriptor fs <? 0)%Z eqn:Ea; simpl.
  - split; [|done]. split; [|done]. intros _. right.
    by apply allocate_file_descriptor_full.
  - apply Z.ltb_ge in Ea.
    pose proof (allocate_file_descriptor_found fs _ eq_refl Ea)
      as (Hlt & Hinv & Hlow).
    split.
    + split; [lia|]. intros [H|H]; [done|].
      apply allocate_file_descriptor_full in H. apply Z.ltb_lt in H. lia.
    + split; [lia|]. intros _. exists i. split_and!; try done; try lia.
      * by apply valid_descriptor_fresh.
      * intros k Hk. by apply valid_descriptor_set_other.
Qed.

(** ** Invalid descriptors *)

Section Rejected.
Variable BLOCK_SIZE : N.

(** X4.  For a descriptor that is negative, at or beyond the size of the
    descriptor table, or not valid: read, write and close return -1,
    rollback_to_version returns false, get_file_size and get_version_count
    return 0, get_file_status returns the all-false, all-zero status and
    get_version_history the empty vector; read, write, close and
    rollback_to_version leave the state unchanged. *)
Theorem invalid_descriptor_is_rejected (fuel : nat) (fs : COWFileSystem)
    (fd : Z) :
  (fd < 0)%Z ∨ (Z.of_nat (length (file_descriptors fs)) ≤ fd)%Z
  ∨ (∃ e, file_descriptors fs !! Z.to_nat fd = Some e
          ∧ FileDescriptor.is_valid e = false) →
  (∀ size, read BLOCK_SIZE fs fd size = Done ((-1)%Z, [], fs))
  ∧ (∀ buffer now, write BLOCK_SIZE fuel fs fd buffer now = Done ((-1)%Z, fs))
  ∧ close fs fd = ((-1)%Z, fs)
  ∧ (∀ version_number,
       rollback_to_version fuel fs fd version_number = Done (false, fs))
  ∧ get_file_size fs fd = Done 0
  ∧ get_version_count fs fd = Done 0
  ∧ get_file_status fs fd = Done (mkFileStatus false false 0 0)
  ∧ get_version_history fs fd = Done [].
Proof.
  intros H. apply valid_descriptor_None in H.
  unfold read, write, close, rollback_to_version, get_file_size,
    get_version_count, get_file_status, get_version_history.
  rewrite H. done.
Qed.

End Rejected.

Lemma close_cases (fs : COWFileSystem) (fd : Z) :
  (valid_descriptor fs fd = None ∧ close fs fd = ((-1)%Z, fs))
  ∨ ∃ entry,
      valid_descriptor fs fd = Some entry
      ∧ close fs fd
        = (0%Z, set_descriptor fd (FileDescriptor.set_is_valid false entry) fs).
Proof.
  unfold close. destruct (valid_descriptor fs fd) as [entry|]; [right|left];
    eauto.
Qed.

(** X5.  close returns 0 or -1; 0 exactly when the descriptor was valid.
    After it the descriptor is not valid, every other descriptor is as
    before, inodes, blocks and free list are unchanged (the file and its
    versions stay), a second close of the same descriptor returns -1, and
    after a successful close allocate_file_descriptor returns a descriptor
    not above the closed one. *)
Theorem close_releases_descriptor (fs : COWFileSystem) (fd : Z) :
  let r := (close fs fd).1 in
  let fs' := (close fs fd).2 in
  (r = 0%Z ∨ r = (-1)%Z)
  ∧ (r = 0%Z ↔ is_Some (valid_descriptor fs fd))
  ∧ (r = (-1)%Z → fs' = fs)
  ∧ valid_descriptor fs' fd = None
  ∧ (∀ k, k ≠ fd → valid_descriptor fs' k = valid_descriptor fs k)
  ∧ inodes fs' = inodes fs
  ∧ blocks fs' = blocks fs
  ∧ free_blocks_list fs' = free_blocks_list fs
  ∧ close fs' fd = ((-1)%Z, fs')
  ∧ (r = 0%Z →
     (0 ≤ allocate_file_descriptor fs' ≤ fd)%Z).
Proof.
  destruct (close_cases fs fd) as [(Hv & ->)|(entry & Hv & ->)]; simpl.
  - split_and!.
    + by right.
    + rewrite Hv. split; [done|]. by intros [? ?].
    + done.
    + done.
    + done.
    + done.
    + done.
    + done.
    + unfold close. by rewrite Hv.
    + done.
  - pose proof (valid_descriptor_Some _ _ _ Hv) as (Hfd & Hl & Hvalid).
    pose proof (lookup_lt_Some _ _ _ Hl) as Hlt.
    assert (Hnone : valid_descriptor
              (set_descriptor fd (FileDescriptor.set_is_valid false entry) fs)
              fd = None).
    { apply valid_descriptor_None. right. right.
      exists (FileDescriptor.set_is_valid false entry).
      unfold set_descriptor. simpl. by rewrite list_lookup_insert_eq. }
    split_and!.
    + by left.
    + rewrite Hv. split; [by eexists|done].
    + done.
    + done.
    + intros k Hk. by apply valid_descriptor_set_other.
    + done.
    + done.
    + done.
    + unfold close. by rewrite Hnone.
    + intros _. unfold allocate_file_descriptor.
      destruct (first_invalid_descriptor _ 0) as [k|] eqn:E.
      * apply first_invalid_descriptor_found in E as (_ & _ & Hall).
        rewrite Nat.sub_0_r in Hall. split; [lia|].
        destruct (decide (Z.to_nat fd < k)%nat) as [Hk|Hk]; [|lia].
        specialize (Hall (Z.to_nat fd)
                      (FileDescriptor.set_is_valid false entry) Hk).
        unfold set_descriptor in Hall. simpl in Hall.
        rewrite list_lookup_insert_eq in Hall by done.
        by specialize (Hall eq_refl).
      * exfalso.
        pose proof (proj1 (first_invalid_descriptor_None _ _) E
                      (FileDescriptor.set_is_valid false entry)) as Hall.
        unfold set_descriptor in Hall. simpl in Hall.
        assert (Hin : FileDescriptor.set_is_valid false entry
                      ∈ <[Z.to_nat fd := FileDescriptor.set_is_valid false entry]>
                          (file_descriptors fs)).
        { apply list_elem_of_lookup. exists (Z.to_nat fd).
          by rewrite list_lookup_insert_eq. }
        by specialize (Hall Hin).
Qed.

(** X6.  free_file_descriptor makes the descriptor invalid and changes
    nothing else: other descriptors, inodes, blocks and the free list stay.
    Out of the range of the table it does nothing, it is idempotent, and on
    a valid descriptor it leaves the state that close leaves. *)
Theorem free_file_descriptor_invalidates (fs : COWFileSystem) (fd : Z) :
  valid_descriptor (free_file_descriptor fs fd) fd = None
  ∧ (∀ k, k ≠ fd →
       valid_descriptor (free_file_descriptor fs fd) k = valid_descriptor fs k)
  ∧ inodes (free_file_descriptor fs fd) = inodes fs
  ∧ blocks (free_file_descriptor fs fd) = blocks fs
  ∧ free_blocks_list (free_file_descriptor fs fd) = free_blocks_list fs
  ∧ (is_Some (valid_descriptor fs fd) →
     close fs fd = (0%Z, free_file_descriptor fs fd))
  ∧ ((fd < 0)%Z ∨ (Z.of_nat (length (file_descriptors fs)) ≤ fd)%Z →
     free_file_descriptor fs fd = fs)
  ∧ free_file_descriptor (free_file_descriptor fs fd) fd
    = free_file_descriptor fs fd.
Proof.
  unfold free_file_descriptor.
  destruct ((0 <=? fd)%Z && (fd <? Z.of_nat (length (file_descriptors fs)))%Z)
    eqn:E.
  - apply andb_true_iff in E as [E1 E2].
    apply Z.leb_le in E1. apply Z.ltb_lt in E2.
    destruct (file_descriptors fs !! Z.to_nat fd) as [entry|] eqn:El.
    2:{ apply lookup_ge_None in El. lia. }
    assert (Hnone : valid_descriptor
              (set_descriptor fd (FileDescriptor.set_is_valid false entry) fs)
              fd = None).
    { apply valid_descriptor_None. right. right.
      exists (FileDescriptor.set_is_valid false entry).
      unfold set_descriptor. simpl. rewrite list_lookup_insert_eq; [done|].
      by eapply lookup_lt_Some. }
    split_and!; try done.
    + intros k Hk. by apply valid_descriptor_set_other.
    + intros [e He]. unfold close. rewrite He.
      apply valid_descriptor_Some in He as (_ & He & _). by simplify_eq.
    + lia.
    + unfold set_descriptor at 1 2 3. simpl. rewrite length_insert.
      replace ((0 <=? fd)%Z
               && (fd <? Z.of_nat (length (file_descriptors fs)))%Z) with true
        by (symmetry; apply andb_true_iff; split; lia).
      rewrite list_lookup_insert_eq by (by eapply lookup_lt_Some).
      unfold set_descriptor. simpl. by rewrite list_insert_insert_eq.
  - rewrite E. apply andb_false_iff in E.
    assert (Hnone : valid_descriptor fs fd = None).
    { apply valid_descriptor_None. destruct E as [E|E]; [left|right; left]; lia. }
    split_and!; try done.
    rewrite Hnone. by intros [? ?].
Qed.

(** X7.  list_files returns true with at most one name per inode slot; a
    name is in the list exactly when find_inode resolves it (names compared
    as C strings, up to the first NUL), so every listed name can be opened
    as far as the name goes. *)
Theorem list_files_lists_resolvable_names (fs : COWFileSystem) :
  (list_files fs).1 = true
  ∧ (length (list_files fs).2 ≤ length (inodes fs))%nat
  ∧ (∀ name, c_str name ∈ (list_files fs).2 ↔ find_inode fs name ≠ None)
  ∧ (∀ listed, listed ∈ (list_files fs).2 → find_inode fs listed ≠ None).
Proof.
  split; [done|]. split.
  { unfold list_files. simpl. rewrite length_map. apply List.filter_length_le. }
  assert (H : ∀ name,
             c_str name ∈ (list_files fs).2 ↔ find_inode fs name ≠ None).
  { intros name. apply list_files_find_inode. }
  split; [done|].
  intros listed Hin. apply H.
  assert (Hc : c_str listed = listed); [|by rewrite Hc].
  unfold list_files in Hin. simpl in Hin.
  apply list_elem_of_In, in_map_iff in Hin as (inode & <- & _).
  apply c_str_idem.
Qed.

(** ** What each call does to the tables *)

Lemma decrement_block_refs_vsize (fuel : nat) (bs bs' : list Block.t)
    (block_index : N) :
  decrement_block_refs fuel bs block_index = Done bs' → vsize bs' = vsize bs.
Proof.
  revert bs block_index. induction fuel as [|fuel IH]; intros bs i; simpl;
    [done|].
  destruct (negb (i =? 0) && (i <? vsize bs)); [|by intros [= <-]].
  destruct (0 <? Block.ref_count (block_at bs i)).
  - destruct (Block.ref_count (block_at (block_upd _ bs i) i) =? 0).
    + destruct (_ <? vsize (free_block _ i)); [|done].
      intros H. apply IH in H. rewrite H, free_block_vsize, block_upd_vsize.
      done.
    + intros [= <-]. apply block_upd_vsize.
  - apply IH.
Qed.

Lemma rollback_scan_kept (fuel : nat) (history : list VersionInfo.t)
    (version_number : N) (bs bs' : list Block.t)
    (kept_versions : list VersionInfo.t) :
  rollback_scan fuel history version_number bs = Done (kept_versions, bs') →
  kept_versions = kept version_number history ∧ vsize bs' = vsize bs.
Proof.
  revert bs kept_versions.
  induction history as [|v rest IH]; intros bs kv; simpl.
  - by intros [= <- <-].
  - destruct (VersionInfo.version_number v <=? version_number) eqn:E.
    + unfold_bind.
      destruct (rollback_scan fuel rest version_number bs) as [[k b]| |] eqn:Er;
        try done.
      intros [= <- <-]. apply IH in Er as [-> ->]. done.
    + unfold_bind.
      destruct (VersionInfo.block_index v <? vsize bs).
      * destruct (decrement_block_refs fuel bs _) as [bs1| |] eqn:Ed; try done.
        intros H. apply IH in H as [-> ->].
        by rewrite (decrement_block_refs_vsize _ _ _ _ Ed).
      * apply IH.
Qed.

Lemma rollback_cases (fuel : nat) (fs fs' : COWFileSystem) (fd : Z)
    (version_number : N) (r : bool) :
  rollback_to_version fuel fs fd version_number = Done (r, fs') →
  (r = false ∧ fs' = fs)
  ∨ ∃ entry ino inode target bs,
      r = true
      ∧ valid_descriptor fs fd = Some entry
      ∧ FileDescriptor.inode entry = Some ino
      ∧ inodes fs !! ino = Some inode
      ∧ version_number ≠ 0
      ∧ version_number ≤ Inode.version_count inode
      ∧ target ∈ kept version_number (Inode.version_history inode)
      ∧ vsize bs = vsize (blocks fs)
      ∧ rollback_scan fuel (Inode.version_history inode) version_number
          (blocks fs)
        = Done (kept version_number (Inode.version_history inode), bs)
      ∧ fs' = set_descriptor fd
                (FileDescriptor.set_current_position
                   (if FileMode_eqb (FileDescriptor.mode entry) WRITE
                    then VersionInfo.size target else 0) entry)
                (set_inode ino
                   (Inode.mk (Inode.is_used inode) (Inode.filename inode)
                      (VersionInfo.block_index target)
                      (VersionInfo.size target) version_number
                      (kept version_number (Inode.version_history inode)))
                   (set_blocks bs fs)).
Proof.
  unfold rollback_to_version.
  destruct (valid_descriptor fs fd) as [entry|] eqn:Hv;
    [|intros [= <- <-]; by left].
  destruct (FileDescriptor.inode entry) as [ino|] eqn:Hi;
    [|intros [= <- <-]; by left].
  unfold_bind. unfold inode_at.
  destruct (inodes fs !! ino) as [inode|] eqn:Hl; [|done].
  destruct ((version_number =? 0)
            || (Inode.version_count inode <? version_number)) eqn:Ev;
    [intros [= <- <-]; by left|].
  apply orb_false_iff in Ev as [Ev1 Ev2].
  apply N.eqb_neq in Ev1. apply N.ltb_ge in Ev2.
  destruct (find_version _ 0 version_number) as [pos|];
    [|intros [= <- <-]; by left].
  destruct (rollback_scan fuel _ version_number (blocks fs))
    as [[kv bs]| |] eqn:Es; try done.
  destruct (rollback_scan_kept _ _ _ _ _ _ Es) as [-> Hsz].
  destruct (kept version_number (Inode.version_history inode) !! pos)
    as [target|] eqn:Et; [|done].
  intros [= <- <-]. right. exists entry, ino, inode, target, bs.
  split_and!; try done. by eapply list_elem_of_lookup_2.
Qed.


Lemma allocate_block_vsize (fs fs' : COWFileSystem) (r : option N) :
  allocate_block fs = Done (r, fs') → vsize (blocks fs') = vsize (blocks fs).
Proof.
  unfold allocate_block.
  destruct (find_best_fit _ 1) as [pos|]; [|by intros [= <- <-]].
  destruct (free_blocks_list fs !! pos) as [b|]; [|done].
  destruct (_ <? vsize (blocks fs)); [|done].
  intros [= <- <-]. simpl. apply block_upd_vsize.
Qed.

Lemma release_chain_vsize (fuel : nat) (bs bs' : list Block.t) (i : N) :
  release_chain fuel bs i = Done bs' → vsize bs' = vsize bs.
Proof.
  revert bs i. induction fuel as [|fuel IH]; intros bs i; simpl; [done|].
  destruct (negb (i =? 0) && (i <? vsize bs)); [|by intros [= <-]].
  intros H. apply IH in H. by rewrite H, free_block_vsize.
Qed.

Section Sizes.
Variable BLOCK_SIZE : N.

Lemma write_blocks_loop_vsize (n fuel : nat) (fs fs' : COWFileSystem)
    (i first_block prev_block : N) (data : list byte) (remaining : N)
    (ok : bool) (first_block' prev_block' : N) :
  write_blocks_loop BLOCK_SIZE n fuel fs i first_block prev_block data
    remaining
  = Done (ok, first_block', prev_block', fs') →
  vsize (blocks fs') = vsize (blocks fs).
Proof.
  revert fs i first_block prev_block data remaining.
  induction n as [|n IH]; intros fs i fb pb data rem; simpl.
  - by intros [= <- <- <- <-].
  - unfold_bind.
    destruct (allocate_block fs) as [[allocated fs1]| |] eqn:Ha; try done.
    pose proof (allocate_block_vsize _ _ _ Ha) as Hsz.
    destruct allocated as [cb|].
    + intros H. apply IH in H. rewrite H. simpl.
      rewrite block_upd_vsize. destruct (i =? 0); [done|].
      by rewrite block_upd_vsize.
    + destruct (negb (fb =? 0)).
      * destruct (release_chain fuel (blocks fs1) fb) as [bs| |] eqn:Hr;
          try done.
        intros [= <- <- <- <-]. simpl.
        by rewrite (release_chain_vsize _ _ _ _ Hr).
      * by intros [= <- <- <- <-].
Qed.

Lemma write_delta_blocks_vsize (fuel : nat) (fs fs' : COWFileSystem)
    (buffer : list byte) (size delta_start : N) (ok : bool)
    (first_block : N) :
  write_delta_blocks BLOCK_SIZE fuel fs buffer size delta_start
  = Done (ok, first_block, fs') →
  vsize (blocks fs') = vsize (blocks fs).
Proof.
  unfold write_delta_blocks.
  destruct ((size =? 0) || (size <=? delta_start)); [by intros [= <- <- <-]|].
  unfold_bind.
  destruct (write_blocks_loop _ _ _ _ _ _ _ _ _)
    as [[[[ok' fb] pb] fs1]| |] eqn:Hw; try done.
  apply write_blocks_loop_vsize in Hw.
  destruct ok'; [|by intros [= <- <- <-]].
  destruct (pb <? vsize (blocks fs1)); intros [= <- <- <-]; [|done].
  simpl. by rewrite block_upd_vsize.
Qed.

Lemma sweep_run_vsize (steps : nat) (block_used : list bool)
    (bs : list Block.t) (start count : N) :
  vsize (sweep_run BLOCK_SIZE steps block_used bs start count).1 = vsize bs.
Proof.
  revert bs count. induction steps as [|steps IH]; intros bs count; simpl;
    [done|].
  destruct ((start + count <? vsize bs) && _); [|done].
  rewrite IH. apply block_upd_vsize.
Qed.

Lemma sweep_vsize (steps : nat) (block_used : list bool) (fs : COWFileSystem)
    (start : N) :
  vsize (blocks (sweep BLOCK_SIZE steps block_used fs start))
  = vsize (blocks fs).
Proof.
  revert fs start. induction steps as [|steps IH]; intros fs start; simpl;
    [done|].
  destruct (start <? vsize (blocks fs)); [|done].
  destruct (negb (used_at block_used start)); [|apply IH].
  pose proof (sweep_run_vsize (length (blocks fs)) block_used (blocks fs)
                start 0) as Hr.
  destruct (sweep_run _ _ _ _ _ _) as [bs count]. simpl in Hr.
  rewrite IH. done.
Qed.

Lemma garbage_collect_tables (fuel : nat) (fs fs' : COWFileSystem) :
  garbage_collect BLOCK_SIZE fuel fs = Done fs' →
  file_descriptors fs' = file_descriptors fs ∧ inodes fs' = inodes fs
  ∧ vsize (blocks fs') = vsize (blocks fs).
Proof.
  unfold garbage_collect. unfold_bind.
  destruct (mark_inodes _ _ _ _) as [block_used| |]; try done.
  intros [= <-]. simpl.
  pose proof (sweep_tables BLOCK_SIZE (length (blocks fs)) block_used fs 0)
    as [H1 H2].
  split_and!; try done. apply sweep_vsize.
Qed.

End Sizes.

Section WriteCases.
Variable BLOCK_SIZE : N.

Lemma read_tables (fs fs' : COWFileSystem) (fd : Z) (size : N) (r : Z)
    (buffer : list byte) :
  read BLOCK_SIZE fs fd size = Done (r, buffer, fs') →
  inodes fs' = inodes fs ∧ blocks fs' = blocks fs
  ∧ free_blocks_list fs' = free_blocks_list fs
  ∧ length (file_descriptors fs') = length (file_descriptors fs).
Proof.
  intros H. destruct (valid_descriptor fs fd) as [entry|] eqn:Hv.
  - destruct (read_moves_cursor_only _ _ _ _ _ _ _ _ Hv H) as [p ->].
    unfold set_descriptor. simpl. by rewrite length_insert.
  - unfold read in H. rewrite Hv in H. by injection H as <- <- <-.
Qed.

Lemma write_cases (fuel : nat) (fs fs' : COWFileSystem) (fd : Z)
    (buffer : option (list byte)) (now : string) (r : Z) :
  write BLOCK_SIZE fuel fs fd buffer now = Done (r, fs') →
  (r = (-1)%Z
   ∧ file_descriptors fs' = file_descriptors fs ∧ inodes fs' = inodes fs
   ∧ vsize (blocks fs') = vsize (blocks fs)
   ∧ (fs' = fs
      ∨ ∃ bytes entry inode delta_start delta_size first_block,
          buffer = Some bytes
          ∧ detect_delta BLOCK_SIZE fs fd entry inode bytes
            = Done (Some (delta_start, delta_size), fs)
          ∧ delta_size ≠ 0
          ∧ write_delta_blocks BLOCK_SIZE fuel fs bytes (vsize bytes)
              delta_start
            = Done (false, first_block, fs')))
  ∨ (r = 0%Z ∧ fs' = fs ∧ (buffer = None ∨ buffer = Some []))
  ∨ ∃ entry ino inode bytes,
      buffer = Some bytes ∧ bytes ≠ []
      ∧ r = Z.of_N (vsize bytes)
      ∧ valid_descriptor fs fd = Some entry
      ∧ FileDescriptor.mode entry = WRITE
      ∧ FileDescriptor.inode entry = Some ino
      ∧ inodes fs !! ino = Some inode
      ∧ (fs' = set_descriptor fd
                 (FileDescriptor.set_current_position (vsize bytes) entry) fs
         ∨ ∃ first_block delta_start delta_size fs3 bs,
             delta_size ≠ 0
             ∧ detect_delta BLOCK_SIZE fs fd entry inode bytes
               = Done (Some (delta_start, delta_size), fs)
             ∧ write_delta_blocks BLOCK_SIZE fuel fs bytes (vsize bytes)
                 delta_start
               = Done (true, first_block, fs3)
             ∧ increment_block_refs fuel (blocks fs3) first_block = Done bs
             ∧ fs' = set_descriptor fd
                       (FileDescriptor.set_current_position (vsize bytes)
                          entry)
                       (set_inode ino
                          (Inode.mk (Inode.is_used inode)
                             (Inode.filename inode) first_block
                             (vsize bytes) (Inode.version_count inode + 1)
                             (Inode.version_history inode
                              ++ [VersionInfo.mk
                                    (Inode.version_count inode + 1) now
                                    (vsize bytes) first_block delta_start
                                    delta_size
                                    (if 0 <? Inode.version_count inode
                                     then Inode.version_count inode else 0)]))
                          (set_blocks bs fs3))).
Proof.
  unfold write.
  destruct (valid_descriptor fs fd) as [entry|] eqn:Hv;
    [|intros [= <- <-]; left; split_and!; try done; by left].
  destruct (FileMode_eqb (FileDescriptor.mode entry) WRITE) eqn:Hm; simpl;
    [|intros [= <- <-]; left; split_and!; try done; by left].
  assert (Hmode : FileDescriptor.mode entry = WRITE)
    by (by destruct (FileDescriptor.mode entry)).
  destruct (FileDescriptor.inode entry) as [ino|] eqn:Hi;
    [|intros [= <- <-]; left; split_and!; try done; by left].
  destruct buffer as [bytes|];
    [|intros [= <- <-]; right; left; split_and!; try done; by left].
  destruct (vsize bytes =? 0) eqn:Hz.
  { intros [= <- <-]. right. left. split_and!; try done. right.
    apply N.eqb_eq in Hz. destruct bytes; [done|]. unfold vsize in Hz.
    simpl in Hz. lia. }
  apply N.eqb_neq in Hz.
  assert (Hne : bytes ≠ []) by (by intros ->).
  unfold_bind. unfold inode_at.
  destruct (inodes fs !! ino) as [inode|] eqn:Hl; [|done].
  destruct (detect_delta BLOCK_SIZE fs fd entry inode bytes)
    as [[delta fs2]| |] eqn:Hd; try done.
  pose proof (detect_delta_restores _ _ _ _ _ _ _ _ Hv Hd) as ->.
  pose proof (valid_descriptor_Some _ _ _ Hv) as (Hfd & Hlk & Hvalid).
  destruct delta as [[ds dsz]|];
    [|intros [= <- <-]; left; split_and!; try done; by left].
  rewrite Hlk. simpl.
  destruct (dsz =? 0) eqn:Hdz.
  { intros [= <- <-]. right. right. exists entry, ino, inode, bytes.
    split_and!; try done. by left. }
  apply N.eqb_neq in Hdz.
  unfold commit_version. unfold_bind.
  destruct (write_delta_blocks BLOCK_SIZE fuel fs bytes (vsize bytes) ds)
    as [[[ok first_block] fs3]| |] eqn:Hw; try done.
  pose proof (write_delta_blocks_tables _ _ _ _ _ _ _ _ _ Hw) as [Hfds Hins].
  destruct ok; simpl.
  2:{ intros [= <- <-]. left. split_and!; try done.
      - by eapply write_delta_blocks_vsize.
      - right. by exists bytes, entry, inode, ds, dsz, first_block. }
  destruct (increment_block_refs fuel (blocks fs3) first_block)
    as [bs| |] eqn:Hinc; try done.
  rewrite Hfds, Hlk. simpl.
  intros [= <- <-]. right. right. exists entry, ino, inode, bytes.
  split_and!; try done. right.
  exists first_block, ds, dsz, fs3, bs. split_and!; done.
Qed.

End WriteCases.

(** ** The name table across calls *)

Lemma find_inode_from_keys (ins ins' : list Inode.t) (pos : nat)
    (filename : string) :
  map name_key ins' = map name_key ins →
  find_inode_from ins' pos filename = find_inode_from ins pos filename.
Proof.
  revert ins' pos. induction ins as [|x ins IH]; intros [|y ins'] pos H;
    try done.
  unfold name_key in H. simpl in H. injection H as Hu Hf H. simpl.
  rewrite Hu, Hf, (IH ins'); done.
Qed.

Lemma list_files_keys (fs fs' : COWFileSystem) :
  map name_key (inodes fs') = map name_key (inodes fs) →
  list_files fs' = list_files fs.
Proof.
  unfold list_files. generalize (inodes fs) (inodes fs').
  intros ins ins' H. f_equal. revert ins' H.
  induction ins as [|x ins IH]; intros [|y ins'] H; try done.
  unfold name_key in H. simpl in H. injection H as Hu Hf H. simpl.
  rewrite Hu.
  destruct (Inode.is_used x); simpl; rewrite ?Hf, (IH ins'); done.
Qed.

Lemma keys_insert_same (ins : list Inode.t) (i : nat) (inode inode' : Inode.t) :
  ins !! i = Some inode → name_key inode' = name_key inode →
  map name_key (<[i := inode']> ins) = map name_key ins.
Proof.
  revert i. induction ins as [|x ins IH]; intros [|i] Hl Hk; simpl;
    simpl in Hl; try done.
  - injection Hl as ->. by rewrite Hk.
  - by rewrite (IH i).
Qed.

Lemma names_distinct_spec (l : list string) :
  names_distinct l = true ↔ NoDup l.
Proof.
  induction l as [|x l IH]; simpl.
  - split; [intros _; apply NoDup_nil_2|done].
  - rewrite andb_true_iff, negb_true_iff, IH, list.NoDup_cons.
    assert (H : existsb (String.eqb x) l = false ↔ x ∉ l); [|by rewrite H].
    rewrite <- not_true_iff_false, existsb_exists. split.
    + intros Hn Hin. apply Hn. exists x. split; [by apply list_elem_of_In|].
      apply String.eqb_refl.
    + intros Hn (y & Hin & He). apply String.eqb_eq in He as <-.
      by apply list_elem_of_In in Hin.
Qed.

Lemma filter_used_insert_new {B : Type} (f : Inode.t → B) (ins : list Inode.t)
    (i : nat) (old new : Inode.t) :
  ins !! i = Some old → Inode.is_used old = false →
  Inode.is_used new = true →
  map f (List.filter Inode.is_used (<[i := new]> ins))
  ≡ₚ f new :: map f (List.filter Inode.is_used ins).
Proof.
  revert i. induction ins as [|x ins IH]; intros [|i] Hl Ho Hn; simpl in *;
    try done.
  - simplify_eq. by rewrite Ho, Hn.
  - destruct (Inode.is_used x); simpl; rewrite (IH i); try done.
    apply Permutation_swap.
Qed.

Lemma filter_used_none (ins : list Inode.t) :
  (∀ inode, inode ∈ ins → Inode.is_used inode = false) →
  List.filter Inode.is_used ins = [].
Proof.
  induction ins as [|x ins IH]; intros H; simpl; [done|].
  rewrite (H x) by left. apply IH. intros inode Hin. apply H. by right.
Qed.

Section NameTable.
Variables BLOCK_SIZE MAX_FILES MAX_FILENAME_LENGTH : N.

(** Every call but a successful [create] leaves the names as they are; a
    successful [create] takes an unused slot for a name that did not
    resolve. *)
Lemma call_names (fuel : nat) (op : operation) (fs fs' : COWFileSystem)
    (r : reply) :
  call BLOCK_SIZE MAX_FILENAME_LENGTH fuel op fs = Done (r, fs') →
  map name_key (inodes fs') = map name_key (inodes fs)
  ∨ (list_files fs' = list_files fs
     ∧ ∀ name, find_inode fs' name = find_inode fs name)
  ∨ ∃ filename i old,
      op = Create filename
      ∧ find_inode fs filename = None
      ∧ inodes fs !! i = Some old ∧ Inode.is_used old = false
      ∧ inodes fs' = <[i := Inode.mk true (c_str filename) 0 0 0 []]> (inodes fs).
Proof.
  destruct op as [filename|filename mode|fd|fd size|fd buffer now|fd v|];
    simpl.
  - destruct (create MAX_FILENAME_LENGTH fs filename) as [fd fs1] eqn:Hc.
    intros [= <- <-].
    apply create_cases in Hc as [(-> & -> & _)|Hc]; [by left|].
    destruct Hc as (i & old & _ & Hnone & _ & Hold & Hu & Hc).
    destruct Hc as [(-> & _ & ->)|(_ & _ & ->)].
    + right. left. split.
      * unfold list_files, set_inode. simpl.
        by rewrite (filter_used_insert_unused _ _ old).
      * intros name. unfold find_inode, set_inode. simpl.
        apply find_inode_from_insert_miss; [|done].
        intros old' Hold'. simplify_eq. by apply answers_unused.
    + right. right. by exists filename, i, old.
  - destruct (open fs filename mode) as [fd fs1] eqn:Ho. intros [= <- <-].
    left. unfold open in Ho. destruct (find_inode fs filename); [|by simplify_eq].
    destruct (_ <? 0)%Z; by simplify_eq.
  - destruct (close fs fd) as [c fs1] eqn:Hc. intros [= <- <-].
    left. unfold close in Hc. destruct (valid_descriptor fs fd); by simplify_eq.
  - unfold_bind.
    destruct (read BLOCK_SIZE fs fd size) as [[[c b] fs1]| |] eqn:Hr; try done.
    intros [= <- <-]. left. apply read_tables in Hr as (-> & _). done.
  - unfold_bind.
    destruct (write BLOCK_SIZE fuel fs fd buffer now) as [[c fs1]| |] eqn:Hw;
      try done.
    intros [= <- <-]. left.
    apply write_cases in Hw as [(_ & _ & -> & _)|[(_ & -> & _)|Hw]]; try done.
    destruct Hw as (entry & ino & inode & bytes & _ & _ & _ & _ & _ & _ & Hl
                    & [->|Hw]); [done|].
    destruct Hw as (fb & ds & dsz & fs3 & bs & _ & _ & Hwd & _ & ->).
    apply write_delta_blocks_tables in Hwd as [_ Hins].
    unfold set_descriptor, set_inode. simpl. rewrite Hins.
    by apply (keys_insert_same _ _ inode).
  - unfold_bind.
    destruct (rollback_to_version fuel fs fd v) as [[c fs1]| |] eqn:Hr;
      try done.
    intros [= <- <-]. left.
    apply rollback_cases in Hr as [(_ & ->)|Hr]; [done|].
    destruct Hr as (entry & ino & inode & target & bs & _ & _ & _ & Hl & _ & _
                    & _ & _ & _ & ->).
    unfold set_descriptor, set_inode. simpl.
    by apply (keys_insert_same _ _ inode).
  - unfold_bind.
    destruct (garbage_collect BLOCK_SIZE fuel fs) as [fs1| |] eqn:Hg; try done.
    intros [= <- <-]. left. apply garbage_collect_tables in Hg as (_ & -> & _).
    done.
Qed.

Lemma call_keeps_names (fuel : nat) (op : operation) (fs fs' : COWFileSystem)
    (r : reply) (name : string) (i : nat) :
  call BLOCK_SIZE MAX_FILENAME_LENGTH fuel op fs = Done (r, fs') →
  find_inode fs name = Some i → find_inode fs' name = Some i.
Proof.
  intros Hc Hf. apply call_names in Hc as [Hk|[(_ & Hk)|Hc]].
  - unfold find_inode. by rewrite (find_inode_from_keys _ _ _ _ Hk).
  - by rewrite Hk.
  - destruct Hc as (filename & j & old & -> & Hnone & Hold & Hu & Hins).
    unfold find_inode in *. rewrite Hins.
    rewrite find_inode_from_insert_miss; [done| |].
    + intros old' Hold'. simplify_eq. by apply answers_unused.
    + unfold answers. simpl. rewrite strcmp_eq_c_str_l.
      destruct (strcmp_eq filename name) eqn:E; [|done].
      apply strcmp_eq_true in E.
      rewrite (find_inode_from_ext _ _ _ _ E) in Hnone. congruence.
Qed.

Lemma call_keeps_distinct (fuel : nat) (op : operation)
    (fs fs' : COWFileSystem) (r : reply) :
  call BLOCK_SIZE MAX_FILENAME_LENGTH fuel op fs = Done (r, fs') →
  NoDup (list_files fs).2 → NoDup (list_files fs').2.
Proof.
  intros Hc Hd. apply call_names in Hc as [Hk|[(Hk & _)|Hc]].
  - by rewrite (list_files_keys _ _ Hk).
  - by rewrite Hk.
  - destruct Hc as (filename & j & old & -> & Hnone & Hold & Hu & Hins).
    unfold list_files in *. simpl in *. rewrite Hins.
    rewrite (filter_used_insert_new _ _ _ old); try done.
    apply list.NoDup_cons. split; [|done]. simpl.
    intros Hin. rewrite c_str_idem in Hin.
    apply (list_files_find_inode _ 0%nat filename) in Hin.
    exact (Hin Hnone).
Qed.

(** X8.  No sequence of create, open, close, read, write,
    rollback_to_version and garbage_collect calls that runs to completion
    removes or moves a file: a name that resolves to an inode slot resolves
    to the same slot afterwards, and a name listed by list_files stays
    listed. The interface has no delete. *)
Theorem files_are_never_removed (fuel : nat) (ops : list operation)
    (fs fs' : COWFileSystem) (rs : list reply) :
  calls BLOCK_SIZE MAX_FILENAME_LENGTH fuel ops fs = Done (rs, fs') →
  (∀ name i, find_inode fs name = Some i → find_inode fs' name = Some i)
  ∧ (∀ listed, listed ∈ (list_files fs).2 → listed ∈ (list_files fs').2).
Proof.
  intros Hc.
  assert (H : ∀ name i,
             find_inode fs name = Some i → find_inode fs' name = Some i).
  { revert fs rs Hc. induction ops as [|op ops IH]; intros fs rs; simpl.
    - by intros [= <- <-].
    - unfold_bind.
      destruct (call _ _ _ op fs) as [[r fs1]| |] eqn:Hcall; try done.
      destruct (calls _ _ _ ops fs1) as [[rs' fs2]| |] eqn:Hcalls; try done.
      intros [= <- <-] name i Hf.
      eapply IH; [done|]. by eapply call_keeps_names. }
  split; [done|]. intros listed Hin.
  assert (Hc' : c_str listed = listed).
  { unfold list_files in Hin. simpl in Hin.
    apply list_elem_of_In, in_map_iff in Hin as (inode & <- & _).
    apply c_str_idem. }
  rewrite <- Hc' in *. apply (list_files_find_inode _ 0%nat) in Hin.
  apply (list_files_find_inode _ 0%nat).
  change (find_inode fs listed ≠ None) in Hin.
  change (find_inode fs' listed ≠ None).
  destruct (find_inode fs listed) as [i|] eqn:E; [|done].
  by rewrite (H listed i E).
Qed.

(** X9.  On a newly created disk list_files is empty, and any sequence of
    calls that runs to completion keeps the names listed by list_files
    pairwise distinct: create never makes a second file of a name in use. *)
Theorem file_names_stay_distinct :
  (∀ can_create disk_size fs,
     COWFileSystem_new BLOCK_SIZE MAX_FILES None can_create disk_size
     = Some fs →
     list_files fs = (true, []))
  ∧ (∀ fuel ops fs rs fs',
       names_distinct (list_files fs).2 = true →
       calls BLOCK_SIZE MAX_FILENAME_LENGTH fuel ops fs = Done (rs, fs') →
       names_distinct (list_files fs').2 = true).
Proof.
  split.
  - intros can_create disk_size fs. unfold COWFileSystem_new, initialize_disk.
    destruct can_create; [|done]. intros [= <-].
    unfold list_files. simpl. rewrite filter_used_none; [done|].
    intros inode Hin. apply list_elem_of_In, in_map_iff in Hin as (x & <- & _).
    done.
  - intros fuel ops fs rs fs' Hd Hc. apply names_distinct_spec.
    apply names_distinct_spec in Hd.
    revert fs rs Hd Hc. induction ops as [|op ops IH]; intros fs rs Hd; simpl.
    + by intros [= <- <-].
    + unfold_bind.
      destruct (call _ _ _ op fs) as [[r fs1]| |] eqn:Hcall; try done.
      destruct (calls _ _ _ ops fs1) as [[rs' fs2]| |] eqn:Hcalls; try done.
      intros [= <- <-]. eapply IH; [|done]. by eapply call_keeps_distinct.
Qed.

End NameTable.

(** ** Free-space manager *)

Lemma cells_from_app (s : N) (a b : nat) :
  cells_from s (a + b) = cells_from s a ++ cells_from (s + N.of_nat a) b.
Proof.
  revert s. induction a as [|a IH]; intros s; simpl.
  - by rewrite N.add_0_r.
  - rewrite IH. do 3 f_equal. lia.
Qed.

Lemma elem_of_cells_from (i s : N) (n : nat) :
  i ∈ cells_from s n ↔ s ≤ i < s + N.of_nat n.
Proof.
  revert s. induction n as [|n IH]; intros s; simpl.
  - split; [intros H; by apply elem_of_nil in H|lia].
  - rewrite elem_of_cons, IH. lia.
Qed.

Lemma run_cells_add (s c c' : N) :
  run_cells (FreeBlockInfo.mk s (c + c'))
  = run_cells (FreeBlockInfo.mk s c) ++ run_cells (FreeBlockInfo.mk (s + c) c').
Proof.
  unfold run_cells. simpl. rewrite N2Nat.inj_add, cells_from_app, N2Nat.id.
  done.
Qed.

Lemma elem_of_run_cells (i : N) (r : FreeBlockInfo.t) :
  i ∈ run_cells r ↔ in_run i r = true.
Proof.
  unfold run_cells, in_run. rewrite elem_of_cells_from, N2Nat.id.
  rewrite andb_true_iff, N.leb_le, N.ltb_lt. done.
Qed.

Lemma merge_from_cells (current : FreeBlockInfo.t)
    (rest : list FreeBlockInfo.t) :
  free_cells (merge_from current rest) = free_cells (current :: rest).
Proof.
  revert current. induction rest as [|next rest IH]; intros current; simpl;
    [done|].
  destruct (_ =? _) eqn:E.
  - apply N.eqb_eq in E. rewrite IH, !free_cells_cons, run_cells_add, E.
    destruct current as [s c], next as [s' c']. simpl. by rewrite <- app_assoc.
  - by rewrite !free_cells_cons, IH, free_cells_cons.
Qed.

Lemma merge_from_head (current : FreeBlockInfo.t)
    (rest : list FreeBlockInfo.t) :
  ∃ c tl,
    merge_from current rest
    = FreeBlockInfo.mk (FreeBlockInfo.start_block current) c :: tl
    ∧ FreeBlockInfo.block_count current ≤ c.
Proof.
  revert current. induction rest as [|next rest IH]; intros current; simpl.
  - exists (FreeBlockInfo.block_count current), []. by destruct current.
  - destruct (_ =? _).
    + destruct (IH (FreeBlockInfo.mk (FreeBlockInfo.start_block current)
                      (FreeBlockInfo.block_count current
                       + FreeBlockInfo.block_count next)))
        as (c & tl & -> & Hc).
      exists c, tl. simpl in *. split; [done|lia].
    + exists (FreeBlockInfo.block_count current), (merge_from next rest).
      by destruct current.
Qed.

Lemma merge_from_coalesced (current : FreeBlockInfo.t)
    (rest : list FreeBlockInfo.t) :
  coalesced (merge_from current rest) = true.
Proof.
  revert current. induction rest as [|next rest IH]; intros current; simpl;
    [done|].
  destruct (_ =? _) eqn:E; [apply IH|].
  specialize (IH next).
  destruct (merge_from_head next rest) as (c & tl & Hm & _).
  rewrite Hm in *. simpl. rewrite E. simpl. exact IH.
Qed.



Lemma merge_free_blocks_cells (fl : list FreeBlockInfo.t) :
  free_cells (merge_free_blocks fl) = free_cells fl.
Proof. destruct fl as [|current rest]; [done|]. apply merge_from_cells. Qed.

Lemma merge_free_blocks_coalesced (fl : list FreeBlockInfo.t) :
  coalesced (merge_free_blocks fl) = true.
Proof. destruct fl as [|current rest]; [done|]. apply merge_from_coalesced. Qed.


Lemma insert_after_cells (new_block : FreeBlockInfo.t)
    (rest : list FreeBlockInfo.t) :
  free_cells (insert_after new_block rest)
  ≡ₚ run_cells new_block ++ free_cells rest.
Proof.
  induction rest as [|next rest IH]; simpl; [done|].
  destruct (_ <? _).
  - rewrite !free_cells_cons, IH.
    rewrite !app_assoc. apply Permutation_app_tail, Permutation_app_comm.
  - by rewrite !free_cells_cons.
Qed.

Lemma add_to_free_list_cells (fl : list FreeBlockInfo.t) (start count : N) :
  free_cells (add_to_free_list fl start count)
  ≡ₚ cells_from start (N.to_nat count) ++ free_cells fl.
Proof.
  unfold add_to_free_list. rewrite merge_free_blocks_cells.
  destruct fl as [|head rest]; [done|].
  destruct (_ <? _); [done|].
  rewrite !free_cells_cons, insert_after_cells.
  rewrite !app_assoc. apply Permutation_app_tail, Permutation_app_comm.
Qed.

Lemma ascending_coalesced_cons (r r' : FreeBlockInfo.t)
    (rest : list FreeBlockInfo.t) :
  ascending_coalesced (r :: r' :: rest) = true
  ↔ FreeBlockInfo.start_block r + FreeBlockInfo.block_count r
    < FreeBlockInfo.start_block r'
    ∧ ascending_coalesced (r' :: rest) = true.
Proof. simpl. by rewrite andb_true_iff, N.ltb_lt. Qed.



Lemma positive_runs_cons (r : FreeBlockInfo.t) (fl : list FreeBlockInfo.t) :
  positive_runs (r :: fl) = true
  ↔ 0 < FreeBlockInfo.block_count r ∧ positive_runs fl = true.
Proof. unfold positive_runs. simpl. by rewrite andb_true_iff, N.ltb_lt. Qed.





(** The search of [find_best_fit], with the runs seen so far. *)
Lemma find_best_fit_from_spec (seen fl : list FreeBlockInfo.t) (needed : N)
    (best : option nat) (smallest : N) :
  (∀ r, r ∈ fl → FreeBlockInfo.block_count r - needed < SIZE_MAX) →
  match best with
  | None =>
      smallest = SIZE_MAX
      ∧ ∀ r, r ∈ seen → FreeBlockInfo.block_count r < needed
  | Some b =>
      ∃ r, seen !! b = Some r
           ∧ needed ≤ FreeBlockInfo.block_count r
           ∧ FreeBlockInfo.block_count r - needed = smallest
           ∧ smallest ≠ 0
           ∧ ∀ j r', seen !! j = Some r' →
                     needed ≤ FreeBlockInfo.block_count r' →
                     FreeBlockInfo.block_count r
                     ≤ FreeBlockInfo.block_count r'
                     ∧ ((j < b)%nat →
                        FreeBlockInfo.block_count r
                        < FreeBlockInfo.block_count r')
  end →
  match find_best_fit_from fl (length seen) needed best smallest with
  | None => ∀ r, r ∈ seen ++ fl → FreeBlockInfo.block_count r < needed
  | Some q =>
      ∃ r, (seen ++ fl) !! q = Some r
           ∧ needed ≤ FreeBlockInfo.block_count r
           ∧ ∀ j r', (seen ++ fl) !! j = Some r' →
                     needed ≤ FreeBlockInfo.block_count r' →
                     FreeBlockInfo.block_count r
                     ≤ FreeBlockInfo.block_count r'
                     ∧ ((j < q)%nat →
                        FreeBlockInfo.block_count r
                        < FreeBlockInfo.block_count r')
  end.
Proof.
  revert seen best smallest.
  induction fl as [|current rest IH]; intros seen best smallest Hb Hinv.
  - simpl. rewrite app_nil_r. destruct best as [b|].
    + destruct Hinv as (r & Hl & Hfit & _ & _ & Hmin). by exists r.
    + by destruct Hinv.
  - assert (Hb' : ∀ r, r ∈ rest →
                       FreeBlockInfo.block_count r - needed < SIZE_MAX).
    { intros r Hr. apply Hb. by right. }
    assert (Hcur : FreeBlockInfo.block_count current - needed < SIZE_MAX).
    { apply Hb. left. }
    assert (Hlast : (seen ++ [current]) !! length seen = Some current).
    { by rewrite list_lookup_middle. }
    assert (Hlook : ∀ j r', (seen ++ [current]) !! j = Some r' →
                       seen !! j = Some r' ∧ (j < length seen)%nat
                       ∨ j = length seen ∧ r' = current).
    { intros j r' Hl. destruct (decide (j < length seen)%nat) as [Hj|Hj].
      - left. by rewrite lookup_app_l in Hl.
      - right. rewrite lookup_app_r in Hl by lia.
        destruct (j - length seen)%nat as [|k] eqn:Ek; [|by destruct k].
        simpl in Hl. split; [lia|congruence]. }
    specialize (IH (seen ++ [current])).
    rewrite length_app, Nat.add_1_r, <- app_assoc in IH. simpl in IH.
    simpl.
    destruct (needed <=? FreeBlockInfo.block_count current) eqn:Efit;
      [apply N.leb_le in Efit|apply N.leb_gt in Efit].
    + destruct (FreeBlockInfo.block_count current - needed <? smallest)
        eqn:Elt; [apply N.ltb_lt in Elt|apply N.ltb_ge in Elt].
      * destruct (FreeBlockInfo.block_count current - needed =? 0) eqn:Ez;
          [apply N.eqb_eq in Ez|apply N.eqb_neq in Ez].
        -- exists current. split; [by rewrite list_lookup_middle|].
           split; [done|]. intros j r' Hl Hfit'. split; [lia|].
           intros Hj. rewrite lookup_app_l in Hl by done.
           destruct best as [b|].
           ++ destruct Hinv as (r & Hlr & Hfr & Hdr & Hnz & Hmin).
              destruct (Hmin j r' Hl Hfit') as [H1 _]. lia.
           ++ destruct Hinv as [_ Hno].
              specialize (Hno r' (list_elem_of_lookup_2 _ _ _ Hl)). lia.
        -- apply IH; [done|].
           exists current. split_and!; try done.
           intros j r' Hl Hfit'.
           destruct (Hlook j r' Hl) as [[Hl' Hj]|[-> ->]]; [|lia].
           destruct best as [b|].
           ++ destruct Hinv as (r & Hlr & Hfr & Hdr & Hnz & Hmin).
              destruct (Hmin j r' Hl' Hfit') as [H1 _]. lia.
           ++ destruct Hinv as [_ Hno].
              specialize (Hno r' (list_elem_of_lookup_2 _ _ _ Hl')). lia.
      * apply IH; [done|]. destruct best as [b|].
        -- destruct Hinv as (r & Hlr & Hfr & Hdr & Hnz & Hmin).
           pose proof (lookup_lt_Some _ _ _ Hlr) as Hblt.
           exists r. split_and!; try done.
           ++ by rewrite lookup_app_l.
           ++ intros j r' Hl Hfit'.
              destruct (Hlook j r' Hl) as [[Hl' Hj]|[-> ->]].
              ** by apply Hmin.
              ** split; [lia|]. intros ?. lia.
        -- destruct Hinv as [-> _]. lia.
    + apply IH; [done|]. destruct best as [b|].
      * destruct Hinv as (r & Hlr & Hfr & Hdr & Hnz & Hmin).
        pose proof (lookup_lt_Some _ _ _ Hlr) as Hblt.
        exists r. split_and!; try done.
        -- by rewrite lookup_app_l.
        -- intros j r' Hl Hfit'.
           destruct (Hlook j r' Hl) as [[Hl' Hj]|[-> ->]]; [|lia].
           by apply Hmin.
      * destruct Hinv as [-> Hno]. split; [done|].
        intros r Hr. apply elem_of_app in Hr as [Hr|Hr]; [by apply Hno|].
        apply list_elem_of_singleton in Hr as ->. done.
Qed.

(** X12.  For a request of at least one block on a list whose counts fit a
    size_t: find_best_fit returns no node exactly when every run is smaller
    than the request; otherwise it returns a run that is large enough, no
    larger than any other run that is large enough, and strictly smaller
    than every such run before it in the list (the first of the smallest
    fits). *)
Theorem find_best_fit_takes_smallest_fit (fl : list FreeBlockInfo.t)
    (blocks_needed : N) :
  counts_bounded fl = true →
  0 < blocks_needed →
  match find_best_fit fl blocks_needed with
  | None => ∀ r, r ∈ fl → FreeBlockInfo.block_count r < blocks_needed
  | Some pos =>
      ∃ r, fl !! pos = Some r
           ∧ blocks_needed ≤ FreeBlockInfo.block_count r
           ∧ ∀ j r', fl !! j = Some r' →
                     blocks_needed ≤ FreeBlockInfo.block_count r' →
                     FreeBlockInfo.block_count r
                     ≤ FreeBlockInfo.block_count r'
                     ∧ ((j < pos)%nat →
                        FreeBlockInfo.block_count r
                        < FreeBlockInfo.block_count r')
  end.
Proof.
  intros Hb Hpos. unfold find_best_fit.
  apply (find_best_fit_from_spec [] fl blocks_needed None SIZE_MAX).
  - intros r Hr. unfold counts_bounded in Hb.
    rewrite forallb_forall in Hb. apply list_elem_of_In in Hr.
    specialize (Hb r Hr). apply N.ltb_lt in Hb.
    unfold SIZE_MAX, word. lia.
  - split; [done|]. intros r Hr. by apply elem_of_nil in Hr.
Qed.

Lemma ascending_coalesced_head (r : FreeBlockInfo.t)
    (l : list FreeBlockInfo.t) :
  ascending_coalesced (r :: l) = true
  ↔ match l with
    | [] => True
    | r' :: _ =>
        FreeBlockInfo.start_block r + FreeBlockInfo.block_count r
        < FreeBlockInfo.start_block r'
    end
    ∧ ascending_coalesced l = true.
Proof.
  destruct l as [|r' l]; [simpl; tauto|]. apply ascending_coalesced_cons.
Qed.

Lemma ascending_coalesced_insert (fl : list FreeBlockInfo.t) (pos : nat)
    (r x : FreeBlockInfo.t) :
  ascending_coalesced fl = true →
  fl !! pos = Some r →
  FreeBlockInfo.start_block r ≤ FreeBlockInfo.start_block x →
  FreeBlockInfo.start_block x + FreeBlockInfo.block_count x
  = FreeBlockInfo.start_block r + FreeBlockInfo.block_count r →
  ascending_coalesced (<[pos := x]> fl) = true.
Proof.
  revert pos. induction fl as [|a l IH]; intros pos Ha Hl Hs He; [done|].
  apply ascending_coalesced_head in Ha as [Hh Ht].
  destruct pos as [|pos]; simpl in Hl.
  - injection Hl as ->. simpl. apply ascending_coalesced_head.
    split; [|done]. destruct l as [|r' l]; [done|]. lia.
  - simpl. apply ascending_coalesced_head. split; [|by eapply IH].
    destruct l as [|r' l]; [done|]. destruct pos as [|pos]; simpl.
    + simpl in Hl. injection Hl as ->. lia.
    + done.
Qed.

Lemma ascending_coalesced_delete (fl : list FreeBlockInfo.t) (pos : nat) :
  ascending_coalesced fl = true → ascending_coalesced (delete pos fl) = true.
Proof.
  revert pos. induction fl as [|a l IH]; intros pos Ha; [done|].
  apply ascending_coalesced_head in Ha as [Hh Ht].
  destruct pos as [|pos]; simpl; [done|].
  apply ascending_coalesced_head. split; [|by apply IH].
  destruct l as [|r' l]; [done|]. destruct pos as [|pos]; simpl; [|done].
  destruct l as [|r'' l]; [done|].
  apply ascending_coalesced_cons in Ht as [Ht _]. lia.
Qed.

Lemma positive_runs_insert (fl : list FreeBlockInfo.t) (pos : nat)
    (x : FreeBlockInfo.t) :
  positive_runs fl = true → 0 < FreeBlockInfo.block_count x →
  positive_runs (<[pos := x]> fl) = true.
Proof.
  revert pos. induction fl as [|a l IH]; intros pos Hp Hx; [done|].
  apply positive_runs_cons in Hp as [H1 H2].
  destruct pos as [|pos]; simpl; apply positive_runs_cons; auto.
Qed.

Lemma positive_runs_delete (fl : list FreeBlockInfo.t) (pos : nat) :
  positive_runs fl = true → positive_runs (delete pos fl) = true.
Proof.
  revert pos. induction fl as [|a l IH]; intros pos Hp; [done|].
  apply positive_runs_cons in Hp as [H1 H2].
  destruct pos as [|pos]; simpl; [done|]. apply positive_runs_cons; auto.
Qed.

Lemma free_cells_nil (fl : list FreeBlockInfo.t) :
  free_cells fl = [] ↔ ∀ r, r ∈ fl → FreeBlockInfo.block_count r < 1.
Proof.
  induction fl as [|a l IH].
  - split; [|done]. intros _ r Hr. by apply elem_of_nil in Hr.
  - rewrite free_cells_cons. split.
    + intros H. apply app_eq_nil in H as [H1 H2]. intros r Hr.
      apply elem_of_cons in Hr as [->|Hr]; [|by apply IH].
      unfold run_cells in H1.
      destruct (N.to_nat (FreeBlockInfo.block_count a)) eqn:E; [lia|done].
    + intros H. rewrite (proj2 IH); [|intros r Hr; apply H; by right].
      rewrite app_nil_r. unfold run_cells.
      specialize (H a ltac:(left)).
      by replace (N.to_nat (FreeBlockInfo.block_count a)) with 0%nat by lia.
Qed.

(** X13.  With counts that fit a size_t: allocate_block fails without
    changing the state when the free list holds no block. Otherwise it picks
    the first of the smallest non-empty runs and hands out its first block:
    that block becomes used with next_block 0 and ref_count 0, its data and
    all other blocks are untouched, exactly this block leaves the free list,
    an ascending coalesced list without empty runs stays so, and descriptors
    and inodes are unchanged. If the start of the run lies outside the block
    array the write is out of bounds. *)
Theorem allocate_block_takes_smallest_run (fs : COWFileSystem) :
  counts_bounded (free_blocks_list fs) = true →
  (free_cells (free_blocks_list fs) = [] →
   allocate_block fs = Done (None, fs))
  ∧ (free_cells (free_blocks_list fs) ≠ [] →
     ∃ pos r,
       free_blocks_list fs !! pos = Some r
       ∧ 0 < FreeBlockInfo.block_count r
       ∧ (∀ j r', free_blocks_list fs !! j = Some r' →
                  0 < FreeBlockInfo.block_count r' →
                  FreeBlockInfo.block_count r ≤ FreeBlockInfo.block_count r'
                  ∧ ((j < pos)%nat →
                     FreeBlockInfo.block_count r
                     < FreeBlockInfo.block_count r'))
       ∧ (vsize (blocks fs) ≤ FreeBlockInfo.start_block r →
          allocate_block fs = Undefined)
       ∧ (FreeBlockInfo.start_block r < vsize (blocks fs) →
          ∃ fs',
            allocate_block fs = Done (Some (FreeBlockInfo.start_block r), fs')
            ∧ block_at (blocks fs') (FreeBlockInfo.start_block r)
              = Block.mk true 0 0
                  (Block.data
                     (block_at (blocks fs) (FreeBlockInfo.start_block r)))
            ∧ (∀ j, j ≠ FreeBlockInfo.start_block r →
                    block_at (blocks fs') j = block_at (blocks fs) j)
            ∧ (∃ l1 l2,
                 free_cells (free_blocks_list fs)
                 = l1 ++ FreeBlockInfo.start_block r :: l2
                 ∧ free_cells (free_blocks_list fs') = l1 ++ l2)
            ∧ (ascending_coalesced (free_blocks_list fs) = true →
               ascending_coalesced (free_blocks_list fs') = true)
            ∧ (positive_runs (free_blocks_list fs) = true →
               positive_runs (free_blocks_list fs') = true)
            ∧ file_descriptors fs' = file_descriptors fs
            ∧ inodes fs' = inodes fs)).
Proof.
  intros Hb.
  pose proof (find_best_fit_from_spec [] (free_blocks_list fs) 1 None SIZE_MAX)
    as Hspec.
  simpl in Hspec. fold (find_best_fit (free_blocks_list fs) 1) in Hspec.
  assert (Hsp : match find_best_fit (free_blocks_list fs) 1 with
                | None =>
                    ∀ r, r ∈ free_blocks_list fs →
                         FreeBlockInfo.block_count r < 1
                | Some q =>
                    ∃ r, free_blocks_list fs !! q = Some r
                         ∧ 1 ≤ FreeBlockInfo.block_count r
                         ∧ ∀ j r', free_blocks_list fs !! j = Some r' →
                                   1 ≤ FreeBlockInfo.block_count r' →
                                   FreeBlockInfo.block_count r
                                   ≤ FreeBlockInfo.block_count r'
                                   ∧ ((j < q)%nat →
                                      FreeBlockInfo.block_count r
                                      < FreeBlockInfo.block_count r')
                end).
  { apply Hspec.
    - intros r Hr. unfold counts_bounded in Hb.
      rewrite forallb_forall in Hb. apply list_elem_of_In in Hr.
      specialize (Hb r Hr). apply N.ltb_lt in Hb. unfold SIZE_MAX, word. lia.
    - split; [done|]. intros r Hr. by apply elem_of_nil in Hr. }
  clear Hspec. split.
  - intros Hnil. unfold allocate_block.
    destruct (find_best_fit (free_blocks_list fs) 1) as [q|]; [|done].
    destruct Hsp as (r & Hl & Hfit & _).
    pose proof (proj1 (free_cells_nil _) Hnil r
                  (list_elem_of_lookup_2 _ _ _ Hl)). lia.
  - intros Hne.
    destruct (find_best_fit (free_blocks_list fs) 1) as [q|] eqn:Ef.
    2:{ exfalso. apply Hne. by apply free_cells_nil. }
    destruct Hsp as (r & Hl & Hfit & Hmin).
    exists q, r. split; [done|]. split; [lia|]. split.
    { intros j r' Hl' Hp. apply (Hmin j r' Hl'). lia. }
    split.
    + intros Hout. unfold allocate_block. rewrite Ef, Hl.
      by replace (FreeBlockInfo.start_block r <? vsize (blocks fs)) with false
        by (symmetry; apply N.ltb_ge; lia).
    + intros Hin.
      destruct (allocate_block fs) as [[res fs']| |] eqn:Ea.
      2,3: unfold allocate_block in Ea; rewrite Ef, Hl in Ea;
           replace (FreeBlockInfo.start_block r <? vsize (blocks fs))
             with true in Ea by (symmetry; apply N.ltb_lt; lia);
           discriminate Ea.
      pose proof Ea as Ea'. unfold allocate_block in Ea'.
      rewrite Ef, Hl in Ea'.
      replace (FreeBlockInfo.start_block r <? vsize (blocks fs)) with true
        in Ea' by (symmetry; apply N.ltb_lt; lia).
      injection Ea' as <- <-.
      destruct (allocate_block_Some _ _ _ Ea)
        as (l1 & l2 & Hc1 & Hc2 & _ & Hbl & Hfd & Hino).
      eexists. split; [done|]. split_and!.
      * simpl. by rewrite block_at_upd_eq.
      * intros j Hj. simpl. by rewrite block_at_upd_ne.
      * by exists l1, l2.
      * intros Ha. simpl.
        destruct (1 <? FreeBlockInfo.block_count r) eqn:E1.
        -- apply N.ltb_lt in E1.
           eapply ascending_coalesced_insert; try done; simpl; lia.
        -- by apply ascending_coalesced_delete.
      * intros Hp. simpl.
        destruct (1 <? FreeBlockInfo.block_count r) eqn:E1.
        -- apply N.ltb_lt in E1. apply positive_runs_insert; [done|].
           simpl. lia.
        -- by apply positive_runs_delete.
      * done.
      * done.
Qed.

(** ** [split_free_block] *)

Lemma merge_from_split (current : FreeBlockInfo.t)
    (pre post : list FreeBlockInfo.t) (s n c : N) :
  n ≤ c →
  merge_from current
    (pre ++ FreeBlockInfo.mk s n :: FreeBlockInfo.mk (s + n) (c - n) :: post)
  = merge_from current (pre ++ FreeBlockInfo.mk s c :: post).
Proof.
  intros Hn. revert current.
  induction pre as [|x pre IH]; intros current; simpl.
  - destruct (_ =? s) eqn:E; simpl.
    + apply N.eqb_eq in E.
      replace (FreeBlockInfo.start_block current
               + (FreeBlockInfo.block_count current + n) =? s + n)
        with true by (symmetry; apply N.eqb_eq; lia).
      do 2 f_equal. lia.
    + rewrite N.eqb_refl. do 3 f_equal. lia.
  - destruct (_ =? _); by rewrite IH.
Qed.

(** X14.  split_free_block returns false and changes nothing for a null node
    or a run shorter than the size needed. Otherwise it returns true; a run
    of exactly the size is left alone, a longer run is cut into a run of the
    size needed followed by a new node with the rest. In every case the list
    covers the same blocks in the same order, and merge_free_blocks gives
    the same result as on the list before. *)
Theorem split_free_block_keeps_cells (fl fl' : list FreeBlockInfo.t)
    (block : option nat) (size_needed : N) (ok : bool) :
  split_free_block fl block size_needed = Done (ok, fl') →
  free_cells fl' = free_cells fl
  ∧ merge_free_blocks fl' = merge_free_blocks fl
  ∧ (ok = false →
     fl' = fl
     ∧ (block = None
        ∨ ∃ pos b, block = Some pos ∧ fl !! pos = Some b
                   ∧ FreeBlockInfo.block_count b < size_needed))
  ∧ (ok = true →
     ∃ pos b,
       block = Some pos ∧ fl !! pos = Some b
       ∧ size_needed ≤ FreeBlockInfo.block_count b
       ∧ fl' !! pos
         = Some (FreeBlockInfo.mk (FreeBlockInfo.start_block b) size_needed)
       ∧ (size_needed = FreeBlockInfo.block_count b → fl' = fl)
       ∧ (size_needed < FreeBlockInfo.block_count b →
          fl' !! S pos
          = Some (FreeBlockInfo.mk
                    (FreeBlockInfo.start_block b + size_needed)
                    (FreeBlockInfo.block_count b - size_needed))
          ∧ length fl' = S (length fl))).
Proof.
  unfold split_free_block.
  destruct block as [pos|]; [|intros [= <- <-]; split_and!; try done;
                               intros _; split; [done|by left]].
  destruct (fl !! pos) as [b|] eqn:Hl; [|done].
  destruct (FreeBlockInfo.block_count b <? size_needed) eqn:E1;
    [apply N.ltb_lt in E1|apply N.ltb_ge in E1].
  { intros [= <- <-]. split_and!; try done. intros _. split; [done|].
    right. by exists pos, b. }
  destruct (size_needed <? FreeBlockInfo.block_count b) eqn:E2;
    [apply N.ltb_lt in E2|apply N.ltb_ge in E2]; intros [= <- <-].
  - pose proof (lookup_lt_Some _ _ _ Hl) as Hlt.
    pose proof (take_drop_middle _ _ _ Hl) as Hmid.
    split_and!.
    + transitivity (free_cells (take pos fl ++ b :: drop (S pos) fl));
        [|by rewrite Hmid].
      rewrite !free_cells_app, !free_cells_cons.
      f_equal. rewrite app_assoc. f_equal.
      rewrite <- run_cells_add. destruct b as [s c]. simpl in *.
      do 2 f_equal. lia.
    + transitivity (merge_free_blocks (take pos fl ++ b :: drop (S pos) fl));
        [|by rewrite Hmid].
      destruct b as [s c]. simpl in *.
      destruct (take pos fl) as [|h t] eqn:Et; simpl.
      * rewrite N.eqb_refl. do 2 f_equal. lia.
      * by apply merge_from_split.
    + done.
    + intros _. exists pos, b. split_and!; try done.
      * rewrite lookup_app_r by (rewrite length_take; lia).
        rewrite length_take. by replace (pos - pos `min` length fl)%nat
          with 0%nat by lia.
      * lia.
      * intros _. split.
        -- rewrite lookup_app_r by (rewrite length_take; lia).
           rewrite length_take. by replace (S pos - pos `min` length fl)%nat
             with 1%nat by lia.
        -- rewrite length_app, length_take. simpl. rewrite length_drop. lia.
  - assert (size_needed = FreeBlockInfo.block_count b) by lia.
    split_and!; try done.
    intros _. exists pos, b. split_and!; try done; [|lia].
    rewrite Hl. f_equal. destruct b. simpl in *. congruence.
Qed.

(** ** [copy_block] *)

Section CopyBlock.
Variable BLOCK_SIZE : N.

(** X15.  When allocate_block fails, copy_block fails and leaves the same
    state; for source block 0 copy_block is allocate_block (nothing is
    copied). For a source other than 0 inside the block array that is not
    itself the block handed out (anything else is an out-of-bounds or
    overlapping memcpy), the destination is a block taken from the free
    list; it becomes used with ref_count 0, the next_block of the source and
    the first BLOCK_SIZE bytes of the source's data; every other block, the
    descriptors and the inodes are unchanged. *)
Theorem copy_block_copies (fs : COWFileSystem) (source_block : N) :
  copy_block BLOCK_SIZE fs 0 = allocate_block fs
  ∧ (∀ fs', allocate_block fs = Done (None, fs') →
            copy_block BLOCK_SIZE fs source_block = Done (None, fs'))
  ∧ (∀ dest_block fs',
       source_block ≠ 0 →
       copy_block BLOCK_SIZE fs source_block = Done (Some dest_block, fs') →
       source_block < vsize (blocks fs)
       ∧ dest_block < vsize (blocks fs)
       ∧ dest_block ≠ source_block
       ∧ dest_block ∈ free_cells (free_blocks_list fs)
       ∧ block_at (blocks fs') dest_block
         = Block.mk true
             (Block.next_block (block_at (blocks fs) source_block)) 0
             (take (N.to_nat BLOCK_SIZE)
                (Block.data (block_at (blocks fs) source_block))
              ++ drop (N.to_nat BLOCK_SIZE)
                   (Block.data (block_at (blocks fs) dest_block)))
       ∧ (length (Block.data (block_at (blocks fs) source_block))
          = N.to_nat BLOCK_SIZE →
          length (Block.data (block_at (blocks fs) dest_block))
          = N.to_nat BLOCK_SIZE →
          Block.data (block_at (blocks fs') dest_block)
          = Block.data (block_at (blocks fs) source_block))
       ∧ (∀ j, j ≠ dest_block →
               block_at (blocks fs') j = block_at (blocks fs) j)
       ∧ vsize (blocks fs') = vsize (blocks fs)
       ∧ file_descriptors fs' = file_descriptors fs
       ∧ inodes fs' = inodes fs).
Proof.
  split_and!.
  - unfold copy_block. unfold_bind.
    destruct (allocate_block fs) as [[[d|] fs1]| |]; done.
  - intros fs' Ha. unfold copy_block. unfold_bind. by rewrite Ha.
  - intros dest fs' Hsrc. unfold copy_block. unfold_bind.
    destruct (allocate_block fs) as [[[d|] fs1]| |] eqn:Ha; try done.
    apply N.eqb_neq in Hsrc. rewrite Hsrc. simpl.
    destruct ((source_block <? vsize (blocks fs1))
              && negb (source_block =? d)) eqn:E; [|done].
    apply andb_true_iff in E as [E1 E2].
    apply N.ltb_lt in E1. apply negb_true_iff, N.eqb_neq in E2.
    intros [= <- <-].
    destruct (allocate_block_Some _ _ _ Ha)
      as (l1 & l2 & Hc1 & Hc2 & Hd & Hbl & Hfd & Hino).
    assert (Hsz : vsize (blocks fs1) = vsize (blocks fs))
      by (rewrite Hbl; apply block_upd_vsize).
    assert (Hsource : block_at (blocks fs1) source_block
                      = block_at (blocks fs) source_block).
    { rewrite Hbl. by apply block_at_upd_ne. }
    assert (Hdest : block_at (blocks fs1) d
                    = Block.mk true 0 0 (Block.data (block_at (blocks fs) d))).
    { rewrite Hbl. by rewrite block_at_upd_eq. }
    assert (Hnew : block_at
                     (blocks
                        (set_blocks
                           (block_upd
                              (λ b, Block.set_next_block
                                      (Block.next_block
                                         (block_at (blocks fs1) source_block))
                                      (Block.set_data
                                         (memcpy (Block.data b)
                                            (Block.data
                                               (block_at (blocks fs1)
                                                  source_block))
                                            BLOCK_SIZE) b))
                              (blocks fs1) d) fs1)) d
                   = Block.mk true
                       (Block.next_block (block_at (blocks fs) source_block)) 0
                       (take (N.to_nat BLOCK_SIZE)
                          (Block.data (block_at (blocks fs) source_block))
                        ++ drop (N.to_nat BLOCK_SIZE)
                             (Block.data (block_at (blocks fs) d)))).
    { simpl. rewrite block_at_upd_eq by lia. rewrite Hsource, Hdest. done. }
    split_and!.
    + lia.
    + done.
    + done.
    + rewrite Hc1. apply elem_of_app. right. left.
    + exact Hnew.
    + intros H1 H2. rewrite Hnew. simpl.
      rewrite take_ge by lia. rewrite drop_ge by lia. apply app_nil_r.
    + intros j Hj. simpl. rewrite block_at_upd_ne by done.
      rewrite Hbl. by rewrite block_at_upd_ne.
    + simpl. by rewrite block_upd_vsize.
    + done.
    + done.
Qed.

End CopyBlock.

(** ** Reference counts *)

Lemma block_at_out (bs : list Block.t) (i : N) :
  vsize bs ≤ i → block_at bs i = zero_block.
Proof.
  intros H. unfold block_at. rewrite lookup_ge_None_2; [done|].
  unfold vsize in H. lia.
Qed.

Lemma block_at_free_block_eq (bs : list Block.t) (i : N) :
  i < vsize bs →
  block_at (free_block bs i) i
  = Block.mk false 0 (Block.ref_count (block_at bs i))
      (Block.data (block_at bs i)).
Proof.
  intros H. unfold free_block.
  replace (i <? vsize bs) with true by (symmetry; by apply N.ltb_lt).
  by rewrite block_at_upd_eq.
Qed.

Lemma block_at_free_block_ne (bs : list Block.t) (i j : N) :
  i ≠ j → block_at (free_block bs i) j = block_at bs j.
Proof.
  intros H. unfold free_block. destruct (i <? vsize bs); [|done].
  by rewrite block_at_upd_ne.
Qed.

(** X16.  A decrement_block_refs that runs to completion keeps the number of
    blocks and never touches block 0. Each block is either unchanged, or had
    ref_count 1 and is freed (unused, next_block 0, ref_count 0, data kept),
    or had ref_count 2 or more and only lost one reference. *)
Theorem decrement_block_refs_frees_last_reference (fuel : nat)
    (bs bs' : list Block.t) (block_index : N) :
  decrement_block_refs fuel bs block_index = Done bs' →
  vsize bs' = vsize bs
  ∧ block_at bs' 0 = block_at bs 0
  ∧ ∀ j,
      block_at bs' j = block_at bs j
      ∨ (Block.ref_count (block_at bs j) = 1
         ∧ block_at bs' j
           = Block.mk false 0 0 (Block.data (block_at bs j)))
      ∨ (2 ≤ Block.ref_count (block_at bs j)
         ∧ block_at bs' j
           = Block.set_ref_count (Block.ref_count (block_at bs j) - 1)
               (block_at bs j)).
Proof.
  revert bs block_index. induction fuel as [|fuel IH]; intros bs i; simpl;
    [done|].
  destruct (negb (i =? 0) && (i <? vsize bs)) eqn:Eg;
    [|intros [= <-]; split_and!; try done; intros j; by left].
  apply andb_true_iff in Eg as [Ei0 Ein].
  apply negb_true_iff, N.eqb_neq in Ei0. apply N.ltb_lt in Ein.
  destruct (0 <? Block.ref_count (block_at bs i)) eqn:Er;
    [apply N.ltb_lt in Er|apply IH].
  rewrite block_at_upd_eq by done. simpl.
  destruct (Block.ref_count (block_at bs i) - 1 =? 0) eqn:Ez;
    [apply N.eqb_eq in Ez|apply N.eqb_neq in Ez].
  - destruct (_ <? vsize (free_block _ i)); [|done].
    intros H. apply IH in H as (Hsz & H0 & Hall).
    rewrite free_block_vsize, block_upd_vsize in Hsz.
    split; [done|]. split.
    { rewrite H0, block_at_free_block_ne, block_at_upd_ne; done. }
    intros j. destruct (decide (j = i)) as [->|Hj].
    + right. left. split; [lia|].
      specialize (Hall i).
      rewrite block_at_free_block_eq in Hall
        by (by rewrite block_upd_vsize).
      rewrite block_at_upd_eq in Hall by done. simpl in Hall.
      rewrite Ez in Hall.
      destruct Hall as [H|[[H _]|[H _]]]; [done|simpl in H; lia..].
    + specialize (Hall j).
      rewrite block_at_free_block_ne, block_at_upd_ne in Hall by done.
      done.
  - intros [= <-]. split; [apply block_upd_vsize|]. split.
    { by rewrite block_at_upd_ne. }
    intros j. destruct (decide (j = i)) as [->|Hj].
    + right. right. split; [lia|]. by rewrite block_at_upd_eq.
    + left. by rewrite block_at_upd_ne.
Qed.

Lemma links_frame (bs bs' : list Block.t) (cs : list N) (stop : N) :
  vsize bs' = vsize bs →
  (∀ c, c ∈ cs →
        Block.next_block (block_at bs' c) = Block.next_block (block_at bs c)) →
  links bs cs stop → links bs' cs stop.
Proof.
  intros Hsz. induction cs as [|c cs IH]; intros Hn H; [done|].
  destruct H as (H0 & Hin & Hnext & Hrest). simpl.
  split_and!; try done.
  - by rewrite Hsz.
  - rewrite Hn; [done|left].
  - apply IH; [|done]. intros c' Hc'. apply Hn. by right.
Qed.

(** X17.  On a chain of distinct blocks, none of them block 0, that ends in
    a link of 0 or a link outside the block array, increment_block_refs
    (given more fuel than the chain is long) terminates, adds exactly one to
    the ref_count of every block of the chain and changes nothing else. *)
Theorem increment_block_refs_counts_chain (fuel : nat) (bs : list Block.t)
    (cs : list N) (stop : N) :
  links bs cs stop →
  stop = 0 ∨ vsize bs ≤ stop →
  NoDup cs →
  (length cs < fuel)%nat →
  ∃ bs',
    increment_block_refs fuel bs (List.hd stop cs) = Done bs'
    ∧ vsize bs' = vsize bs
    ∧ (∀ j, j ∈ cs →
            block_at bs' j
            = Block.set_ref_count (Block.ref_count (block_at bs j) + 1)
                (block_at bs j))
    ∧ (∀ j, j ∉ cs → block_at bs' j = block_at bs j).
Proof.
  revert fuel bs. induction cs as [|c cs IH]; intros fuel bs Hl Hstop Hnd Hf.
  - destruct fuel as [|fuel]; [simpl in Hf; lia|]. simpl.
    replace (negb (stop =? 0) && (stop <? vsize bs)) with false.
    + exists bs. split_and!; try done. intros j Hj. by apply elem_of_nil in Hj.
    + symmetry. apply andb_false_iff. destruct Hstop as [->|H]; [by left|].
      right. apply N.ltb_ge. done.
  - destruct fuel as [|fuel]; [simpl in Hf; lia|].
    destruct Hl as (Hc0 & Hcin & Hnext & Hrest).
    apply list.NoDup_cons in Hnd as [Hnotin Hnd].
    cbn [List.hd increment_block_refs].
    replace (negb (c =? 0) && (c <? vsize bs)) with true
      by (symmetry; apply andb_true_iff; split;
          [by apply negb_true_iff, N.eqb_neq|by apply N.ltb_lt]).
    rewrite block_at_upd_eq by done. simpl Block.next_block. rewrite Hnext.
    set (bs1 := block_upd
                  (λ b, Block.set_ref_count (Block.ref_count b + 1) b) bs c).
    assert (Hsz : vsize bs1 = vsize bs) by apply block_upd_vsize.
    destruct (IH fuel bs1) as (bs' & Hinc & Hsz' & Hin & Hout).
    + apply (links_frame bs); [done| |done].
      intros c' Hc'. unfold bs1. rewrite block_at_upd_ne; [done|].
      by intros ->.
    + by rewrite Hsz.
    + done.
    + simpl in Hf. lia.
    + exists bs'. split; [done|]. split; [by rewrite Hsz'|]. split.
      * intros j Hj. apply elem_of_cons in Hj as [->|Hj].
        -- rewrite Hout by done. unfold bs1. by rewrite block_at_upd_eq.
        -- rewrite Hin by done. unfold bs1.
           rewrite block_at_upd_ne; [done|]. by intros ->.
      * intros j Hj. apply not_elem_of_cons in Hj as [Hj1 Hj2].
        rewrite Hout by done. unfold bs1. by rewrite block_at_upd_ne.
Qed.

(** ** The read path *)

Section ReadPath.
Variable BLOCK_SIZE : N.
Hypothesis BLOCK_SIZE_pos : 0 < BLOCK_SIZE.



End ReadPath.

(** ** What [read] returns *)

Lemma take_add_app {A : Type} (a b : nat) (l : list A) :
  take (a + b) l = take a l ++ take b (drop a l).
Proof. symmetry. apply take_take_drop. Qed.

Lemma take_drop_take {A : Type} (a o t : nat) (l : list A) :
  (o + a ≤ t)%nat → take a (drop o (take t l)) = take a (drop o l).
Proof.
  intros H. rewrite !take_drop_commute, take_take.
  by replace ((o + a) `min` t)%nat with (o + a)%nat by lia.
Qed.

Section ReadSlice.
Variable BLOCK_SIZE : N.
Hypothesis BLOCK_SIZE_pos : 0 < BLOCK_SIZE.

Lemma chain_stores_lookup (bs : list Block.t) (cs : list N)
    (bytes : list byte) (j : nat) (c : N) :
  chain_stores BLOCK_SIZE bs cs bytes → cs !! j = Some c →
  c < vsize bs
  ∧ Block.is_used (block_at bs c) = true
  ∧ ∀ c', cs !! S j = Some c' → Block.next_block (block_at bs c) = c'.
Proof.
  revert bytes j. induction cs as [|x cs IH]; intros bytes j H Hl; [done|].
  destruct H as (Hin & Hused & _ & Hnext & Hrest).
  destruct j as [|j]; simpl in Hl.
  - injection Hl as ->. split_and!; try done.
    intros c' Hc'. simpl in Hc'. destruct cs as [|y cs]; [done|].
    simpl in Hc'. congruence.
  - by apply (IH _ j Hrest).
Qed.

Lemma chain_stores_drop (bs : list Block.t) (cs : list N)
    (bytes : list byte) (k : nat) :
  chain_stores BLOCK_SIZE bs cs bytes →
  chain_stores BLOCK_SIZE bs (drop k cs)
    (drop (k * N.to_nat BLOCK_SIZE) bytes).
Proof.
  revert cs bytes. induction k as [|k IH]; intros cs bytes H; [done|].
  destruct cs as [|c cs].
  - simpl in *. subst. by rewrite drop_nil.
  - destruct H as (_ & _ & _ & _ & Hrest). simpl drop at 1.
    apply IH in Hrest. rewrite drop_drop in Hrest.
    by replace (S k * N.to_nat BLOCK_SIZE)%nat
      with (N.to_nat BLOCK_SIZE + k * N.to_nat BLOCK_SIZE)%nat by lia.
Qed.

Lemma chain_stores_length (bs : list Block.t) (cs : list N)
    (bytes : list byte) :
  chain_stores BLOCK_SIZE bs cs bytes →
  (length bytes ≤ length cs * N.to_nat BLOCK_SIZE)%nat.
Proof.
  revert bytes. induction cs as [|c cs IH]; intros bytes H.
  - simpl in H. by subst.
  - destruct H as (_ & _ & _ & _ & Hrest). apply IH in Hrest.
    rewrite length_drop in Hrest. simpl. lia.
Qed.

Lemma skip_blocks_chain (bs : list Block.t) (cs : list N)
    (bytes : list byte) (steps : nat) (blocks_skipped i : N)
    (current target : N) :
  chain_stores BLOCK_SIZE bs cs bytes →
  cs !! N.to_nat i = Some current →
  cs !! N.to_nat blocks_skipped = Some target →
  (N.to_nat i + steps = N.to_nat blocks_skipped)%nat →
  skip_blocks steps bs blocks_skipped i current = Some target.
Proof.
  intros Hc. revert i current. induction steps as [|steps IH];
    intros i current Hj Hk Hsum.
  - simpl. replace (N.to_nat i) with (N.to_nat blocks_skipped) in Hj by lia.
    congruence.
  - simpl.
    destruct (chain_stores_lookup _ _ _ _ _ Hc Hj) as (Hin & _ & Hnext).
    replace ((i <? blocks_skipped) && (current <? vsize bs)) with true
      by (symmetry; apply andb_true_iff; split; apply N.ltb_lt; lia).
    assert (Hlt : (S (N.to_nat i) < length cs)%nat).
    { apply lookup_lt_Some in Hk. lia. }
    destruct (lookup_lt_is_Some_2 _ _ Hlt) as [next Hnx].
    rewrite (Hnext next Hnx).
    destruct (chain_stores_lookup _ _ _ _ _ Hc Hnx) as (Hin' & _ & _).
    replace (vsize bs <=? next) with false
      by (symmetry; apply N.leb_gt; lia).
    simpl. apply IH; [|done|lia].
    by replace (N.to_nat (i + 1)) with (S (N.to_nat i)) by lia.
Qed.

Lemma read_chain_slice (steps : nat) (bs : list Block.t) (c : N)
    (cs : list N) (bytes : list byte)
    (bytes_to_read bytes_read block_offset : N) (buffer : list byte) :
  chain_stores BLOCK_SIZE bs (c :: cs) bytes →
  block_offset < BLOCK_SIZE →
  bytes_read ≤ bytes_to_read →
  bytes_to_read - bytes_read + block_offset ≤ vsize bytes →
  (N.to_nat (bytes_to_read - bytes_read) ≤ steps)%nat →
  read_chain BLOCK_SIZE steps bs bytes_to_read bytes_read c block_offset
    buffer
  = Done (Some (buffer
                ++ take (N.to_nat (bytes_to_read - bytes_read))
                     (drop (N.to_nat block_offset) bytes),
                bytes_to_read)).
Proof.
  revert c cs bytes bytes_read block_offset buffer.
  induction steps as [|steps IH];
    intros c cs bytes br off buf Hc Hoff Hbr Hfit Hsteps.
  - assert (br = bytes_to_read) as -> by lia. simpl.
    rewrite N.ltb_irrefl. simpl. rewrite N.sub_diag. simpl.
    by rewrite app_nil_r.
  - simpl. destruct Hc as (Hin & Hused & Hdata & Hnext & Hrest).
    destruct (br <? bytes_to_read) eqn:E;
      [apply N.ltb_lt in E|apply N.ltb_ge in E]; simpl.
    2:{ assert (br = bytes_to_read) as -> by lia.
        rewrite N.sub_diag. simpl. by rewrite app_nil_r. }
    replace (c <? vsize bs) with true by (symmetry; by apply N.ltb_lt).
    rewrite Hused. simpl.
    set (chunk := N.min (bytes_to_read - br) (BLOCK_SIZE - off)).
    assert (Hchunk : 0 < chunk ∧ chunk ≤ bytes_to_read - br
                     ∧ chunk ≤ BLOCK_SIZE - off) by (unfold chunk; lia).
    assert (Hpiece : take (N.to_nat chunk)
                       (drop (N.to_nat off) (Block.data (block_at bs c)))
                     = take (N.to_nat chunk) (drop (N.to_nat off) bytes)).
    { rewrite <- (take_drop_take _ _
                   (length bytes `min` N.to_nat BLOCK_SIZE)
                   (Block.data (block_at bs c)))
        by (unfold vsize in Hfit; lia).
      rewrite Hdata. apply take_drop_take. lia. }
    rewrite Hpiece.
    destruct (decide (br + chunk = bytes_to_read)) as [Hall|Hmore].
    + destruct steps as [|steps']; simpl;
        rewrite Hall, N.ltb_irrefl; simpl;
        by replace (bytes_to_read - br) with chunk by lia.
    + assert (Hfull : chunk = BLOCK_SIZE - off) by lia.
      assert (Hlen : (N.to_nat BLOCK_SIZE < length bytes)%nat)
        by (unfold vsize in Hfit; lia).
      destruct cs as [|c' cs'].
      { simpl in Hrest. apply (f_equal length) in Hrest.
        rewrite length_drop in Hrest. simpl in Hrest. lia. }
      rewrite Hnext.
      rewrite (IH c' cs' (drop (N.to_nat BLOCK_SIZE) bytes)); try done;
        try lia.
      * rewrite <- app_assoc. do 3 f_equal.
        replace (N.to_nat (bytes_to_read - br))
          with (N.to_nat chunk + N.to_nat (bytes_to_read - (br + chunk)))%nat
          by lia.
        rewrite take_add_app. f_equal. rewrite !drop_drop.
        by replace (N.to_nat BLOCK_SIZE + N.to_nat 0)%nat
          with (N.to_nat off + N.to_nat chunk)%nat by lia.
      * unfold vsize in *. rewrite length_drop. lia.
Qed.

(** X19.  For a positive BLOCK_SIZE: when the chain from the inode's first
    block stores the content of the file (BLOCK_SIZE bytes per block, inode
    size = length of the content < 2^64) and the cursor p of the descriptor
    is not beyond the end, read(size) returns m = min(size, length - p), the
    buffer holds exactly the m bytes of the content from offset p, and only
    the cursor moves, to p + m. A read at the end of the file returns 0. *)
Theorem read_returns_stored_slice (fs : COWFileSystem) (fd : Z) (size : N)
    (entry : FileDescriptor.t) (ino : nat) (inode : Inode.t) (cs : list N)
    (content : list byte) :
  valid_descriptor fs fd = Some entry →
  FileDescriptor.inode entry = Some ino →
  inodes fs !! ino = Some inode →
  chain_stores BLOCK_SIZE (blocks fs) cs content →
  List.hd (Inode.first_block inode) cs = Inode.first_block inode →
  Inode.size inode = vsize content →
  vsize content < 2 ^ 64 →
  FileDescriptor.current_position entry ≤ vsize content →
  let position := FileDescriptor.current_position entry in
  let bytes_read := N.min size (vsize content - position) in
  read BLOCK_SIZE fs fd size
  = Done (Z.of_N bytes_read,
          take (N.to_nat bytes_read) (drop (N.to_nat position) content),
          set_descriptor fd
            (FileDescriptor.set_current_position (position + bytes_read)
               entry) fs).
Proof.
  intros Hv Hi Hino Hc Hhd Hsize Hmax Hpos position bytes_read.
  pose proof (valid_descriptor_Some _ _ _ Hv) as (Hfd & Hl & Hvalid).
  assert (Hsame : bytes_read = 0 →
            Done (0%Z, @nil byte, fs)
            = Done (Z.of_N bytes_read,
                    take (N.to_nat bytes_read)
                      (drop (N.to_nat position) content),
                    set_descriptor fd
                      (FileDescriptor.set_current_position
                         (position + bytes_read) entry) fs)).
  { intros ->. rewrite N.add_0_r. unfold position.
    rewrite set_current_position_id, set_descriptor_id; done. }
  unfold read. rewrite Hv, Hi. unfold_bind. unfold inode_at. rewrite Hino.
  destruct (Inode.size inode =? 0) eqn:Ez;
    [apply N.eqb_eq in Ez|apply N.eqb_neq in Ez].
  { apply Hsame. unfold bytes_read. lia. }
  destruct cs as [|c cs'].
  { simpl in Hc. subst content. unfold vsize in Hsize. simpl in Hsize. lia. }
  simpl in Hhd. rewrite <- Hhd.
  pose proof Hc as (Hcin & Hcused & _).
  replace (vsize (blocks fs) <=? c) with false
    by (symmetry; apply N.leb_gt; lia).
  rewrite Hcused. simpl.
  fold position.
  assert (Hsub : sub64 (Inode.size inode) position = vsize content - position).
  { unfold sub64, word. rewrite Hsize.
    rewrite (N.mod_small position) by (unfold position; lia).
    replace (vsize content + 2 ^ 64 - position)
      with (vsize content - position + 1 * 2 ^ 64) by (unfold position; lia).
    rewrite N.Div0.mod_add. apply N.mod_small. lia. }
  rewrite Hsub. fold bytes_read.
  destruct (bytes_read =? 0) eqn:Eb;
    [apply N.eqb_eq in Eb|apply N.eqb_neq in Eb].
  { by apply Hsame. }
  assert (Hlt : position < vsize content) by (unfold bytes_read in Eb; lia).
  set (k := N.to_nat (position / BLOCK_SIZE)).
  pose proof (chain_stores_length _ _ _ Hc) as Hclen.
  assert (Hdm : position
                = BLOCK_SIZE * (position / BLOCK_SIZE)
                  + position mod BLOCK_SIZE)
    by (apply N.div_mod; lia).
  assert (Hmod : position mod BLOCK_SIZE < BLOCK_SIZE)
    by (apply N.mod_lt; lia).
  assert (Hk : (k < length (c :: cs'))%nat).
  { assert (Hq : position / BLOCK_SIZE < N.of_nat (length (c :: cs'))).
    { apply N.Div0.div_lt_upper_bound. unfold vsize in Hlt.
      assert (N.of_nat (length content)
              ≤ BLOCK_SIZE * N.of_nat (length (c :: cs'))) by lia.
      lia. }
    unfold k. lia. }
  destruct (lookup_lt_is_Some_2 _ _ Hk) as [target Ht].
  rewrite (skip_blocks_chain (blocks fs) (c :: cs') content _ _ 0 c target);
    try done.
  destruct (chain_stores_lookup _ _ _ _ _ Hc Ht) as (Htin & _ & _).
  replace (vsize (blocks fs) <=? target) with false
    by (symmetry; apply N.leb_gt; lia).
  pose proof (chain_stores_drop _ _ _ k Hc) as Hd.
  rewrite (drop_S _ _ _ Ht) in Hd.
  rewrite (read_chain_slice _ _ target (drop (S k) (c :: cs'))
             (drop (k * N.to_nat BLOCK_SIZE) content)); try done; try lia.
  - rewrite N.sub_0_r. simpl. rewrite drop_drop. do 3 f_equal.
    + do 2 f_equal. unfold k. lia.
    + unfold add64, word. rewrite N.mod_small; [done|].
      unfold bytes_read. lia.
  - unfold vsize. rewrite length_drop. unfold vsize in Hlt.
    unfold bytes_read, vsize, k. nia.
Qed.

End ReadSlice.

(** ** What [write] records *)

Lemma find_delta_window (old_bytes new_bytes : list byte) :
  (find_delta old_bytes new_bytes).1 + (find_delta old_bytes new_bytes).2
  ≤ vsize new_bytes.
Proof.
  unfold find_delta.
  destruct ((vsize old_bytes =? vsize new_bytes) && _); [simpl; lia|].
  pose proof (scan_prefix_spec old_bytes new_bytes
                (N.to_nat (N.min (vsize old_bytes) (vsize new_bytes))) 0) as Hs.
  rewrite !drop_0 in Hs.
  rewrite Hs by (unfold vsize; lia). clear Hs.
  pose proof (common_prefix_le_l old_bytes new_bytes) as H1.
  pose proof (common_prefix_le_r old_bytes new_bytes) as H2.
  set (ds := 0 + N.of_nat (common_prefix old_bytes new_bytes)).
  assert (Hds : ds ≤ vsize new_bytes) by (unfold ds, vsize; lia).
  destruct ((ds =? vsize new_bytes) && _); [simpl; lia|].
  destruct ((ds =? vsize old_bytes) && (vsize old_bytes <? vsize new_bytes))
    eqn:E.
  { apply andb_true_iff in E as [E1 E2]. apply N.eqb_eq in E1.
    apply N.ltb_lt in E2. simpl. lia. }
  destruct (vsize new_bytes <? _) eqn:E3;
    [apply N.ltb_lt in E3|apply N.ltb_ge in E3]; simpl; lia.
Qed.

Section WriteRecords.
Variable BLOCK_SIZE : N.

Lemma detect_delta_window (fs fs' : COWFileSystem) (fd : Z)
    (entry : FileDescriptor.t) (inode : Inode.t) (buffer : list byte)
    (delta_start delta_size : N) :
  detect_delta BLOCK_SIZE fs fd entry inode buffer
  = Done (Some (delta_start, delta_size), fs') →
  delta_start + delta_size ≤ vsize buffer.
Proof.
  unfold detect_delta.
  destruct (Inode.version_count inode =? 0); [intros [= <- <- _]; lia|].
  destruct (0 <? Inode.size inode); [|intros [= <- <- _]; lia].
  unfold_bind.
  destruct (read _ _ _ _) as [[[r bytes] fs1]| |]; try done.
  destruct (negb _); [done|].
  intros [= H _].
  pose proof (find_delta_window (scratch (Inode.size inode) bytes) buffer) as Hw.
  rewrite H in Hw. exact Hw.
Qed.

(** X20.  A write that runs to completion returns -1 or the full size of the
    buffer, never a partial count. When it returns -1 or 0 the descriptor
    table and the inodes are unchanged. In every case the sizes of the
    descriptor table, the inode table and the block array stay, other
    descriptors are untouched, and the descriptor written through stays
    valid exactly when it was. *)
Theorem write_is_all_or_nothing (fuel : nat) (fs fs' : COWFileSystem)
    (fd : Z) (buffer : option (list byte)) (now : string) (r : Z) :
  write BLOCK_SIZE fuel fs fd buffer now = Done (r, fs') →
  (r = (-1)%Z ∨ r = Z.of_N (vsize (default [] buffer)))
  ∧ (r = (-1)%Z ∨ r = 0%Z →
     file_descriptors fs' = file_descriptors fs ∧ inodes fs' = inodes fs)
  ∧ length (file_descriptors fs') = length (file_descriptors fs)
  ∧ length (inodes fs') = length (inodes fs)
  ∧ vsize (blocks fs') = vsize (blocks fs)
  ∧ (∀ k, k ≠ fd → valid_descriptor fs' k = valid_descriptor fs k)
  ∧ (is_Some (valid_descriptor fs' fd) ↔ is_Some (valid_descriptor fs fd)).
Proof.
  intros Hw.
  apply write_cases in Hw as [(-> & Hf & Hi & Hb & _)|[(-> & -> & Hb)|Hw]].
  - split_and!; try done; try (by left); try congruence.
    + intros k _. unfold valid_descriptor. by rewrite Hf.
    + unfold valid_descriptor. by rewrite Hf.
  - split_and!; try done. right. by destruct Hb as [->| ->].
  - destruct Hw as (entry & ino & inode & bytes & -> & Hne & -> & Hv & Hm & Hi
                    & Hino & Hfs).
    pose proof (valid_descriptor_Some _ _ _ Hv) as (Hfd & Hl & Hvalid).
    assert (Hnz : Z.of_N (vsize bytes) ≠ 0%Z ∧ Z.of_N (vsize bytes) ≠ (-1)%Z).
    { destruct bytes; [done|]. unfold vsize. simpl. lia. }
    destruct Hfs as [->|Hfs].
    + split_and!; try done.
      * by right.
      * intros [?|?]; lia.
      * unfold set_descriptor. simpl. by rewrite length_insert.
      * intros k Hk. by apply valid_descriptor_set_other.
      * rewrite Hv. rewrite (valid_descriptor_set _ _ entry); done.
    + destruct Hfs as (fb & ds & dsz & fs3 & bs & Hdz & Hd & Hwd & Hinc & ->).
      pose proof (write_delta_blocks_tables _ _ _ _ _ _ _ _ _ Hwd)
        as [Hfds Hins].
      pose proof (write_delta_blocks_vsize _ _ _ _ _ _ _ _ _ Hwd) as Hsz.
      apply increment_block_refs_payload in Hinc as [Hsz' _].
      assert (Hval : ∀ k,
                valid_descriptor
                  (set_inode ino
                     (Inode.mk (Inode.is_used inode) (Inode.filename inode)
                        fb (vsize bytes) (Inode.version_count inode + 1)
                        (Inode.version_history inode
                         ++ [VersionInfo.mk (Inode.version_count inode + 1)
                               now (vsize bytes) fb ds dsz
                               (if 0 <? Inode.version_count inode
                                then Inode.version_count inode else 0)]))
                     (set_blocks bs fs3)) k
                = valid_descriptor fs k).
      { intros k. unfold valid_descriptor, set_inode, set_blocks. simpl.
        by rewrite Hfds. }
      split_and!.
      * by right.
      * intros [?|?]; lia.
      * unfold set_descriptor, set_inode. simpl.
        by rewrite length_insert, Hfds.
      * unfold set_descriptor, set_inode. simpl.
        by rewrite length_insert, Hins.
      * simpl. congruence.
      * intros k Hk. rewrite valid_descriptor_set_other by done. apply Hval.
      * rewrite Hv. rewrite (valid_descriptor_set _ _ entry); try done.
        by rewrite Hval.
Qed.

(** X21.  A write of a non-empty buffer that returns the size of the buffer
    was made through a valid WRITE descriptor; it sets the cursor of that
    descriptor to the size of the buffer and touches no inode but the
    descriptor's, whose name and use flag stay. That inode is either
    unchanged (empty delta) or gains exactly one version at the end of its
    history: numbered version_count + 1, with prev_version the old
    version_count, the size of the buffer, the time stamp of the call and a
    non-empty delta inside the buffer; size, first_block and version_count
    of the inode follow it. get_file_size, get_version_count and
    get_version_history through any descriptor on the inode report the new
    inode. *)
Theorem write_appends_one_version (fuel : nat) (fs fs' : COWFileSystem)
    (fd : Z) (bytes : list byte) (now : string) :
  bytes ≠ [] →
  write BLOCK_SIZE fuel fs fd (Some bytes) now
  = Done (Z.of_N (vsize bytes), fs') →
  ∃ entry ino inode inode',
    valid_descriptor fs fd = Some entry
    ∧ FileDescriptor.mode entry = WRITE
    ∧ FileDescriptor.inode entry = Some ino
    ∧ inodes fs !! ino = Some inode
    ∧ inodes fs' !! ino = Some inode'
    ∧ valid_descriptor fs' fd
      = Some (FileDescriptor.set_current_position (vsize bytes) entry)
    ∧ (∀ j, j ≠ ino → inodes fs' !! j = inodes fs !! j)
    ∧ Inode.is_used inode' = Inode.is_used inode
    ∧ Inode.filename inode' = Inode.filename inode
    ∧ (inode' = inode
       ∨ ∃ v,
           Inode.version_history inode' = Inode.version_history inode ++ [v]
           ∧ Inode.version_count inode' = Inode.version_count inode + 1
           ∧ Inode.size inode' = vsize bytes
           ∧ Inode.first_block inode' = VersionInfo.block_index v
           ∧ VersionInfo.version_number v = Inode.version_count inode + 1
           ∧ VersionInfo.prev_version v = Inode.version_count inode
           ∧ VersionInfo.size v = vsize bytes
           ∧ VersionInfo.timestamp v = now
           ∧ 0 < VersionInfo.delta_size v
           ∧ VersionInfo.delta_start v + VersionInfo.delta_size v
             ≤ vsize bytes)
    ∧ (∀ fd2 entry2,
         valid_descriptor fs' fd2 = Some entry2 →
         FileDescriptor.inode entry2 = Some ino →
         get_file_size fs' fd2 = Done (Inode.size inode')
         ∧ get_version_count fs' fd2 = Done (Inode.version_count inode')
         ∧ get_version_history fs' fd2 = Done (Inode.version_history inode')).
Proof.
  intros Hne Hw.
  assert (Hnz : Z.of_N (vsize bytes) ≠ 0%Z ∧ Z.of_N (vsize bytes) ≠ (-1)%Z).
  { destruct bytes; [done|]. unfold vsize. simpl. lia. }
  apply write_cases in Hw as [(? & _)|[(? & _)|Hw]]; [lia|lia|].
  destruct Hw as (entry & ino & inode & bytes' & [= <-] & _ & _ & Hv & Hm & Hi
                  & Hino & Hfs).
  pose proof (valid_descriptor_Some _ _ _ Hv) as (Hfd & Hl & Hvalid).
  assert (Hget : ∀ fs1 inode1,
            inodes fs1 !! ino = Some inode1 →
            ∀ fd2 entry2,
              valid_descriptor fs1 fd2 = Some entry2 →
              FileDescriptor.inode entry2 = Some ino →
              get_file_size fs1 fd2 = Done (Inode.size inode1)
              ∧ get_version_count fs1 fd2 = Done (Inode.version_count inode1)
              ∧ get_version_history fs1 fd2
                = Done (Inode.version_history inode1)).
  { intros fs1 inode1 H1 fd2 entry2 H2 H3.
    unfold get_file_size, get_version_count, get_version_history, inode_of,
      inode_at. rewrite H2, H3. unfold_bind. by rewrite H1. }
  exists entry, ino, inode.
  destruct Hfs as [->|Hfs].
  - exists inode. split_and!; try done.
    + rewrite (valid_descriptor_set _ _ entry); done.
    + by left.
    + by apply Hget.
  - destruct Hfs as (fb & ds & dsz & fs3 & bs & Hdz & Hd & Hwd & Hinc & ->).
    pose proof (write_delta_blocks_tables _ _ _ _ _ _ _ _ _ Hwd)
      as [Hfds Hins].
    pose proof (detect_delta_window _ _ _ _ _ _ _ _ Hd) as Hwin.
    pose proof (lookup_lt_Some _ _ _ Hino) as Hlt.
    exists (Inode.mk (Inode.is_used inode) (Inode.filename inode) fb
              (vsize bytes) (Inode.version_count inode + 1)
              (Inode.version_history inode
               ++ [VersionInfo.mk (Inode.version_count inode + 1) now
                     (vsize bytes) fb ds dsz
                     (if 0 <? Inode.version_count inode
                      then Inode.version_count inode else 0)])).
    split_and!; try done.
    + unfold set_descriptor, set_inode. simpl. rewrite Hins.
      by apply list_lookup_insert_eq.
    + apply valid_descriptor_fresh; try done.
      unfold set_inode, set_blocks. simpl. rewrite Hfds.
      by eapply lookup_lt_Some.
    + intros j Hj. unfold set_descriptor, set_inode. simpl. rewrite Hins.
      by apply list_lookup_insert_ne.
    + right. eexists. split_and!; try done; simpl.
      * by destruct (0 <? Inode.version_count inode) eqn:E;
          [|apply N.ltb_ge in E; lia].
      * lia.
    + apply Hget. unfold set_descriptor, set_inode. simpl. rewrite Hins.
      by apply list_lookup_insert_eq.
Qed.

End WriteRecords.

(** ** Writing to a full disk *)

Lemma find_best_fit_from_none (fl : list FreeBlockInfo.t) (pos : nat)
    (blocks_needed : N) (best_fit : option nat) (smallest : N) :
  (∀ r, r ∈ fl → FreeBlockInfo.block_count r < blocks_needed) →
  find_best_fit_from fl pos blocks_needed best_fit smallest = best_fit.
Proof.
  revert pos. induction fl as [|r fl IH]; intros pos H; simpl; [done|].
  replace (blocks_needed <=? FreeBlockInfo.block_count r) with false.
  - apply IH. intros r' Hr'. apply H. by right.
  - symmetry. apply N.leb_gt. apply H. left.
Qed.

Lemma allocate_block_full (fs : COWFileSystem) :
  free_cells (free_blocks_list fs) = [] → allocate_block fs = Done (None, fs).
Proof.
  intros H. unfold allocate_block, find_best_fit.
  rewrite find_best_fit_from_none; [done|]. by apply free_cells_nil.
Qed.

Lemma set_blocks_id (fs : COWFileSystem) : set_blocks (blocks fs) fs = fs.
Proof. by destruct fs. Qed.

Section FullDisk.
Variable BLOCK_SIZE : N.
Hypothesis BLOCK_SIZE_pos : 0 < BLOCK_SIZE.

Lemma write_delta_blocks_full (fuel : nat) (fs : COWFileSystem)
    (buffer : list byte) (size delta_start : N) :
  free_cells (free_blocks_list fs) = [] →
  delta_start < size →
  write_delta_blocks BLOCK_SIZE fuel fs buffer size delta_start
  = Done (false, 0, fs).
Proof.
  intros Hfull Hlt. unfold write_delta_blocks.
  replace ((size =? 0) || (size <=? delta_start)) with false
    by (symmetry; apply orb_false_iff; split;
        [apply N.eqb_neq|apply N.leb_gt]; lia).
  set (actual_size := N.min (size - delta_start) size).
  assert (Hm : 0 < (actual_size + BLOCK_SIZE - 1) / BLOCK_SIZE).
  { apply N.div_str_pos. unfold actual_size. lia. }
  destruct (N.to_nat ((actual_size + BLOCK_SIZE - 1) / BLOCK_SIZE))
    as [|n] eqn:En; [lia|].
  simpl. unfold_bind. rewrite (allocate_block_full fs Hfull). simpl.
  by rewrite set_blocks_id.
Qed.

(** X22.  For a positive BLOCK_SIZE, when the free list holds no block: no
    write changes the inodes, the blocks or the free list, and a write that
    returns -1 or 0 changes nothing at all. A write of a non-empty buffer to
    a file that has no version yet (or has size 0) through a valid WRITE
    descriptor returns -1 and leaves the state unchanged. *)
Theorem write_on_full_disk (fs : COWFileSystem) :
  free_cells (free_blocks_list fs) = [] →
  (∀ fuel fd buffer now r fs',
     write BLOCK_SIZE fuel fs fd buffer now = Done (r, fs') →
     inodes fs' = inodes fs
     ∧ blocks fs' = blocks fs
     ∧ free_blocks_list fs' = free_blocks_list fs
     ∧ (r = (-1)%Z ∨ r = 0%Z → fs' = fs))
  ∧ (∀ fuel fd entry ino inode bytes now,
       valid_descriptor fs fd = Some entry →
       FileDescriptor.mode entry = WRITE →
       FileDescriptor.inode entry = Some ino →
       inodes fs !! ino = Some inode →
       Inode.version_count inode = 0 ∨ Inode.size inode = 0 →
       bytes ≠ [] →
       write BLOCK_SIZE fuel fs fd (Some bytes) now = Done ((-1)%Z, fs)).
Proof.
  intros Hfull. split.
  - intros fuel fd buffer now r fs' Hw.
    apply write_cases in Hw as [(-> & Hf & Hi & Hb & Hfs)|[(-> & -> & Hb)|Hw]].
    + destruct Hfs as [->|Hfs]; [done|].
      destruct Hfs as (bytes & entry & inode & ds & dsz & fb & -> & Hd & Hdz
                       & Hwd).
      pose proof (detect_delta_window _ _ _ _ _ _ _ _ _ Hd) as Hwin.
      rewrite write_delta_blocks_full in Hwd by (done || lia).
      by injection Hwd as <- <-.
    + done.
    + destruct Hw as (entry & ino & inode & bytes & -> & Hne & -> & Hv & Hm
                      & Hi & Hino & Hfs).
      assert (Hnz : Z.of_N (vsize bytes) ≠ 0%Z
                    ∧ Z.of_N (vsize bytes) ≠ (-1)%Z).
      { destruct bytes; [done|]. unfold vsize. simpl. lia. }
      destruct Hfs as [->|Hfs].
      * split_and!; try done. intros [?|?]; lia.
      * destruct Hfs as (fb & ds & dsz & fs3 & bs & Hdz & Hd & Hwd & _).
        pose proof (detect_delta_window _ _ _ _ _ _ _ _ _ Hd) as Hwin.
        rewrite write_delta_blocks_full in Hwd by (done || lia).
        discriminate Hwd.
  - intros fuel fd entry ino inode bytes now Hv Hm Hi Hino Hfirst Hne.
    assert (Hsz : vsize bytes ≠ 0).
    { destruct bytes; [done|]. unfold vsize. simpl. lia. }
    unfold write. rewrite Hv, Hm, Hi. simpl.
    apply N.eqb_neq in Hsz. rewrite Hsz. apply N.eqb_neq in Hsz.
    unfold_bind. unfold inode_at. rewrite Hino.
    assert (Hd : detect_delta BLOCK_SIZE fs fd entry inode bytes
                 = Done (Some (0, vsize bytes), fs)).
    { unfold detect_delta. destruct Hfirst as [-> | ->]; [done|].
      by destruct (Inode.version_count inode =? 0). }
    rewrite Hd. apply N.eqb_neq in Hsz. rewrite Hsz. apply N.eqb_neq in Hsz.
    unfold commit_version. unfold_bind.
    rewrite write_delta_blocks_full by (done || lia). done.
Qed.

End FullDisk.

(** ** Table sizes and memory usage *)

Lemma fold_usage (BLOCK_SIZE : N) (bs : list Block.t) (total : N) :
  fold_left (λ total b, if Block.is_used b then total + BLOCK_SIZE else total)
    bs total
  = total + BLOCK_SIZE * N.of_nat (length (List.filter Block.is_used bs)).
Proof.
  revert total. induction bs as [|b bs IH]; intros total; simpl; [lia|].
  rewrite IH. destruct (Block.is_used b); simpl; lia.
Qed.

Section Sizes2.
Variables BLOCK_SIZE MAX_FILES MAX_FILENAME_LENGTH : N.

Lemma write_sizes (fuel : nat) (fs fs' : COWFileSystem) (fd : Z)
    (buffer : option (list byte)) (now : string) (r : Z) :
  write BLOCK_SIZE fuel fs fd buffer now = Done (r, fs') →
  length (file_descriptors fs') = length (file_descriptors fs)
  ∧ length (inodes fs') = length (inodes fs)
  ∧ vsize (blocks fs') = vsize (blocks fs).
Proof.
  intros Hw.
  apply write_cases in Hw as [(_ & Hf & Hi & Hb & _)|[(_ & -> & _)|Hw]];
    [by rewrite Hf, Hi|done|].
  destruct Hw as (entry & ino & inode & bytes & _ & _ & _ & _ & _ & _ & _
                  & [->|Hw]).
  - unfold set_descriptor. simpl. by rewrite length_insert.
  - destruct Hw as (fb & ds & dsz & fs3 & bs & _ & _ & Hwd & Hinc & ->).
    pose proof (write_delta_blocks_tables _ _ _ _ _ _ _ _ _ Hwd)
      as [Hfds Hins].
    pose proof (write_delta_blocks_vsize _ _ _ _ _ _ _ _ _ Hwd) as Hsz.
    apply increment_block_refs_payload in Hinc as [Hsz' _].
    unfold set_descriptor, set_inode. simpl.
    rewrite !length_insert, Hfds, Hins. split_and!; congruence.
Qed.

Lemma call_sizes (fuel : nat) (op : operation) (fs fs' : COWFileSystem)
    (r : reply) :
  call BLOCK_SIZE MAX_FILENAME_LENGTH fuel op fs = Done (r, fs') →
  length (file_descriptors fs') = length (file_descriptors fs)
  ∧ length (inodes fs') = length (inodes fs)
  ∧ vsize (blocks fs') = vsize (blocks fs).
Proof.
  destruct op as [filename|filename mode|fd|fd size|fd buffer now|fd v|];
    simpl.
  - destruct (create MAX_FILENAME_LENGTH fs filename) as [fd fs1] eqn:Hc.
    intros [= <- <-].
    apply create_cases in Hc as [(-> & -> & _)|Hc]; [done|].
    destruct Hc as (i & old & _ & _ & _ & _ & _ & Hc).
    destruct Hc as [(-> & _ & ->)|(_ & _ & ->)];
      unfold set_descriptor, set_inode; simpl; rewrite ?length_insert; done.
  - destruct (open fs filename mode) as [fd fs1] eqn:Ho. intros [= <- <-].
    unfold open in Ho. destruct (find_inode fs filename); [|by simplify_eq].
    destruct (_ <? 0)%Z; simplify_eq; [done|].
    unfold set_descriptor. simpl. by rewrite length_insert.
  - destruct (close fs fd) as [c fs1] eqn:Hc. intros [= <- <-].
    unfold close in Hc. destruct (valid_descriptor fs fd); simplify_eq;
      [|done].
    unfold set_descriptor. simpl. by rewrite length_insert.
  - unfold_bind.
    destruct (read BLOCK_SIZE fs fd size) as [[[c b] fs1]| |] eqn:Hr; try done.
    intros [= <- <-]. apply read_tables in Hr as (-> & -> & _ & ->). done.
  - unfold_bind.
    destruct (write BLOCK_SIZE fuel fs fd buffer now) as [[c fs1]| |] eqn:Hw;
      try done.
    intros [= <- <-]. by eapply write_sizes.
  - unfold_bind.
    destruct (rollback_to_version fuel fs fd v) as [[c fs1]| |] eqn:Hr;
      try done.
    intros [= <- <-].
    apply rollback_cases in Hr as [(_ & ->)|Hr]; [done|].
    destruct Hr as (entry & ino & inode & target & bs & _ & _ & _ & _ & _ & _
                    & _ & Hsz & _ & ->).
    unfold set_descriptor, set_inode. simpl. by rewrite !length_insert.
  - unfold_bind.
    destruct (garbage_collect BLOCK_SIZE fuel fs) as [fs1| |] eqn:Hg; try done.
    intros [= <- <-].
    apply garbage_collect_tables in Hg as (-> & -> & ->). done.
Qed.

Lemma calls_sizes (fuel : nat) (ops : list operation)
    (fs fs' : COWFileSystem) (rs : list reply) :
  calls BLOCK_SIZE MAX_FILENAME_LENGTH fuel ops fs = Done (rs, fs') →
  length (file_descriptors fs') = length (file_descriptors fs)
  ∧ length (inodes fs') = length (inodes fs)
  ∧ vsize (blocks fs') = vsize (blocks fs).
Proof.
  revert fs rs. induction ops as [|op ops IH]; intros fs rs; simpl.
  - by intros [= <- <-].
  - unfold_bind.
    destruct (call _ _ _ op fs) as [[r fs1]| |] eqn:Hcall; try done.
    destruct (calls _ _ _ ops fs1) as [[rs' fs2]| |] eqn:Hcalls; try done.
    intros [= <- <-]. apply call_sizes in Hcall as (H1 & H2 & H3).
    apply IH in Hcalls as (H4 & H5 & H6). split_and!; congruence.
Qed.

Lemma new_sizes (image : option Image) (can_create : bool) (disk_size : N)
    (fs : COWFileSystem) :
  COWFileSystem_new BLOCK_SIZE MAX_FILES image can_create disk_size = Some fs →
  length (file_descriptors fs) = N.to_nat MAX_FILES
  ∧ length (inodes fs) = N.to_nat MAX_FILES
  ∧ vsize (blocks fs) = disk_size / BLOCK_SIZE.
Proof.
  unfold COWFileSystem_new, initialize_disk, init_file_system. simpl.
  destruct image as [[disk_inodes disk_blocks]|].
  - intros [= <-]. simpl. unfold vsize.
    rewrite !read_into_length, !length_replicate. split_and!; try done. lia.
  - destruct can_create; [|done]. intros [= <-]. simpl. unfold vsize.
    rewrite !length_map, !length_replicate. split_and!; try done. lia.
Qed.

(** X23.  Whatever image the constructor loaded and whatever calls followed,
    the descriptor table and the inode table keep MAX_FILES entries and the
    block array keeps disk_size / BLOCK_SIZE blocks; get_total_memory_usage
    is BLOCK_SIZE times the number of blocks in use and never exceeds
    disk_size. *)
Theorem memory_usage_is_bounded (image : option Image) (can_create : bool)
    (disk_size : N) (fuel : nat) (ops : list operation)
    (fs0 fs : COWFileSystem) (rs : list reply) :
  COWFileSystem_new BLOCK_SIZE MAX_FILES image can_create disk_size
  = Some fs0 →
  calls BLOCK_SIZE MAX_FILENAME_LENGTH fuel ops fs0 = Done (rs, fs) →
  length (file_descriptors fs) = N.to_nat MAX_FILES
  ∧ length (inodes fs) = N.to_nat MAX_FILES
  ∧ vsize (blocks fs) = disk_size / BLOCK_SIZE
  ∧ get_total_memory_usage BLOCK_SIZE fs
    = BLOCK_SIZE * N.of_nat (length (List.filter Block.is_used (blocks fs)))
  ∧ get_total_memory_usage BLOCK_SIZE fs ≤ disk_size.
Proof.
  intros Hnew Hcalls. apply new_sizes in Hnew as (H1 & H2 & H3).
  apply calls_sizes in Hcalls as (H4 & H5 & H6).
  assert (Hu : get_total_memory_usage BLOCK_SIZE fs
               = BLOCK_SIZE
                 * N.of_nat (length (List.filter Block.is_used (blocks fs)))).
  { unfold get_total_memory_usage. by rewrite fold_usage. }
  split_and!; try congruence.
  rewrite Hu.
  pose proof (List.filter_length_le Block.is_used (blocks fs)) as Hle.
  assert (Hv : N.of_nat (length (blocks fs)) = disk_size / BLOCK_SIZE)
    by (unfold vsize in *; congruence).
  pose proof (N.Div0.mul_div_le disk_size BLOCK_SIZE) as Hd.
  assert (BLOCK_SIZE
          * N.of_nat (length (List.filter Block.is_used (blocks fs)))
          ≤ BLOCK_SIZE * (disk_size / BLOCK_SIZE)); [|lia].
  apply N.mul_le_mono_l. lia.
Qed.

End Sizes2.

(** ** Version numbering *)

Lemma numbered_app (pos : nat) (history : list VersionInfo.t)
    (v : VersionInfo.t) :
  numbered pos (history ++ [v])
  = numbered pos history
    && (VersionInfo.version_number v =? N.of_nat (S (pos + length history))).
Proof.
  revert pos. induction history as [|x h IH]; intros pos; simpl.
  - by rewrite andb_true_r, Nat.add_0_r.
  - rewrite IH, <- andb_assoc. do 3 f_equal. lia.
Qed.

Lemma forallb_insert {A : Type} (f : A → bool) (l : list A) (i : nat) (x : A) :
  forallb f l = true → f x = true → forallb f (<[i := x]> l) = true.
Proof.
  revert i. induction l as [|y l IH]; intros i Hl Hx; [done|].
  simpl in Hl. apply andb_true_iff in Hl as [H1 H2].
  destruct i as [|i]; simpl; apply andb_true_iff; auto.
Qed.

Lemma forallb_lookup {A : Type} (f : A → bool) (l : list A) (i : nat) (x : A) :
  forallb f l = true → l !! i = Some x → f x = true.
Proof.
  intros H Hl. rewrite forallb_forall in H. apply H.
  apply list_elem_of_In. by eapply list_elem_of_lookup_2.
Qed.

Lemma well_numbered_lookup (inode : Inode.t) (k : nat) (v : VersionInfo.t) :
  well_numbered inode = true →
  Inode.version_history inode !! k = Some v →
  VersionInfo.version_number v = N.of_nat (S k)
  ∧ Inode.version_count inode = vsize (Inode.version_history inode).
Proof.
  unfold well_numbered. intros H Hl. apply andb_true_iff in H as [H1 H2].
  apply N.eqb_eq in H2. split; [|done].
  by rewrite (numbered_lookup 0 _ k v H1 Hl).
Qed.

Section Numbering.
Variables BLOCK_SIZE MAX_FILES MAX_FILENAME_LENGTH : N.

Lemma call_numbered (fuel : nat) (op : operation) (fs fs' : COWFileSystem)
    (r : reply) :
  call BLOCK_SIZE MAX_FILENAME_LENGTH fuel op fs = Done (r, fs') →
  histories_numbered fs = true → histories_numbered fs' = true.
Proof.
  unfold histories_numbered.
  destruct op as [filename|filename mode|fd|fd size|fd buffer now|fd v|];
    simpl.
  - destruct (create MAX_FILENAME_LENGTH fs filename) as [fd fs1] eqn:Hc.
    intros [= <- <-] Hn.
    apply create_cases in Hc as [(-> & -> & _)|Hc]; [done|].
    destruct Hc as (i & old & _ & _ & _ & _ & _ & Hc).
    destruct Hc as [(-> & _ & ->)|(_ & _ & ->)];
      unfold set_descriptor, set_inode; simpl; by apply forallb_insert.
  - destruct (open fs filename mode) as [fd fs1] eqn:Ho. intros [= <- <-].
    unfold open in Ho. destruct (find_inode fs filename); [|by simplify_eq].
    destruct (_ <? 0)%Z; by simplify_eq.
  - destruct (close fs fd) as [c fs1] eqn:Hc. intros [= <- <-].
    unfold close in Hc. destruct (valid_descriptor fs fd); by simplify_eq.
  - unfold_bind.
    destruct (read BLOCK_SIZE fs fd size) as [[[c b] fs1]| |] eqn:Hr; try done.
    intros [= <- <-]. apply read_tables in Hr as (-> & _). done.
  - unfold_bind.
    destruct (write BLOCK_SIZE fuel fs fd buffer now) as [[c fs1]| |] eqn:Hw;
      try done.
    intros [= <- <-] Hn.
    apply write_cases in Hw as [(_ & _ & -> & _)|[(_ & -> & _)|Hw]]; try done.
    destruct Hw as (entry & ino & inode & bytes & _ & _ & _ & _ & _ & _ & Hl
                    & [->|Hw]); [done|].
    destruct Hw as (fb & ds & dsz & fs3 & bs & _ & _ & Hwd & _ & ->).
    apply write_delta_blocks_tables in Hwd as [_ Hins].
    unfold set_descriptor, set_inode. simpl. rewrite Hins.
    apply forallb_insert; [done|].
    pose proof (forallb_lookup _ _ _ _ Hn Hl) as Hw.
    unfold well_numbered in *. simpl.
    apply andb_true_iff in Hw as [H1 H2]. apply N.eqb_eq in H2.
    rewrite numbered_app, H1. simpl. apply andb_true_iff. split.
    + apply N.eqb_eq. rewrite H2. unfold vsize. lia.
    + apply N.eqb_eq. rewrite H2. unfold vsize. rewrite length_app. simpl.
      lia.
  - unfold_bind.
    destruct (rollback_to_version fuel fs fd v) as [[c fs1]| |] eqn:Hr;
      try done.
    intros [= <- <-] Hn.
    apply rollback_cases in Hr as [(_ & ->)|Hr]; [done|].
    destruct Hr as (entry & ino & inode & target & bs & _ & _ & _ & Hl & Hv0
                    & Hvle & _ & _ & _ & ->).
    unfold set_descriptor, set_inode. simpl.
    apply forallb_insert; [done|].
    pose proof (forallb_lookup _ _ _ _ Hn Hl) as Hw.
    unfold well_numbered in *. simpl.
    apply andb_true_iff in Hw as [H1 H2]. apply N.eqb_eq in H2.
    rewrite (numbered_kept 0) by done. rewrite Nat.sub_0_r.
    rewrite numbered_take by done. simpl. apply N.eqb_eq.
    unfold vsize in *. rewrite length_take. lia.
  - unfold_bind.
    destruct (garbage_collect BLOCK_SIZE fuel fs) as [fs1| |] eqn:Hg; try done.
    intros [= <- <-]. apply garbage_collect_tables in Hg as (_ & -> & _).
    done.
Qed.

(** X24.  On a newly created disk, and from then on under any sequence of
    calls that runs to completion, the version history of every inode is
    numbered 1, 2, 3, ... in order and version_count is its length; so
    get_version_count equals the length of get_version_history and entry k
    of the history (from 0) has version_number k + 1. *)
Theorem version_histories_stay_numbered :
  (∀ can_create disk_size fs,
     COWFileSystem_new BLOCK_SIZE MAX_FILES None can_create disk_size
     = Some fs →
     histories_numbered fs = true)
  ∧ (∀ fuel ops fs rs fs',
       histories_numbered fs = true →
       calls BLOCK_SIZE MAX_FILENAME_LENGTH fuel ops fs = Done (rs, fs') →
       histories_numbered fs' = true)
  ∧ (∀ fs fd,
       histories_numbered fs = true → history_numbered fs fd = true)
  ∧ (∀ fs fd entry ino inode,
       histories_numbered fs = true →
       valid_descriptor fs fd = Some entry →
       FileDescriptor.inode entry = Some ino →
       inodes fs !! ino = Some inode →
       get_version_count fs fd = Done (vsize (Inode.version_history inode))
       ∧ get_version_history fs fd = Done (Inode.version_history inode)
       ∧ ∀ k v, Inode.version_history inode !! k = Some v →
                VersionInfo.version_number v = N.of_nat (S k)).
Proof.
  split_and!.
  - intros can_create disk_size fs.
    unfold COWFileSystem_new, initialize_disk, histories_numbered.
    destruct can_create; [|done]. intros [= <-]. simpl.
    apply forallb_forall. intros x Hx.
    apply in_map_iff in Hx as (y & <- & Hy).
    apply list_elem_of_In, elem_of_replicate in Hy as [-> _]. done.
  - intros fuel ops. induction ops as [|op ops IH]; intros fs rs fs' Hn; simpl.
    + by intros [= <- <-].
    + unfold_bind.
      destruct (call _ _ _ op fs) as [[r fs1]| |] eqn:Hcall; try done.
      destruct (calls _ _ _ ops fs1) as [[rs' fs2]| |] eqn:Hcalls; try done.
      intros [= <- <-]. eapply IH; [|done]. by eapply call_numbered.
  - intros fs fd Hn. unfold history_numbered.
    destruct (file_descriptors fs !! Z.to_nat fd) as [entry|]; [|done].
    destruct (FileDescriptor.inode entry) as [ino|]; [|done].
    destruct (inodes fs !! ino) as [inode|] eqn:Hl; [|done].
    pose proof (forallb_lookup _ _ _ _ Hn Hl) as Hw.
    unfold well_numbered in Hw. by apply andb_true_iff in Hw as [H1 _].
  - intros fs fd entry ino inode Hn Hv Hi Hl.
    pose proof (forallb_lookup _ _ _ _ Hn Hl) as Hw.
    unfold get_version_count, get_version_history, inode_of, inode_at.
    rewrite Hv, Hi. unfold_bind. rewrite Hl. split_and!.
    + f_equal. unfold well_numbered in Hw.
      apply andb_true_iff in Hw as [_ H2]. by apply N.eqb_eq in H2.
    + done.
    + intros k v Hk. by destruct (well_numbered_lookup _ _ _ Hw Hk).
Qed.

End Numbering.

(** ** The free list between garbage collections *)

Lemma free_list_sound_spec (fs : COWFileSystem) :
  free_list_sound fs = true
  ↔ NoDup (free_cells (free_blocks_list fs))
    ∧ (∀ c, c ∈ free_cells (free_blocks_list fs) →
            c < vsize (blocks fs)
            ∧ Block.is_used (block_at (blocks fs) c) = false)
    ∧ ascending_coalesced (free_blocks_list fs) = true.
Proof.
  unfold free_list_sound.
  rewrite !andb_true_iff, free_list_ok_spec, forallb_forall. split.
  - intros [[[Hnd Hin] Ha] Hu]. split_and!; try done.
    intros c Hc. split; [by apply Hin|].
    apply negb_true_iff, Hu. by apply list_elem_of_In.
  - intros (Hnd & Hc & Ha). split_and!; try done.
    + intros c Hin. by apply Hc.
    + intros c Hin. apply negb_true_iff.
      by apply Hc, list_elem_of_In.
Qed.

Lemma free_list_sound_ext (fs fs' : COWFileSystem) :
  blocks fs' = blocks fs → free_blocks_list fs' = free_blocks_list fs →
  free_list_sound fs' = free_list_sound fs.
Proof.
  intros Hb Hf. unfold free_list_sound, free_list_ok. by rewrite Hb, Hf.
Qed.

(** The blocks change, no block comes into use, the free list stays. *)
Lemma free_list_sound_blocks (fs : COWFileSystem) (bs : list Block.t) :
  vsize bs = vsize (blocks fs) →
  (∀ c, Block.is_used (block_at bs c) = true →
        Block.is_used (block_at (blocks fs) c) = true) →
  free_list_sound fs = true → free_list_sound (set_blocks bs fs) = true.
Proof.
  intros Hsz Hu. rewrite !free_list_sound_spec. simpl.
  intros (Hnd & Hc & Ha). split_and!; try done.
  intros c Hin. destruct (Hc c Hin) as [H1 H2]. split; [by rewrite Hsz|].
  destruct (Block.is_used (block_at bs c)) eqn:E; [|done].
  apply Hu in E. congruence.
Qed.

Lemma block_upd_is_used (f : Block.t → Block.t) (bs : list Block.t) (i c : N) :
  (∀ b, Block.is_used (f b) = true → Block.is_used b = true) →
  Block.is_used (block_at (block_upd f bs i) c) = true →
  Block.is_used (block_at bs c) = true.
Proof.
  intros Hf. destruct (decide (i = c)) as [->|Hne].
  - destruct (decide (c < vsize bs)) as [Hin|Hout].
    + rewrite block_at_upd_eq by done. apply Hf.
    + unfold block_upd, block_at.
      rewrite list_insert_ge; [done|]. unfold vsize in Hout. lia.
  - by rewrite block_at_upd_ne.
Qed.

Lemma free_block_is_used (bs : list Block.t) (i c : N) :
  Block.is_used (block_at (free_block bs i) c) = true →
  Block.is_used (block_at bs c) = true.
Proof.
  unfold free_block. destruct (i <? vsize bs); [|done].
  apply block_upd_is_used. done.
Qed.

Lemma allocate_block_sound (fs fs' : COWFileSystem) (r : option N) :
  free_list_sound fs = true →
  allocate_block fs = Done (r, fs') →
  free_list_sound fs' = true
  ∧ ∀ b, r = Some b →
         b < vsize (blocks fs)
         ∧ Block.is_used (block_at (blocks fs) b) = false
         ∧ b ∈ free_cells (free_blocks_list fs)
         ∧ b ∉ free_cells (free_blocks_list fs').
Proof.
  intros Hs Ha. destruct r as [b|].
  2:{ unfold allocate_block in Ha.
      destruct (find_best_fit _ 1) as [pos|].
      - destruct (free_blocks_list fs !! pos); [|done].
        by destruct (_ <? vsize (blocks fs)).
      - injection Ha as <-. done. }
  destruct (allocate_block_Some _ _ _ Ha)
    as (l1 & l2 & Hc1 & Hc2 & Hin & Hbl & _ & _).
  apply free_list_sound_spec in Hs as (Hnd & Hc & Hasc).
  rewrite Hc1 in Hnd. apply NoDup_remove_middle in Hnd as [Hnd Hnotin].
  assert (Hb : b ∈ free_cells (free_blocks_list fs)).
  { rewrite Hc1. apply elem_of_app. right. left. }
  split.
  - apply free_list_sound_spec. rewrite Hc2. split_and!.
    + done.
    + intros c Hcin. assert (Hne : b ≠ c) by (by intros ->).
      destruct (Hc c) as [H1 H2].
      { rewrite Hc1. apply elem_of_app in Hcin as [?|?];
          apply elem_of_app; [by left|right; by right]. }
      rewrite Hbl, block_upd_vsize. split; [done|].
      by rewrite block_at_upd_ne.
    + unfold allocate_block in Ha.
      destruct (find_best_fit _ 1) as [pos|]; [|done].
      destruct (free_blocks_list fs !! pos) as [best|] eqn:Hl; [|done].
      destruct (_ <? vsize (blocks fs)); [|done].
      injection Ha as _ <-. simpl.
      destruct (1 <? FreeBlockInfo.block_count best) eqn:E1.
      * apply N.ltb_lt in E1.
        eapply ascending_coalesced_insert; try done; simpl; lia.
      * by apply ascending_coalesced_delete.
  - intros b' [= <-]. destruct (Hc b Hb) as [H1 H2].
    split_and!; try done. by rewrite Hc2.
Qed.

Lemma release_chain_is_used (fuel : nat) (bs bs' : list Block.t) (i : N) :
  release_chain fuel bs i = Done bs' →
  ∀ c, Block.is_used (block_at bs' c) = true →
       Block.is_used (block_at bs c) = true.
Proof.
  revert bs i. induction fuel as [|fuel IH]; intros bs i; simpl; [done|].
  destruct (negb (i =? 0) && (i <? vsize bs)); [|by intros [= <-]].
  intros H c Hc. eapply free_block_is_used. eapply IH; done.
Qed.

Lemma decrement_block_refs_is_used (fuel : nat) (bs bs' : list Block.t)
    (i : N) :
  decrement_block_refs fuel bs i = Done bs' →
  ∀ c, Block.is_used (block_at bs' c) = true →
       Block.is_used (block_at bs c) = true.
Proof.
  revert bs i. induction fuel as [|fuel IH]; intros bs i; simpl; [done|].
  destruct (negb (i =? 0) && (i <? vsize bs)); [|by intros [= <-]].
  destruct (0 <? Block.ref_count (block_at bs i)); [|apply IH].
  destruct (Block.ref_count (block_at (block_upd _ bs i) i) =? 0).
  - destruct (_ <? vsize (free_block _ i)); [|done].
    intros H c Hc. eapply IH in H; [|done].
    apply free_block_is_used in H.
    eapply block_upd_is_used; [|done]. done.
  - intros [= <-] c Hc. eapply block_upd_is_used; [|done]. done.
Qed.

Lemma rollback_scan_is_used (fuel : nat) (history : list VersionInfo.t)
    (version_number : N) (bs bs' : list Block.t)
    (kept_versions : list VersionInfo.t) :
  rollback_scan fuel history version_number bs = Done (kept_versions, bs') →
  ∀ c, Block.is_used (block_at bs' c) = true →
       Block.is_used (block_at bs c) = true.
Proof.
  revert bs kept_versions.
  induction history as [|v rest IH]; intros bs kv; simpl.
  - by intros [= <- <-].
  - destruct (VersionInfo.version_number v <=? version_number).
    + unfold_bind.
      destruct (rollback_scan fuel rest version_number bs) as [[k b]| |] eqn:Er;
        try done.
      intros [= <- <-]. by eapply IH.
    + unfold_bind.
      destruct (VersionInfo.block_index v <? vsize bs).
      * destruct (decrement_block_refs fuel bs _) as [bs1| |] eqn:Ed; try done.
        intros H c Hc. eapply decrement_block_refs_is_used; [done|].
        eapply IH; done.
      * apply IH.
Qed.

Section Sound.
Variables BLOCK_SIZE MAX_FILES MAX_FILENAME_LENGTH : N.

Lemma write_blocks_loop_sound (n fuel : nat) (fs fs' : COWFileSystem)
    (i first_block prev_block : N) (data : list byte) (remaining : N)
    (ok : bool) (first_block' prev_block' : N) :
  free_list_sound fs = true →
  write_blocks_loop BLOCK_SIZE n fuel fs i first_block prev_block data
    remaining
  = Done (ok, first_block', prev_block', fs') →
  free_list_sound fs' = true.
Proof.
  revert fs i first_block prev_block data remaining.
  induction n as [|n IH]; intros fs i fb pb data rem Hs; simpl.
  - by intros [= <- <- <- <-].
  - unfold_bind.
    destruct (allocate_block fs) as [[allocated fs1]| |] eqn:Ha; try done.
    destruct (allocate_block_sound _ _ _ Hs Ha) as [Hs1 _].
    destruct allocated as [cb|].
    + apply IH. apply free_list_sound_blocks; [| |done].
      * rewrite block_upd_vsize. destruct (i =? 0); [done|].
        apply block_upd_vsize.
      * intros c Hc. apply block_upd_is_used in Hc; [|done].
        destruct (i =? 0); [done|]. by apply block_upd_is_used in Hc.
    + destruct (negb (fb =? 0)).
      * destruct (release_chain fuel (blocks fs1) fb) as [bs| |] eqn:Hr;
          try done.
        intros [= <- <- <- <-].
        apply free_list_sound_blocks; [|by eapply release_chain_is_used|done].
        by eapply release_chain_vsize.
      * intros [= <- <- <- <-]. by rewrite set_blocks_id.
Qed.

Lemma write_delta_blocks_sound (fuel : nat) (fs fs' : COWFileSystem)
    (buffer : list byte) (size delta_start : N) (ok : bool)
    (first_block : N) :
  free_list_sound fs = true →
  write_delta_blocks BLOCK_SIZE fuel fs buffer size delta_start
  = Done (ok, first_block, fs') →
  free_list_sound fs' = true.
Proof.
  intros Hs. unfold write_delta_blocks.
  destruct ((size =? 0) || (size <=? delta_start)); [by intros [= <- <- <-]|].
  unfold_bind.
  destruct (write_blocks_loop _ _ _ _ _ _ _ _ _)
    as [[[[ok' fb] pb] fs1]| |] eqn:Hw; try done.
  apply write_blocks_loop_sound in Hw; [|done].
  destruct ok'; [|by intros [= <- <- <-]].
  destruct (pb <? vsize (blocks fs1)); intros [= <- <- <-]; [|done].
  apply free_list_sound_blocks; [apply block_upd_vsize| |done].
  intros c Hc. by apply block_upd_is_used in Hc.
Qed.

Lemma call_sound (fuel : nat) (op : operation) (fs fs' : COWFileSystem)
    (r : reply) :
  is_garbage_collect op = false →
  free_list_sound fs = true →
  call BLOCK_SIZE MAX_FILENAME_LENGTH fuel op fs = Done (r, fs') →
  free_list_sound fs' = true.
Proof.
  intros Hop Hs.
  destruct op as [filename|filename mode|fd|fd size|fd buffer now|fd v|];
    simpl; try done.
  - destruct (create MAX_FILENAME_LENGTH fs filename) as [fd fs1] eqn:Hc.
    intros [= <- <-].
    apply create_cases in Hc as [(-> & -> & _)|Hc]; [done|].
    destruct Hc as (i & old & _ & _ & _ & _ & _ & Hc).
    destruct Hc as [(-> & _ & ->)|(_ & _ & ->)];
      by rewrite (free_list_sound_ext fs).
  - destruct (open fs filename mode) as [fd fs1] eqn:Ho. intros [= <- <-].
    unfold open in Ho. destruct (find_inode fs filename); [|by simplify_eq].
    destruct (_ <? 0)%Z; simplify_eq; [done|].
    by rewrite (free_list_sound_ext fs).
  - destruct (close fs fd) as [c fs1] eqn:Hc. intros [= <- <-].
    unfold close in Hc. destruct (valid_descriptor fs fd); simplify_eq;
      [|done].
    by rewrite (free_list_sound_ext fs).
  - unfold_bind.
    destruct (read BLOCK_SIZE fs fd size) as [[[c b] fs1]| |] eqn:Hr; try done.
    intros [= <- <-]. apply read_tables in Hr as (_ & Hb & Hf & _).
    by rewrite (free_list_sound_ext fs).
  - unfold_bind.
    destruct (write BLOCK_SIZE fuel fs fd buffer now) as [[c fs1]| |] eqn:Hw;
      try done.
    intros [= <- <-].
    apply write_cases in Hw as [(_ & _ & _ & _ & Hfs)|[(_ & -> & _)|Hw]];
      try done.
    + destruct Hfs as [->|Hfs]; [done|].
      destruct Hfs as (bytes & entry & inode & ds & dsz & fb & _ & _ & _ & Hwd).
      by eapply write_delta_blocks_sound.
    + destruct Hw as (entry & ino & inode & bytes & _ & _ & _ & _ & _ & _ & _
                      & [->|Hw]).
      * by rewrite (free_list_sound_ext fs).
      * destruct Hw as (fb & ds & dsz & fs3 & bs & _ & _ & Hwd & Hinc & ->).
        apply write_delta_blocks_sound in Hwd; [|done].
        apply increment_block_refs_payload in Hinc as [Hsz Hpay].
        rewrite (free_list_sound_ext (set_blocks bs fs3)); try done.
        apply free_list_sound_blocks; try done.
        intros j Hj. by rewrite <- (proj1 (Hpay j)).
  - unfold_bind.
    destruct (rollback_to_version fuel fs fd v) as [[c fs1]| |] eqn:Hr;
      try done.
    intros [= <- <-].
    apply rollback_cases in Hr as [(_ & ->)|Hr]; [done|].
    destruct Hr as (entry & ino & inode & target & bs & _ & Hv & Hi & Hl & Hv0
                    & Hvle & _ & Hsz & Hscan & ->).
    rewrite (free_list_sound_ext (set_blocks bs fs)); try done.
    apply free_list_sound_blocks; try done.
    by eapply rollback_scan_is_used.
Qed.

Lemma NoDup_cells_from (s : N) (n : nat) : NoDup (cells_from s n).
Proof.
  revert s. induction n as [|n IH]; intros s; simpl; [apply NoDup_nil_2|].
  apply list.NoDup_cons. split; [|apply IH].
  rewrite elem_of_cells_from. lia.
Qed.

Lemma block_at_all_unused (bs : list Block.t) (c : N) :
  (∀ b, b ∈ bs → Block.is_used b = false) →
  Block.is_used (block_at bs c) = false.
Proof.
  intros H. unfold block_at. destruct (bs !! N.to_nat c) as [b|] eqn:E; [|done].
  simpl. apply H. by eapply list_elem_of_lookup_2.
Qed.

Lemma new_sound (can_create : bool) (disk_size : N) (fs : COWFileSystem) :
  COWFileSystem_new BLOCK_SIZE MAX_FILES None can_create disk_size = Some fs →
  free_list_sound fs = true.
Proof.
  unfold COWFileSystem_new, initialize_disk, init_file_system. simpl.
  destruct can_create; [|done]. intros [= <-].
  apply free_list_sound_spec. simpl.
  change (add_to_free_list [] 0 (disk_size / BLOCK_SIZE))
    with [FreeBlockInfo.mk 0 (disk_size / BLOCK_SIZE)].
  rewrite free_cells_cons. change (free_cells []) with (@nil N).
  rewrite app_nil_r. unfold run_cells. simpl. split_and!.
  - apply NoDup_cells_from.
  - intros c Hc. apply elem_of_cells_from in Hc. split.
    + unfold vsize. rewrite length_map, length_replicate. lia.
    + apply block_at_all_unused. intros b Hb.
      apply list_elem_of_In, in_map_iff in Hb as (x & <- & _). done.
  - done.
Qed.

(** X25.  On a newly created disk, and from then on under any sequence of
    calls without garbage_collect, the free list stays sound: its blocks lie
    inside the block array, none is listed twice, none is in use, and the
    runs are strictly ascending and coalesced. On a sound free list
    allocate_block only hands out a block that was in the list and not in
    use, removes it from the list and keeps the list sound: no block is
    handed out twice. *)
Theorem allocator_hands_out_free_blocks_only :
  (∀ can_create disk_size fs,
     COWFileSystem_new BLOCK_SIZE MAX_FILES None can_create disk_size
     = Some fs →
     free_list_sound fs = true)
  ∧ (∀ fuel ops fs rs fs',
       existsb is_garbage_collect ops = false →
       free_list_sound fs = true →
       calls BLOCK_SIZE MAX_FILENAME_LENGTH fuel ops fs = Done (rs, fs') →
       free_list_sound fs' = true)
  ∧ (∀ fs r fs',
       free_list_sound fs = true →
       allocate_block fs = Done (r, fs') →
       free_list_sound fs' = true
       ∧ ∀ b, r = Some b →
              b < vsize (blocks fs)
              ∧ Block.is_used (block_at (blocks fs) b) = false
              ∧ b ∈ free_cells (free_blocks_list fs)
              ∧ b ∉ free_cells (free_blocks_list fs'))
  ∧ (∀ fs, free_list_sound fs = true → free_list_ok fs = true).
Proof.
  split_and!.
  - apply new_sound.
  - intros fuel ops. induction ops as [|op ops IH]; intros fs rs fs' Hg Hs;
      simpl.
    + by intros [= <- <-].
    + simpl in Hg. apply orb_false_iff in Hg as [Hg1 Hg2].
      unfold_bind.
      destruct (call _ _ _ op fs) as [[r fs1]| |] eqn:Hcall; try done.
      destruct (calls _ _ _ ops fs1) as [[rs' fs2]| |] eqn:Hcalls; try done.
      intros [= <- <-]. eapply IH; [done| |done]. by eapply call_sound.
  - intros fs r fs'. apply allocate_block_sound.
  - intros fs. unfold free_list_sound. rewrite !andb_true_iff. tauto.
Qed.

End Sound.

(** ** Garbage collection *)

Lemma used_at_insert (block_used : list bool) (i j : N) :
  used_at (<[N.to_nat i := true]> block_used) j = true →
  used_at block_used j = true ∨ j = i.
Proof.
  unfold used_at. destruct (decide (i = j)) as [->|Hne]; [by right|].
  rewrite list_lookup_insert_ne by lia. by left.
Qed.

Lemma mark_chain_marks (fuel : nat) (bs : list Block.t)
    (block_used block_used' : list bool) (current_block : N) :
  mark_chain fuel bs block_used current_block = Done block_used' →
  length block_used' = length block_used
  ∧ ∀ i, used_at block_used' i = true →
         used_at block_used i = true
         ∨ (i ≠ 0 ∧ i < vsize bs ∧ 0 < Block.ref_count (block_at bs i)).
Proof.
  revert block_used current_block.
  induction fuel as [|fuel IH]; intros bu cur; simpl; [done|].
  destruct (negb (cur =? 0) && (cur <? vsize bs)) eqn:Eg;
    [|intros [= <-]; split; [done|by left]].
  apply andb_true_iff in Eg as [E0 Ein].
  apply negb_true_iff, N.eqb_neq in E0. apply N.ltb_lt in Ein.
  intros H. apply IH in H as [Hlen Hm].
  destruct (0 <? Block.ref_count (block_at bs cur)) eqn:Er.
  - apply N.ltb_lt in Er. rewrite length_insert in Hlen. split; [done|].
    intros i Hi. destruct (Hm i Hi) as [Hu|Hu]; [|by right].
    apply used_at_insert in Hu as [Hu| ->]; [by left|by right].
  - done.
Qed.

Lemma mark_versions_marks (fuel : nat) (bs : list Block.t)
    (block_used block_used' : list bool) (history : list VersionInfo.t) :
  mark_versions fuel bs block_used history = Done block_used' →
  length block_used' = length block_used
  ∧ ∀ i, used_at block_used' i = true →
         used_at block_used i = true
         ∨ (i ≠ 0 ∧ i < vsize bs ∧ 0 < Block.ref_count (block_at bs i)).
Proof.
  revert block_used. induction history as [|v rest IH]; intros bu; simpl.
  - intros [= <-]. split; [done|by left].
  - unfold_bind.
    destruct (mark_chain fuel bs bu _) as [bu1| |] eqn:Hc; try done.
    apply mark_chain_marks in Hc as [Hl1 Hm1].
    intros H. apply IH in H as [Hl2 Hm2]. split; [congruence|].
    intros i Hi. destruct (Hm2 i Hi) as [Hu|Hu]; [|by right]. by apply Hm1.
Qed.

Lemma mark_inodes_marks (fuel : nat) (bs : list Block.t)
    (block_used block_used' : list bool) (ins : list Inode.t) :
  mark_inodes fuel bs block_used ins = Done block_used' →
  length block_used' = length block_used
  ∧ ∀ i, used_at block_used' i = true →
         used_at block_used i = true
         ∨ (i ≠ 0 ∧ i < vsize bs ∧ 0 < Block.ref_count (block_at bs i)).
Proof.
  revert block_used. induction ins as [|inode rest IH]; intros bu; simpl.
  - intros [= <-]. split; [done|by left].
  - unfold_bind.
    destruct (Inode.is_used inode).
    + destruct (mark_versions fuel bs bu _) as [bu1| |] eqn:Hc; try done.
      apply mark_versions_marks in Hc as [Hl1 Hm1].
      intros H. apply IH in H as [Hl2 Hm2]. split; [congruence|].
      intros i Hi. destruct (Hm2 i Hi) as [Hu|Hu]; [|by right]. by apply Hm1.
    + apply IH.
Qed.

Lemma used_at_replicate (n : nat) (i : N) :
  used_at (replicate n false) i = false.
Proof.
  unfold used_at. destruct (replicate n false !! N.to_nat i) as [b|] eqn:E;
    [|done].
  apply lookup_replicate in E as [-> _]. done.
Qed.

Lemma filter_all {A : Type} (f : A → bool) (l : list A) :
  (∀ x, x ∈ l → f x = true) → List.filter f l = l.
Proof.
  induction l as [|x l IH]; intros H; simpl; [done|].
  rewrite (H x) by left. f_equal. apply IH. intros y Hy. apply H. by right.
Qed.

Section Sweep.
Variable BLOCK_SIZE : N.

Lemma sweep_run_spec (steps : nat) (block_used : list bool)
    (bs : list Block.t) (start count : N) :
  (N.to_nat (vsize bs) - N.to_nat (start + count) ≤ steps)%nat →
  ∃ bs' count',
    sweep_run BLOCK_SIZE steps block_used bs start count = (bs', count')
    ∧ count ≤ count'
    ∧ vsize bs' = vsize bs
    ∧ start + count' ≤ N.max (vsize bs) (start + count)
    ∧ (∀ i, start + count ≤ i < start + count' →
            used_at block_used i = false
            ∧ block_at bs' i = cleared BLOCK_SIZE (block_at bs i))
    ∧ (∀ i, ¬ (start + count ≤ i < start + count') →
            block_at bs' i = block_at bs i)
    ∧ (start + count' < vsize bs → used_at block_used (start + count') = true).
Proof.
  revert bs count. induction steps as [|steps IH]; intros bs count Hsteps.
  - exists bs, count. simpl. split_and!; try done; try lia.
  - simpl.
    destruct ((start + count <? vsize bs)
              && negb (used_at block_used (start + count))) eqn:Eg.
    + apply andb_true_iff in Eg as [Ein Eu].
      apply N.ltb_lt in Ein. apply negb_true_iff in Eu.
      set (bs1 := block_upd
                    (λ b, Block.mk false 0 0
                            (memset (Block.data b) 0 "000"%byte BLOCK_SIZE))
                    bs (start + count)).
      assert (Hsz : vsize bs1 = vsize bs) by apply block_upd_vsize.
      destruct (IH bs1 (count + 1)) as (bs' & count' & Hrun & Hc & Hsz' & Hmax
                                        & Hin & Hout & Hstop).
      { rewrite Hsz. lia. }
      exists bs', count'. rewrite Hrun. rewrite Hsz in *.
      split_and!; try done; try lia.
      * intros i Hi. destruct (decide (i = start + count)) as [->|Hne].
        -- split; [done|]. rewrite Hout by lia. unfold bs1.
           by rewrite block_at_upd_eq.
        -- destruct (Hin i) as [H1 H2]; [lia|]. split; [done|].
           rewrite H2. unfold bs1. by rewrite block_at_upd_ne.
      * intros i Hi. rewrite Hout by lia. unfold bs1.
        rewrite block_at_upd_ne; [done|]. lia.
    + exists bs, count. split_and!; try done; try lia.
      intros Hlt. apply andb_false_iff in Eg as [Eg|Eg].
      * apply N.ltb_ge in Eg. lia.
      * by apply negb_false_iff in Eg.
Qed.

Lemma unmarked_cons_marked (block_used : list bool) (start : N) (n : nat) :
  used_at block_used start = true →
  unmarked block_used start (S n) = unmarked block_used (start + 1) n.
Proof. intros H. unfold unmarked. simpl. by rewrite H. Qed.

Lemma unmarked_run (block_used : list bool) (start : N) (count n : nat) :
  (∀ i, start ≤ i < start + N.of_nat count → used_at block_used i = false) →
  unmarked block_used start (count + n)
  = cells_from start count
    ++ unmarked block_used (start + N.of_nat count) n.
Proof.
  intros H. unfold unmarked. rewrite cells_from_app, List.filter_app.
  f_equal. apply filter_all. intros x Hx.
  apply elem_of_cells_from in Hx. apply negb_true_iff. by apply H.
Qed.

Lemma sweep_spec (steps : nat) (block_used : list bool) (fs : COWFileSystem)
    (start : N) :
  (N.to_nat (vsize (blocks fs)) - N.to_nat start ≤ steps)%nat →
  vsize (blocks (sweep BLOCK_SIZE steps block_used fs start))
  = vsize (blocks fs)
  ∧ (∀ i, i < start →
          block_at (blocks (sweep BLOCK_SIZE steps block_used fs start)) i
          = block_at (blocks fs) i)
  ∧ (∀ i, start ≤ i < vsize (blocks fs) →
          block_at (blocks (sweep BLOCK_SIZE steps block_used fs start)) i
          = if used_at block_used i then block_at (blocks fs) i
            else cleared BLOCK_SIZE (block_at (blocks fs) i))
  ∧ free_cells
      (free_blocks_list (sweep BLOCK_SIZE steps block_used fs start))
    ≡ₚ free_cells (free_blocks_list fs)
       ++ unmarked block_used start
            (N.to_nat (vsize (blocks fs)) - N.to_nat start).
Proof.
  revert fs start. induction steps as [|steps IH]; intros fs start Hsteps.
  - simpl. replace (N.to_nat (vsize (blocks fs)) - N.to_nat start)%nat
      with 0%nat by lia.
    unfold unmarked. simpl. rewrite app_nil_r.
    split_and!; try done. intros i Hi. lia.
  - simpl. destruct (start <? vsize (blocks fs)) eqn:Es;
      [apply N.ltb_lt in Es|apply N.ltb_ge in Es].
    2:{ replace (N.to_nat (vsize (blocks fs)) - N.to_nat start)%nat
          with 0%nat by lia.
        unfold unmarked. simpl. rewrite app_nil_r.
        split_and!; try done. intros i Hi. lia. }
    destruct (negb (used_at block_used start)) eqn:Eu;
      [apply negb_true_iff in Eu|apply negb_false_iff in Eu].
    + destruct (sweep_run_spec (length (blocks fs)) block_used (blocks fs)
                  start 0)
        as (bs1 & count & Hrun & _ & Hsz & Hmax & Hin & Hout & Hstop).
      { unfold vsize. lia. }
      rewrite Hrun. rewrite N.add_0_r in *.
      assert (Hcount : 0 < count).
      { destruct (decide (count = 0)) as [->|]; [|lia].
        rewrite N.add_0_r in Hstop. specialize (Hstop Es). congruence. }
      replace (0 <? count) with true by (symmetry; by apply N.ltb_lt).
      set (fs1 := set_blocks bs1
                    (set_free_blocks_list
                       (add_to_free_list (free_blocks_list fs) start count)
                       fs)).
      destruct (IH fs1 (start + count + 1)) as (H1 & H2 & H3 & H4).
      { simpl. rewrite Hsz. lia. }
      simpl in H1, H2, H3, H4. rewrite Hsz in *.
      split_and!.
      * done.
      * intros i Hi. rewrite H2 by lia. apply Hout. lia.
      * intros i Hi.
        destruct (decide (i < start + count)) as [Hlt|Hge].
        -- rewrite H2 by lia. destruct (Hin i) as [-> ->]; [lia|]. done.
        -- destruct (decide (i = start + count)) as [->|Hne].
           ++ rewrite H2 by lia. rewrite Hstop by lia. apply Hout. lia.
           ++ rewrite H3 by lia. rewrite Hout by lia. done.
      * rewrite H4, add_to_free_list_cells.
        replace (N.to_nat (vsize (blocks fs)) - N.to_nat start)%nat
          with (N.to_nat count
                + (N.to_nat (vsize (blocks fs)) - N.to_nat start
                   - N.to_nat count))%nat by lia.
        rewrite unmarked_run by (intros i Hi; apply Hin; lia).
        rewrite N2Nat.id.
        assert (Hrest : unmarked block_used (start + count)
                          (N.to_nat (vsize (blocks fs)) - N.to_nat start
                           - N.to_nat count)
                        = unmarked block_used (start + count + 1)
                            (N.to_nat (vsize (blocks fs))
                             - N.to_nat (start + count + 1))).
        { destruct (decide (start + count < vsize (blocks fs))) as [Hlt|Hge].
          - replace (N.to_nat (vsize (blocks fs)) - N.to_nat start
                     - N.to_nat count)%nat
              with (S (N.to_nat (vsize (blocks fs))
                       - N.to_nat (start + count + 1))) by lia.
            by rewrite unmarked_cons_marked by (by apply Hstop).
          - replace (N.to_nat (vsize (blocks fs)) - N.to_nat start
                     - N.to_nat count)%nat with 0%nat by lia.
            by replace (N.to_nat (vsize (blocks fs))
                        - N.to_nat (start + count + 1))%nat with 0%nat by lia. }
        rewrite Hrest.
        rewrite (Permutation_app_comm (cells_from start (N.to_nat count))).
        by rewrite <- app_assoc.
    + destruct (IH fs (start + 1)) as (H1 & H2 & H3 & H4); [lia|].
      split_and!.
      * done.
      * intros i Hi. apply H2. lia.
      * intros i Hi. destruct (decide (i = start)) as [->|Hne].
        -- rewrite Eu. apply H2. lia.
        -- apply H3. lia.
      * rewrite H4.
        replace (N.to_nat (vsize (blocks fs)) - N.to_nat start)%nat
          with (S (N.to_nat (vsize (blocks fs)) - N.to_nat (start + 1)))
          by lia.
        by rewrite unmarked_cons_marked.
Qed.

(** X26.  When its marking walk terminates, garbage_collect terminates and
    leaves descriptors, inodes and the number of blocks as they were. Only
    blocks other than 0, inside the array and with ref_count > 0 are ever
    marked. Every marked block is left untouched and every unmarked block is
    cleared (unused, next_block 0, ref_count 0, data zeroed); the free list
    gains exactly the unmarked blocks, on top of the blocks it already held,
    and ends coalesced. *)
Theorem garbage_collect_sweeps_unmarked (fuel : nat) (fs : COWFileSystem)
    (block_used : list bool) :
  mark_inodes fuel (blocks fs) (replicate (length (blocks fs)) false)
    (inodes fs) = Done block_used →
  ∃ fs',
    garbage_collect BLOCK_SIZE fuel fs = Done fs'
    ∧ file_descriptors fs' = file_descriptors fs
    ∧ inodes fs' = inodes fs
    ∧ vsize (blocks fs') = vsize (blocks fs)
    ∧ (∀ i, used_at block_used i = true →
            i ≠ 0 ∧ i < vsize (blocks fs)
            ∧ 0 < Block.ref_count (block_at (blocks fs) i))
    ∧ (∀ i, i < vsize (blocks fs) →
            block_at (blocks fs') i
            = if used_at block_used i then block_at (blocks fs) i
              else cleared BLOCK_SIZE (block_at (blocks fs) i))
    ∧ free_cells (free_blocks_list fs')
      ≡ₚ free_cells (free_blocks_list fs)
         ++ unmarked block_used 0 (length (blocks fs))
    ∧ coalesced (free_blocks_list fs') = true.
Proof.
  intros Hm. unfold garbage_collect. unfold_bind. rewrite Hm.
  eexists. split; [done|]. simpl.
  pose proof (sweep_tables BLOCK_SIZE (length (blocks fs)) block_used fs 0)
    as [Ht1 Ht2].
  destruct (sweep_spec (length (blocks fs)) block_used fs 0)
    as (H1 & H2 & H3 & H4); [unfold vsize; lia|].
  apply mark_inodes_marks in Hm as [_ Hmarks].
  split_and!; try done.
  - intros i Hi. destruct (Hmarks i Hi) as [Hu|Hu]; [|done].
    by rewrite used_at_replicate in Hu.
  - intros i Hi. apply H3. lia.
  - rewrite merge_free_blocks_cells, H4.
    replace (N.to_nat (vsize (blocks fs)) - N.to_nat 0)%nat
      with (length (blocks fs)) by (unfold vsize; lia).
    done.
  - apply merge_free_blocks_coalesced.
Qed.

Lemma garbage_collect_inv (fuel : nat) (fs fs' : COWFileSystem) :
  garbage_collect BLOCK_SIZE fuel fs = Done fs' →
  ∃ block_used,
    mark_inodes fuel (blocks fs) (replicate (length (blocks fs)) false)
      (inodes fs) = Done block_used
    ∧ file_descriptors fs' = file_descriptors fs
    ∧ inodes fs' = inodes fs
    ∧ vsize (blocks fs') = vsize (blocks fs)
    ∧ (∀ i, used_at block_used i = true →
            i ≠ 0 ∧ i < vsize (blocks fs)
            ∧ 0 < Block.ref_count (block_at (blocks fs) i))
    ∧ (∀ i, i < vsize (blocks fs) →
            block_at (blocks fs') i
            = if used_at block_used i then block_at (blocks fs) i
              else cleared BLOCK_SIZE (block_at (blocks fs) i))
    ∧ free_cells (free_blocks_list fs')
      ≡ₚ free_cells (free_blocks_list fs)
         ++ unmarked block_used 0 (length (blocks fs)).
Proof.
  unfold garbage_collect. unfold_bind.
  destruct (mark_inodes _ _ _ _) as [block_used| |] eqn:Hm; try done.
  intros [= <-]. exists block_used. split; [done|]. simpl.
  pose proof (sweep_tables BLOCK_SIZE (length (blocks fs)) block_used fs 0)
    as [Ht1 Ht2].
  destruct (sweep_spec (length (blocks fs)) block_used fs 0)
    as (H1 & H2 & H3 & H4); [unfold vsize; lia|].
  apply mark_inodes_marks in Hm as [_ Hmarks].
  split_and!; try done.
  - intros i Hi. destruct (Hmarks i Hi) as [Hu|Hu]; [|done].
    by rewrite used_at_replicate in Hu.
  - intros i Hi. apply H3. lia.
  - rewrite merge_free_blocks_cells, H4.
    replace (N.to_nat (vsize (blocks fs)) - N.to_nat 0)%nat
      with (length (blocks fs)) by (unfold vsize; lia).
    done.
Qed.

(** X27.  On a disk with at least one block, a garbage_collect that runs to
    completion always clears block 0 and puts it on the free list, and it
    clears and frees every block whose ref_count is 0, whether a file uses
    it or not. Afterwards a read through any descriptor on a non-empty file
    whose first block is block 0 returns -1. *)
Theorem garbage_collect_clears_block_zero (fuel : nat)
    (fs fs' : COWFileSystem) :
  garbage_collect BLOCK_SIZE fuel fs = Done fs' →
  0 < vsize (blocks fs) →
  block_at (blocks fs') 0 = cleared BLOCK_SIZE (block_at (blocks fs) 0)
  ∧ 0 ∈ free_cells (free_blocks_list fs')
  ∧ (∀ i, i < vsize (blocks fs) →
          Block.ref_count (block_at (blocks fs) i) = 0 →
          block_at (blocks fs') i = cleared BLOCK_SIZE (block_at (blocks fs) i)
          ∧ i ∈ free_cells (free_blocks_list fs'))
  ∧ (∀ fd entry ino inode size,
       valid_descriptor fs fd = Some entry →
       FileDescriptor.inode entry = Some ino →
       inodes fs !! ino = Some inode →
       Inode.first_block inode = 0 →
       Inode.size inode ≠ 0 →
       read BLOCK_SIZE fs' fd size = Done ((-1)%Z, [], fs')).
Proof.
  intros Hg Hpos.
  apply garbage_collect_inv in Hg
    as (block_used & _ & Hfd & Hino & Hsz & Hmarks & Hblocks & Hcells).
  assert (Hun : ∀ i, i < vsize (blocks fs) →
                     used_at block_used i = false →
                     block_at (blocks fs') i
                     = cleared BLOCK_SIZE (block_at (blocks fs) i)
                     ∧ i ∈ free_cells (free_blocks_list fs')).
  { intros i Hi Hu. split.
    - rewrite Hblocks by done. by rewrite Hu.
    - rewrite Hcells. apply elem_of_app. right. unfold unmarked.
      apply list_elem_of_In, filter_In. split.
      + apply list_elem_of_In, elem_of_cells_from. unfold vsize in Hi. lia.
      + by rewrite Hu. }
  assert (H0 : used_at block_used 0 = false).
  { destruct (used_at block_used 0) eqn:E; [|done].
    by destruct (Hmarks 0 E). }
  destruct (Hun 0 Hpos H0) as [Hz1 Hz2].
  split_and!; try done.
  - intros i Hi Hr. apply Hun; [done|].
    destruct (used_at block_used i) eqn:E; [|done].
    destruct (Hmarks i E) as (_ & _ & ?). lia.
  - intros fd entry ino inode size Hv Hi Hl Hfb Hs.
    unfold read.
    replace (valid_descriptor fs' fd) with (Some entry)
      by (unfold valid_descriptor in *; by rewrite Hfd).
    rewrite Hi. unfold_bind. unfold inode_at. rewrite Hino, Hl.
    apply N.eqb_neq in Hs. rewrite Hs, Hfb, Hz1. simpl.
    by rewrite orb_true_r.
Qed.

End Sweep.

(** ** [write] and the cursor *)

Lemma allocate_block_fds (fds : list FileDescriptor.t) (fs : COWFileSystem) :
  allocate_block (set_file_descriptors fds fs)
  = on_state (set_file_descriptors fds) (allocate_block fs).
Proof.
  unfold allocate_block. simpl.
  destruct (find_best_fit (free_blocks_list fs) 1) as [pos|]; [|done].
  destruct (free_blocks_list fs !! pos) as [b|]; [|done].
  by destruct (_ <? vsize (blocks fs)).
Qed.

Section Cursor.
Variable BLOCK_SIZE : N.

Lemma write_blocks_loop_fds (fds : list FileDescriptor.t) (n fuel : nat)
    (fs : COWFileSystem) (i first_block prev_block : N) (data : list byte)
    (remaining : N) :
  write_blocks_loop BLOCK_SIZE n fuel (set_file_descriptors fds fs) i
    first_block prev_block data remaining
  = on_state (set_file_descriptors fds)
      (write_blocks_loop BLOCK_SIZE n fuel fs i first_block prev_block data
         remaining).
Proof.
  revert fs i first_block prev_block data remaining.
  induction n as [|n IH]; intros fs i fb pb data rem; simpl; [done|].
  rewrite allocate_block_fds. unfold_bind.
  destruct (allocate_block fs) as [[allocated fs1]| |]; try done. simpl.
  destruct allocated as [cb|].
  - apply (IH (set_blocks _ fs1)).
  - destruct (negb (fb =? 0)); [|done].
    by destruct (release_chain fuel (blocks fs1) fb).
Qed.

Lemma write_delta_blocks_fds (fds : list FileDescriptor.t) (fuel : nat)
    (fs : COWFileSystem) (buffer : list byte) (size delta_start : N) :
  write_delta_blocks BLOCK_SIZE fuel (set_file_descriptors fds fs) buffer
    size delta_start
  = on_state (set_file_descriptors fds)
      (write_delta_blocks BLOCK_SIZE fuel fs buffer size delta_start).
Proof.
  unfold write_delta_blocks.
  destruct ((size =? 0) || (size <=? delta_start)); [done|].
  rewrite write_blocks_loop_fds. unfold_bind.
  destruct (write_blocks_loop _ _ _ _ _ _ _ _ _)
    as [[[[ok fb] pb] fs1]| |]; try done. simpl.
  destruct ok; [|done]. by destruct (pb <? vsize (blocks fs1)).
Qed.

Lemma detect_delta_cursor (fs : COWFileSystem) (fd : Z)
    (entry : FileDescriptor.t) (inode : Inode.t) (buffer : list byte)
    (p : N) :
  valid_descriptor fs fd = Some entry →
  detect_delta BLOCK_SIZE
    (set_descriptor fd (FileDescriptor.set_current_position p entry) fs) fd
    (FileDescriptor.set_current_position p entry) inode buffer
  = on_state
      (set_descriptor fd (FileDescriptor.set_current_position p entry))
      (detect_delta BLOCK_SIZE fs fd entry inode buffer).
Proof.
  intros Hv.
  pose proof (valid_descriptor_Some _ _ _ Hv) as (Hfd & Hl & Hvalid).
  assert (Hvp : valid_descriptor
                  (set_descriptor fd
                     (FileDescriptor.set_current_position p entry) fs) fd
                = Some (FileDescriptor.set_current_position p entry)).
  { by apply (valid_descriptor_set _ _ entry). }
  destruct (detect_delta BLOCK_SIZE fs fd entry inode buffer)
    as [[d fs2]| |] eqn:H1;
  destruct (detect_delta BLOCK_SIZE
              (set_descriptor fd
                 (FileDescriptor.set_current_position p entry) fs) fd
              (FileDescriptor.set_current_position p entry) inode buffer)
    as [[d' fs2']| |] eqn:H2; simpl.
  all: try (pose proof (detect_delta_restores _ _ _ _ _ _ _ _ Hv H1) as ->).
  all: try (pose proof (detect_delta_restores _ _ _ _ _ _ _ _ Hvp H2) as ->).
  all: unfold detect_delta in H1, H2.
  all: rewrite set_descriptor_twice, set_current_position_twice in H2.
  all: destruct (Inode.version_count inode =? 0); [by simplify_eq|].
  all: destruct (0 <? Inode.size inode); [|by simplify_eq].
  all: unfold_bind.
  all: destruct (read _ _ _ _) as [[[r bytes] fs1]| |]; try done.
  all: destruct (negb _); by simplify_eq.
Qed.

(** X28.  The cursor of the descriptor has no effect on a write of a non-
    empty buffer: with the cursor set to any position p beforehand, write
    returns the same value and, when that value is not negative, ends in the
    same state; when it is -1, the end states differ only in that cursor,
    which write did not touch. *)
Theorem write_ignores_the_cursor (fuel : nat) (fs : COWFileSystem) (fd : Z)
    (entry : FileDescriptor.t) (bytes : list byte) (now : string) (p : N) :
  valid_descriptor fs fd = Some entry →
  bytes ≠ [] →
  write BLOCK_SIZE fuel
    (set_descriptor fd (FileDescriptor.set_current_position p entry) fs)
    fd (Some bytes) now
  = match write BLOCK_SIZE fuel fs fd (Some bytes) now with
    | Done (r, fs') =>
        Done (r,
              if (r <? 0)%Z
              then set_descriptor fd
                     (FileDescriptor.set_current_position p entry) fs'
              else fs')
    | Undefined => Undefined
    | OutOfFuel => OutOfFuel
    end.
Proof.
  intros Hv Hne.
  pose proof (valid_descriptor_Some _ _ _ Hv) as (Hfd & Hl & Hvalid).
  assert (Hsz : (vsize bytes =? 0) = false).
  { apply N.eqb_neq. destruct bytes; [done|]. unfold vsize. simpl. lia. }
  assert (Hpos : (Z.of_N (vsize bytes) <? 0)%Z = false)
    by (apply Z.ltb_ge; lia).
  unfold write.
  rewrite (valid_descriptor_set _ _ entry) by done. rewrite Hv. simpl.
  destruct (FileMode_eqb (FileDescriptor.mode entry) WRITE); simpl; [|done].
  destruct (FileDescriptor.inode entry) as [ino|]; [|done].
  rewrite Hsz. unfold_bind. unfold inode_at. simpl.
  destruct (inodes fs !! ino) as [inode|]; [|done].
  rewrite detect_delta_cursor by done.
  destruct (detect_delta BLOCK_SIZE fs fd entry inode bytes)
    as [[delta fs2]| |] eqn:Hd; try done. simpl.
  pose proof (detect_delta_restores _ _ _ _ _ _ _ _ Hv Hd) as ->.
  destruct delta as [[ds dsz]|]; [|done].
  rewrite list_lookup_insert_eq by (by eapply lookup_lt_Some).
  rewrite Hl. simpl.
  destruct (dsz =? 0).
  { rewrite Hpos. by rewrite set_descriptor_twice, set_current_position_twice. }
  unfold commit_version. unfold_bind.
  unfold set_descriptor at 1.
  rewrite write_delta_blocks_fds.
  destruct (write_delta_blocks BLOCK_SIZE fuel fs bytes (vsize bytes) ds)
    as [[[ok fb] fs3]| |] eqn:Hw; try done. simpl.
  pose proof (write_delta_blocks_tables _ _ _ _ _ _ _ _ _ Hw) as [Hfds Hins].
  destruct ok; simpl.
  2:{ unfold set_descriptor. by rewrite Hfds. }
  destruct (increment_block_refs fuel (blocks fs3) fb) as [bs| |]; try done.
  rewrite Hpos.
  rewrite list_lookup_insert_eq by (by eapply lookup_lt_Some).
  rewrite Hfds, Hl. simpl. rewrite set_current_position_twice.
  unfold set_descriptor, set_inode, set_blocks, set_file_descriptors. simpl.
  by rewrite list_insert_insert_eq, Hfds.
Qed.

End Cursor.

(** ** Where free blocks come from *)

Lemma allocate_block_cells (fs fs' : COWFileSystem) (r : option N) :
  allocate_block fs = Done (r, fs') →
  ∀ c, c ∈ free_cells (free_blocks_list fs') →
       c ∈ free_cells (free_blocks_list fs).
Proof.
  intros Ha. destruct r as [b|].
  - destruct (allocate_block_Some _ _ _ Ha) as (l1 & l2 & -> & -> & _).
    intros c Hc. apply elem_of_app in Hc as [?|?]; apply elem_of_app;
      [by left|right; by right].
  - unfold allocate_block in Ha.
    destruct (find_best_fit _ 1) as [pos|].
    + destruct (free_blocks_list fs !! pos); [|done].
      by destruct (_ <? vsize (blocks fs)).
    + by injection Ha as <-.
Qed.

Section Reclaim.
Variables BLOCK_SIZE MAX_FILES MAX_FILENAME_LENGTH : N.

Lemma write_blocks_loop_cells (n fuel : nat) (fs fs' : COWFileSystem)
    (i first_block prev_block : N) (data : list byte) (remaining : N)
    (ok : bool) (first_block' prev_block' : N) :
  write_blocks_loop BLOCK_SIZE n fuel fs i first_block prev_block data
    remaining
  = Done (ok, first_block', prev_block', fs') →
  ∀ c, c ∈ free_cells (free_blocks_list fs') →
       c ∈ free_cells (free_blocks_list fs).
Proof.
  revert fs i first_block prev_block data remaining.
  induction n as [|n IH]; intros fs i fb pb data rem; simpl.
  - by intros [= <- <- <- <-].
  - unfold_bind.
    destruct (allocate_block fs) as [[allocated fs1]| |] eqn:Ha; try done.
    pose proof (allocate_block_cells _ _ _ Ha) as Hc.
    destruct allocated as [cb|].
    + intros H c Hin. apply Hc. by apply (IH _ _ _ _ _ _ H).
    + destruct (negb (fb =? 0)).
      * destruct (release_chain fuel (blocks fs1) fb) as [bs| |]; try done.
        by intros [= <- <- <- <-].
      * by intros [= <- <- <- <-].
Qed.

Lemma write_delta_blocks_cells (fuel : nat) (fs fs' : COWFileSystem)
    (buffer : list byte) (size delta_start : N) (ok : bool)
    (first_block : N) :
  write_delta_blocks BLOCK_SIZE fuel fs buffer size delta_start
  = Done (ok, first_block, fs') →
  ∀ c, c ∈ free_cells (free_blocks_list fs') →
       c ∈ free_cells (free_blocks_list fs).
Proof.
  unfold write_delta_blocks.
  destruct ((size =? 0) || (size <=? delta_start)); [by intros [= <- <- <-]|].
  unfold_bind.
  destruct (write_blocks_loop _ _ _ _ _ _ _ _ _)
    as [[[[ok' fb] pb] fs1]| |] eqn:Hw; try done.
  pose proof (write_blocks_loop_cells _ _ _ _ _ _ _ _ _ _ _ _ Hw) as Hc.
  destruct ok'; [|by intros [= <- <- <-]].
  by destruct (pb <? vsize (blocks fs1)); intros [= <- <- <-].
Qed.

(** X29.  No call other than garbage_collect adds a block to the free list:
    after create, open, close, read, write or rollback_to_version every
    block of the free list was in it before. All of them except write leave
    the free list exactly as it was; in particular rollback_to_version,
    which releases blocks, does not return them to the free list. *)
Theorem free_blocks_return_only_by_garbage_collect (fuel : nat)
    (op : operation) (fs fs' : COWFileSystem) (r : reply) :
  is_garbage_collect op = false →
  call BLOCK_SIZE MAX_FILENAME_LENGTH fuel op fs = Done (r, fs') →
  (∀ c, c ∈ free_cells (free_blocks_list fs') →
        c ∈ free_cells (free_blocks_list fs))
  ∧ (match op with
     | Write _ _ _ => True
     | _ => free_blocks_list fs' = free_blocks_list fs
     end).
Proof.
  intros Hop.
  destruct op as [filename|filename mode|fd|fd size|fd buffer now|fd v|];
    simpl; try done.
  - destruct (create MAX_FILENAME_LENGTH fs filename) as [fd fs1] eqn:Hc.
    intros [= <- <-].
    apply create_cases in Hc as [(-> & -> & _)|Hc]; [done|].
    destruct Hc as (i & old & _ & _ & _ & _ & _ & Hc).
    by destruct Hc as [(-> & _ & ->)|(_ & _ & ->)].
  - destruct (open fs filename mode) as [fd fs1] eqn:Ho. intros [= <- <-].
    unfold open in Ho. destruct (find_inode fs filename); [|by simplify_eq].
    destruct (_ <? 0)%Z; by simplify_eq.
  - destruct (close fs fd) as [c fs1] eqn:Hc. intros [= <- <-].
    unfold close in Hc. destruct (valid_descriptor fs fd); by simplify_eq.
  - unfold_bind.
    destruct (read BLOCK_SIZE fs fd size) as [[[c b] fs1]| |] eqn:Hr; try done.
    intros [= <- <-]. apply read_tables in Hr as (_ & _ & -> & _). done.
  - unfold_bind.
    destruct (write BLOCK_SIZE fuel fs fd buffer now) as [[c fs1]| |] eqn:Hw;
      try done.
    intros [= <- <-]. split; [|done].
    apply write_cases in Hw as [(_ & _ & _ & _ & Hfs)|[(_ & -> & _)|Hw]];
      try done.
    + destruct Hfs as [->|Hfs]; [done|].
      destruct Hfs as (bytes & entry & inode & ds & dsz & fb & _ & _ & _ & Hwd).
      by eapply write_delta_blocks_cells.
    + destruct Hw as (entry & ino & inode & bytes & _ & _ & _ & _ & _ & _ & _
                      & [->|Hw]); [done|].
      destruct Hw as (fb & ds & dsz & fs3 & bs & _ & _ & Hwd & Hinc & ->).
      simpl. by eapply write_delta_blocks_cells.
  - unfold_bind.
    destruct (rollback_to_version fuel fs fd v) as [[c fs1]| |] eqn:Hr;
      try done.
    intros [= <- <-].
    apply rollback_cases in Hr as [(_ & ->)|Hr]; [done|].
    destruct Hr as (entry & ino & inode & target & bs & _ & _ & _ & _ & _
                    & _ & _ & _ & Hscan & ->).
    done.
Qed.

End Reclaim.

(** ** A disk that is created anew *)

Lemma find_inode_from_unused (ins : list Inode.t) (pos : nat)
    (filename : string) :
  (∀ i, i ∈ ins → Inode.is_used i = false) →
  find_inode_from ins pos filename = None.
Proof.
  revert pos. induction ins as [|i ins IH]; intros pos H; [done|].
  simpl. rewrite (H i) by (apply elem_of_cons; by left). simpl.
  apply IH. intros j Hj. apply H. apply elem_of_cons; by right.
Qed.

Lemma filter_used_unused (ins : list Inode.t) :
  (∀ i, i ∈ ins → Inode.is_used i = false) →
  List.filter Inode.is_used ins = [].
Proof.
  induction ins as [|i ins IH]; intros H; [done|].
  simpl. rewrite (H i) by (apply elem_of_cons; by left).
  apply IH. intros j Hj. apply H. apply elem_of_cons; by right.
Qed.

Lemma fold_usage_unused (BLOCK_SIZE : N) (bs : list Block.t) (acc : N) :
  (∀ b, b ∈ bs → Block.is_used b = false) →
  fold_left (λ total b, if Block.is_used b then total + BLOCK_SIZE else total)
    bs acc = acc.
Proof.
  revert acc. induction bs as [|b bs IH]; intros acc H; [done|].
  simpl. rewrite (H b) by (apply elem_of_cons; by left).
  apply IH. intros j Hj. apply H. apply elem_of_cons; by right.
Qed.

Lemma map_replicate {A B : Type} (f : A → B) (n : nat) (x : A) :
  map f (replicate n x) = replicate n (f x).
Proof. induction n as [|n IH]; [done|]. simpl. by rewrite IH. Qed.

Section NewDisk.
Variables BLOCK_SIZE MAX_FILES : N.

(** X30.  With no image file at the path, the constructor throws exactly
    when the file cannot be created. Otherwise the new file system has no
    file (list_files is empty and no name can be opened), no valid
    descriptor, memory usage 0, disk_size / BLOCK_SIZE blocks that are all
    unused and zeroed, and a free list of one run that covers them all. *)
Theorem new_disk_is_empty (can_create : bool) (disk_size : N) :
  match COWFileSystem_new BLOCK_SIZE MAX_FILES None can_create disk_size with
  | None => can_create = false
  | Some fs =>
      can_create = true
      ∧ list_files fs = (true, [])
      ∧ get_total_memory_usage BLOCK_SIZE fs = 0
      ∧ free_blocks_list fs = [FreeBlockInfo.mk 0 (disk_size / BLOCK_SIZE)]
      ∧ vsize (blocks fs) = disk_size / BLOCK_SIZE
      ∧ (∀ i, block_at (blocks fs) i = fresh_block BLOCK_SIZE
              ∨ vsize (blocks fs) ≤ i)
      ∧ (∀ fd, valid_descriptor fs fd = None)
      ∧ (∀ filename mode, open fs filename mode = ((-1)%Z, fs))
  end.
Proof.
  unfold COWFileSystem_new, initialize_disk, init_file_system. simpl.
  destruct can_create; [|done].
  set (fs := set_blocks _ _).
  assert (∀ i, i ∈ inodes fs → Inode.is_used i = false) as Hin.
  { intros i Hi. simpl in Hi. apply list_elem_of_In, in_map_iff in Hi.
    by destruct Hi as (j & <- & _). }
  assert (blocks fs
          = replicate (N.to_nat (disk_size / BLOCK_SIZE))
              (fresh_block BLOCK_SIZE)) as Hbs.
  { simpl. rewrite map_replicate. f_equal.
    unfold fresh_block, memset, empty_block_data. simpl.
    rewrite drop_ge by (rewrite length_replicate; lia).
    by rewrite app_nil_r. }
  split_and!.
  - done.
  - unfold list_files. by rewrite filter_used_unused.
  - unfold get_total_memory_usage. apply fold_usage_unused.
    intros b Hb. rewrite Hbs in Hb. by apply elem_of_replicate in Hb as [-> _].
  - done.
  - rewrite Hbs. unfold vsize. rewrite length_replicate. lia.
  - intros i. rewrite Hbs. unfold vsize, block_at.
    rewrite length_replicate.
    destruct (decide (N.to_nat i < N.to_nat (disk_size / BLOCK_SIZE))%nat)
      as [Hlt|Hge].
    + left. by rewrite lookup_replicate_2.
    + right. lia.
  - intros fd. unfold valid_descriptor.
    destruct (_ || _); [done|]. simpl.
    destruct (replicate _ _ !! Z.to_nat fd) as [entry|] eqn:E; [|done].
    by apply lookup_replicate in E as [-> _].
  - intros filename mode. unfold open, find_inode.
    by rewrite find_inode_from_unused.
Qed.

End NewDisk.

(** ** The further properties on the seed scenarios *)

Local Open Scope string_scope.


(** Descriptor 1 of the seed scenario was never handed out. *)
Lemma invalid_descriptor_is_rejected_witness :
  read Seed.BLOCK_SIZE (Seed.after 4 Seed.hello) 1 5
  = Done ((-1)%Z, [], Seed.after 4 Seed.hello)
  ∧ close (Seed.after 4 Seed.hello) 1 = ((-1)%Z, Seed.after 4 Seed.hello).
Proof.
  destruct (invalid_descriptor_is_rejected Seed.BLOCK_SIZE Seed.fuel
              (Seed.after 4 Seed.hello) 1) as (Hr & _ & Hc & _).
  - right. right. eexists. split; vm_compute; reflexivity.
  - split; [apply Hr|apply Hc].
Defined.

(** The file of the seed scenario outlives two writes and a rollback. *)
Lemma files_are_never_removed_witness :
  find_inode (Seed.after 4 Seed.grow_and_rollback) "a" = Some 0%nat.
Proof.
  destruct (files_are_never_removed Seed.BLOCK_SIZE Seed.MAX_FILENAME_LENGTH
              Seed.fuel
              [Write 0 (Seed.bytes "x") Seed.stamp1;
               Write 0 Seed.two_block_payload Seed.stamp2; Rollback 0 1]
              (Seed.after 4 Seed.created)
              (Seed.after 4 Seed.grow_and_rollback)
              [Returned 1; Returned 4097; ReturnedBool true]) as [H _].
  - vm_compute; reflexivity.
  - apply H. vm_compute; reflexivity.
Defined.

(** Of the runs of 5, 2, 3 and 2 cells, the first of 2 is the best fit for
    2. *)
Lemma find_best_fit_takes_smallest_fit_witness :
  ∃ r,
    [FreeBlockInfo.mk 0 5; FreeBlockInfo.mk 10 2; FreeBlockInfo.mk 20 3;
     FreeBlockInfo.mk 30 2] !! 1%nat = Some r
    ∧ 2 ≤ FreeBlockInfo.block_count r.
Proof.
  destruct (find_best_fit_takes_smallest_fit
              [FreeBlockInfo.mk 0 5; FreeBlockInfo.mk 10 2;
               FreeBlockInfo.mk 20 3; FreeBlockInfo.mk 30 2] 2)
    as (r & Hr & Hfit & _).
  - vm_compute; reflexivity.
  - lia.
  - exists r. split; [exact Hr|exact Hfit].
Defined.

(** After the first write of the seed scenario the free list is the run of
    blocks 1 to 3; the next block handed out is block 1. *)
Lemma allocate_block_takes_smallest_run_witness :
  ∃ fs',
    allocate_block (Seed.after 4 Seed.hello) = Done (Some 1, fs')
    ∧ Block.is_used (block_at (blocks fs') 1) = true.
Proof.
  destruct (allocate_block_takes_smallest_run (Seed.after 4 Seed.hello))
    as [_ H]; [vm_compute; reflexivity|].
  destruct H as (pos & r & Hr & _ & _ & _ & H); [vm_compute; discriminate|].
  assert (r = FreeBlockInfo.mk 1 3) as ->.
  { change (free_blocks_list (Seed.after 4 Seed.hello))
      with [FreeBlockInfo.mk 1 3] in Hr.
    destruct pos as [|pos]; simpl in Hr.
    - injection Hr as <-. reflexivity.
    - destruct pos; discriminate Hr. }
  destruct H as (fs' & Ha & Hb & _); [vm_compute; reflexivity|].
  exists fs'. split; [exact Ha|]. simpl in Hb. rewrite Hb. reflexivity.
Defined.

(** Two cells taken off the front of a run of five. *)
Lemma split_free_block_keeps_cells_witness :
  free_cells
    [FreeBlockInfo.mk 0 2; FreeBlockInfo.mk 2 3; FreeBlockInfo.mk 10 2]
  = free_cells [FreeBlockInfo.mk 0 5; FreeBlockInfo.mk 10 2].
Proof.
  apply (split_free_block_keeps_cells
           [FreeBlockInfo.mk 0 5; FreeBlockInfo.mk 10 2]
           [FreeBlockInfo.mk 0 2; FreeBlockInfo.mk 2 3; FreeBlockInfo.mk 10 2]
           (Some 0%nat) 2 true).
  vm_compute; reflexivity.
Defined.

(** Releasing the chain of three from its head. *)
Lemma decrement_block_refs_frees_last_reference_witness :
  ∃ bs',
    decrement_block_refs Seed.fuel Seed.chain_of_three 1 = Done bs'
    ∧ vsize bs' = vsize Seed.chain_of_three
    ∧ block_at bs' 1
      = Block.mk false 0 0 (Block.data (block_at Seed.chain_of_three 1)).
Proof.
  eexists. split; [vm_compute; reflexivity|].
  destruct (decrement_block_refs_frees_last_reference Seed.fuel
              Seed.chain_of_three _ 1 eq_refl) as (Hsize & _ & _).
  split; [exact Hsize|]. vm_compute; reflexivity.
Defined.

(** Counting one more reference on the chain of three. *)
Lemma increment_block_refs_counts_chain_witness :
  ∃ bs',
    increment_block_refs Seed.fuel Seed.chain_of_three 1 = Done bs'
    ∧ Block.ref_count (block_at bs' 3) = 2
    ∧ block_at bs' 0 = block_at Seed.chain_of_three 0.
Proof.
  destruct (increment_block_refs_counts_chain Seed.fuel Seed.chain_of_three
              [1; 2; 3] 0) as (bs' & H & _ & Hin & Hout).
  - simpl. repeat split; try discriminate; vm_compute; reflexivity.
  - left. reflexivity.
  - apply (bool_decide_unpack _). vm_compute. exact I.
  - simpl. unfold Seed.fuel. lia.
  - exists bs'. split; [exact H|]. split.
    + rewrite (Hin 3); [vm_compute; reflexivity|].
      apply (bool_decide_unpack _). vm_compute. exact I.
    + apply Hout. apply (bool_decide_unpack _). vm_compute. exact I.
Defined.


(** The same read returns the 4097 bytes written, from both blocks. *)
Lemma read_returns_stored_slice_witness :
  read Seed.BLOCK_SIZE (Seed.after 4 Seed.two_blocks_opened) 1 5000
  = Done (4097%Z, replicate 4097 "y"%byte,
          set_descriptor 1 (FileDescriptor.mk (Some 0%nat) READ 4097 true)
            (Seed.after 4 Seed.two_blocks_opened)).
Proof.
  etransitivity.
  - eapply (read_returns_stored_slice Seed.BLOCK_SIZE eq_refl
              (Seed.after 4 Seed.two_blocks_opened) 1 5000
              (FileDescriptor.mk (Some 0%nat) READ 0 true) 0
              (Inode.mk true "a" 0 4097 1
                 [VersionInfo.mk 1 Seed.stamp1 4097 0 0 4097 0])
              [0; 1] (replicate 4097 "y"%byte)).
    + vm_compute; reflexivity.
    + reflexivity.
    + vm_compute; reflexivity.
    + unfold chain_stores. repeat split; vm_compute; reflexivity.
    + reflexivity.
    + vm_compute; reflexivity.
    + vm_compute; reflexivity.
    + vm_compute. discriminate.
  - vm_compute; reflexivity.
Defined.

(** The first write of the seed scenario. *)
Lemma write_is_all_or_nothing_witness :
  vsize (blocks (Seed.after 4 Seed.hello))
  = vsize (blocks (Seed.after 4 Seed.created))
  ∧ (is_Some (valid_descriptor (Seed.after 4 Seed.hello) 0)
     ↔ is_Some (valid_descriptor (Seed.after 4 Seed.created) 0)).
Proof.
  destruct (write_is_all_or_nothing Seed.BLOCK_SIZE Seed.fuel
              (Seed.after 4 Seed.created) (Seed.after 4 Seed.hello) 0
              (Seed.bytes "hello") Seed.stamp1 5)
    as (_ & _ & _ & _ & Hb & _ & Hv).
  - vm_compute; reflexivity.
  - split; [exact Hb|exact Hv].
Defined.

(** The second write of the seed scenario adds version 2. *)
Lemma write_appends_one_version_witness :
  ∃ entry ino inode inode',
    valid_descriptor (Seed.after 4 Seed.hello) 0 = Some entry
    ∧ FileDescriptor.inode entry = Some ino
    ∧ inodes (Seed.after 4 Seed.hello) !! ino = Some inode
    ∧ inodes (Seed.after 4 Seed.hello_help) !! ino = Some inode'
    ∧ get_version_count (Seed.after 4 Seed.hello_help) 0
      = Done (Inode.version_count inode').
Proof.
  destruct (write_appends_one_version Seed.BLOCK_SIZE Seed.fuel
              (Seed.after 4 Seed.hello) (Seed.after 4 Seed.hello_help) 0
              (list_byte_of_string "help!") Seed.stamp2)
    as (entry & ino & inode & inode' & Hv & _ & Hi & Hin & Hin' & Hv' & _ & _
        & _ & _ & Hget).
  - discriminate.
  - vm_compute; reflexivity.
  - exists entry, ino, inode, inode'.
    split; [exact Hv|]. split; [exact Hi|]. split; [exact Hin|].
    split; [exact Hin'|].
    destruct (Hget 0%Z _ Hv') as (_ & Hcount & _); [|exact Hcount].
    destruct entry. exact Hi.
Defined.

(** A second file on a disk of one block that the first file fills. *)
Lemma write_on_full_disk_witness :
  write Seed.BLOCK_SIZE Seed.fuel
    (Seed.after 1 (Seed.hello ++ [Create "b"])) 1 (Seed.bytes "x")
    Seed.stamp2
  = Done ((-1)%Z, Seed.after 1 (Seed.hello ++ [Create "b"])).
Proof.
  eapply (proj2 (write_on_full_disk Seed.BLOCK_SIZE eq_refl
                   (Seed.after 1 (Seed.hello ++ [Create "b"])) eq_refl)
            Seed.fuel 1%Z (FileDescriptor.mk (Some 1%nat) WRITE 0 true)
            1%nat (Inode.mk true "b" 0 0 0 []) (list_byte_of_string "x")
            Seed.stamp2).
  - vm_compute; reflexivity.
  - reflexivity.
  - reflexivity.
  - vm_compute; reflexivity.
  - left. reflexivity.
  - discriminate.
Defined.

(** The seed scenario uses one block of its four. *)
Lemma memory_usage_is_bounded_witness :
  get_total_memory_usage Seed.BLOCK_SIZE (Seed.after 4 Seed.hello)
  ≤ 4 * Seed.BLOCK_SIZE.
Proof.
  apply (memory_usage_is_bounded Seed.BLOCK_SIZE Seed.MAX_FILES
           Seed.MAX_FILENAME_LENGTH None true (4 * Seed.BLOCK_SIZE) Seed.fuel
           Seed.hello (Seed.after 4 []) (Seed.after 4 Seed.hello)
           [Returned 0; Returned 5]).
  - vm_compute; reflexivity.
  - vm_compute; reflexivity.
Defined.

(** Collecting after the rollback of the seed scenario. *)
Lemma garbage_collect_sweeps_unmarked_witness :
  ∃ fs',
    garbage_collect Seed.BLOCK_SIZE Seed.fuel
      (Seed.after 4 Seed.grow_and_rollback) = Done fs'
    ∧ inodes fs' = inodes (Seed.after 4 Seed.grow_and_rollback)
    ∧ coalesced (free_blocks_list fs') = true.
Proof.
  edestruct (garbage_collect_sweeps_unmarked Seed.BLOCK_SIZE Seed.fuel
               (Seed.after 4 Seed.grow_and_rollback))
    as (fs' & H & _ & Hi & _ & _ & _ & _ & Hc).
  - vm_compute; reflexivity.
  - exists fs'. split; [exact H|]. split; [exact Hi|exact Hc].
Defined.

(** Collecting after the first write of the seed scenario: the file loses
    its only block. *)
Lemma garbage_collect_clears_block_zero_witness :
  0 ∈ free_cells
        (free_blocks_list (Seed.after 4 (Seed.hello ++ [GarbageCollect])))
  ∧ read Seed.BLOCK_SIZE (Seed.after 4 (Seed.hello ++ [GarbageCollect])) 0 5
    = Done ((-1)%Z, [], Seed.after 4 (Seed.hello ++ [GarbageCollect])).
Proof.
  destruct (garbage_collect_clears_block_zero Seed.BLOCK_SIZE Seed.fuel
              (Seed.after 4 Seed.hello)
              (Seed.after 4 (Seed.hello ++ [GarbageCollect])))
    as (_ & Hfree & _ & Hread).
  - vm_compute; reflexivity.
  - vm_compute; reflexivity.
  - split; [exact Hfree|].
    apply (Hread 0%Z (FileDescriptor.mk (Some 0%nat) WRITE 5 true) 0%nat
             (Inode.mk true "a" 0 5 1
                [VersionInfo.mk 1 Seed.stamp1 5 0 0 5 0]));
      try (vm_compute; reflexivity).
    discriminate.
Defined.

(** The second write of the seed scenario, with the cursor moved to 2
    first. *)
Lemma write_ignores_the_cursor_witness :
  write Seed.BLOCK_SIZE Seed.fuel
    (set_descriptor 0 (FileDescriptor.mk (Some 0%nat) WRITE 2 true)
       (Seed.after 4 Seed.hello))
    0 (Seed.bytes "help!") Seed.stamp2
  = Done (5%Z, Seed.after 4 Seed.hello_help).
Proof.
  etransitivity.
  - apply (write_ignores_the_cursor Seed.BLOCK_SIZE Seed.fuel
             (Seed.after 4 Seed.hello) 0
             (FileDescriptor.mk (Some 0%nat) WRITE 5 true)
             (list_byte_of_string "help!") Seed.stamp2 2).
    + vm_compute; reflexivity.
    + discriminate.
  - vm_compute; reflexivity.
Defined.

(** The rollback of the seed scenario releases two blocks and leaves the
    free list as it was. *)
Lemma free_blocks_return_only_by_garbage_collect_witness :
  free_blocks_list (Seed.after 4 Seed.grow_and_rollback)
  = free_blocks_list
      (Seed.after 4
         [Create "a"; Write 0 (Seed.bytes "x") Seed.stamp1;
          Write 0 Seed.two_block_payload Seed.stamp2]).
Proof.
  apply (free_blocks_return_only_by_garbage_collect Seed.BLOCK_SIZE
           Seed.MAX_FILENAME_LENGTH Seed.fuel (Rollback 0 1)
           (Seed.after 4
              [Create "a"; Write 0 (Seed.bytes "x") Seed.stamp1;
               Write 0 Seed.two_block_payload Seed.stamp2])
           (Seed.after 4 Seed.grow_and_rollback) (ReturnedBool true)).
  - reflexivity.
  - vm_compute; reflexivity.
Defined.
